(** * tna-js clustering engine: a shallow embedding of [src/analysis/cluster.ts]

    The embedding follows the TypeScript source function by function.

    Conventions.
    - A JavaScript [number] that holds an index, a length or a counter is a
      [Z]; the sentinel [-1] of the source is the integer [-1].
    - A JavaScript [number] that holds a distance or a score is a [num]:
      a rational, [Infinity], [-Infinity] or [NaN].  Addition,
      subtraction, multiplication and division are those of binary64: the
      exact result rounded to the nearest double, ties to even, with
      overflow to an infinity and gradual underflow ([round64]).  The
      sign of zero is not kept: the engine never divides by a computed
      zero, the only place where it would show.
    - [for (let i = 0; i < n; i++)] is a left fold over [range n].
    - A [while] loop carries fuel; running out of fuel is the outcome
      [Diverge], and the theorems show that it does not occur.
    - [Math.exp] and [Math.sqrt] are parameters of the functions that call
      them. *)

From Stdlib Require Import String Ascii DecimalString.
From Stdlib Require Import ZArith QArith Qabs Qminmax Qround Qpower Bool List.
From Stdlib Require Import Lia Lqa Permutation Sorted.
Import ListNotations.

Local Open Scope string_scope.
Local Open Scope list_scope.
Local Open Scope Z_scope.

(* ------------------------------------------------------------------ *)
(** * Numbers *)

Module Num.

Inductive num : Type :=
| Fin (q : Q)
| PInf
| NInf
| NaN.

Definition zero : num := Fin 0.
Definition one : num := Fin 1.

(** A counter or a length held in a number.  Counting by ones stops at
    [2^53], where [x + 1] rounds back to [x]; the sizes of arrays stay far
    below. *)
Definition ofZ (z : Z) : num := Fin (inject_Z (Z.max (- 2 ^ 53) (Z.min z (2 ^ 53)))).

Definition Qltb (a b : Q) : bool := negb (Qle_bool b a).

Definition nneg (x : num) : num :=
  match x with
  | Fin a => Fin (- a)
  | PInf => NInf
  | NInf => PInf
  | NaN => NaN
  end.

Definition pow2 (e : Z) : Q := (2 ^ e)%Q.

(** The nearest integer, the even one of two nearest. *)
Definition rne (x : Q) : Z :=
  let f := Qfloor x in
  match (x - inject_Z f ?= 1 # 2)%Q with
  | Lt => f
  | Gt => f + 1
  | Eq => if Z.even f then f else f + 1
  end.

(** [floor (log2 x)] for [x > 0]. *)
Definition ilog2 (x : Q) : Z :=
  let e0 := Z.log2 (Qnum x) - Z.log2 (Zpos (Qden x)) in
  if Qle_bool (pow2 e0) x then e0 else e0 - 1.

(** Exponent of the last place of the doubles next to [x > 0]: 52 places
    below the leading bit of [x], and [-1074] for the subnormal ones. *)
Definition ulpExp (x : Q) : Z := Z.max (ilog2 x) (-1022) - 52.

(** The double nearest to [x > 0], [Infinity] from [2^1024] on. *)
Definition roundPos (x : Q) : num :=
  let u := ulpExp x in
  let r := (inject_Z (rne (x / pow2 u)) * pow2 u)%Q in
  if Qle_bool (pow2 1024) r then PInf else Fin (Qred r).

(** Rounding of an exact result to binary64. *)
Definition round64 (x : Q) : num :=
  match (x ?= 0)%Q with
  | Eq => Fin 0
  | Gt => roundPos x
  | Lt => nneg (roundPos (- x))
  end.

Arguments round64 : simpl never.

Definition nadd (x y : num) : num :=
  match x, y with
  | Fin a, Fin b => round64 (a + b)
  | NaN, _ | _, NaN => NaN
  | PInf, NInf | NInf, PInf => NaN
  | PInf, _ | _, PInf => PInf
  | NInf, _ | _, NInf => NInf
  end.

Definition nsub (x y : num) : num :=
  match x, y with
  | Fin a, Fin b => round64 (a - b)
  | _, _ => nadd x (nneg y)
  end.

(** Sign of a finite factor that multiplies or divides an infinity. *)
Definition scaleInf (a : Q) (pos : bool) : num :=
  match Qcompare a 0 with
  | Gt => if pos then PInf else NInf
  | Lt => if pos then NInf else PInf
  | Eq => NaN
  end.

Definition nmul (x y : num) : num :=
  match x, y with
  | Fin a, Fin b => round64 (a * b)
  | NaN, _ | _, NaN => NaN
  | Fin a, PInf | PInf, Fin a => scaleInf a true
  | Fin a, NInf | NInf, Fin a => scaleInf a false
  | PInf, PInf | NInf, NInf => PInf
  | PInf, NInf | NInf, PInf => NInf
  end.

Definition ndiv (x y : num) : num :=
  match x, y with
  | Fin a, Fin b => if Qeq_bool b 0 then scaleInf a true else round64 (a / b)
  | NaN, _ | _, NaN => NaN
  | Fin _, _ => Fin 0
  | PInf, Fin b => if Qle_bool 0 b then PInf else NInf
  | NInf, Fin b => if Qle_bool 0 b then NInf else PInf
  | _, _ => NaN
  end.

(** [x < y]; every comparison with [NaN] is false. *)
Definition nlt (x y : num) : bool :=
  match x, y with
  | NaN, _ | _, NaN => false
  | Fin a, Fin b => Qltb a b
  | _, NInf => false
  | NInf, _ => true
  | PInf, _ => false
  | Fin _, PInf => true
  end.

Definition nle (x y : num) : bool :=
  match x, y with
  | NaN, _ | _, NaN => false
  | Fin a, Fin b => Qle_bool a b
  | NInf, _ => true
  | _, PInf => true
  | _, _ => false
  end.

Definition ngt (x y : num) : bool := nlt y x.
Definition nge (x y : num) : bool := nle y x.

(** [Math.nmin] and [Math.nmax] of two arguments. *)
Definition nmin (x y : num) : num :=
  match x, y with
  | NaN, _ | _, NaN => NaN
  | _, _ => if nlt y x then y else x
  end.

Definition nmax (x y : num) : num :=
  match x, y with
  | NaN, _ | _, NaN => NaN
  | _, _ => if nlt x y then y else x
  end.

Definition nabs (x : num) : num :=
  match x with
  | Fin a => Fin (Qabs a)
  | PInf | NInf => PInf
  | NaN => NaN
  end.

(** The rational held by a finite number ([0] for the others). *)
Definition val (x : num) : Q :=
  match x with Fin a => a | _ => 0%Q end.

Definition finite (x : num) : bool :=
  match x with Fin _ => true | _ => false end.

End Num.

Import Num.

(* ------------------------------------------------------------------ *)
(** * Loops, arrays and outcomes *)

(** The indices [0, 1, ..., n-1] of a counting loop (empty when [n <= 0]). *)
Definition range (n : Z) : list Z := map Z.of_nat (seq 0 (Z.to_nat n)).

(** [l[i]], with [d] standing for [undefined]. *)
Definition nthZ {A : Type} (l : list A) (i : Z) (d : A) : A :=
  if i <? 0 then d else nth (Z.to_nat i) l d.

(** [l[i] = v] for an index inside the array.  The engine never writes
    outside one (JavaScript would grow the array); such a write leaves the
    list as it is. *)
Fixpoint setNth {A : Type} (l : list A) (i : nat) (v : A) : list A :=
  match l, i with
  | [], _ => []
  | _ :: t, O => v :: t
  | x :: t, S i' => x :: setNth t i' v
  end.

Definition setZ {A : Type} (l : list A) (i : Z) (v : A) : list A :=
  if i <? 0 then l else setNth l (Z.to_nat i) v.

(** [arr.includes(c)] on an array of integers. *)
Definition includes (l : list Z) (c : Z) : bool := existsb (Z.eqb c) l.

Definition lengthZ {A : Type} (l : list A) : Z := Z.of_nat (length l).

Inductive error : Type :=
| Error (msg : string)
| TypeError (msg : string).

(** Outcome of a call: a value, a thrown exception, or a loop that used up
    its fuel. *)
Inductive result (A : Type) : Type :=
| Ok (a : A)
| Throw (e : error)
| Diverge.

Arguments Ok {A} a.
Arguments Throw {A} e.
Arguments Diverge {A}.

Definition bind {A B : Type} (r : result A) (f : A -> result B) : result B :=
  match r with
  | Ok a => f a
  | Throw e => Throw e
  | Diverge => Diverge
  end.

Notation "x <- r ;; k" := (bind r (fun x => k))
  (at level 61, r at next level, right associativity).

(** A fixed-size array that is read and written inside its bounds is a
    table; [upd] and [upd2] are the assignments [t[i] = v] and
    [t[i][j] = v]. *)
Definition upd {A : Type} (f : Z -> A) (i : Z) (v : A) : Z -> A :=
  fun i' => if i' =? i then v else f i'.

Definition upd2 {A : Type} (f : Z -> Z -> A) (i j : Z) (v : A) : Z -> Z -> A :=
  fun i' j' => if (i' =? i) && (j' =? j) then v else f i' j'.

(* ------------------------------------------------------------------ *)
(** * Matrix *)

Module Matrix.

(** Modelled from the spec: the class [Matrix] of [core/matrix.ts] is not
    among the sources.  The engine uses [Matrix.zeros(r, c)], [m.rows],
    [m.get(i, j)] and [m.set(i, j, v)] on a dense table of numbers; a read
    outside the table is [NaN] and a write outside it is dropped, as for the
    typed array behind it. *)
Record t : Type := mk {
  rows : Z;
  cols : Z;
  cell : Z -> Z -> num
}.

Definition inside (m : t) (i j : Z) : bool :=
  (0 <=? i) && (i <? rows m) && (0 <=? j) && (j <? cols m).

Definition zeros (r c : Z) : t := mk r c (fun _ _ => zero).

Definition get (m : t) (i j : Z) : num :=
  if inside m i j then cell m i j else NaN.

Definition set (m : t) (i j : Z) (v : num) : t :=
  if inside m i j
  then mk (rows m) (cols m)
          (fun i' j' => if (i' =? i) && (j' =? j) then v else cell m i' j')
  else m.

(** The [n] by [n] matrix that holds the finite entries [q i j]. *)
Definition ofTable (n : Z) (q : Z -> Z -> Q) : t :=
  mk n n (fun i j => Fin (q i j)).

End Matrix.

(* ------------------------------------------------------------------ *)
(** * PAM (Partitioning Around Medoids) *)

Module Pam.

Section WithMatrix.

Variable dist : Matrix.t.

Local Abbreviation n := (Matrix.rows dist).

(** [totalDists[i]]: the row sum accumulated by the first double loop. *)
Definition totalDists (i : Z) : num :=
  fold_left (fun acc j => nadd acc (Matrix.get dist i j)) (range n) (Fin 0).

(** First medoid: [bestIdx] starts at 0 and is replaced on [<=] while [i]
    runs from 1 to [n - 1]. *)
Definition firstMedoid : Z :=
  fold_left
    (fun bestIdx i => if nle (totalDists i) (totalDists bestIdx) then i else bestIdx)
    (tl (range n)) 0.

(** [gain] of a candidate [c] against the running [nearestDist]. *)
Definition gain (nearestDist : Z -> num) (c : Z) : num :=
  fold_left
    (fun g i => nadd g (nmax (Fin 0) (nsub (nearestDist i) (Matrix.get dist i c))))
    (range n) (Fin 0).

(** The scan over candidates of one build step: the pair
    [(bestGain, bestCandidate)], starting from [(-Infinity, -1)] and
    replaced on [>=]. *)
Definition selectCandidate (medoids : list Z) (nearestDist : Z -> num) : num * Z :=
  fold_left
    (fun best c =>
       if includes medoids c then best
       else
         let g := gain nearestDist c in
         if nge g (fst best) then (g, c) else best)
    (range n) (NInf, -1).

(** One pass of the loop [for (let m = 1; m < k; m++)]. *)
Definition buildStep (st : list Z * (Z -> num)) : list Z * (Z -> num) :=
  let (medoids, nearestDist) := st in
  let bestCandidate := snd (selectCandidate medoids nearestDist) in
  (medoids ++ [bestCandidate],
   fun i => nmin (nearestDist i) (Matrix.get dist i bestCandidate)).

Fixpoint buildLoop (steps : nat) (st : list Z * (Z -> num)) : list Z * (Z -> num) :=
  match steps with
  | O => st
  | S steps' => buildLoop steps' (buildStep st)
  end.

(** BUILD phase: the medoids after the first pick and [k - 1] further
    steps. *)
Definition build (k : Z) : list Z :=
  let m0 := firstMedoid in
  fst (buildLoop (Z.to_nat (k - 1)) ([m0], fun i => Matrix.get dist i m0)).

(** Total assignment cost of a medoid array: for every point the minimum,
    from [Infinity], of its distances to the medoids. *)
Definition assignCost (meds : list Z) : num :=
  fold_left
    (fun cost i =>
       nadd cost (fold_left (fun minD m => nmin minD (Matrix.get dist i m)) meds PInf))
    (range n) (Fin 0).

(** State of the search of one swap pass:
    [(bestChange, bestMIdx, bestSwap)]. *)
Definition swapTrial (medoidsArr : list Z) (currentCost : num)
    (mIdx : Z) (best : num * Z * Z) (c : Z) : num * Z * Z :=
  if includes medoidsArr c then best
  else
    let trial := setZ medoidsArr mIdx c in
    let trialCost := assignCost trial in
    let change := nsub trialCost currentCost in
    if nlt change (fst (fst best)) then (change, mIdx, c) else best.

Definition swapSearch (k : Z) (medoidsArr : list Z) : num * Z * Z :=
  let currentCost := assignCost medoidsArr in
  fold_left
    (fun best mIdx => fold_left (swapTrial medoidsArr currentCost mIdx) (range n) best)
    (range k) (Fin 0, -1, -1).

(** One pass of the swap loop: the new medoid array, or [None] on [break]. *)
Definition swapPass (k : Z) (medoidsArr : list Z) : option (list Z) :=
  let '(_, bestMIdx, bestSwap) := swapSearch k medoidsArr in
  if 0 <=? bestMIdx then Some (setZ medoidsArr bestMIdx bestSwap) else None.

(** The loop [for (let iter = 0; iter < 100; iter++)], run for at most
    [iters] passes.  The second component counts the passes that were
    started; it is not a variable of the source. *)
Fixpoint swapLoop (iters : nat) (k : Z) (medoidsArr : list Z) : list Z * nat :=
  match iters with
  | O => (medoidsArr, O)
  | S iters' =>
      match swapPass k medoidsArr with
      | Some medoidsArr' =>
          let (final, passes) := swapLoop iters' k medoidsArr' in (final, S passes)
      | None => (medoidsArr, 1%nat)
      end
  end.

Definition swapPhase (k : Z) (medoids : list Z) : list Z * nat :=
  swapLoop 100 k medoids.

(** [[...medoidsArr].sort((a, b) => a - b)]: ascending, stable. *)
Fixpoint insertSorted (x : Z) (l : list Z) : list Z :=
  match l with
  | [] => [x]
  | y :: t => if x <? y then x :: l else y :: insertSorted x t
  end.

Definition sortAscending (l : list Z) : list Z :=
  fold_right insertSorted [] l.

(** Nearest medoid slot of point [i]: [(minD, bestM)] from [(Infinity, 0)],
    replaced on strict [<]. *)
Definition nearestSlot (k : Z) (sortedMedoids : list Z) (i : Z) : num * Z :=
  fold_left
    (fun best m =>
       let d := Matrix.get dist i (nthZ sortedMedoids m (-1)) in
       if nlt d (fst best) then (d, m) else best)
    (range k) (PInf, 0).

Definition assign (k : Z) (sortedMedoids : list Z) : list Z :=
  map (fun i => snd (nearestSlot k sortedMedoids i) + 1) (range n).

Definition pam (k : Z) : list Z :=
  let medoids := build k in
  let medoidsArr := fst (swapPhase k medoids) in
  let sortedMedoids := sortAscending medoidsArr in
  assign k sortedMedoids.

End WithMatrix.

End Pam.

(* ------------------------------------------------------------------ *)
(** * Hierarchical clustering (Lance-Williams) *)

Module Hierarchical.

(** The mutable state of [hierarchical]: [clusters], the insertion-ordered
    set [active], [sizes] and the working distances [d].  The arrays are
    tables indexed by cluster id; only ids of [active] are ever read. *)
Record state : Type := mkState {
  clusters : Z -> list Z;
  active : list Z;
  sizes : Z -> Z;
  d : Z -> Z -> num
}.

Definition init (dist : Matrix.t) (method : string) : state :=
  let n := Matrix.rows dist in
  let d0 := fun i j => Matrix.get dist i j in
  mkState (fun i => [i]) (range n) (fun _ => 1)
          (if String.eqb method "ward.D2"
           then fun i j => nmul (d0 i j) (d0 i j)
           else d0).

(** The closest pair: [(bestDist, bestI, bestJ)] from [(Infinity, -1, -1)],
    replaced on strict [<], over the positions [a < b] of [activeArr]. *)
Fixpoint closestPair (d : Z -> Z -> num) (activeArr : list Z)
    (best : num * Z * Z) : num * Z * Z :=
  match activeArr with
  | [] => best
  | ci :: rest =>
      closestPair d rest
        (fold_left
           (fun best cj =>
              if nlt (d ci cj) (fst (fst best)) then (d ci cj, ci, cj) else best)
           rest best)
  end.

(** The [switch (method)] of the Lance-Williams update. *)
Definition lanceWilliams (method : string) (ni nj nk dik djk dij : num) : num :=
  if String.eqb method "single" then nmin dik djk
  else if String.eqb method "complete" then nmax dik djk
  else if String.eqb method "mcquitty" then ndiv (nadd dik djk) (Fin 2)
  else if String.eqb method "median" then
    nsub (ndiv (nadd dik djk) (Fin 2)) (ndiv dij (Fin 4))
  else if String.eqb method "centroid" then
    nsub (ndiv (nadd (nmul ni dik) (nmul nj djk)) (nadd ni nj))
         (ndiv (nmul (nmul ni nj) dij) (nmul (nadd ni nj) (nadd ni nj)))
  else if String.eqb method "ward.D" || String.eqb method "ward.D2" then
    ndiv (nsub (nadd (nmul (nadd ni nk) dik) (nmul (nadd nj nk) djk)) (nmul nk dij))
         (nadd (nadd ni nj) nk)
  else ndiv (nadd (nmul ni dik) (nmul nj djk)) (nadd ni nj).

(** The loop [for (const ck of active)] that rewrites row and column
    [bestI] of [d]. *)
Definition updateDistances (method : string) (st : state) (bestI bestJ : Z) :
    Z -> Z -> num :=
  let ni := ofZ (sizes st bestI) in
  let nj := ofZ (sizes st bestJ) in
  let dij := d st bestI bestJ in
  fold_left
    (fun d ck =>
       if (ck =? bestI) || (ck =? bestJ) then d
       else
         let nk := ofZ (sizes st ck) in
         let dik := d bestI ck in
         let djk := d bestJ ck in
         let newDist := lanceWilliams method ni nj nk dik djk dij in
         upd2 (upd2 d bestI ck newDist) ck bestI newDist)
    (active st) (d st).

(** [active.delete(x)]. *)
Definition delete (x : Z) (s : list Z) : list Z :=
  filter (fun y => negb (y =? x)) s.

(** One pass of the [while] loop.  When no pair is found [bestI] is [-1]
    and [d[bestI]![bestJ]] reads a property of [undefined]. *)
Definition mergeStep (method : string) (st : state) : result state :=
  let '(_, bestI, bestJ) := closestPair (d st) (active st) (PInf, -1, -1) in
  if bestI <? 0 then
    Throw (TypeError "Cannot read properties of undefined")
  else
    let d' := updateDistances method st bestI bestJ in
    Ok (mkState
          (upd (clusters st) bestI (clusters st bestI ++ clusters st bestJ))
          (delete bestJ (active st))
          (upd (sizes st) bestI (sizes st bestI + sizes st bestJ))
          d').

(** [while (active.size > k)].  The second component counts the merges; it
    is not a variable of the source. *)
Fixpoint mergeLoop (fuel : nat) (method : string) (k : Z) (st : state) :
    result (state * nat) :=
  if lengthZ (active st) >? k then
    match fuel with
    | O => Diverge
    | S fuel' =>
        st' <- mergeStep method st ;;
        r <- mergeLoop fuel' method k st' ;;
        Ok (fst r, S (snd r))
    end
  else Ok (st, O).

(** The labelling loop: [clusterIdx] counts the clusters of [active] from 1
    and every member of a cluster receives it. *)
Definition label (n : Z) (st : state) : list Z :=
  fst
    (fold_left
       (fun acc ci =>
          let (assignments, clusterIdx) := (acc : list Z * Z) in
          (fold_left (fun a point => setZ a point clusterIdx) (clusters st ci) assignments,
           clusterIdx + 1))
       (active st) (map (fun _ => 0) (range n), 1)).

(** Every pass of the loop removes one id of [active], so [n + 1] passes
    are enough fuel. *)
Definition run (dist : Matrix.t) (k : Z) (method : string) : result (state * nat) :=
  mergeLoop (S (Z.to_nat (Matrix.rows dist))) method k (init dist method).

Definition hierarchical (dist : Matrix.t) (k : Z) (method : string) : result (list Z) :=
  r <- run dist k method ;;
  Ok (label (Matrix.rows dist) (fst r)).

End Hierarchical.

(* ------------------------------------------------------------------ *)
(** * Silhouette *)

Module Silhouette.

(** [[...new Set(labels)]]: the distinct labels in order of first
    occurrence. *)
Fixpoint uniq (seen : list Z) (l : list Z) : list Z :=
  match l with
  | [] => []
  | x :: t => if includes seen x then uniq seen t else x :: uniq (x :: seen) t
  end.

Section WithLabels.

Variable dist : Matrix.t.
Variable labels : list Z.

Local Abbreviation n := (lengthZ labels).

(** [(sum, count)] of the distances from [i] to the points [j] of cluster
    [c]; [skipSelf] leaves [j = i] out. *)
Definition sumCount (skipSelf : bool) (i c : Z) : num * Z :=
  fold_left
    (fun acc j =>
       if (negb skipSelf || negb (j =? i)) && (nthZ labels j (-1) =? c)
       then (nadd (fst acc) (Matrix.get dist i j), snd acc + 1)
       else acc)
    (range n) (Fin 0, 0).

(** [b(i)]: from [Infinity], the minimum over the other clusters of the
    mean distance. *)
Definition bOf (uniqueClusters : list Z) (i ci : Z) : num :=
  fold_left
    (fun bi c =>
       if c =? ci then bi
       else
         let (sumOther, countOther) := sumCount false i c in
         if 0 <? countOther then nmin bi (ndiv sumOther (ofZ countOther)) else bi)
    uniqueClusters PInf.

(** What observation [i] adds to [totalScore]; [None] is [continue]. *)
Definition contribution (uniqueClusters : list Z) (i : Z) : option num :=
  let ci := nthZ labels i (-1) in
  let (sumSame, countSame) := sumCount true i ci in
  if countSame =? 0 then None
  else
    let ai := ndiv sumSame (ofZ countSame) in
    let bi := bOf uniqueClusters i ci in
    let maxAB := nmax ai bi in
    Some (if ngt maxAB (Fin 0) then ndiv (nsub bi ai) maxAB else Fin 0).

Definition silhouetteScore : num :=
  let uniqueClusters := uniq [] labels in
  if lengthZ uniqueClusters <? 2 then Fin 0
  else
    let totalScore :=
      fold_left
        (fun total i =>
           match contribution uniqueClusters i with
           | None => total
           | Some s => nadd total s
           end)
        (range n) (Fin 0) in
    ndiv totalScore (ofZ n).

End WithLabels.

End Silhouette.

(* ------------------------------------------------------------------ *)
(** * Token sequences *)

(** A cell of a raw sequence: a label, or [None] for [null]. *)
Definition Sequence : Type := list (option string).
Definition SequenceData : Type := list Sequence.

Definition SENTINEL : string := String Ascii.zero "__NA__".

Definition toTokenLists (data : SequenceData) (naSyms : list string) : list (list string) :=
  map (fun row =>
         map (fun val =>
                match val with
                | None => SENTINEL
                | Some s =>
                    if String.eqb s "" then SENTINEL
                    else if existsb (String.eqb s) naSyms then SENTINEL
                    else s
                end) row)
      data.

(** [seq[i]]; [None] is [undefined]. *)
Definition tok (seq : list string) (i : Z) : option string :=
  if i <? 0 then None else nth_error seq (Z.to_nat i).

(** [x === y] on tokens. *)
Definition tokEq (x y : option string) : bool :=
  match x, y with
  | Some s, Some t => String.eqb s t
  | None, None => true
  | _, _ => false
  end.

Definition effectiveLength (seq : list string) : Z :=
  fold_left
    (fun last i => if tokEq (tok seq i) (Some SENTINEL) then last else i + 1)
    (range (lengthZ seq)) 0.

(** [lo, lo + 1, ..., hi]: the indices of [for (let i = lo; i <= hi; i++)]. *)
Definition rangeIncl (lo hi : Z) : list Z := map (fun i => lo + i) (range (hi - lo + 1)).

(** [len ?? seq.length]. *)
Definition orLength (len : option Z) (seq : list string) : Z :=
  match len with Some l => l | None => lengthZ seq end.

(** JavaScript [Map] with integer values, in insertion order; [eqb] is the
    equality of its keys. *)
Module JsMap.

Section WithKey.

Variable K : Type.
Variable eqb : K -> K -> bool.

Definition t : Type := list (K * Z).

Definition empty : t := [].

Fixpoint get (m : t) (key : K) : option Z :=
  match m with
  | [] => None
  | (k, v) :: rest => if eqb k key then Some v else get rest key
  end.

Fixpoint set (m : t) (key : K) (v : Z) : t :=
  match m with
  | [] => [(key, v)]
  | (k, v0) :: rest =>
      if eqb k key then (k, v) :: rest else (k, v0) :: set rest key v
  end.

Definition keys (m : t) : list K := map fst m.

(** [m.get(key) ?? 0]. *)
Definition getOr0 (m : t) (key : K) : Z :=
  match get m key with Some v => v | None => 0 end.

End WithKey.

Arguments empty {K}.
Arguments get {K} eqb m key.
Arguments set {K} eqb m key v.
Arguments keys {K} m.
Arguments getOr0 {K} eqb m key.

End JsMap.

(** [new Set(l)] on strings: first occurrences, in order. *)
Fixpoint dedup (seen : list string) (l : list string) : list string :=
  match l with
  | [] => []
  | x :: rest =>
      if existsb (String.eqb x) seen then dedup seen rest
      else x :: dedup (x :: seen) rest
  end.

Module Distance.

Section WithMath.

(** [Math.exp], and [Math.sqrt] on finite arguments. *)
Variable Math_exp : num -> num.
Variable Math_sqrt : Q -> Q.

Definition nsqrt (x : num) : num :=
  match x with
  | Fin a => if Qltb a 0 then NaN else Fin (Math_sqrt a)
  | PInf => PInf
  | _ => NaN
  end.

(** The padded arrays [aPad], [bPad] read at [i < maxLen]. *)
Definition padded (seq : list string) (i : Z) : option string :=
  match tok seq i with Some s => Some s | None => Some SENTINEL end.

Definition hammingDistance (a b : list string) (weighted : bool) (lambda_ : Q) : num :=
  let maxLen := Z.max (lengthZ a) (lengthZ b) in
  fold_left
    (fun dist i =>
       if negb (tokEq (padded a i) (padded b i))
       then nadd dist (if weighted then Math_exp (nmul (nneg (Fin lambda_)) (ofZ i))
                       else Fin 1)
       else dist)
    (range maxLen) (Fin 0).

(** [Math.min] of three integers. *)
Definition min3 (x y z : Z) : Z := Z.min (Z.min x y) z.
Definition min4 (x y z w : Z) : Z := Z.min (min3 x y z) w.

(** The inner loop of [levenshteinDistance] for row [i]: [curr[0] = i],
    then [curr[j]] for [j = 1..n]. *)
Definition lvRow (a b : list string) (n i : Z) (prev curr : Z -> Z) : Z -> Z :=
  fold_left
    (fun curr j =>
       let cost := if tokEq (tok a (i - 1)) (tok b (j - 1)) then 1 else 0 in
       upd curr j (min3 (prev j + 1) (curr (j - 1) + 1) (prev (j - 1) + cost)))
    (rangeIncl 1 n) (upd curr 0 i).

Definition levenshteinDistance (a b : list string) (lenA lenB : option Z) : Z :=
  let m := orLength lenA a in
  let n := orLength lenB b in
  let rows :=
    fold_left
      (fun pc i => let (prev, curr) := (pc : (Z -> Z) * (Z -> Z)) in
                   (lvRow a b n i prev curr, prev))
      (rangeIncl 1 m) (fun i => i, fun _ => 0) in
  fst rows n.

(** One cell of [osaDistance]. *)
Definition osaCell (a b : list string) (i : Z) (d : Z -> Z -> Z) (j : Z) : Z -> Z -> Z :=
  let cost := if tokEq (tok a (i - 1)) (tok b (j - 1)) then 1 else 0 in
  let d1 := upd2 d i j (min3 (d (i - 1) j + 1) (d i (j - 1) + 1) (d (i - 1) (j - 1) + cost)) in
  if (1 <? i) && (1 <? j) && tokEq (tok a (i - 1)) (tok b (j - 2))
     && tokEq (tok a (i - 2)) (tok b (j - 1))
  then upd2 d1 i j (Z.min (d1 i j) (d1 (i - 2) (j - 2) + cost))
  else d1.

Definition osaInit (m n : Z) : Z -> Z -> Z :=
  let d0 := fold_left (fun d i => upd2 d i 0 i) (rangeIncl 0 m) (fun _ _ => 0) in
  fold_left (fun d j => upd2 d 0 j j) (rangeIncl 0 n) d0.

Definition osaDistance (a b : list string) (lenA lenB : option Z) : Z :=
  let m := orLength lenA a in
  let n := orLength lenB b in
  if m =? 0 then n
  else if n =? 0 then m
  else
    let d :=
      fold_left (fun d i => fold_left (osaCell a b i) (rangeIncl 1 n) d)
                (rangeIncl 1 m) (osaInit m n) in
    d m n.

Definition dlInit (m n : Z) : Z -> Z -> Z :=
  let maxDist := m + n in
  let d0 := upd2 (fun _ _ => 0) 0 0 maxDist in
  let d1 :=
    fold_left (fun d i => upd2 (upd2 d (i + 1) 0 maxDist) (i + 1) 1 i) (rangeIncl 0 m) d0 in
  fold_left (fun d j => upd2 (upd2 d 0 (j + 1) maxDist) 1 (j + 1) j) (rangeIncl 0 n) d1.

(** One cell of [dlDistance]: the state is [(d, db)]. *)
Definition dlCell (a b : list string) (da : JsMap.t (option string)) (i : Z)
    (st : (Z -> Z -> Z) * Z) (j : Z) : (Z -> Z -> Z) * Z :=
  let (d, db) := st in
  let i1 := JsMap.getOr0 tokEq da (tok b (j - 1)) in
  let j1 := db in
  let cost := if tokEq (tok a (i - 1)) (tok b (j - 1)) then 0 else 1 in
  let db' := if cost =? 0 then j else db in
  (upd2 d (i + 1) (j + 1)
     (min4 (d i j + cost)
           (d (i + 1) j + 1)
           (d i (j + 1) + 1)
           (d i1 j1 + (i - i1 - 1) + 1 + (j - j1 - 1))),
   db').

Definition dlRow (a b : list string) (n : Z)
    (st : (Z -> Z -> Z) * JsMap.t (option string)) (i : Z) :
    (Z -> Z -> Z) * JsMap.t (option string) :=
  let (d, da) := st in
  let d' := fst (fold_left (dlCell a b da i) (rangeIncl 1 n) (d, 0)) in
  (d', JsMap.set tokEq da (tok a (i - 1)) i).

Definition dlDistance (a b : list string) (lenA lenB : option Z) : Z :=
  let m := orLength lenA a in
  let n := orLength lenB b in
  if m =? 0 then n
  else if n =? 0 then m
  else
    let d := fst (fold_left (dlRow a b n) (rangeIncl 1 m) (dlInit m n, JsMap.empty)) in
    d (m + 1) (n + 1).

(** The inner loop of [lcsDistance] for row [i]. *)
Definition lcsRow (a b : list string) (n i : Z) (prev curr : Z -> Z) : Z -> Z :=
  fold_left
    (fun curr j =>
       if tokEq (tok a (i - 1)) (tok b (j - 1))
       then upd curr j (prev (j - 1) + 1)
       else upd curr j (Z.max (prev j) (curr (j - 1))))
    (rangeIncl 1 n) curr.

Definition lcsDistance (a b : list string) (lenA lenB : option Z) : Z :=
  let m := orLength lenA a in
  let n := orLength lenB b in
  let prev :=
    fold_left (fun prev i => lcsRow a b n i prev (fun _ => 0))
              (rangeIncl 1 m) (fun _ => 0) in
  Z.max m n - prev n.

(** [seq.slice(lo, hi)] for [0 <= lo]. *)
Definition slice (seq : list string) (lo hi : Z) : list string :=
  firstn (Z.to_nat (hi - lo)) (skipn (Z.to_nat lo) seq).

(** Build q-gram frequency profile; every caller leaves [q] at its default
    of 1. *)
Definition getQgrams (seq : list string) (len : option Z) (q : Z) : JsMap.t string :=
  let n := orLength len seq in
  fold_left
    (fun profile i =>
       let gram := String.concat (String Ascii.zero "") (slice seq i (i + q)) in
       JsMap.set String.eqb profile gram (JsMap.getOr0 String.eqb profile gram + 1))
    (rangeIncl 0 (n - q)) JsMap.empty.

Definition allKeys (pa pb : JsMap.t string) : list string :=
  dedup [] (JsMap.keys pa ++ JsMap.keys pb).

Definition qgramDistance (a b : list string) (lenA lenB : option Z) : Z :=
  let pa := getQgrams a lenA 1 in
  let pb := getQgrams b lenB 1 in
  fold_left
    (fun dist key =>
       dist + Z.abs (JsMap.getOr0 String.eqb pa key - JsMap.getOr0 String.eqb pb key))
    (allKeys pa pb) 0.

(** [(dot, normA, normB)] of [cosineDistance]. *)
Definition cosineSums (pa pb : JsMap.t string) : Z * Z * Z :=
  fold_left
    (fun acc key =>
       let '(dot, normA, normB) := acc in
       let va := JsMap.getOr0 String.eqb pa key in
       let vb := JsMap.getOr0 String.eqb pb key in
       (dot + va * vb, normA + va * va, normB + vb * vb))
    (allKeys pa pb) (0, 0, 0).

Definition cosineDistance (a b : list string) (lenA lenB : option Z) : num :=
  let pa := getQgrams a lenA 1 in
  let pb := getQgrams b lenB 1 in
  let '(dot, normA, normB) := cosineSums pa pb in
  if (normA =? 0) || (normB =? 0) then Fin 1
  else nsub (Fin 1) (ndiv (ofZ dot) (nmul (nsqrt (ofZ normA)) (nsqrt (ofZ normB)))).

Definition jaccardDistance (a b : list string) (lenA lenB : option Z) : num :=
  let setA := dedup [] (JsMap.keys (getQgrams a lenA 1)) in
  let setB := dedup [] (JsMap.keys (getQgrams b lenB 1)) in
  let intersection :=
    fold_left
      (fun count key => if existsb (String.eqb key) setB then count + 1 else count)
      setA 0 in
  let union := lengthZ setA + lengthZ setB - intersection in
  if union =? 0 then Fin 0
  else nsub (Fin 1) (ndiv (ofZ intersection) (ofZ union)).

(** The inner [for ... break] of the match search: the first [j] of
    [lo..hi] that is free and carries the token [a[i]]. *)
Definition findMatch (a b : list string) (bMatched : list bool) (i lo hi : Z) : option Z :=
  find (fun j => negb (nthZ bMatched j false) && tokEq (tok a i) (tok b j))
       (rangeIncl lo hi).

(** The match search: the state is [(aMatched, bMatched, matches)]. *)
Definition jaroMatches (a b : list string) (m n : Z) : list bool * list bool * Z :=
  let matchWindow := Z.max 0 (Z.max m n / 2 - 1) in
  fold_left
    (fun st i =>
       let '(aMatched, bMatched, matches) := st in
       let lo := Z.max 0 (i - matchWindow) in
       let hi := Z.min (n - 1) (i + matchWindow) in
       match findMatch a b bMatched i lo hi with
       | Some j => (setZ aMatched i true, setZ bMatched j true, matches + 1)
       | None => st
       end)
    (range m)
    (repeat false (Z.to_nat m), repeat false (Z.to_nat n), 0).

(** [while (!bMatched[bIdx]) bIdx++]: past the end of the array the test
    reads [undefined] and the loop goes on. *)
Fixpoint skipUnmatched (fuel : nat) (bMatched : list bool) (bIdx : Z) : result Z :=
  if nthZ bMatched bIdx false then Ok bIdx
  else
    match fuel with
    | O => Diverge
    | S fuel' => skipUnmatched fuel' bMatched (bIdx + 1)
    end.

Fixpoint foldM {A B : Type} (f : A -> B -> result A) (l : list B) (a : A) : result A :=
  match l with
  | [] => Ok a
  | x :: rest => a' <- f a x ;; foldM f rest a'
  end.

(** The transposition count: the state is [(transpositions, bIdx)]. *)
Definition jaroTranspositions (a b : list string) (m : Z)
    (aMatched bMatched : list bool) : result (Z * Z) :=
  foldM
    (fun st i =>
       let (transpositions, bIdx) := (st : Z * Z) in
       if negb (nthZ aMatched i false) then Ok st
       else
         bIdx' <- skipUnmatched (length bMatched) bMatched bIdx ;;
         Ok (if negb (tokEq (tok a i) (tok b bIdx')) then transpositions + 1
             else transpositions,
             bIdx' + 1))
    (range m) (0, 0).

(** The Winkler prefix: leading positions, below [maxPrefix], on which the
    two sequences agree. *)
Fixpoint commonPrefix (a b : list string) (idx : list Z) : Z :=
  match idx with
  | [] => 0
  | i :: rest => if tokEq (tok a i) (tok b i) then 1 + commonPrefix a b rest else 0
  end.

Definition jaroWinklerDistance (a b : list string) (p : Q) (lenA lenB : option Z) :
    result num :=
  let m := orLength lenA a in
  let n := orLength lenB b in
  if (m =? 0) && (n =? 0) then Ok (Fin 0)
  else if (m =? 0) || (n =? 0) then Ok (Fin 1)
  else
    let '(aMatched, bMatched, matches) := jaroMatches a b m n in
    if matches =? 0 then Ok (Fin 1)
    else
      tb <- jaroTranspositions a b m aMatched bMatched ;;
      let transpositions := fst tb in
      let jaroSim :=
        ndiv (nadd (nadd (ndiv (ofZ matches) (ofZ m)) (ndiv (ofZ matches) (ofZ n)))
                   (ndiv (nsub (ofZ matches) (ndiv (ofZ transpositions) (Fin 2)))
                         (ofZ matches)))
             (Fin 3) in
      if Qeq_bool p 0 then Ok (nsub (Fin 1) jaroSim)
      else
        let maxPrefix := Z.min 4 (Z.min m n) in
        let prefix := commonPrefix a b (range maxPrefix) in
        Ok (nsub (Fin 1)
                 (nadd jaroSim
                       (nmul (nmul (ofZ prefix) (Fin p)) (nsub (Fin 1) jaroSim)))).

Definition DistFunc : Type :=
  list string -> list string -> option Z -> option Z -> result num.

(** What [DISTANCE_FUNCS[name]] evaluates to: one of the nine functions of
    the object literal, a member that the literal inherits from
    [Object.prototype], or [undefined]. *)
Inductive property : Type :=
| Own (f : DistFunc)
| Inherited
| Missing.

Definition objectPrototypeKeys : list string :=
  [ "constructor"; "hasOwnProperty"; "isPrototypeOf"; "propertyIsEnumerable";
    "toLocaleString"; "toString"; "valueOf"; "__proto__";
    "__defineGetter__"; "__defineSetter__"; "__lookupGetter__"; "__lookupSetter__" ].

Definition DISTANCE_FUNCS : list (string * DistFunc) :=
  [ ("hamming", fun a b _ _ => Ok (hammingDistance a b false 1));
    ("lv", fun a b lenA lenB => Ok (ofZ (levenshteinDistance a b lenA lenB)));
    ("osa", fun a b lenA lenB => Ok (ofZ (osaDistance a b lenA lenB)));
    ("dl", fun a b lenA lenB => Ok (ofZ (dlDistance a b lenA lenB)));
    ("lcs", fun a b lenA lenB => Ok (ofZ (lcsDistance a b lenA lenB)));
    ("qgram", fun a b lenA lenB => Ok (ofZ (qgramDistance a b lenA lenB)));
    ("cosine", fun a b lenA lenB => Ok (cosineDistance a b lenA lenB));
    ("jaccard", fun a b lenA lenB => Ok (jaccardDistance a b lenA lenB));
    ("jw", fun a b lenA lenB => jaroWinklerDistance a b 0 lenA lenB) ].

Fixpoint assoc {A : Type} (l : list (string * A)) (name : string) : option A :=
  match l with
  | [] => None
  | (k, v) :: rest => if String.eqb k name then Some v else assoc rest name
  end.

Definition lookup (name : string) : property :=
  match assoc DISTANCE_FUNCS name with
  | Some f => Own f
  | None => if existsb (String.eqb name) objectPrototypeKeys then Inherited else Missing
  end.

(** A call of an inherited member lies outside the engine.  It is a
    parameter: the number that the typed array stores for the value the
    member returns, or [None] when the call throws a [TypeError]. *)
Variable inheritedCall : string -> list string -> list string -> option num.

Definition callInherited (name : string) : DistFunc :=
  fun a b _ _ =>
    match inheritedCall name a b with
    | Some v => Ok v
    | None => Throw (TypeError (name ++ " is not a distance function"))
    end.

(** The double loop over [i < j] that fills both triangles. *)
Definition fillPairs (n : Z) (f : Z -> Z -> result num) (dist : Matrix.t) : result Matrix.t :=
  foldM
    (fun dist i =>
       foldM
         (fun dist j =>
            d <- f i j ;;
            Ok (Matrix.set (Matrix.set dist i j d) j i d))
         (rangeIncl (i + 1) (n - 1)) dist)
    (range n) dist.

Definition computeDistanceMatrix (sequences : list (list string)) (dissimilarity : string)
    (weighted : bool) (lambda_ : Q) : result Matrix.t :=
  let n := lengthZ sequences in
  let dist := Matrix.zeros n n in
  if String.eqb dissimilarity "hamming" then
    fillPairs n
      (fun i j => Ok (hammingDistance (nthZ sequences i []) (nthZ sequences j [])
                                      weighted lambda_))
      dist
  else
    match lookup dissimilarity with
    | Missing => Throw (Error ("Unknown dissimilarity: " ++ dissimilarity))
    | prop =>
        let func := match prop with Own f => f | _ => callInherited dissimilarity end in
        let effLens := map effectiveLength sequences in
        fillPairs n
          (fun i j => func (nthZ sequences i []) (nthZ sequences j [])
                           (Some (nthZ effLens i 0)) (Some (nthZ effLens j 0)))
          dist
    end.

(** [a[i]] of a numeric row; outside the row it is [undefined], which
    arithmetic turns into [NaN]. *)
Definition numAt (row : list Q) (i : Z) : num :=
  if i <? 0 then NaN
  else match nth_error row (Z.to_nat i) with Some x => Fin x | None => NaN end.

Definition euclideanDistance (a b : list Q) : num :=
  nsqrt
    (fold_left
       (fun sum i => let d := nsub (numAt a i) (numAt b i) in nadd sum (nmul d d))
       (range (lengthZ a)) (Fin 0)).

Definition manhattanDistance (a b : list Q) : num :=
  fold_left
    (fun sum i => nadd sum (nabs (nsub (numAt a i) (numAt b i))))
    (range (lengthZ a)) (Fin 0).

Definition computeNumericDistanceMatrix (data : list (list Q)) (metric : string) :
    result Matrix.t :=
  let n := lengthZ data in
  let dist := Matrix.zeros n n in
  let func := if String.eqb metric "manhattan" then manhattanDistance else euclideanDistance in
  fillPairs n (fun i j => Ok (func (nthZ data i []) (nthZ data j []))) dist.

End WithMath.

End Distance.

(* ------------------------------------------------------------------ *)
(** * Main functions *)

Module Facade.

(** Prepared data container; only [sequenceData] is read here. *)
Record TNAData : Type := mkTNAData {
  sequenceData : SequenceData;
  labels : list string
}.

(** The argument [data] of [clusterData], by its static type. *)
Inductive input : Type :=
| Sequences (data : SequenceData)
| Prepared (data : TNAData)
| Numeric (data : list (list Q)).

Record options : Type := mkOptions {
  dissimilarity : option string;
  method : option string;
  naSyms : option (list string);
  weighted : option bool;
  lambda : option Q
}.

Record ClusterResult : Type := mkClusterResult {
  cr_data : SequenceData;
  cr_k : Z;
  cr_assignments : list Z;
  cr_silhouette : num;
  cr_sizes : list Z;
  cr_method : string;
  cr_distance : Matrix.t;
  cr_dissimilarity : string
}.

(** [opts?.field ?? dflt]. *)
Definition optOr {A : Type} (opts : option options) (field : options -> option A) (dflt : A) : A :=
  match opts with
  | Some o => match field o with Some v => v | None => dflt end
  | None => dflt
  end.

(** A number inside a template string. *)
Definition showZ (z : Z) : string := DecimalString.NilZero.string_of_int (Z.to_int z).

Definition isNumericData (data : list (list Q)) : bool :=
  match data with
  | [] => false
  | firstRow :: _ => match firstRow with [] => false | _ :: _ => true end
  end.

Section WithMath.

Variable Math_exp : num -> num.
Variable Math_sqrt : Q -> Q.
Variable inheritedCall : string -> list string -> list string -> option num.

(** [String(v)] of a number.  Rows of numbers that [isNumericData] turns
    down are clustered as sequences whose tokens are these numbers. *)
Variable numberToString : Q -> string.

(** [if (method === 'pam') ... else ...]. *)
Definition solve (dist : Matrix.t) (k : Z) (method : string) : result (list Z) :=
  if String.eqb method "pam" then Ok (Pam.pam dist k)
  else Hierarchical.hierarchical dist k method.

(** [sizes]: for [c = 1..k], the number of assignments equal to [c]. *)
Definition clusterSizes (k : Z) (assignments : list Z) : list Z :=
  map (fun c => lengthZ (filter (fun a => a =? c) assignments)) (rangeIncl 1 k).

Definition clusterStringData (seqData : SequenceData) (k : Z) (method : string)
    (opts : option options) : result ClusterResult :=
  let dissimilarity := optOr opts dissimilarity "hamming" in
  let naSyms := optOr opts naSyms ["*"; "%"] in
  let weighted := optOr opts weighted false in
  let lambda_ := optOr opts lambda 1%Q in
  if k <? 2 then Throw (Error "k must be >= 2")
  else if k >? lengthZ seqData then
    Throw (Error ("k=" ++ showZ k ++ " exceeds number of sequences ("
                  ++ showZ (lengthZ seqData) ++ ")"))
  else
    let sequences := toTokenLists seqData naSyms in
    dist <- Distance.computeDistanceMatrix Math_exp Math_sqrt inheritedCall
              sequences dissimilarity weighted lambda_ ;;
    assignments <- solve dist k method ;;
    let sil := Silhouette.silhouetteScore dist assignments in
    let sizes := clusterSizes k assignments in
    Ok (mkClusterResult seqData k assignments sil sizes method dist dissimilarity).

Definition clusterData (data : input) (k : Z) (opts : option options) : result ClusterResult :=
  let method := optOr opts method "pam" in
  match data with
  | Prepared t => clusterStringData (sequenceData t) k method opts
  | Numeric rows =>
      if isNumericData rows then
        let dissimilarity := optOr opts dissimilarity "euclidean" in
        if k <? 2 then Throw (Error "k must be >= 2")
        else if k >? lengthZ rows then
          Throw (Error ("k=" ++ showZ k ++ " exceeds number of observations ("
                        ++ showZ (lengthZ rows) ++ ")"))
        else
          dist <- Distance.computeNumericDistanceMatrix Math_sqrt rows dissimilarity ;;
          assignments <- solve dist k method ;;
          let sil := Silhouette.silhouetteScore dist assignments in
          let sizes := clusterSizes k assignments in
          let seqData := map (fun row => map (fun v => Some (numberToString v)) row) rows in
          Ok (mkClusterResult seqData k assignments sil sizes method dist dissimilarity)
      else
        clusterStringData
          (map (fun row => map (fun v => Some (numberToString v)) row) rows) k method opts
  | Sequences seqData => clusterStringData seqData k method opts
  end.

(** Deprecated alias; its static type leaves out numeric rows. *)
Definition clusterSequences (data : input) (k : Z) (opts : option options) :
    result ClusterResult :=
  clusterData data k opts.

End WithMath.

End Facade.


(* ------------------------------------------------------------------ *)
(** * Data for examples *)

Module Samples.

(** A stand-in for [Math.exp], used to run the engine on examples: the
    double nearest to [(1 + x/8)^8]. *)
Definition sampleExp (x : num) : num :=
  match x with
  | Fin a => round64 ((1 + a / 8) ^ 8)
  | PInf => PInf
  | NInf => Fin 0
  | NaN => NaN
  end.

(** [Math.sqrt] on doubles: the double nearest to the square root.  The
    argument is scaled by a power of 4 to an integer of more than 106
    bits; the integer square root of that has more than 53 bits, and half
    a unit is added to it when it is not the exact root, which leaves the
    rounding of the root as it is. *)
Definition sampleSqrt (x : Q) : Q :=
  if Qle_bool x 0 then 0%Q
  else
    let s := Z.max 0 ((108 - ilog2 x) / 2) in
    let t := (x * pow2 (2 * s))%Q in
    let m := Z.sqrt (Qfloor t) in
    let v := ((inject_Z m + (if Qeq_bool (inject_Z (m * m)) t then 0 else 1 # 2)) / pow2 s)%Q in
    match round64 v with
    | Fin r => r
    | _ => x
    end.

Definition noInherited : string -> list string -> list string -> option num :=
  fun _ _ _ => None.

Definition showQ (x : Q) : string :=
  Facade.showZ (Qnum x) ++ "/" ++ Facade.showZ (Zpos (Qden x)).

(** The six sequences of the scenario of the test suite. *)
Definition seqs6 : SequenceData :=
  map (map Some)
    [["A"; "B"; "C"]; ["C"; "A"; "B"]; ["A"; "B"; "A"];
     ["B"; "C"; "A"]; ["A"; "C"; "B"]; ["C"; "B"; "A"]].

(** Their Hamming distances. *)
Definition hamming6 : Z -> Z -> Q :=
  fun i j =>
    inject_Z
      (nthZ (nthZ [[0; 3; 1; 3; 2; 2]; [3; 0; 3; 3; 2; 2]; [1; 3; 0; 2; 2; 1];
                   [3; 3; 2; 0; 2; 2]; [2; 2; 2; 2; 0; 3]; [2; 2; 1; 2; 3; 0]] i []) j 0).

Definition dist6 : Matrix.t := Matrix.ofTable 6 hamming6.

(** The double [m * 2^e]. *)
Definition double (m e : Z) : Q := Qred (inject_Z m * pow2 e).



(** Four observations at the distances 0.1, 0.2, 0.3 and 1; rows 1 and 2
    hold the same three distances in another order. *)
Definition reordered : Z -> Z -> Q :=
  let x := double 5404319552844595 (-54) in
  let y := double 3602879701896397 (-54) in
  let z := double 3602879701896397 (-55) in
  fun i j =>
    nthZ (nthZ [[0%Q; x; z; 1%Q]; [x; 0%Q; y; z]; [z; y; 0%Q; x]; [1%Q; z; x; 0%Q]] i []) j 0%Q.

(** Four observations at the distance [2^1023] from each other. *)
Definition huge : Z -> Z -> Q :=
  fun i j => if i =? j then 0%Q else double 1 1023.

(** Nine observations on a line; the first one is the double next to
    [-1], [-0.9999999999999999]. *)
Definition nearTies : list (list Q) :=
  [[(- double 9007199254740991 (-53))%Q]; [(-1)%Q]; [(-1)%Q]; [(-1)%Q]; [0%Q];
   [2%Q]; [2%Q]; [2%Q]; [2%Q]].

(** Two observations at distance 0 from each other. *)
Definition twins : Matrix.t := Matrix.ofTable 2 (fun _ _ => 0%Q).

(** Dataset [DS_A] of the ground-truth tests. *)
Definition DS_A : SequenceData :=
  map (map Some)
    [["A"; "B"; "C"; "D"]; ["D"; "C"; "B"; "A"]; ["A"; "B"; "A"; "B"];
     ["C"; "D"; "C"; "D"]; ["B"; "A"; "D"; "C"]; ["A"; "C"; "B"; "D"];
     ["D"; "B"; "C"; "A"]; ["C"; "A"; "D"; "B"]].

Definition clusterData : Facade.input -> Z -> option Facade.options -> result Facade.ClusterResult :=
  Facade.clusterData sampleExp sampleSqrt noInherited showQ.

Definition withOptions (dissimilarity method : option string) : option Facade.options :=
  Some (Facade.mkOptions dissimilarity method None None None).

End Samples.

(* ------------------------------------------------------------------ *)
(** * Rounding to binary64 *)

Lemma Qltb_iff (a b : Q) : Qltb a b = true <-> (a < b)%Q.
Proof.
  unfold Qltb. rewrite negb_true_iff. split; intros H.
  - apply Qnot_le_lt. intros Hle. apply Qle_bool_iff in Hle. congruence.
  - destruct (Qle_bool b a) eqn:E; [|reflexivity].
    apply Qle_bool_iff in E. exfalso. apply (Qlt_not_le _ _ H E).
Qed.

Lemma Qltb_false_iff (a b : Q) : Qltb a b = false <-> (b <= a)%Q.
Proof.
  unfold Qltb. rewrite negb_false_iff. apply Qle_bool_iff.
Qed.

Lemma Qle_bool_false_iff (a b : Q) : Qle_bool a b = false <-> (b < a)%Q.
Proof. rewrite <- Qltb_iff. unfold Qltb. now destruct (Qle_bool a b). Qed.

Lemma pow2_pos (e : Z) : (0 < pow2 e)%Q.
Proof. apply Qpower_0_lt. reflexivity. Qed.

Lemma pow2_add (a b : Z) : (pow2 (a + b) == pow2 a * pow2 b)%Q.
Proof. apply Qpower_plus. discriminate. Qed.

Lemma pow2_le (a b : Z) : a <= b -> (pow2 a <= pow2 b)%Q.
Proof. intros H. apply Qpower_le_compat_l; [exact H | discriminate]. Qed.

Lemma pow2_lt (a b : Z) : a < b -> (pow2 a < pow2 b)%Q.
Proof. intros H. apply Qpower_lt_compat_l; [exact H | reflexivity]. Qed.

Lemma pow2_lt_inv (a b : Z) : (pow2 a < pow2 b)%Q -> a < b.
Proof. intros H. apply (Qpower_lt_compat_l_inv 2); [exact H | reflexivity]. Qed.

Lemma pow2_Z (e : Z) : 0 <= e -> (pow2 e == inject_Z (2 ^ e))%Q.
Proof. intros H. symmetry. apply (Zpower_Qpower 2 e H). Qed.

Lemma rne_comp (x y : Q) : (x == y)%Q -> rne x = rne y.
Proof.
  intros E. unfold rne. rewrite (Qfloor_comp x y E).
  replace (x - inject_Z (Qfloor y) ?= 1 # 2)%Q with (y - inject_Z (Qfloor y) ?= 1 # 2)%Q;
    [reflexivity|].
  apply Qcompare_comp; [now rewrite E | reflexivity].
Qed.

Lemma rne_Z (z : Z) : rne (inject_Z z) = z.
Proof.
  unfold rne. rewrite Qfloor_Z.
  replace (inject_Z z - inject_Z z ?= 1 # 2)%Q with Lt; [reflexivity|].
  symmetry. generalize (inject_Z z). intros q.
  assert (E : (q - q == 0)%Q) by ring. now rewrite E.
Qed.

Lemma rne_floor (x : Q) : Qfloor x <= rne x <= Qfloor x + 1.
Proof.
  unfold rne. destruct (_ ?= _)%Q; [destruct (Z.even _) | |]; lia.
Qed.

Lemma rne_mono (x y : Q) : (x <= y)%Q -> rne x <= rne y.
Proof.
  intros H. pose proof (Qfloor_resp_le x y H) as Hf.
  pose proof (rne_floor x) as Hx. pose proof (rne_floor y) as Hy.
  destruct (Z.eq_dec (Qfloor x) (Qfloor y)) as [E | Hne]; [|lia].
  unfold rne. rewrite <- E.
  destruct (Qcompare_spec (x - inject_Z (Qfloor x)) (1 # 2)) as [Ex | Ex | Ex];
    destruct (Qcompare_spec (y - inject_Z (Qfloor x)) (1 # 2)) as [Ey | Ey | Ey];
    try destruct (Z.even (Qfloor x)); try lia; exfalso; lra.
Qed.

Lemma Qmake_mult (n : Z) (d : positive) : ((n # d) * inject_Z (Zpos d) == inject_Z n)%Q.
Proof. unfold Qeq, Qmult, inject_Z. simpl. lia. Qed.

Lemma ilog2_spec (x : Q) : (0 < x)%Q -> (pow2 (ilog2 x) <= x < pow2 (ilog2 x + 1))%Q.
Proof.
  intros Hx. destruct x as [n d].
  assert (Hn : 0 < n) by (unfold Qlt in Hx; simpl in Hx; lia).
  unfold ilog2. cbn [Qnum Qden].
  set (a := Z.log2 n). set (b := Z.log2 (Zpos d)).
  pose proof (Z.log2_spec n Hn) as Sa. pose proof (Z.log2_spec (Zpos d) ltac:(lia)) as Sb.
  fold a in Sa. fold b in Sb.
  assert (Ha : 0 <= a) by apply Z.log2_nonneg.
  assert (Hb : 0 <= b) by apply Z.log2_nonneg.
  pose proof (Qmake_mult n d) as Em.
  set (X := (n # d)%Q) in *. set (D := inject_Z (Zpos d)) in *. set (N := inject_Z n) in *.
  assert (HD : (0 < D)%Q) by (unfold D; rewrite <- (Zlt_Qlt 0); lia).
  assert (N1 : (pow2 a <= N)%Q) by (rewrite pow2_Z by assumption; unfold N; rewrite <- Zle_Qle; lia).
  assert (N2 : (N < pow2 (a + 1))%Q)
    by (rewrite pow2_Z by lia; unfold N; rewrite <- Zlt_Qlt; unfold Z.succ in Sa; lia).
  assert (D1 : (pow2 b <= D)%Q) by (rewrite pow2_Z by assumption; unfold D; rewrite <- Zle_Qle; lia).
  assert (D2 : (D < pow2 (b + 1))%Q)
    by (rewrite pow2_Z by lia; unfold D; rewrite <- Zlt_Qlt; unfold Z.succ in Sb; lia).
  pose proof (pow2_pos b) as Pb. pose proof (pow2_pos (b + 1)) as Pb1.
  pose proof (pow2_pos (a - b - 1)) as Pl. pose proof (pow2_pos (a - b + 1)) as Pu.
  assert (U : (pow2 (a - b + 1) * pow2 b == pow2 (a + 1))%Q).
  { rewrite <- pow2_add. now replace (a - b + 1 + b) with (a + 1) by lia. }
  assert (L : (pow2 (a - b - 1) * pow2 (b + 1) == pow2 a)%Q).
  { rewrite <- pow2_add. now replace (a - b - 1 + (b + 1)) with a by lia. }
  assert (Hup : (X < pow2 (a - b + 1))%Q).
  { apply Qnot_le_lt. intros C.
    assert ((pow2 (a - b + 1) * pow2 b <= X * D)%Q) by nra. lra. }
  assert (Hlo : (pow2 (a - b - 1) < X)%Q).
  { apply Qnot_le_lt. intros C.
    assert ((X * D < pow2 (a - b - 1) * pow2 (b + 1))%Q) by nra. lra. }
  destruct (Qle_bool (pow2 (a - b)) X) eqn:T.
  - apply Qle_bool_iff in T. split; assumption.
  - apply Qle_bool_false_iff in T. replace (a - b - 1 + 1) with (a - b) by lia.
    split; [now apply Qlt_le_weak | assumption].
Qed.

Lemma ilog2_unique (x : Q) (e : Z) : (pow2 e <= x < pow2 (e + 1))%Q -> ilog2 x = e.
Proof.
  intros [H1 H2]. pose proof (pow2_pos e) as Pe.
  destruct (ilog2_spec x ltac:(lra)) as [S1 S2].
  assert (A : (pow2 (ilog2 x) < pow2 (e + 1))%Q) by lra.
  assert (B : (pow2 e < pow2 (ilog2 x + 1))%Q) by lra.
  apply pow2_lt_inv in A, B. lia.
Qed.

Lemma ilog2_comp (x y : Q) : (0 < x)%Q -> (x == y)%Q -> ilog2 x = ilog2 y.
Proof.
  intros Hx E. apply ilog2_unique. rewrite E. apply ilog2_spec. now rewrite <- E.
Qed.

Lemma ilog2_mono (x y : Q) : (0 < x)%Q -> (x <= y)%Q -> ilog2 x <= ilog2 y.
Proof.
  intros Hx H. destruct (ilog2_spec x Hx) as [X1 X2].
  destruct (ilog2_spec y ltac:(lra)) as [Y1 Y2].
  assert (A : (pow2 (ilog2 x) < pow2 (ilog2 y + 1))%Q) by lra.
  apply pow2_lt_inv in A. lia.
Qed.

(** The multiple of [2^u] nearest to [x]. *)
Definition onGrid (u : Z) (x : Q) : Q := (inject_Z (rne (x / pow2 u)) * pow2 u)%Q.

Lemma onGrid_mono (u : Z) (x y : Q) : (x <= y)%Q -> (onGrid u x <= onGrid u y)%Q.
Proof.
  intros H. unfold onGrid. pose proof (pow2_pos u) as P.
  apply Qmult_le_compat_r; [|lra]. rewrite <- Zle_Qle. apply rne_mono.
  unfold Qdiv. apply Qmult_le_compat_r; [exact H|].
  apply Qinv_le_0_compat. lra.
Qed.

Lemma onGrid_fix (u k : Z) (x : Q) : (x == inject_Z k * pow2 u)%Q -> (onGrid u x == x)%Q.
Proof.
  intros E. unfold onGrid. pose proof (pow2_pos u) as P.
  rewrite (rne_comp (x / pow2 u) (inject_Z k)).
  - now rewrite rne_Z, E.
  - rewrite E. field. lra.
Qed.

Lemma onGrid_pow2 (u e : Z) : u <= e -> (onGrid u (pow2 e) == pow2 e)%Q.
Proof.
  intros H. apply (onGrid_fix u (2 ^ (e - u))).
  rewrite <- pow2_Z by lia. rewrite <- pow2_add. now replace (e - u + u) with e by lia.
Qed.

Lemma ulpExp_bounds (x : Q) :
  (0 < x)%Q ->
  let E := Z.max (ilog2 x) (-1022) in
  ulpExp x = E - 52 /\ (x < pow2 (E + 1))%Q /\ (-1022 < E -> (pow2 E <= x)%Q).
Proof.
  intros Hx E. destruct (ilog2_spec x Hx) as [S1 S2]. split; [reflexivity|]. split.
  - apply Qlt_le_trans with (pow2 (ilog2 x + 1)); [exact S2|]. apply pow2_le. lia.
  - intros H. replace E with (ilog2 x) by lia. exact S1.
Qed.

(** The value that [roundPos] holds or turns into [Infinity]. *)
Definition nearest (x : Q) : Q := onGrid (ulpExp x) x.

Lemma nearest_mono (x y : Q) : (0 < x)%Q -> (x <= y)%Q -> (nearest x <= nearest y)%Q.
Proof.
  intros Hx H. unfold nearest.
  destruct (ulpExp_bounds x Hx) as (Ux & X1 & X2).
  destruct (ulpExp_bounds y ltac:(lra)) as (Uy & Y1 & Y2).
  pose proof (ilog2_mono x y Hx H) as Hm.
  set (Ex := Z.max (ilog2 x) (-1022)) in *. set (Ey := Z.max (ilog2 y) (-1022)) in *.
  destruct (Z.eq_dec Ex Ey) as [E | Hne].
  - rewrite Ux, Uy, E. now apply onGrid_mono.
  - assert (Hlt : Ex < Ey) by lia.
    apply Qle_trans with (pow2 (Ex + 1)).
    + rewrite <- (onGrid_pow2 (ulpExp x) (Ex + 1)) by lia.
      apply onGrid_mono. now apply Qlt_le_weak.
    + apply Qle_trans with (pow2 Ey); [apply pow2_le; lia|].
      rewrite <- (onGrid_pow2 (ulpExp y) Ey) by lia.
      apply onGrid_mono. apply Y2. lia.
Qed.

Lemma nearest_comp (x y : Q) : (0 < x)%Q -> (x == y)%Q -> (nearest x == nearest y)%Q.
Proof.
  intros Hx E. unfold nearest, ulpExp. rewrite (ilog2_comp x y Hx E).
  unfold onGrid. now rewrite (rne_comp (x / _) (y / pow2 (Z.max (ilog2 y) (-1022) - 52)))
    by now rewrite E.
Qed.

Lemma nearest_nonneg (x : Q) : (0 < x)%Q -> (0 <= nearest x)%Q.
Proof.
  intros Hx. unfold nearest, onGrid. pose proof (pow2_pos (ulpExp x)) as P.
  apply Qmult_le_0_compat; [|lra]. change 0%Q with (inject_Z 0). rewrite <- Zle_Qle.
  rewrite <- (rne_Z 0). apply rne_mono. change (inject_Z 0) with 0%Q.
  unfold Qdiv. apply Qmult_le_0_compat; [lra|]. apply Qinv_le_0_compat. lra.
Qed.

(** A double: [k * 2^u] with [|k| <= 2^53], not below the last subnormal
    place and below [2^1024]. *)
Definition isDouble (x : Q) : Prop :=
  exists k u, (x == inject_Z k * pow2 u)%Q /\ Z.abs k <= 2 ^ 53 /\ -1074 <= u /\
              (Qabs x < pow2 1024)%Q.

Lemma nearest_double (x : Q) (k u : Z) :
  (0 < x)%Q -> (x == inject_Z k * pow2 u)%Q -> k < 2 ^ 53 -> -1074 <= u ->
  (nearest x == x)%Q.
Proof.
  intros Hx E Hk Hu. unfold nearest.
  destruct (ulpExp_bounds x Hx) as (U & _ & X2). rewrite U.
  set (Ex := Z.max (ilog2 x) (-1022)) in *.
  assert (Hle : Ex - 52 <= u).
  { destruct (Z_le_gt_dec (Ex - 52) u) as [H | H]; [exact H | exfalso].
    assert (Hx2 : (pow2 Ex <= x)%Q) by (apply X2; lia).
    assert (Hup : (x < pow2 (53 + u))%Q).
    { rewrite E, pow2_add. pose proof (pow2_pos u) as P.
      apply Qmult_lt_r; [exact P|]. rewrite pow2_Z by lia. rewrite <- Zlt_Qlt. exact Hk. }
    assert (A : (pow2 Ex < pow2 (53 + u))%Q) by lra. apply pow2_lt_inv in A. lia. }
  apply (onGrid_fix (Ex - 52) (k * 2 ^ (u - (Ex - 52)))).
  rewrite E, inject_Z_mult, <- pow2_Z by lia.
  rewrite <- Qmult_assoc, <- pow2_add. now replace (u - (Ex - 52) + (Ex - 52)) with u by lia.
Qed.

Lemma roundPos_nearest (x : Q) :
  roundPos x = if Qle_bool (pow2 1024) (nearest x) then PInf else Fin (Qred (nearest x)).
Proof. reflexivity. Qed.

Lemma roundPos_comp (x y : Q) : (0 < x)%Q -> (x == y)%Q -> roundPos x = roundPos y.
Proof.
  intros Hx E. rewrite !roundPos_nearest. pose proof (nearest_comp x y Hx E) as En.
  replace (Qle_bool (pow2 1024) (nearest y)) with (Qle_bool (pow2 1024) (nearest x)).
  - destruct (Qle_bool _ _); [reflexivity|]. f_equal. now apply Qred_complete.
  - destruct (Qle_bool (pow2 1024) (nearest x)) eqn:A; symmetry.
    + apply Qle_bool_iff. apply Qle_bool_iff in A. now rewrite <- En.
    + apply Qle_bool_false_iff. apply Qle_bool_false_iff in A. now rewrite <- En.
Qed.

Lemma round64_pos (x : Q) : (0 < x)%Q -> round64 x = roundPos x.
Proof.
  intros H. unfold round64.
  destruct (Qcompare_spec x 0) as [C | C | C]; try reflexivity; exfalso; lra.
Qed.

Lemma round64_neg (x : Q) : (x < 0)%Q -> round64 x = nneg (roundPos (- x)).
Proof.
  intros H. unfold round64.
  destruct (Qcompare_spec x 0) as [C | C | C]; try reflexivity; exfalso; lra.
Qed.

Lemma round64_zero (x : Q) : (x == 0)%Q -> round64 x = Fin 0.
Proof.
  intros H. unfold round64.
  destruct (Qcompare_spec x 0) as [C | C | C]; try reflexivity; exfalso; lra.
Qed.

Lemma round64_comp (x y : Q) : (x == y)%Q -> round64 x = round64 y.
Proof.
  intros E. destruct (Q_dec x 0) as [[H | H] | H].
  - rewrite (round64_neg x H), (round64_neg y) by now rewrite <- E.
    f_equal. apply roundPos_comp; [lra | now rewrite E].
  - rewrite (round64_pos x H), (round64_pos y) by now rewrite <- E.
    now apply roundPos_comp.
  - rewrite (round64_zero x H), (round64_zero y) by now rewrite <- E. reflexivity.
Qed.

(* ------------------------------------------------------------------ *)
(** * Order of numbers *)

(** Comparisons of numbers, read as propositions on rationals. *)
Ltac order_num :=
  repeat match goal with
         | x : num |- _ => destruct x
         end;
  cbn [nle nlt nmin nmax nneg nabs ngt nge] in *;
  repeat match goal with
         | H : Qle_bool _ _ = true |- _ => apply Qle_bool_iff in H
         | H : Qle_bool _ _ = false |- _ => apply Qle_bool_false_iff in H
         | H : Qltb _ _ = true |- _ => apply Qltb_iff in H
         | H : Qltb _ _ = false |- _ => apply Qltb_false_iff in H
         end;
  try discriminate; try congruence; try reflexivity; try tauto;
  repeat match goal with
         | |- Qle_bool _ _ = true => apply Qle_bool_iff
         | |- Qle_bool _ _ = false => apply Qle_bool_false_iff
         | |- Qltb _ _ = true => apply Qltb_iff
         | |- Qltb _ _ = false => apply Qltb_false_iff
         end;
  try lra.

Lemma nle_refl (x : num) : x <> NaN -> nle x x = true.
Proof. intros H. order_num. Qed.

Lemma nle_trans (x y z : num) : nle x y = true -> nle y z = true -> nle x z = true.
Proof. intros H1 H2. order_num. Qed.

Lemma nlt_trans (x y z : num) : nlt x y = true -> nlt y z = true -> nlt x z = true.
Proof. intros H1 H2. order_num. Qed.

Lemma nle_lt_trans (x y z : num) : nle x y = true -> nlt y z = true -> nlt x z = true.
Proof. intros H1 H2. order_num. Qed.

Lemma nlt_le_trans (x y z : num) : nlt x y = true -> nle y z = true -> nlt x z = true.
Proof. intros H1 H2. order_num. Qed.

Lemma nlt_irrefl (x : num) : nlt x x = false.
Proof. order_num. Qed.

Lemma nlt_nle (x y : num) : nlt x y = true -> nle x y = true.
Proof. intros H. order_num. Qed.

Lemma nle_not_nlt (x y : num) : nle x y = true -> nlt y x = false.
Proof. intros H. order_num. Qed.

Lemma nlt_not_nle (x y : num) : nlt x y = true -> nle y x = false.
Proof. intros H. order_num. Qed.

Lemma not_nlt_nle (x y : num) : x <> NaN -> y <> NaN -> nlt x y = false -> nle y x = true.
Proof. intros Hx Hy H. order_num. Qed.

Lemma not_nle_nlt (x y : num) : x <> NaN -> y <> NaN -> nle x y = false -> nlt y x = true.
Proof. intros Hx Hy H. order_num. Qed.

Lemma nle_notNaN (x y : num) : nle x y = true -> x <> NaN /\ y <> NaN.
Proof. intros H. split; intros ->; order_num. Qed.

Lemma nlt_notNaN (x y : num) : nlt x y = true -> x <> NaN /\ y <> NaN.
Proof. intros H. split; intros ->; order_num. Qed.

Lemma nle_nneg (x y : num) : nle (nneg x) (nneg y) = nle y x.
Proof.
  destruct x as [a | | |], y as [b | | |]; try reflexivity. cbn [nneg nle].
  destruct (Qle_bool b a) eqn:E.
  - apply Qle_bool_iff. apply Qle_bool_iff in E. lra.
  - apply Qle_bool_false_iff. apply Qle_bool_false_iff in E. lra.
Qed.

Lemma nle_antisym_Fin (x y : num) :
  nle x y = true -> nle y x = true ->
  (x = PInf /\ y = PInf) \/ (x = NInf /\ y = NInf) \/
  exists a b, x = Fin a /\ y = Fin b /\ (a == b)%Q.
Proof.
  intros H1 H2. destruct x as [a | | |], y as [b | | |]; try discriminate; auto.
  right. right. exists a, b. cbn [nle] in *.
  apply Qle_bool_iff in H1, H2. repeat split. lra.
Qed.

(* ------------------------------------------------------------------ *)
(** * The rounded operations *)

Lemma roundPos_cases (x : Q) :
  (0 < x)%Q ->
  (roundPos x = PInf /\ (pow2 1024 <= nearest x)%Q) \/
  (exists r, roundPos x = Fin r /\ (r == nearest x)%Q /\ Qred r = r /\
             (0 <= r < pow2 1024)%Q).
Proof.
  intros Hx. rewrite roundPos_nearest. destruct (Qle_bool _ _) eqn:E.
  - left. apply Qle_bool_iff in E. now split.
  - right. apply Qle_bool_false_iff in E. exists (Qred (nearest x)).
    pose proof (Qred_correct (nearest x)) as C. pose proof (nearest_nonneg x Hx).
    split; [reflexivity|]. split; [exact C|]. split.
    + apply Qred_complete. exact C.
    + rewrite C. split; assumption.
Qed.

Lemma roundPos_mono (x y : Q) :
  (0 < x)%Q -> (x <= y)%Q -> nle (roundPos x) (roundPos y) = true.
Proof.
  intros Hx H. pose proof (nearest_mono x y Hx H) as Hm.
  destruct (roundPos_cases x Hx) as [[-> Hx1] | (r & -> & Er & _ & Hr)];
    destruct (roundPos_cases y ltac:(lra)) as [[-> Hy1] | (s & -> & Es & _ & Hs)];
    cbn [nle]; try reflexivity.
  - exfalso. lra.
  - apply Qle_bool_iff. lra.
Qed.

Lemma roundPos_nonneg (x : Q) : (0 < x)%Q -> nle (Fin 0) (roundPos x) = true.
Proof.
  intros Hx. destruct (roundPos_cases x Hx) as [[-> _] | (r & -> & _ & _ & Hr)];
    cbn [nle]; [reflexivity|]. apply Qle_bool_iff. lra.
Qed.

Lemma round64_notNaN (x : Q) : round64 x <> NaN.
Proof.
  destruct (Q_dec x 0) as [[H | H] | H].
  - rewrite (round64_neg x H).
    destruct (roundPos_cases (- x) ltac:(lra)) as [[-> _] | (r & -> & _)]; discriminate.
  - rewrite (round64_pos x H).
    destruct (roundPos_cases x H) as [[-> _] | (r & -> & _)]; discriminate.
  - rewrite (round64_zero x H). discriminate.
Qed.

Lemma nneg_involutive (x : num) : nneg (nneg x) = x.
Proof.
  destruct x as [[n d] | | |]; try reflexivity. cbn [nneg]. unfold Qopp. cbn [Qnum Qden].
  now rewrite Z.opp_involutive.
Qed.


Lemma round64_mono (x y : Q) : (x <= y)%Q -> nle (round64 x) (round64 y) = true.
Proof.
  intros H. destruct (Q_dec x 0) as [[Hx | Hx] | Hx]; destruct (Q_dec y 0) as [[Hy | Hy] | Hy];
    try (exfalso; lra).
  - rewrite (round64_neg x Hx), (round64_neg y Hy), nle_nneg.
    apply roundPos_mono; lra.
  - rewrite (round64_neg x Hx), (round64_pos y Hy).
    apply nle_trans with (Fin 0); [|now apply roundPos_nonneg].
    change (Fin 0) with (nneg (Fin 0)). rewrite nle_nneg. apply roundPos_nonneg. lra.
  - rewrite (round64_neg x Hx), (round64_zero y Hy).
    change (Fin 0) with (nneg (Fin 0)). rewrite nle_nneg. apply roundPos_nonneg. lra.
  - rewrite (round64_pos x Hx), (round64_pos y Hy). now apply roundPos_mono.
  - rewrite (round64_zero x Hx), (round64_pos y Hy). now apply roundPos_nonneg.
  - rewrite (round64_zero x Hx), (round64_zero y Hy). reflexivity.
Qed.

Lemma round64_nonneg (x : Q) : (0 <= x)%Q -> nle (Fin 0) (round64 x) = true.
Proof. intros H. rewrite <- (round64_zero 0) by reflexivity. now apply round64_mono. Qed.

Lemma round64_nonpos (x : Q) : (x <= 0)%Q -> nle (round64 x) (Fin 0) = true.
Proof. intros H. rewrite <- (round64_zero 0) by reflexivity. now apply round64_mono. Qed.

Lemma Qred_inject_Z (z : Z) : Qred (inject_Z z) = inject_Z z.
Proof.
  unfold Qred, inject_Z.
  pose proof (Z.ggcd_correct_divisors z 1) as H. pose proof (Z.ggcd_gcd z 1) as G.
  destruct (Z.ggcd z 1) as [g [aa bb]]. cbn [fst snd] in *. rewrite Z.gcd_1_r in G.
  subst g. destruct H as [H1 H2].
  replace aa with z by lia. replace bb with 1 by lia. reflexivity.
Qed.

Lemma isDouble_Z (z : Z) : Z.abs z <= 2 ^ 53 -> isDouble (inject_Z z).
Proof.
  intros H. exists z, 0. split; [|split; [exact H | split; [lia|]]].
  - change (pow2 0) with 1%Q. ring.
  - apply Qabs_Qlt_condition. pose proof (pow2_lt 53 1024 ltac:(lia)) as P.
    rewrite (pow2_Z 53) in P by lia.
    assert (A : (inject_Z (- 2 ^ 53) <= inject_Z z <= inject_Z (2 ^ 53))%Q)
      by (rewrite <- !Zle_Qle; lia).
    rewrite inject_Z_opp in A. lra.
Qed.

Lemma roundPos_double (x : Q) : (0 < x)%Q -> isDouble x -> roundPos x = Fin (Qred x).
Proof.
  intros Hx (k & u & E & Hk & Hu & Hb).
  assert (Hx' : (x < pow2 1024)%Q) by (apply Qabs_Qlt_condition in Hb; lra).
  assert (Hn : (nearest x == x)%Q).
  { pose proof (pow2_pos u) as P.
    destruct (Z.eq_dec k (2 ^ 53)) as [-> | Hne].
    - apply (nearest_double x 1 (53 + u)); [exact Hx | | lia | lia].
      rewrite E, pow2_add, (pow2_Z 53) by lia. ring.
    - apply (nearest_double x k u); [exact Hx | exact E | lia | exact Hu]. }
  rewrite roundPos_nearest.
  replace (Qle_bool (pow2 1024) (nearest x)) with false.
  - f_equal. now apply Qred_complete.
  - symmetry. apply Qle_bool_false_iff. lra.
Qed.

Lemma isDouble_opp (x : Q) : isDouble x -> isDouble (- x).
Proof.
  intros (k & u & E & Hk & Hu & Hb). exists (- k), u.
  split; [|split; [lia | split; [exact Hu|]]].
  - rewrite E, inject_Z_opp. ring.
  - now rewrite Qabs_opp.
Qed.

(** A double is kept as it is. *)
Lemma round64_double (x : Q) : isDouble x -> round64 x = Fin (Qred x).
Proof.
  intros H. destruct (Q_dec x 0) as [[Hx | Hx] | Hx].
  - rewrite (round64_neg x Hx), (roundPos_double (- x)) by (try lra; now apply isDouble_opp).
    cbn [nneg]. rewrite Qred_opp. f_equal.
    change (- - Qred x)%Q with (val (nneg (nneg (Fin (Qred x))))).
    now rewrite nneg_involutive.
  - rewrite (round64_pos x Hx). now apply roundPos_double.
  - rewrite (round64_zero x Hx). f_equal. symmetry.
    now rewrite (Qred_complete x 0 Hx).
Qed.

Lemma round64_Z (z : Z) : Z.abs z <= 2 ^ 53 -> round64 (inject_Z z) = Fin (inject_Z z).
Proof.
  intros H. rewrite (round64_double _ (isDouble_Z z H)). now rewrite Qred_inject_Z.
Qed.

Lemma rne_bound (x : Q) (k : Z) : (0 <= x <= inject_Z k)%Q -> 0 <= rne x <= k.
Proof.
  intros [H1 H2]. split.
  - rewrite <- (rne_Z 0). now apply rne_mono.
  - rewrite <- (rne_Z k). now apply rne_mono.
Qed.

Lemma roundPos_isDouble (x r : Q) : (0 < x)%Q -> roundPos x = Fin r -> isDouble r /\ Qred r = r.
Proof.
  intros Hx E. destruct (roundPos_cases x Hx) as [[E' _] | (r' & E' & Er & Hc & Hr)];
    [congruence|].
  rewrite E in E'. injection E' as <-. split; [|exact Hc].
  destruct (ulpExp_bounds x Hx) as (U & X1 & _).
  set (Ex := Z.max (ilog2 x) (-1022)) in *. pose proof (pow2_pos (ulpExp x)) as P.
  exists (rne (x / pow2 (ulpExp x))), (ulpExp x).
  split; [exact Er|]. split; [|split; [lia|]].
  - assert (B : 0 <= rne (x / pow2 (ulpExp x)) <= 2 ^ 53).
    { apply rne_bound. split.
      - unfold Qdiv. apply Qmult_le_0_compat; [lra|]. apply Qinv_le_0_compat. lra.
      - apply Qle_shift_div_r; [exact P|]. rewrite <- pow2_Z, <- pow2_add by lia.
        replace (53 + ulpExp x) with (Ex + 1) by lia. lra. }
    lia.
  - apply Qabs_Qlt_condition. lra.
Qed.

(** What the rounding returns is a double in lowest terms. *)
Lemma round64_isDouble (x r : Q) : round64 x = Fin r -> isDouble r /\ Qred r = r.
Proof.
  intros E. destruct (Q_dec x 0) as [[Hx | Hx] | Hx].
  - rewrite (round64_neg x Hx) in E. destruct (roundPos (- x)) as [s | | |] eqn:Es;
      try discriminate. cbn [nneg] in E. injection E as <-.
    destruct (roundPos_isDouble (- x) s ltac:(lra) Es) as [D C]. split.
    + now apply isDouble_opp.
    + now rewrite Qred_opp, C.
  - rewrite (round64_pos x Hx) in E. now apply (roundPos_isDouble x).
  - rewrite (round64_zero x Hx) in E. injection E as <-. split; [|reflexivity].
    apply (isDouble_Z 0). lia.
Qed.

(* ------------------------------------------------------------------ *)
(** * Counting loops *)

Lemma in_range (i n : Z) : In i (range n) <-> 0 <= i < n.
Proof.
  unfold range. rewrite in_map_iff. split.
  - intros (x & <- & H). apply in_seq in H. lia.
  - intros H. exists (Z.to_nat i). split; [lia|]. apply in_seq. lia.
Qed.

Lemma range_length (n : Z) : length (range n) = Z.to_nat n.
Proof. unfold range. now rewrite length_map, length_seq. Qed.

Lemma range_nonpos (n : Z) : n <= 0 -> range n = [].
Proof. intros H. unfold range. now replace (Z.to_nat n) with O by lia. Qed.

Lemma range_succ (n : Z) : 0 <= n -> range (n + 1) = range n ++ [n].
Proof.
  intros H. unfold range.
  replace (Z.to_nat (n + 1)) with (S (Z.to_nat n)) by lia.
  rewrite seq_S, map_app. simpl. do 2 f_equal. lia.
Qed.

Lemma NoDup_range (n : Z) : NoDup (range n).
Proof.
  unfold range. apply Finite.Injective_map_NoDup.
  - intros x y H. lia.
  - apply seq_NoDup.
Qed.

Lemma in_rangeIncl (i lo hi : Z) : In i (rangeIncl lo hi) <-> lo <= i <= hi.
Proof.
  unfold rangeIncl. rewrite in_map_iff. split.
  - intros (x & <- & H). apply in_range in H. lia.
  - intros H. exists (i - lo). split; [lia|]. apply in_range. lia.
Qed.

Lemma rangeIncl_empty (lo hi : Z) : hi < lo -> rangeIncl lo hi = [].
Proof. intros H. unfold rangeIncl. now rewrite range_nonpos by lia. Qed.

Lemma rangeIncl_last (lo hi : Z) :
  lo <= hi -> rangeIncl lo hi = rangeIncl lo (hi - 1) ++ [hi].
Proof.
  intros H. unfold rangeIncl.
  replace (hi - lo + 1) with ((hi - lo) + 1) by lia.
  rewrite range_succ by lia. rewrite map_app. simpl.
  replace (hi - 1 - lo + 1) with (hi - lo) by lia.
  do 2 f_equal. lia.
Qed.

Lemma lengthZ_nonneg {A : Type} (l : list A) : 0 <= lengthZ l.
Proof. unfold lengthZ. lia. Qed.

(* ------------------------------------------------------------------ *)
(** * Outcomes *)

(** Every exception that [r] can throw satisfies [P]. *)
Definition throwsOnly {A : Type} (P : error -> Prop) (r : result A) : Prop :=
  forall e, r = Throw e -> P e.

Lemma throwsOnly_Ok {A : Type} (P : error -> Prop) (a : A) : throwsOnly P (Ok a).
Proof. intros e H. discriminate. Qed.

Lemma throwsOnly_Diverge {A : Type} (P : error -> Prop) : throwsOnly P (@Diverge A).
Proof. intros e H. discriminate. Qed.

Lemma throwsOnly_bind {A B : Type} (P : error -> Prop) (r : result A) (f : A -> result B) :
  throwsOnly P r -> (forall a, r = Ok a -> throwsOnly P (f a)) -> throwsOnly P (bind r f).
Proof.
  intros Hr Hf e H. destruct r as [a | e' |]; simpl in H.
  - now apply (Hf a eq_refl).
  - apply Hr. now inversion H.
  - discriminate.
Qed.

Lemma throwsOnly_weaken {A : Type} (P Q : error -> Prop) (r : result A) :
  (forall e, P e -> Q e) -> throwsOnly P r -> throwsOnly Q r.
Proof. intros H Hr e He. apply H, Hr, He. Qed.

Lemma throwsOnly_foldM {A B : Type} (P : error -> Prop) (f : A -> B -> result A) (l : list B) :
  (forall a x, In x l -> throwsOnly P (f a x)) -> forall a, throwsOnly P (Distance.foldM f l a).
Proof.
  induction l as [| x l IH]; intros Hf a; simpl.
  - apply throwsOnly_Ok.
  - apply throwsOnly_bind.
    + apply Hf. now left.
    + intros a' _. apply IH. intros a0 y Hy. apply Hf. now right.
Qed.

Lemma throwsOnly_fillPairs (P : error -> Prop) (n : Z) (f : Z -> Z -> result num) (dist : Matrix.t) :
  (forall i j, 0 <= i < j -> j < n -> throwsOnly P (f i j)) ->
  throwsOnly P (Distance.fillPairs n f dist).
Proof.
  intros Hf. unfold Distance.fillPairs. apply throwsOnly_foldM.
  intros m i Hi. apply in_range in Hi. apply throwsOnly_foldM.
  intros m' j Hj. apply in_rangeIncl in Hj. apply throwsOnly_bind.
  - apply Hf; lia.
  - intros d _. apply throwsOnly_Ok.
Qed.

(** [r] throws nothing: it returns or runs out of fuel. *)
Definition noThrow {A : Type} (r : result A) : Prop := throwsOnly (fun _ => False) r.

Lemma skipUnmatched_noThrow (fuel : nat) (bMatched : list bool) (bIdx : Z) :
  noThrow (Distance.skipUnmatched fuel bMatched bIdx).
Proof.
  revert bIdx. induction fuel as [| fuel IH]; intros bIdx; simpl;
    destruct (nthZ bMatched bIdx false); try apply throwsOnly_Ok.
  - apply throwsOnly_Diverge.
  - apply IH.
Qed.

Lemma jaroWinklerDistance_noThrow (a b : list string) (p : Q) (lenA lenB : option Z) :
  noThrow (Distance.jaroWinklerDistance a b p lenA lenB).
Proof.
  unfold Distance.jaroWinklerDistance.
  destruct (_ && _); [apply throwsOnly_Ok|].
  destruct (_ || _); [apply throwsOnly_Ok|].
  destruct (Distance.jaroMatches _ _ _ _) as [[aM bM] matches].
  destruct (matches =? 0); [apply throwsOnly_Ok|].
  apply throwsOnly_bind.
  - unfold Distance.jaroTranspositions. apply throwsOnly_foldM.
    intros [t bIdx] i _. destruct (negb _); [apply throwsOnly_Ok|].
    apply throwsOnly_bind; [apply skipUnmatched_noThrow|].
    intros; apply throwsOnly_Ok.
  - intros tb _. destruct (Qeq_bool p 0); apply throwsOnly_Ok.
Qed.

Lemma DISTANCE_FUNCS_noThrow (Math_exp : num -> num) (Math_sqrt : Q -> Q) (name : string) (f : Distance.DistFunc) :
  Distance.assoc (Distance.DISTANCE_FUNCS Math_exp Math_sqrt) name = Some f ->
  forall a b lenA lenB, noThrow (f a b lenA lenB).
Proof.
  unfold Distance.DISTANCE_FUNCS. simpl.
  repeat match goal with
         | |- (if ?c then _ else _) = _ -> _ =>
             destruct c; [intros H; injection H as <-; intros; try apply throwsOnly_Ok |]
         end.
  - apply jaroWinklerDistance_noThrow.
  - discriminate.
Qed.

(* ------------------------------------------------------------------ *)
(** * Dispatch and validation in the main functions *)

Lemma fold_left_ext {A B : Type} (f g : A -> B -> A) (l : list B) :
  (forall a x, In x l -> f a x = g a x) -> forall a, fold_left f l a = fold_left g l a.
Proof.
  induction l as [| x l IH]; intros H a; simpl; [reflexivity|].
  rewrite H by now left. apply IH. intros a' y Hy. apply H. now right.
Qed.

Module HierarchicalDispatch.

Import Hierarchical.

Definition isTypeError (e : error) : Prop := exists msg, e = TypeError msg.

Lemma mergeStep_throws (method : string) (st : state) :
  throwsOnly isTypeError (mergeStep method st).
Proof.
  unfold mergeStep. destruct (closestPair _ _ _) as [[bd bi] bj].
  destruct (bi <? 0).
  - intros e H. injection H as <-. now eexists.
  - apply throwsOnly_Ok.
Qed.

Lemma mergeLoop_throws (fuel : nat) (method : string) (k : Z) (st : state) :
  throwsOnly isTypeError (mergeLoop fuel method k st).
Proof.
  revert st. induction fuel as [| fuel IH]; intros st; simpl;
    destruct (lengthZ (active st) >? k); try apply throwsOnly_Ok.
  - apply throwsOnly_Diverge.
  - apply throwsOnly_bind; [apply mergeStep_throws|]. intros st' _.
    apply throwsOnly_bind; [apply IH|]. intros r _. apply throwsOnly_Ok.
Qed.

Lemma hierarchical_throws (dist : Matrix.t) (k : Z) (method : string) :
  throwsOnly isTypeError (hierarchical dist k method).
Proof.
  unfold hierarchical, run. apply throwsOnly_bind; [apply mergeLoop_throws|].
  intros r _. apply throwsOnly_Ok.
Qed.

(** The eight linkage rules that [hierarchical] names. *)
Definition linkageRules : list string :=
  ["single"; "complete"; "average"; "mcquitty"; "median"; "centroid"; "ward.D"; "ward.D2"].

Lemma not_linkage_eqb (method name : string) :
  ~ In method linkageRules -> In name linkageRules -> String.eqb method name = false.
Proof.
  intros Hn Hi. apply String.eqb_neq. intros ->. contradiction.
Qed.

Lemma lanceWilliams_default (method : string) (ni nj nk dik djk dij : num) :
  ~ In method linkageRules ->
  lanceWilliams method ni nj nk dik djk dij = lanceWilliams "average" ni nj nk dik djk dij.
Proof.
  intros H. unfold lanceWilliams.
  rewrite !(not_linkage_eqb method) by (assumption || (simpl; tauto)).
  reflexivity.
Qed.

Lemma mergeStep_default (method : string) (st : state) :
  ~ In method linkageRules -> mergeStep method st = mergeStep "average" st.
Proof.
  intros H. unfold mergeStep.
  destruct (closestPair _ _ _) as [[bd bi] bj].
  destruct (bi <? 0); [reflexivity|].
  do 2 f_equal. unfold updateDistances. apply fold_left_ext.
  intros d0 ck _. now rewrite lanceWilliams_default.
Qed.

Lemma mergeLoop_default (fuel : nat) (method : string) (k : Z) (st : state) :
  ~ In method linkageRules -> mergeLoop fuel method k st = mergeLoop fuel "average" k st.
Proof.
  intros H. revert st. induction fuel as [| fuel IH]; intros st; simpl; [reflexivity|].
  destruct (lengthZ (active st) >? k); [|reflexivity].
  rewrite mergeStep_default by assumption.
  destruct (mergeStep "average" st) as [st' | e |]; simpl; [|reflexivity|reflexivity].
  now rewrite IH.
Qed.

Lemma init_default (dist : Matrix.t) (method : string) :
  ~ In method linkageRules -> init dist method = init dist "average".
Proof.
  intros H. unfold init.
  rewrite (not_linkage_eqb method "ward.D2") by (assumption || (simpl; tauto)).
  reflexivity.
Qed.

End HierarchicalDispatch.

Module FacadeFacts.

Import Facade.

Section WithMath.

Variable Math_exp : num -> num.
Variable Math_sqrt : Q -> Q.
Variable inheritedCall : string -> list string -> list string -> option num.
Variable numberToString : Q -> string.

Local Abbreviation clusterData := (Facade.clusterData Math_exp Math_sqrt inheritedCall numberToString).
Local Abbreviation clusterSequences :=
  (Facade.clusterSequences Math_exp Math_sqrt inheritedCall numberToString).
Local Abbreviation clusterStringData := (Facade.clusterStringData Math_exp Math_sqrt inheritedCall).
Local Abbreviation computeDistanceMatrix :=
  (Distance.computeDistanceMatrix Math_exp Math_sqrt inheritedCall).

(** The number of observations that [clusterData] compares [k] with. *)
Definition observations (data : input) : Z :=
  match data with
  | Sequences d => lengthZ d
  | Prepared t => lengthZ (sequenceData t)
  | Numeric rows => lengthZ rows
  end.

(** The noun of the message: numeric rows that pass [isNumericData] are
    "observations", everything else is "sequences". *)
Definition noun (data : input) : string :=
  match data with
  | Numeric rows => if isNumericData rows then "observations" else "sequences"
  | _ => "sequences"
  end.

Definition kTooSmall : error := Error "k must be >= 2".

Definition kTooLarge (k n : Z) (what : string) : error :=
  Error ("k=" ++ showZ k ++ " exceeds number of " ++ what ++ " (" ++ showZ n ++ ")").

Definition kValidationError (e : error) : Prop :=
  e = kTooSmall \/ exists k n what, e = kTooLarge k n what.

Definition unknownDissimilarity (name : string) : error :=
  Error ("Unknown dissimilarity: " ++ name).

(** What the code after the two checks on [k] can throw. *)
Definition laterError (e : error) : Prop :=
  (exists name, e = unknownDissimilarity name) \/ exists msg, e = TypeError msg.

Lemma laterError_not_kValidation (e : error) : laterError e -> ~ kValidationError e.
Proof.
  unfold laterError, kValidationError, unknownDissimilarity, kTooSmall, kTooLarge.
  intros [(name & ->) | (msg & ->)] [H | (k & n & what & H)]; simpl in H; discriminate.
Qed.

Lemma computeDistanceMatrix_throws (sequences : list (list string)) (name : string)
    (weighted : bool) (lambda_ : Q) :
  throwsOnly laterError (computeDistanceMatrix sequences name weighted lambda_).
Proof.
  unfold Distance.computeDistanceMatrix.
  destruct (String.eqb name "hamming").
  { apply throwsOnly_fillPairs. intros; apply throwsOnly_Ok. }
  unfold Distance.lookup.
  destruct (Distance.assoc _ name) as [f|] eqn:Hf.
  - apply throwsOnly_fillPairs. intros i j _ _.
    eapply throwsOnly_weaken; [|eapply DISTANCE_FUNCS_noThrow, Hf]. intros e [].
  - destruct (existsb _ _).
    + apply throwsOnly_fillPairs. intros i j _ _. unfold Distance.callInherited.
      destruct (inheritedCall _ _ _); [apply throwsOnly_Ok|].
      intros e H. injection H as <-. right. now eexists.
    + intros e H. injection H as <-. left. now eexists.
Qed.

Lemma computeNumericDistanceMatrix_noThrow (rows : list (list Q)) (metric : string) :
  noThrow (Distance.computeNumericDistanceMatrix Math_sqrt rows metric).
Proof.
  unfold Distance.computeNumericDistanceMatrix.
  apply throwsOnly_fillPairs. intros; apply throwsOnly_Ok.
Qed.

Lemma solve_throws (dist : Matrix.t) (k : Z) (method : string) :
  throwsOnly laterError (solve dist k method).
Proof.
  unfold solve. destruct (String.eqb method "pam"); [apply throwsOnly_Ok|].
  eapply throwsOnly_weaken; [|apply HierarchicalDispatch.hierarchical_throws].
  intros e H. now right.
Qed.

Lemma clusterStringData_small (seqData : SequenceData) (k : Z) (method : string)
    (opts : option options) :
  k < 2 -> clusterStringData seqData k method opts = Throw kTooSmall.
Proof.
  intros H. unfold Facade.clusterStringData.
  now replace (k <? 2) with true by lia.
Qed.

Lemma clusterStringData_large (seqData : SequenceData) (k : Z) (method : string)
    (opts : option options) :
  2 <= k -> lengthZ seqData < k ->
  clusterStringData seqData k method opts = Throw (kTooLarge k (lengthZ seqData) "sequences").
Proof.
  intros H1 H2. unfold Facade.clusterStringData.
  replace (k <? 2) with false by lia.
  now replace (k >? lengthZ seqData) with true by lia.
Qed.

Lemma clusterStringData_valid (seqData : SequenceData) (k : Z) (method : string)
    (opts : option options) :
  2 <= k <= lengthZ seqData ->
  throwsOnly laterError (clusterStringData seqData k method opts).
Proof.
  intros H. unfold Facade.clusterStringData.
  replace (k <? 2) with false by lia.
  replace (k >? lengthZ seqData) with false by lia.
  apply throwsOnly_bind; [apply computeDistanceMatrix_throws|]. intros dist _.
  apply throwsOnly_bind; [apply solve_throws|]. intros a _. apply throwsOnly_Ok.
Qed.

Lemma length_numberRows (rows : list (list Q)) :
  lengthZ (map (fun row => map (fun v => Some (numberToString v)) row) rows) = lengthZ rows.
Proof. unfold lengthZ. now rewrite length_map. Qed.

(** C8. [clusterData] and [clusterSequences] throw whenever [k < 2] or
    [k] exceeds the number of observations; the outcome is then the
    exception alone, whatever the metric functions are, so no distance
    enters it; and for [2 <= k <= n] neither of the two errors on [k] is
    raised. *)
Theorem k_validation (data : input) (k : Z) (opts : option options) :
  clusterSequences data k opts = clusterData data k opts /\
  (k < 2 -> clusterData data k opts = Throw kTooSmall) /\
  (2 <= k -> observations data < k ->
   clusterData data k opts = Throw (kTooLarge k (observations data) (noun data))) /\
  (2 <= k <= observations data ->
   forall e, clusterData data k opts = Throw e -> ~ kValidationError e).
Proof.
  split; [reflexivity|].
  unfold Facade.clusterData. destruct data as [d | t | rows]; simpl.
  - repeat split.
    + apply clusterStringData_small.
    + apply clusterStringData_large.
    + intros H e He. eapply laterError_not_kValidation, clusterStringData_valid; eauto.
  - repeat split.
    + apply clusterStringData_small.
    + apply clusterStringData_large.
    + intros H e He. eapply laterError_not_kValidation, clusterStringData_valid; eauto.
  - destruct (isNumericData rows); repeat split.
    + intros H. now replace (k <? 2) with true by lia.
    + intros H1 H2. replace (k <? 2) with false by lia.
      now replace (k >? lengthZ rows) with true by lia.
    + intros H e He. replace (k <? 2) with false in He by lia.
      replace (k >? lengthZ rows) with false in He by lia.
      apply laterError_not_kValidation. revert e He.
      match goal with |- forall e, ?r = Throw e -> _ => change (throwsOnly laterError r) end.
      apply throwsOnly_bind.
      { eapply throwsOnly_weaken; [|apply computeNumericDistanceMatrix_noThrow]. intros e []. }
      intros dist _. apply throwsOnly_bind; [apply solve_throws|].
      intros a _. apply throwsOnly_Ok.
    + apply clusterStringData_small.
    + intros H1 H2.
      rewrite clusterStringData_large by (rewrite ?length_numberRows; lia).
      now rewrite length_numberRows.
    + intros H e He. eapply laterError_not_kValidation, clusterStringData_valid; eauto.
      now rewrite length_numberRows.
Qed.

Lemma fillPairs_Ok (n : Z) (f : Z -> Z -> result num) (dist : Matrix.t) :
  (forall i j, exists v, f i j = Ok v) -> exists m, Distance.fillPairs n f dist = Ok m.
Proof.
  intros Hf. unfold Distance.fillPairs.
  assert (Hin : forall i l m, exists m',
             Distance.foldM
               (fun dist j => d <- f i j ;; Ok (Matrix.set (Matrix.set dist i j d) j i d))
               l m = Ok m').
  { intros i l. induction l as [| j l IH]; intros m; simpl; [now eexists|].
    destruct (Hf i j) as (v & ->). simpl. apply IH. }
  generalize (range n). intros l. revert dist.
  induction l as [| i l IH]; intros m; simpl; [now eexists|].
  destruct (Hin i (rangeIncl (i + 1) (n - 1)) m) as (m' & ->). simpl. apply IH.
Qed.

(** C10. An empty dataset never counts as numeric data, and with [k >= 2]
    it is turned down by the check of [k] against the number of sequences,
    whichever way the empty dataset is written. *)
Theorem empty_dataset_rejected (k : Z) (opts : option options) (labels : list string) :
  2 <= k ->
  isNumericData [] = false /\
  clusterData (Sequences []) k opts = Throw (kTooLarge k 0 "sequences") /\
  clusterData (Numeric []) k opts = Throw (kTooLarge k 0 "sequences") /\
  clusterData (Prepared (mkTNAData [] labels)) k opts = Throw (kTooLarge k 0 "sequences").
Proof.
  intros H. split; [reflexivity|].
  unfold Facade.clusterData. simpl.
  repeat split; now rewrite clusterStringData_large by (cbn; lia).
Qed.

(** C3 (sequence path). A name that is neither ["hamming"], nor a key of
    [DISTANCE_FUNCS], nor a member of [Object.prototype] is rejected, after
    the checks on [k] and before any pair is compared. *)
Lemma sequence_path_rejects_missing (seqData : SequenceData) (k : Z) (method name : string)
    (o : options) :
  2 <= k <= lengthZ seqData ->
  dissimilarity o = Some name ->
  String.eqb name "hamming" = false ->
  Distance.lookup Math_exp Math_sqrt name = Distance.Missing ->
  clusterStringData seqData k method (Some o) = Throw (unknownDissimilarity name).
Proof.
  intros Hk Hn Hh Hl. unfold Facade.clusterStringData.
  replace (k <? 2) with false by lia.
  replace (k >? lengthZ seqData) with false by lia.
  unfold optOr. rewrite Hn. unfold Distance.computeDistanceMatrix.
  rewrite Hh, Hl. reflexivity.
Qed.

(** C3 (numeric path). Rows of numbers are clustered under every
    dissimilarity name: the result echoes the name, and unless the name is
    ["manhattan"] its distances are the Euclidean ones. *)
Theorem numeric_path_accepts_any_name (rows : list (list Q)) (k : Z) (name : string)
    (o : options) :
  isNumericData rows = true ->
  2 <= k <= lengthZ rows ->
  dissimilarity o = Some name ->
  method o = None ->
  exists r,
    clusterData (Numeric rows) k (Some o) = Ok r /\
    cr_dissimilarity r = name /\
    (name <> "manhattan" ->
     Distance.computeNumericDistanceMatrix Math_sqrt rows "euclidean" = Ok (cr_distance r)).
Proof.
  intros Hnum Hk Hn Hm. unfold Facade.clusterData. rewrite Hnum.
  replace (k <? 2) with false by lia.
  replace (k >? lengthZ rows) with false by lia.
  unfold optOr. rewrite Hn, Hm.
  destruct (fillPairs_Ok (lengthZ rows)
              (fun i j => Ok ((if String.eqb name "manhattan"
                               then Distance.manhattanDistance
                               else Distance.euclideanDistance Math_sqrt)
                                (nthZ rows i []) (nthZ rows j [])))
              (Matrix.zeros (lengthZ rows) (lengthZ rows))) as (m & Hm').
  { intros; now eexists. }
  unfold Distance.computeNumericDistanceMatrix at 1. rewrite Hm'. simpl.
  eexists. split; [reflexivity|]. split; [reflexivity|]. simpl.
  intros Hne. apply String.eqb_neq in Hne. rewrite Hne in Hm'.
  exact Hm'.
Qed.

(** C9. Every method other than ["pam"] goes to [hierarchical], and a
    method that is none of the eight linkage rules yields what ["average"]
    yields. *)
Theorem unrecognised_method_is_average (dist : Matrix.t) (k : Z) (method : string) :
  method <> "pam" ->
  solve dist k method = Hierarchical.hierarchical dist k method /\
  (~ In method HierarchicalDispatch.linkageRules ->
   Hierarchical.hierarchical dist k method = Hierarchical.hierarchical dist k "average").
Proof.
  intros Hp. split.
  - unfold solve. apply String.eqb_neq in Hp. now rewrite Hp.
  - intros Hl. unfold Hierarchical.hierarchical, Hierarchical.run.
    rewrite HierarchicalDispatch.init_default, HierarchicalDispatch.mergeLoop_default
      by assumption.
    reflexivity.
Qed.

End WithMath.

Lemma k_validation_witness :
  Samples.clusterData (Sequences Samples.seqs6) 1 None = Throw kTooSmall /\
  Samples.clusterData (Sequences Samples.seqs6) 100 None = Throw (kTooLarge 100 6 "sequences") /\
  (forall e, Samples.clusterData (Sequences Samples.seqs6) 2 None = Throw e ->
             ~ kValidationError e).
Proof.
  pose proof (k_validation Samples.sampleExp Samples.sampleSqrt Samples.noInherited
                Samples.showQ (Sequences Samples.seqs6)) as H.
  split; [| split].
  - apply (H 1 None). lia.
  - apply (H 100 None); cbn; lia.
  - apply (H 2 None). cbn. lia.
Defined.

Lemma empty_dataset_rejected_witness :
  2 <= 2 /\ Samples.clusterData (Numeric []) 2 None = Throw (kTooLarge 2 0 "sequences").
Proof.
  split; [lia|].
  apply (empty_dataset_rejected Samples.sampleExp Samples.sampleSqrt Samples.noInherited
           Samples.showQ 2 None []). lia.
Defined.

Lemma numeric_path_accepts_any_name_witness :
  exists r,
    Samples.clusterData (Numeric [[0%Q]; [1%Q]]) 2 (Samples.withOptions (Some "chebyshev") None)
    = Ok r /\ cr_dissimilarity r = "chebyshev".
Proof.
  destruct (numeric_path_accepts_any_name Samples.sampleExp Samples.sampleSqrt
              Samples.noInherited Samples.showQ [[0%Q]; [1%Q]] 2 "chebyshev"
              (mkOptions (Some "chebyshev") None None None None))
    as (r & Hr & Hd & _); [reflexivity | cbn; lia | reflexivity | reflexivity |].
  exists r. split; assumption.
Defined.

Lemma unrecognised_method_is_average_witness :
  "hierarchical" <> "pam" /\
  ~ In "hierarchical" HierarchicalDispatch.linkageRules /\
  solve Samples.dist6 3 "hierarchical" = Hierarchical.hierarchical Samples.dist6 3 "average".
Proof.
  assert (H1 : "hierarchical" <> "pam") by discriminate.
  assert (H2 : ~ In "hierarchical" HierarchicalDispatch.linkageRules).
  { simpl. intros H. repeat (destruct H as [H | H]; [discriminate|]). exact H. }
  split; [exact H1|]. split; [exact H2|].
  destruct (unrecognised_method_is_average Samples.dist6 3 "hierarchical" H1) as [Hs Ha].
  rewrite Hs. exact (Ha H2).
Defined.

End FacadeFacts.

(* ------------------------------------------------------------------ *)
(** * Finite numbers *)

Lemma nlt_Fin (a b : Q) : nlt (Fin a) (Fin b) = true <-> (a < b)%Q.
Proof. apply Qltb_iff. Qed.

Lemma nle_Fin (a b : Q) : nle (Fin a) (Fin b) = true <-> (a <= b)%Q.
Proof. apply Qle_bool_iff. Qed.

Lemma nmin_Fin (a b : Q) : nmin (Fin a) (Fin b) = Fin (Qmin a b).
Proof.
  simpl. destruct (Qltb b a) eqn:E.
  - apply Qltb_iff in E. f_equal. unfold Qmin, GenericMinMax.gmin.
    destruct (a ?= b)%Q eqn:C; [| |reflexivity].
    + apply Qeq_alt in C. exfalso. rewrite C in E. apply (Qlt_irrefl _ E).
    + apply Qlt_alt in C. exfalso. apply (Qlt_irrefl a). now apply Qlt_trans with b.
  - apply Qltb_false_iff in E. f_equal. unfold Qmin, GenericMinMax.gmin.
    destruct (a ?= b)%Q eqn:C; [reflexivity|reflexivity|].
    apply Qgt_alt in C. exfalso. apply (Qlt_not_le _ _ C E).
Qed.

Lemma nmax_Fin (a b : Q) : nmax (Fin a) (Fin b) = Fin (Qmax a b).
Proof.
  simpl. destruct (Qltb a b) eqn:E.
  - apply Qltb_iff in E. f_equal. unfold Qmax, GenericMinMax.gmax.
    destruct (a ?= b)%Q eqn:C; [|reflexivity|].
    + apply Qeq_alt in C. exfalso. rewrite C in E. apply (Qlt_irrefl _ E).
    + apply Qgt_alt in C. exfalso. apply (Qlt_irrefl a). now apply Qlt_trans with b.
  - apply Qltb_false_iff in E. f_equal. unfold Qmax, GenericMinMax.gmax.
    destruct (a ?= b)%Q eqn:C; [reflexivity| |reflexivity].
    apply Qlt_alt in C. exfalso. apply (Qlt_not_le _ _ C E).
Qed.

Lemma nmin_PInf_Fin (a : Q) : nmin PInf (Fin a) = Fin a.
Proof. reflexivity. Qed.

(* ------------------------------------------------------------------ *)
(** * Finite distance matrices *)

(** Sum of [f] over a list of indices, in the order of the loop. *)
Definition sumQ (f : Z -> Q) (l : list Z) : Q :=
  fold_left (fun acc j => acc + f j)%Q l 0%Q.

Lemma get_ofTable (n : Z) (q : Z -> Z -> Q) (i j : Z) :
  0 <= i < n -> 0 <= j < n -> Matrix.get (Matrix.ofTable n q) i j = Fin (q i j).
Proof.
  intros Hi Hj. unfold Matrix.get, Matrix.inside. simpl.
  replace (0 <=? i) with true by lia. replace (i <? n) with true by lia.
  replace (0 <=? j) with true by lia. now replace (j <? n) with true by lia.
Qed.

(** A number that is not below 0: a rational from 0 on, or [Infinity]. *)
Definition nonneg (x : num) : Prop := nle (Fin 0) x = true.

Lemma nonneg_notNaN (x : num) : nonneg x -> x <> NaN.
Proof. intros H. now apply nle_notNaN in H. Qed.

Lemma nonneg_Fin (a : Q) : nonneg (Fin a) <-> (0 <= a)%Q.
Proof. apply Qle_bool_iff. Qed.

Lemma nadd_notNaN_Fin (x : num) (b : Q) : x <> NaN -> nadd x (Fin b) <> NaN.
Proof.
  intros H. destruct x as [a | | |]; try discriminate; [|congruence].
  apply round64_notNaN.
Qed.

Lemma nsub_Fin_notNaN (a b : Q) : nsub (Fin a) (Fin b) <> NaN.
Proof. apply round64_notNaN. Qed.

Lemma nadd_nonneg (x y : num) : nonneg x -> nonneg y -> nonneg (nadd x y).
Proof.
  unfold nonneg. intros Hx Hy.
  destruct x as [a | | |], y as [b | | |]; try discriminate; try reflexivity.
  cbn [nadd]. apply round64_nonneg. apply Qle_bool_iff in Hx, Hy. lra.
Qed.

Lemma nmax_zero_nonneg (y : num) : y <> NaN -> nonneg (nmax (Fin 0) y).
Proof.
  intros H. unfold nonneg. destruct y as [b | | |]; try congruence; try reflexivity.
  cbn [nmax nlt]. destruct (Qltb 0 b) eqn:E; cbn [nle].
  - apply Qltb_iff in E. apply Qle_bool_iff. lra.
  - reflexivity.
Qed.

Lemma nmin_notNaN (x y : num) : x <> NaN -> y <> NaN -> nmin x y <> NaN.
Proof.
  intros Hx Hy. destruct x, y; try congruence; cbn [nmin]; destruct (nlt _ _); congruence.
Qed.

(** A sum of finite terms is a number: once it has overflowed it stays at
    the infinity it has reached. *)
Lemma fold_nadd_notNaN {X : Type} (g : X -> num) (l : list X) (a : num) :
  (forall j, In j l -> exists v, g j = Fin v) -> a <> NaN ->
  fold_left (fun acc j => nadd acc (g j)) l a <> NaN.
Proof.
  revert a. induction l as [| x l IH]; intros a H Ha; simpl; [exact Ha|].
  apply IH; [intros j Hj; apply H; now right|].
  destruct (H x (or_introl eq_refl)) as (v & ->). now apply nadd_notNaN_Fin.
Qed.

Lemma fold_nadd_nonneg {X : Type} (g : X -> num) (l : list X) (a : num) :
  (forall j, In j l -> nonneg (g j)) -> nonneg a ->
  nonneg (fold_left (fun acc j => nadd acc (g j)) l a).
Proof.
  revert a. induction l as [| x l IH]; intros a H Ha; simpl; [exact Ha|].
  apply IH; [intros j Hj; apply H; now right|].
  apply nadd_nonneg; [exact Ha | apply H; now left].
Qed.

(* ------------------------------------------------------------------ *)
(** * Scans *)

(** Induction over a left fold that remembers the prefix already read. *)
Lemma fold_left_hist {S X : Type} (step : S -> X -> S) (P : list X -> S -> Prop)
    (init : S) (l : list X) :
  P [] init ->
  (forall pre s x post, l = pre ++ x :: post -> P pre s -> P (pre ++ [x]) (step s x)) ->
  P l (fold_left step l init).
Proof.
  intros H0 Hstep.
  assert (H : forall post pre s, l = pre ++ post -> P pre s -> P l (fold_left step post s)).
  { induction post as [| x post IH]; intros pre s El Hp; simpl.
    - rewrite app_nil_r in El. now subst.
    - apply (IH (pre ++ [x])).
      + now rewrite <- app_assoc.
      + now apply (Hstep pre s x post). }
  now apply (H l [] init).
Qed.

Lemma includes_In (l : list Z) (c : Z) : includes l c = true <-> In c l.
Proof.
  unfold includes. rewrite existsb_exists. split.
  - intros (x & Hx & E). apply Z.eqb_eq in E. now subst.
  - intros H. exists c. split; [assumption | apply Z.eqb_refl].
Qed.

Lemma includes_not_In (l : list Z) (c : Z) : includes l c = false <-> ~ In c l.
Proof.
  rewrite <- includes_In. destruct (includes l c); split; congruence.
Qed.

Lemma StronglySorted_range (n : Z) : StronglySorted Z.lt (range n).
Proof.
  unfold range. generalize 0%nat as a. generalize (Z.to_nat n) as len.
  induction len as [| len IH]; intros a; simpl; constructor.
  - apply IH.
  - apply Forall_forall. intros x Hx. apply in_map_iff in Hx.
    destruct Hx as (y & <- & Hy). apply in_seq in Hy. lia.
Qed.

Lemma StronglySorted_split (l1 l2 : list Z) (c : Z) :
  StronglySorted Z.lt (l1 ++ c :: l2) ->
  Forall (fun i => i < c) l1 /\ Forall (fun i => c < i) l2.
Proof.
  induction l1 as [| x l1 IH]; simpl; intros H; inversion H; subst.
  - split; [constructor | assumption].
  - destruct (IH H2) as [H1 H1']. split; [|assumption].
    constructor; [|assumption].
    rewrite Forall_forall in H3. apply H3. apply in_or_app. right. now left.
Qed.

Lemma range_split (n : Z) (l1 l2 : list Z) (c : Z) :
  range n = l1 ++ c :: l2 ->
  (forall i, In i l1 <-> 0 <= i < c) /\ (forall i, In i l2 <-> c < i < n).
Proof.
  intros E. pose proof (StronglySorted_range n) as Hs. rewrite E in Hs.
  apply StronglySorted_split in Hs. destruct Hs as [H1 H2].
  rewrite Forall_forall in H1, H2.
  assert (Hin : forall i, In i (l1 ++ c :: l2) <-> 0 <= i < n).
  { intros i. rewrite <- E. apply in_range. }
  assert (Hc : 0 <= c < n) by (apply Hin, in_or_app; right; now left).
  split; intros i; split; intros H.
  - specialize (H1 i H). assert (0 <= i < n) by (apply Hin, in_or_app; now left). lia.
  - assert (Hi : In i (l1 ++ c :: l2)) by (apply Hin; lia).
    apply in_app_or in Hi. destruct Hi as [Hi | [Hi | Hi]]; [assumption | lia |].
    specialize (H2 i Hi). lia.
  - specialize (H2 i H).
    assert (0 <= i < n) by (apply Hin, in_or_app; right; now right). lia.
  - assert (Hi : In i (l1 ++ c :: l2)) by (apply Hin; lia).
    apply in_app_or in Hi. destruct Hi as [Hi | [Hi | Hi]]; [| lia | assumption].
    specialize (H1 i Hi). lia.
Qed.

(* ------------------------------------------------------------------ *)
(** * PAM on a finite distance matrix *)

Lemma range_cons (n : Z) : 1 <= n -> range n = 0 :: tl (range n).
Proof.
  intros H. unfold range. destruct (Z.to_nat n) as [| m] eqn:E; [lia|]. reflexivity.
Qed.

Lemma forallb_false_witness {A : Type} (f : A -> bool) (l : list A) :
  forallb f l = false -> exists x, In x l /\ f x = false.
Proof.
  induction l as [| x l IH]; simpl; [discriminate|].
  destruct (f x) eqn:E; simpl.
  - intros H. destruct (IH H) as (y & Hy & Hf). exists y. auto.
  - intros _. exists x. auto.
Qed.

(** A list of distinct indices below [n] that is shorter than [n] misses
    one of them. *)
Lemma free_index (n : Z) (meds : list Z) :
  NoDup meds -> lengthZ meds < n -> exists c, 0 <= c < n /\ ~ In c meds.
Proof.
  intros Hnd Hlen. destruct (forallb (includes meds) (range n)) eqn:E.
  - exfalso. rewrite forallb_forall in E.
    assert (Hincl : incl (range n) meds).
    { intros x Hx. apply includes_In, E, Hx. }
    pose proof (NoDup_incl_length (NoDup_range n) Hincl) as Hl.
    rewrite range_length in Hl. unfold lengthZ in Hlen. lia.
  - apply forallb_false_witness in E. destruct E as (c & Hc & Hf).
    exists c. split; [now apply in_range | now apply includes_not_In].
Qed.

Module PamFacts.

Import Pam.

Section Finite.

Variable n : Z.
Variable q : Z -> Z -> Q.

Local Abbreviation dist := (Matrix.ofTable n q).

(** [nearestDist[i]] once the medoids [meds] are chosen: the least
    distance from [i] to one of them. *)
Definition nearestQ (meds : list Z) (i : Z) : Q :=
  match meds with
  | [] => 0%Q
  | m0 :: rest => fold_left (fun acc m => Qmin acc (q i m)) rest (q i m0)
  end.

(** Aggregate gain of candidate [c] against the medoids [meds], added up
    as the source does. *)
Definition gainOf (meds : list Z) (c : Z) : num :=
  gain dist (fun i => Fin (nearestQ meds i)) c.

Definition inRange (m : Z) : Prop := 0 <= m < n.

(** The first medoid is the largest index of least total distance. *)
Definition firstChoice (b : Z) : Prop :=
  inRange b /\
  forall i, inRange i ->
    nle (totalDists dist b) (totalDists dist i) = true /\
    (b < i -> nlt (totalDists dist b) (totalDists dist i) = true).

(** [c] is the largest index, among those outside [meds], of greatest
    gain. *)
Definition nextChoice (meds : list Z) (c : Z) : Prop :=
  inRange c /\ ~ In c meds /\
  forall c', inRange c' -> ~ In c' meds ->
             nle (gainOf meds c') (gainOf meds c) = true /\
             (c < c' -> nlt (gainOf meds c') (gainOf meds c) = true).

Lemma totalDists_notNaN (i : Z) : inRange i -> totalDists dist i <> NaN.
Proof.
  intros Hi. unfold totalDists. apply fold_nadd_notNaN; [|discriminate].
  intros j Hj. simpl Matrix.rows in Hj. apply in_range in Hj.
  exists (q i j). now apply get_ofTable.
Qed.

Lemma firstMedoid_spec : 1 <= n -> firstChoice (firstMedoid dist).
Proof.
  intros Hn. unfold firstMedoid. simpl Matrix.rows.
  pose proof (range_cons n Hn) as Hr.
  set (step := fun bestIdx i =>
                 if nle (totalDists dist i) (totalDists dist bestIdx) then i else bestIdx).
  pose (P := fun (pre : list Z) (best : Z) =>
               exists l1 l2,
                 0 :: pre = l1 ++ best :: l2 /\
                 Forall (fun i => nle (totalDists dist best) (totalDists dist i) = true) l1 /\
                 Forall (fun i => nlt (totalDists dist best) (totalDists dist i) = true) l2).
  assert (H : P (tl (range n)) (fold_left step (tl (range n)) 0)).
  { apply (fold_left_hist step P).
    - exists [], []. repeat split; constructor.
    - intros pre best x post El (l1 & l2 & E & H1 & H2).
      assert (Hx : inRange x).
      { apply in_range. rewrite Hr, El. right. apply in_or_app. right. now left. }
      assert (Hb : inRange best).
      { apply in_range. rewrite Hr, El.
        assert (Hin : In best (0 :: pre)) by (rewrite E; apply in_or_app; right; now left).
        destruct Hin as [<- | Hin]; [now left | right; apply in_or_app; now left]. }
      pose proof (totalDists_notNaN x Hx) as Nx. pose proof (totalDists_notNaN best Hb) as Nb.
      unfold step.
      destruct (nle (totalDists dist x) (totalDists dist best)) eqn:C.
      + exists (0 :: pre), []. split; [reflexivity|]. split; [|constructor].
        rewrite E. apply Forall_app. split; [|constructor].
        * eapply Forall_impl; [|exact H1]. intros i Hi. simpl in Hi.
          now apply nle_trans with (totalDists dist best).
        * exact C.
        * eapply Forall_impl; [|exact H2]. intros i Hi. simpl in Hi.
          apply nlt_nle. now apply nle_lt_trans with (totalDists dist best).
      + exists l1, (l2 ++ [x]). split.
        * change (0 :: pre ++ [x]) with ((0 :: pre) ++ [x]). rewrite E.
          now rewrite <- app_assoc.
        * split; [assumption|]. apply Forall_app. split; [assumption|].
          constructor; [now apply not_nle_nlt | constructor]. }
  destruct H as (l1 & l2 & E & H1 & H2). rewrite <- Hr in E.
  set (b := fold_left step (tl (range n)) 0) in *. clearbody b.
  destruct (range_split n l1 l2 _ E) as [R1 R2].
  rewrite Forall_forall in H1, H2.
  assert (Hb : inRange b).
  { apply in_range. rewrite E. apply in_or_app. right. now left. }
  split; [exact Hb|]. intros i Hi.
  destruct (Z.lt_trichotomy i b) as [Hlt | [-> | Hgt]].
  - split; [|lia]. apply H1, R1. unfold inRange in Hi. lia.
  - split; [apply nle_refl; now apply totalDists_notNaN | lia].
  - assert (Hl : nlt (totalDists dist b) (totalDists dist i) = true).
    { apply H2, R2. unfold inRange in Hi. lia. }
    split; [now apply nlt_nle | intros _; exact Hl].
Qed.

(** The state of the BUILD loop: the medoids are distinct indices and
    [nearestDist] holds the least distance to one of them. *)
Definition buildInv (st : list Z * (Z -> num)) : Prop :=
  fst st <> [] /\ NoDup (fst st) /\ Forall inRange (fst st) /\
  forall i, inRange i -> snd st i = Fin (nearestQ (fst st) i).

Lemma gain_ext (nd nd' : Z -> num) (c : Z) :
  (forall i, inRange i -> nd i = nd' i) -> gain dist nd c = gain dist nd' c.
Proof.
  intros H. unfold gain. apply fold_left_ext. intros g i Hi.
  simpl Matrix.rows in Hi. apply in_range in Hi. now rewrite (H i Hi).
Qed.

Lemma gainOf_nonneg (meds : list Z) (c : Z) : inRange c -> nonneg (gainOf meds c).
Proof.
  intros Hc. unfold gainOf, gain. apply fold_nadd_nonneg; [|reflexivity].
  intros i Hi. simpl Matrix.rows in Hi. apply in_range in Hi.
  apply nmax_zero_nonneg. rewrite get_ofTable by assumption. apply nsub_Fin_notNaN.
Qed.

Lemma selectCandidate_spec (meds : list Z) (nearestDist : Z -> num) :
  (forall i, inRange i -> nearestDist i = Fin (nearestQ meds i)) ->
  (exists c0, inRange c0 /\ ~ In c0 meds) ->
  nextChoice meds (snd (selectCandidate dist meds nearestDist)).
Proof.
  intros Hn (c0 & Hc0 & Hfree). unfold selectCandidate. simpl Matrix.rows.
  set (step := fun (best : num * Z) c =>
                 if includes meds c then best
                 else let g := gain dist nearestDist c in
                      if nge g (fst best) then (g, c) else best).
  pose (P := fun (pre : list Z) (best : num * Z) =>
               (best = (NInf, -1) /\ forall x, In x pre -> In x meds) \/
               (exists l1 l2,
                   pre = l1 ++ snd best :: l2 /\ ~ In (snd best) meds /\
                   fst best = gainOf meds (snd best) /\
                   (forall i, In i l1 -> ~ In i meds ->
                              nle (gainOf meds i) (gainOf meds (snd best)) = true) /\
                   (forall i, In i l2 -> ~ In i meds ->
                              nlt (gainOf meds i) (gainOf meds (snd best)) = true))).
  assert (H : P (range n) (fold_left step (range n) (NInf, -1))).
  { apply (fold_left_hist step P).
    - left. split; [reflexivity | intros x []].
    - intros pre best x post El HP.
      assert (Hx : inRange x).
      { apply in_range. rewrite El. apply in_or_app. right. now left. }
      unfold step. destruct (includes meds x) eqn:Hinc.
      + apply includes_In in Hinc. destruct HP as [[E Hall] | (l1 & l2 & E & Hb & Hg & H1 & H2)].
        * left. split; [assumption|]. intros y Hy. apply in_app_or in Hy.
          destruct Hy as [Hy | [<- | []]]; auto.
        * right. exists l1, (l2 ++ [x]). split; [rewrite E; now rewrite <- app_assoc|].
          repeat split; try assumption. intros i Hi Hni. apply in_app_or in Hi.
          destruct Hi as [Hi | [<- | []]]; [now apply H2 | contradiction].
      + apply includes_not_In in Hinc. cbv zeta.
        rewrite (gain_ext nearestDist (fun i => Fin (nearestQ meds i)) x Hn).
        fold (gainOf meds x).
        pose proof (nonneg_notNaN _ (gainOf_nonneg meds x Hx)) as Nx.
        destruct HP as [[-> Hall] | (l1 & l2 & E & Hb & Hg & H1 & H2)].
        * cbn [fst]. unfold nge. replace (nle NInf (gainOf meds x)) with true
            by (revert Nx; destruct (gainOf meds x); intros; try reflexivity; congruence).
          right. exists pre, []. simpl. repeat split; try assumption.
          -- intros i Hi Hni. exfalso. apply Hni, Hall, Hi.
          -- intros i [].
        * rewrite Hg. unfold nge.
          assert (Hbr : inRange (snd best)).
          { apply in_range. rewrite El, E. apply in_or_app. left.
            apply in_or_app. right. now left. }
          pose proof (nonneg_notNaN _ (gainOf_nonneg meds _ Hbr)) as Nb.
          destruct (nle (gainOf meds (snd best)) (gainOf meds x)) eqn:C.
          -- right. exists pre, []. simpl.
             repeat split; try assumption; [|intros i []].
             intros i Hi Hni. rewrite E in Hi. apply in_app_or in Hi.
             destruct Hi as [Hi | [<- | Hi]].
             ++ specialize (H1 i Hi Hni). now apply nle_trans with (gainOf meds (snd best)).
             ++ exact C.
             ++ specialize (H2 i Hi Hni). apply nlt_nle.
                now apply nlt_le_trans with (gainOf meds (snd best)).
          -- right. exists l1, (l2 ++ [x]).
             split; [rewrite E; now rewrite <- app_assoc|].
             repeat split; try assumption. intros i Hi Hni. apply in_app_or in Hi.
             destruct Hi as [Hi | [<- | []]]; [now apply H2 | now apply not_nle_nlt]. }
  set (best := fold_left step (range n) (NInf, -1)) in *. clearbody best.
  destruct H as [[E Hall] | (l1 & l2 & E & Hb & Hg & H1 & H2)].
  - exfalso. apply Hfree, Hall. now apply in_range.
  - destruct (range_split n l1 l2 _ E) as [R1 R2].
    assert (Hc : inRange (snd best)).
    { apply in_range. rewrite E. apply in_or_app. right. now left. }
    split; [exact Hc|]. split; [exact Hb|]. intros c' Hc' Hn'.
    destruct (Z.lt_trichotomy c' (snd best)) as [Hlt | [-> | Hgt]].
    + split; [|lia]. apply H1; [|assumption]. apply R1. unfold inRange in Hc'. lia.
    + split; [|lia]. apply nle_refl. now apply nonneg_notNaN, gainOf_nonneg.
    + assert (Hl : nlt (gainOf meds c') (gainOf meds (snd best)) = true).
      { apply H2; [|assumption]. apply R2. unfold inRange in Hc'. lia. }
      split; [now apply nlt_nle | intros _; exact Hl].
Qed.

Lemma nearestQ_snoc (meds : list Z) (c i : Z) :
  meds <> [] -> nearestQ (meds ++ [c]) i = Qmin (nearestQ meds i) (q i c).
Proof.
  destruct meds as [| m0 rest]; [congruence|]. intros _. simpl.
  now rewrite fold_left_app.
Qed.

Lemma buildStep_spec (st : list Z * (Z -> num)) :
  buildInv st -> lengthZ (fst st) < n ->
  buildInv (buildStep dist st) /\
  exists c, fst (buildStep dist st) = fst st ++ [c] /\ nextChoice (fst st) c.
Proof.
  destruct st as [meds nearestDist]. intros (Hne & Hnd & Hin & Hnear) Hlen. simpl in *.
  pose proof (selectCandidate_spec meds nearestDist Hnear (free_index n meds Hnd Hlen)) as Hsel.
  set (c := snd (selectCandidate dist meds nearestDist)) in *.
  destruct Hsel as (Hc & Hfree & Hmax).
  split.
  - repeat split; simpl.
    + intros E. apply app_eq_nil in E. destruct E. congruence.
    + apply NoDup_app; [assumption | constructor; [intros [] | constructor] |].
      intros x Hx [<- | []]. contradiction.
    + apply Forall_app. split; [assumption | constructor; [assumption | constructor]].
    + intros i Hi. rewrite (Hnear i Hi), get_ofTable by assumption.
      rewrite nmin_Fin. now rewrite nearestQ_snoc.
  - exists c. split; [reflexivity|]. exact (conj Hc (conj Hfree Hmax)).
Qed.

(** The BUILD phase picked [ms]: its head is the first choice and every
    later entry is the next choice against the entries before it. *)
Definition buildChoices (ms : list Z) : Prop :=
  firstChoice (nth 0 ms (-1)) /\
  forall m, (1 <= m < length ms)%nat -> nextChoice (firstn m ms) (nth m ms (-1)).

Lemma buildChoices_snoc (ms : list Z) (c : Z) :
  ms <> [] -> buildChoices ms -> nextChoice ms c -> buildChoices (ms ++ [c]).
Proof.
  intros Hne [Hf Hs] Hc. split.
  - rewrite app_nth1; [assumption|]. destruct ms; [congruence | simpl; lia].
  - intros m Hm. rewrite length_app in Hm. simpl in Hm.
    destruct (Nat.eq_dec m (length ms)) as [-> | Hneq].
    + rewrite firstn_app, firstn_all, Nat.sub_diag. simpl. rewrite app_nil_r.
      now rewrite nth_middle.
    + rewrite firstn_app. replace (m - length ms)%nat with O by lia.
      simpl. rewrite app_nil_r. rewrite app_nth1 by lia. apply Hs. lia.
Qed.

Lemma buildLoop_spec (steps : nat) (st : list Z * (Z -> num)) :
  buildInv st -> buildChoices (fst st) ->
  lengthZ (fst st) + Z.of_nat steps <= n ->
  buildInv (buildLoop dist steps st) /\
  buildChoices (fst (buildLoop dist steps st)) /\
  length (fst (buildLoop dist steps st)) = (length (fst st) + steps)%nat.
Proof.
  revert st. induction steps as [| steps IH]; intros st Hinv Hch Hlen; simpl.
  - split; [assumption | split; [assumption | lia]].
  - destruct (buildStep_spec st Hinv) as (Hinv' & c & Ec & Hc); [lia|].
    destruct (IH (buildStep dist st)) as (H1 & H2 & H3).
    + assumption.
    + rewrite Ec. apply buildChoices_snoc; try assumption. apply Hinv.
    + rewrite Ec. unfold lengthZ in *. rewrite length_app. simpl. lia.
    + split; [assumption | split; [assumption|]]. rewrite H3, Ec, length_app. simpl. lia.
Qed.

Lemma build_spec (k : Z) :
  1 <= k <= n ->
  lengthZ (build dist k) = k /\ NoDup (build dist k) /\ Forall inRange (build dist k) /\
  buildChoices (build dist k).
Proof.
  intros Hk. unfold build.
  pose proof (firstMedoid_spec ltac:(lia)) as Hf.
  assert (Hinv0 : buildInv ([firstMedoid dist], fun i => Matrix.get dist i (firstMedoid dist))).
  { split; [discriminate|]. split; [constructor; [intros [] | constructor]|].
    split; [constructor; [apply Hf | constructor]|].
    intros i Hi. simpl. apply get_ofTable; [assumption | apply Hf]. }
  assert (Hch0 : buildChoices [firstMedoid dist]).
  { split; [exact Hf|]. simpl. intros m Hm. lia. }
  destruct (buildLoop_spec (Z.to_nat (k - 1)) _ Hinv0 Hch0) as (Hinv & Hch & Hlen).
  { unfold lengthZ. cbn [fst length]. lia. }
  destruct Hinv as (_ & Hnd & Hin & _).
  split; [|split; [assumption | split; assumption]].
  unfold lengthZ. rewrite Hlen. cbn [fst length]. lia.
Qed.

End Finite.

End PamFacts.

(* ------------------------------------------------------------------ *)
(** * PAM: the swap phase and the final assignment *)

Lemma setNth_length {A : Type} (l : list A) (i : nat) (v : A) :
  length (setNth l i v) = length l.
Proof.
  revert i. induction l as [| x l IH]; intros [| i]; simpl; auto.
Qed.

Lemma setNth_In {A : Type} (l : list A) (i : nat) (v x : A) :
  In x (setNth l i v) -> x = v \/ In x l.
Proof.
  revert i. induction l as [| y l IH]; intros [| i]; simpl; auto.
  - intros [H | H]; auto.
  - intros [H | H]; auto. destruct (IH i H); auto.
Qed.

Lemma setNth_NoDup (l : list Z) (i : nat) (v : Z) :
  NoDup l -> ~ In v l -> NoDup (setNth l i v).
Proof.
  revert i. induction l as [| y l IH]; intros i Hnd Hv; [destruct i; constructor|].
  inversion Hnd; subst. destruct i as [| i]; simpl.
  - constructor; [|assumption]. intros H. apply Hv. now right.
  - constructor.
    + intros H. apply setNth_In in H. destruct H as [-> | H]; [|contradiction].
      apply Hv. now left.
    + apply IH; [assumption|]. intros H. apply Hv. now right.
Qed.

Lemma setZ_length {A : Type} (l : list A) (i : Z) (v : A) : length (setZ l i v) = length l.
Proof. unfold setZ. destruct (i <? 0); [reflexivity | apply setNth_length]. Qed.

Lemma setZ_In {A : Type} (l : list A) (i : Z) (v x : A) :
  In x (setZ l i v) -> x = v \/ In x l.
Proof. unfold setZ. destruct (i <? 0); [auto | apply setNth_In]. Qed.

Lemma setZ_NoDup (l : list Z) (i : Z) (v : Z) :
  NoDup l -> ~ In v l -> NoDup (setZ l i v).
Proof. unfold setZ. destruct (i <? 0); [auto | apply setNth_NoDup]. Qed.

Lemma insertSorted_perm (x : Z) (l : list Z) : Permutation (x :: l) (Pam.insertSorted x l).
Proof.
  induction l as [| y l IH]; simpl; [reflexivity|].
  destruct (x <? y); [reflexivity|].
  rewrite perm_swap. now constructor.
Qed.

Lemma sortAscending_perm (l : list Z) : Permutation l (Pam.sortAscending l).
Proof.
  unfold Pam.sortAscending. induction l as [| x l IH]; simpl; [reflexivity|].
  rewrite <- insertSorted_perm. now constructor.
Qed.

(** A negative rounded difference comes from a smaller first operand. *)
Lemma nsub_neg_lt (x y : num) : nlt (nsub x y) (Fin 0) = true -> nlt x y = true.
Proof.
  destruct x as [a | | |], y as [b | | |]; cbn [nsub nadd nneg nlt]; try discriminate;
    try reflexivity.
  intros H. apply Qltb_iff. apply Qnot_le_lt. intros C.
  pose proof (round64_nonneg (a - b) ltac:(lra)) as N.
  apply nle_not_nlt in N. congruence.
Qed.

(** A double, or an infinity. *)
Definition stored (x : num) : Prop :=
  match x with
  | Fin r => isDouble r
  | PInf | NInf => True
  | NaN => False
  end.

Lemma stored_round64 (x : Q) : stored (round64 x).
Proof.
  destruct (round64 x) as [r | | |] eqn:E; cbn [stored]; try exact I.
  - now apply (round64_isDouble x).
  - now apply round64_notNaN in E.
Qed.

Lemma stored_nadd_Fin (x : num) (b : Q) : stored x -> stored (nadd x (Fin b)).
Proof.
  destruct x as [a | | |]; cbn [nadd]; try (intros H; exact H).
  intros _. apply stored_round64.
Qed.

Lemma fold_nadd_stored {X : Type} (g : X -> num) (l : list X) (a : num) :
  (forall j, In j l -> exists v, g j = Fin v) -> stored a ->
  stored (fold_left (fun acc j => nadd acc (g j)) l a).
Proof.
  revert a. induction l as [| x l IH]; intros a H Ha; simpl; [exact Ha|].
  apply IH; [intros j Hj; apply H; now right|].
  destruct (H x (or_introl eq_refl)) as (v & ->). now apply stored_nadd_Fin.
Qed.

(** Every double is a multiple of the last subnormal place. *)
Lemma isDouble_multiple (r : Q) :
  isDouble r -> exists k, (r == inject_Z k * pow2 (-1074))%Q.
Proof.
  intros (k & u & E & _ & Hu & _). exists (k * 2 ^ (u + 1074)).
  rewrite E, inject_Z_mult, <- pow2_Z by lia.
  rewrite <- Qmult_assoc, <- pow2_add. now replace (u + 1074 + -1074) with u by lia.
Qed.

(** The difference of two distinct doubles does not round to 0. *)
Lemma nsub_lt_neg (x y : num) :
  stored x -> stored y -> nlt x y = true -> nlt (nsub x y) (Fin 0) = true.
Proof.
  destruct x as [a | | |], y as [b | | |]; cbn [stored nsub nadd nneg nlt];
    try discriminate; try reflexivity; try contradiction.
  intros Ha Hb H. apply Qltb_iff in H.
  destruct (isDouble_multiple a Ha) as (ka & Ea).
  destruct (isDouble_multiple b Hb) as (kb & Eb).
  pose proof (pow2_pos (-1074)) as P.
  assert (Hk : ka - kb <= -1).
  { assert (Hlt : ka < kb); [|lia].
    rewrite Zlt_Qlt. apply (Qmult_lt_r _ _ (pow2 (-1074)) P). now rewrite <- Ea, <- Eb. }
  assert (Hd : (a - b <= - pow2 (-1074))%Q).
  { rewrite Ea, Eb.
    assert (A : (inject_Z (ka - kb) <= inject_Z (-1))%Q) by (rewrite <- Zle_Qle; exact Hk).
    unfold Z.sub in A. rewrite inject_Z_plus, inject_Z_opp in A.
    change (inject_Z (-1)) with (-1)%Q in A. nra. }
  pose proof (round64_mono _ _ Hd) as M.
  assert (Hm : isDouble (- pow2 (-1074))).
  { apply isDouble_opp. exists 1, (-1074). split; [ring|]. split; [lia|]. split; [lia|].
    apply Qabs_Qlt_condition. pose proof (pow2_lt (-1074) 1024 ltac:(lia)).
    pose proof (pow2_pos 1024). lra. }
  rewrite (round64_double _ Hm) in M.
  apply nle_lt_trans with (Fin (Qred (- pow2 (-1074)))); [exact M|].
  cbn [nlt]. apply Qltb_iff. rewrite Qred_correct. lra.
Qed.

Module SwapFacts.

Import Pam PamFacts.

Section Finite.

Variable n : Z.
Variable q : Z -> Z -> Q.

Local Abbreviation dist := (Matrix.ofTable n q).
Local Abbreviation inRange := (PamFacts.inRange n).
Local Abbreviation nearestQ := (PamFacts.nearestQ q).

(** A medoid array: [k] distinct indices of observations. *)
Definition medoidArray (k : Z) (meds : list Z) : Prop :=
  lengthZ meds = k /\ NoDup meds /\ Forall inRange meds.

Lemma fold_nmin_Fin (rest : list Z) (i : Z) :
  Forall inRange rest -> inRange i ->
  forall a, fold_left (fun minD m => nmin minD (Matrix.get dist i m)) rest (Fin a)
            = Fin (fold_left (fun acc m => Qmin acc (q i m)) rest a).
Proof.
  intros Hin Hi. induction rest as [| m rest IH]; intros a; cbn [fold_left]; [reflexivity|].
  inversion Hin; subst. rewrite get_ofTable by assumption. rewrite nmin_Fin. now apply IH.
Qed.

Lemma nearest_Fin (meds : list Z) (i : Z) :
  meds <> [] -> Forall inRange meds -> inRange i ->
  fold_left (fun minD m => nmin minD (Matrix.get dist i m)) meds PInf = Fin (nearestQ meds i).
Proof.
  intros Hne Hin Hi. destruct meds as [| m0 rest]; [congruence|].
  inversion Hin; subst. cbn [fold_left]. rewrite get_ofTable by assumption.
  change (nmin PInf (Fin (q i m0))) with (Fin (q i m0)).
  now apply fold_nmin_Fin.
Qed.

(** The total cost of a medoid array is a double or an infinity. *)
Lemma assignCost_stored (meds : list Z) :
  meds <> [] -> Forall inRange meds -> stored (assignCost dist meds).
Proof.
  intros Hne Hin. unfold assignCost. simpl Matrix.rows.
  apply fold_nadd_stored; [|apply (isDouble_Z 0); lia].
  intros i Hi. apply in_range in Hi. exists (nearestQ meds i). now apply nearest_Fin.
Qed.

Lemma stored_notNaN (x : num) : stored x -> x <> NaN.
Proof. now destruct x. Qed.

(** Change of the total cost when slot [mIdx] takes candidate [c], as the
    source computes it. *)
Definition change (meds : list Z) (mIdx c : Z) : num :=
  nsub (assignCost dist (setZ meds mIdx c)) (assignCost dist meds).

(** What the search of a pass knows after the trials [T]: no trial seen
    has a change below [bestChange], and either no trial was kept and
    [bestChange] is 0, or the kept trial has that change, which is below
    0. *)
Definition searchInv (meds : list Z) (T : Z -> Z -> Prop) (best : num * Z * Z) : Prop :=
  let '(ch, mi, c) := best in
  (forall m c', T m c' -> ~ In c' meds -> nlt (change meds m c') ch = false) /\
  ((mi = -1 /\ c = -1 /\ ch = Fin 0) \/
   (T mi c /\ ~ In c meds /\ ch = change meds mi c /\ nlt ch (Fin 0) = true)).

Lemma setZ_medoids (meds : list Z) (mIdx c : Z) :
  meds <> [] -> Forall inRange meds -> inRange c ->
  setZ meds mIdx c <> [] /\ Forall inRange (setZ meds mIdx c).
Proof.
  intros Hne Hin Hc. split.
  - intros E. apply (f_equal (@length Z)) in E. rewrite setZ_length in E.
    destruct meds; [congruence | discriminate].
  - apply Forall_forall. intros x Hx. apply setZ_In in Hx.
    destruct Hx as [-> | Hx]; [assumption|]. rewrite Forall_forall in Hin. now apply Hin.
Qed.

Lemma swapTrial_inv (meds : list Z) (T : Z -> Z -> Prop) (mIdx c : Z) (best : num * Z * Z) :
  searchInv meds T best ->
  searchInv meds (fun m c' => T m c' \/ (m = mIdx /\ c' = c))
            (swapTrial dist meds (assignCost dist meds) mIdx best c).
Proof.
  destruct best as [[ch mi] b]. intros (Hmin & Hcase).
  unfold swapTrial. destruct (includes meds c) eqn:Hinc.
  - apply includes_In in Hinc. split.
    + intros m c' [HT | [-> ->]] Hn; [now apply Hmin | contradiction].
    + destruct Hcase as [H | (HT & H)]; [now left | right; split; [now left | exact H]].
  - apply includes_not_In in Hinc. cbv zeta. fold (change meds mIdx c). cbn [fst].
    destruct (nlt (change meds mIdx c) ch) eqn:C.
    + split.
      * intros m c' [HT | [-> ->]] Hn; [|apply nlt_irrefl].
        specialize (Hmin m c' HT Hn).
        destruct (nlt (change meds m c') (change meds mIdx c)) eqn:D; [|reflexivity].
        rewrite (nlt_trans _ _ _ D C) in Hmin. discriminate.
      * right. split; [right; now split|]. split; [assumption|]. split; [reflexivity|].
        destruct Hcase as [(_ & _ & ->) | (_ & _ & _ & Hv)]; [exact C|].
        now apply nlt_trans with ch.
    + split.
      * intros m c' [HT | [-> ->]] Hn; [now apply Hmin | exact C].
      * destruct Hcase as [H | (HT & H)]; [now left | right; split; [now left | exact H]].
Qed.

Lemma searchInv_ext (meds : list Z) (T T' : Z -> Z -> Prop) (best : num * Z * Z) :
  (forall m c, T m c <-> T' m c) -> searchInv meds T best -> searchInv meds T' best.
Proof.
  intros HT. destruct best as [[ch mi] b]. intros (Hmin & Hcase). split.
  - intros m c' Hm. apply Hmin. now apply HT.
  - destruct Hcase as [H | (H1 & H2)]; [now left | right]. split; [now apply HT | exact H2].
Qed.

Lemma swapSearch_inv (k : Z) (meds : list Z) :
  searchInv meds (fun m c => 0 <= m < k /\ inRange c) (swapSearch dist k meds).
Proof.
  unfold swapSearch. simpl Matrix.rows.
  apply (searchInv_ext meds (fun m c => In m (range k) /\ inRange c)).
  { intros m c. now rewrite in_range. }
  apply (fold_left_hist
           (fun best mIdx =>
              fold_left (swapTrial dist meds (assignCost dist meds) mIdx) (range n) best)
           (fun pre best => searchInv meds (fun m c => In m pre /\ inRange c) best)).
  - split; [intros m c' [[] _] | now left].
  - intros pre best mIdx post _ Hbest.
    apply (searchInv_ext meds
             (fun m c => (In m pre /\ inRange c) \/ (m = mIdx /\ In c (range n)))).
    { intros m c. rewrite in_app_iff, in_range. simpl. unfold PamFacts.inRange. intuition. }
    apply (fold_left_hist (swapTrial dist meds (assignCost dist meds) mIdx)
             (fun preC best =>
                searchInv meds
                  (fun m c => (In m pre /\ inRange c) \/ (m = mIdx /\ In c preC)) best)).
    + apply (searchInv_ext meds (fun m c => In m pre /\ inRange c)); [|assumption].
      intros m c. simpl. intuition.
    + intros preC b c postC El Hb.
      apply (searchInv_ext meds
               (fun m c' => ((In m pre /\ inRange c') \/ (m = mIdx /\ In c' preC))
                            \/ (m = mIdx /\ c' = c))).
      { intros m c'. rewrite in_app_iff. simpl. intuition. }
      now apply swapTrial_inv.
Qed.

(** One pass either keeps the medoids, because no replacement of one slot
    by a non-medoid has a total cost below the current one, or replaces
    one slot, by the replacement of least change, and lowers the cost
    strictly.  Costs and changes are the rounded sums and differences of
    the source. *)
Lemma swapPass_spec (k : Z) (meds : list Z) :
  1 <= k -> medoidArray k meds ->
  match swapPass dist k meds with
  | None =>
      forall mIdx c, 0 <= mIdx < k -> inRange c -> ~ In c meds ->
                     nlt (assignCost dist (setZ meds mIdx c)) (assignCost dist meds) = false
  | Some meds' =>
      medoidArray k meds' /\
      nlt (assignCost dist meds') (assignCost dist meds) = true /\
      exists mIdx c,
        0 <= mIdx < k /\ inRange c /\ ~ In c meds /\ meds' = setZ meds mIdx c /\
        nlt (change meds mIdx c) (Fin 0) = true /\
        forall mIdx' c', 0 <= mIdx' < k -> inRange c' -> ~ In c' meds ->
                         nlt (change meds mIdx' c') (change meds mIdx c) = false
  end.
Proof.
  intros Hk (Hlen & Hnd & Hin).
  assert (Hne : meds <> []).
  { intros ->. unfold lengthZ in Hlen. simpl in Hlen. lia. }
  pose proof (swapSearch_inv k meds) as H. unfold swapPass.
  destruct (swapSearch dist k meds) as [[ch mi] c].
  destruct H as (Hmin & [(-> & -> & ->) | ((Hmi & Hc) & Hfree & Hv & Hneg)]).
  - simpl. intros mIdx c Hm Hc Hfree.
    specialize (Hmin mIdx c (conj Hm Hc) Hfree).
    destruct (nlt (assignCost dist (setZ meds mIdx c)) (assignCost dist meds)) eqn:D;
      [|reflexivity].
    destruct (setZ_medoids meds mIdx c Hne Hin Hc) as [Hne' Hin'].
    apply nsub_lt_neg in D; try now apply assignCost_stored.
    unfold change in Hmin. congruence.
  - replace (0 <=? mi) with true by lia. split; [|split].
    + split; [|split].
      * unfold lengthZ in *. now rewrite setZ_length.
      * now apply setZ_NoDup.
      * now apply setZ_medoids.
    + apply nsub_neg_lt. fold (change meds mi c). now rewrite <- Hv.
    + exists mi, c. split; [lia|]. split; [assumption|]. split; [assumption|].
      split; [reflexivity|]. split; [now rewrite <- Hv|].
      intros m' c' Hm' Hc' Hf'. rewrite <- Hv. now apply Hmin.
Qed.

Lemma swapLoop_spec (iters : nat) (k : Z) (meds : list Z) :
  1 <= k -> medoidArray k meds ->
  let (final, passes) := swapLoop dist iters k meds in
  medoidArray k final /\ (passes <= iters)%nat /\
  nle (assignCost dist final) (assignCost dist meds) = true /\
  ((passes < iters)%nat -> swapPass dist k final = None).
Proof.
  intros Hk. revert meds. induction iters as [| iters IH]; intros meds Hm; simpl.
  - split; [assumption|]. split; [lia|]. split; [|lia].
    apply nle_refl, stored_notNaN, assignCost_stored; [|apply Hm].
    intros ->. destruct Hm as (Hl & _). unfold lengthZ in Hl. simpl in Hl. lia.
  - pose proof (swapPass_spec k meds Hk Hm) as Hp.
    destruct (swapPass dist k meds) as [meds' |] eqn:E.
    + destruct Hp as (Hm' & Hlt & _). specialize (IH meds' Hm').
      destruct (swapLoop dist iters k meds') as [final passes].
      destruct IH as (H1 & H2 & H3 & H4).
      split; [assumption|]. split; [lia|]. split.
      * apply nle_trans with (assignCost dist meds'); [exact H3 | now apply nlt_nle].
      * intros H. apply H4. lia.
    + split; [assumption|]. split; [lia|]. split; [|intros _; exact E].
      apply nle_refl, stored_notNaN, assignCost_stored; [|apply Hm].
      intros ->. destruct Hm as (Hl & _). unfold lengthZ in Hl. simpl in Hl. lia.
Qed.

(** The medoids that the assignment works with. *)
Lemma final_medoids (k : Z) :
  1 <= k <= n ->
  medoidArray k (sortAscending (fst (swapPhase dist k (build dist k)))).
Proof.
  intros Hk. destruct (build_spec n q k Hk) as (Hlen & Hnd & Hin & _).
  pose proof (swapLoop_spec 100 k (build dist k) ltac:(lia) (conj Hlen (conj Hnd Hin))) as H.
  unfold swapPhase. destruct (swapLoop dist 100 k (build dist k)) as [final passes].
  destruct H as ((Hl & Hn & Hi) & _). simpl.
  pose proof (sortAscending_perm final) as Hp.
  split; [|split].
  - unfold lengthZ in *. now rewrite <- (Permutation_length Hp).
  - now apply (Permutation_NoDup Hp).
  - now apply (Permutation_Forall Hp).
Qed.

End Finite.

End SwapFacts.

(* ------------------------------------------------------------------ *)
(** * Hierarchical clustering on a finite distance matrix *)

Lemma nthZ_setZ {A : Type} (l : list A) (i j : Z) (v d : A) :
  0 <= i < lengthZ l -> 0 <= j ->
  nthZ (setZ l i v) j d = if j =? i then v else nthZ l j d.
Proof.
  intros Hi Hj. unfold nthZ, setZ, lengthZ in *.
  replace (i <? 0) with false by lia. replace (j <? 0) with false by lia.
  destruct (j =? i) eqn:E.
  - apply Z.eqb_eq in E. subst j.
    assert (H : (Z.to_nat i < length l)%nat) by lia. clear Hi Hj.
    revert H. generalize (Z.to_nat i). clear i. intros i. revert i.
    induction l as [| x l IH]; intros [| i] H; simpl in *; try lia; auto.
    apply IH. lia.
  - apply Z.eqb_neq in E.
    assert (H : Z.to_nat j <> Z.to_nat i) by lia. clear Hi Hj E.
    revert H. generalize (Z.to_nat i) (Z.to_nat j). clear i j. intros i j. revert i j.
    induction l as [| x l IH]; intros [| i] [| j] H; simpl; auto; try congruence.
Qed.

Lemma finite_Fin (x : num) : finite x = true -> exists a, x = Fin a.
Proof. destruct x; try discriminate. now eexists. Qed.

Lemma inject_Z_sum_nonzero (a b : Z) :
  1 <= a -> 1 <= b -> Qeq_bool (inject_Z a + inject_Z b) 0 = false.
Proof.
  intros Ha Hb. destruct (Qeq_bool _ _) eqn:E; [|reflexivity].
  apply Qeq_bool_eq in E. rewrite <- inject_Z_plus in E.
  unfold Qeq, inject_Z in E. simpl in E. lia.
Qed.

Lemma Qeq_bool_pos (x : Q) : (0 < x)%Q -> Qeq_bool x 0 = false.
Proof.
  intros H. destruct (Qeq_bool x 0) eqn:E; [|reflexivity].
  apply Qeq_bool_eq in E. rewrite E in H. exfalso. apply (Qlt_irrefl _ H).
Qed.

Lemma inject_Z_pos (a : Z) : 1 <= a -> (0 < inject_Z a)%Q.
Proof. intros H. unfold Qlt, inject_Z. simpl. lia. Qed.

(** [a] stands before [b] in [l]. *)
Definition before (l : list Z) (a b : Z) : Prop :=
  exists l1 l2 l3, l = l1 ++ a :: l2 ++ b :: l3.

Lemma before_cons (c : Z) (l : list Z) (a b : Z) :
  before (c :: l) a b <-> (a = c /\ In b l) \/ before l a b.
Proof.
  split.
  - intros (l1 & l2 & l3 & E). destruct l1 as [| x l1]; simpl in E; injection E as E1 E2.
    + left. split; [congruence|]. rewrite E2. apply in_or_app. right. now left.
    + right. now exists l1, l2, l3.
  - intros [[-> Hb] | (l1 & l2 & l3 & ->)].
    + apply in_split in Hb. destruct Hb as (l2 & l3 & ->). now exists [], l2, l3.
    + now exists (c :: l1), l2, l3.
Qed.

Lemma before_In (l : list Z) (a b : Z) : before l a b -> In a l /\ In b l.
Proof.
  intros (l1 & l2 & l3 & ->). split.
  - apply in_or_app. right. now left.
  - apply in_or_app. right. right. apply in_or_app. right. now left.
Qed.

Lemma before_sorted (l : list Z) (a b : Z) :
  StronglySorted Z.lt l -> before l a b -> a < b.
Proof.
  intros Hs (l1 & l2 & l3 & ->). apply StronglySorted_split in Hs. destruct Hs as [_ Hs].
  rewrite Forall_forall in Hs. apply Hs. apply in_or_app. right. now left.
Qed.

Lemma before_nil (a b : Z) : ~ before [] a b.
Proof. intros (l1 & l2 & l3 & E). now destruct l1. Qed.

Lemma filter_sorted (f : Z -> bool) (l : list Z) :
  StronglySorted Z.lt l -> StronglySorted Z.lt (filter f l).
Proof.
  induction 1 as [| x l Hl IH Hx]; simpl; [constructor|].
  destruct (f x); [|exact IH]. constructor; [exact IH|].
  rewrite Forall_forall in *. intros y Hy. apply filter_In in Hy. now apply Hx.
Qed.

Lemma before_neq (l : list Z) (a b : Z) : NoDup l -> before l a b -> a <> b.
Proof.
  intros Hnd (l1 & l2 & l3 & E). rewrite E in Hnd. apply NoDup_remove_2 in Hnd.
  intros ->. apply Hnd. apply in_or_app. right. apply in_or_app. right. now left.
Qed.

Lemma not_below_PInf (x y : num) : nlt x PInf = false -> nlt x y = false.
Proof. destruct x, y; try reflexivity; discriminate. Qed.

Module HierarchicalFacts.

Import Hierarchical.

Lemma closestPair_cons (dd : Z -> Z -> num) (ci : Z) (rest : list Z) (best : num * Z * Z) :
  closestPair dd (ci :: rest) best
  = closestPair dd rest
      (fold_left
         (fun best cj => if nlt (dd ci cj) (fst (fst best)) then (dd ci cj, ci, cj) else best)
         rest best).
Proof. reflexivity. Qed.

(** The best pair found over the pairs [S]: none when no pair of [S] is
    below [Infinity], else a pair of [S] below [Infinity] with no pair of
    [S] below it. *)
Definition leastOver (dd : Z -> Z -> num) (S : Z -> Z -> Prop) (best : num * Z * Z) : Prop :=
  let '(bd, bi, bj) := best in
  (bd = PInf /\ bi = -1 /\ bj = -1 /\ forall a b, S a b -> nlt (dd a b) PInf = false) \/
  (S bi bj /\ bd = dd bi bj /\ nlt bd PInf = true /\
   forall a b, S a b -> nlt (dd a b) bd = false).

Lemma leastOver_ext (dd : Z -> Z -> num) (S S' : Z -> Z -> Prop) (best : num * Z * Z) :
  (forall a b, S a b <-> S' a b) -> leastOver dd S best -> leastOver dd S' best.
Proof.
  intros He. destruct best as [[bd bi] bj]. unfold leastOver.
  intros [(H1 & H2 & H3 & H4) | (H1 & H2 & H3 & H4)].
  - left. repeat split; try assumption. intros a b H. apply (H4 a b). now apply He.
  - right. split; [now apply He|]. split; [assumption|]. split; [assumption|].
    intros a b H. apply H4. now apply He.
Qed.

Lemma closestInner_least (dd : Z -> Z -> num) (S : Z -> Z -> Prop) (ci : Z) (rest : list Z)
    (best : num * Z * Z) :
  leastOver dd S best ->
  leastOver dd (fun a b => S a b \/ (a = ci /\ In b rest))
    (fold_left
       (fun best cj => if nlt (dd ci cj) (fst (fst best)) then (dd ci cj, ci, cj) else best)
       rest best).
Proof.
  intros Hb.
  apply (fold_left_hist _
           (fun pre best => leastOver dd (fun a b => S a b \/ (a = ci /\ In b pre)) best)).
  - apply (leastOver_ext dd S); [|exact Hb]. intros a b. simpl. tauto.
  - intros pre [[bd bi] bj] cj post El H. cbn [fst].
    assert (Hnew : forall a b, (S a b \/ a = ci /\ In b (pre ++ [cj])) <->
                               ((S a b \/ a = ci /\ In b pre) \/ (a = ci /\ b = cj))).
    { intros a b. rewrite in_app_iff. simpl. intuition. }
    destruct H as [(-> & -> & -> & Hnone) | (HS & Hd & Hlt & Hmin)].
    + destruct (nlt (dd ci cj) PInf) eqn:E.
      * right. split; [apply Hnew; now right|]. split; [reflexivity|]. split; [exact E|].
        intros a b Hab. apply Hnew in Hab. destruct Hab as [Hab | [-> ->]].
        -- apply not_below_PInf. now apply Hnone.
        -- apply nlt_irrefl.
      * left. repeat split. intros a b Hab. apply Hnew in Hab.
        destruct Hab as [Hab | [-> ->]]; [now apply Hnone | exact E].
    + destruct (nlt (dd ci cj) bd) eqn:E.
      * right. split; [apply Hnew; now right|]. split; [reflexivity|].
        split; [now apply nlt_trans with bd|].
        intros a b Hab. apply Hnew in Hab. destruct Hab as [Hab | [-> ->]].
        -- destruct (nlt (dd a b) (dd ci cj)) eqn:D; [|reflexivity].
           pose proof (Hmin a b Hab) as Hm. rewrite (nlt_trans _ _ _ D E) in Hm.
           discriminate.
        -- apply nlt_irrefl.
      * right. split; [apply Hnew; now left|]. split; [exact Hd|]. split; [exact Hlt|].
        intros a b Hab. apply Hnew in Hab. destruct Hab as [Hab | [-> ->]].
        -- now apply Hmin.
        -- exact E.
Qed.

Lemma closestPair_least (dd : Z -> Z -> num) (l : list Z) :
  forall S best, leastOver dd S best ->
    leastOver dd (fun a b => S a b \/ before l a b) (closestPair dd l best).
Proof.
  induction l as [| ci rest IH]; intros S best Hb.
  - simpl. apply (leastOver_ext dd S); [|exact Hb]. intros a b. split; [tauto|].
    intros [H | H]; [exact H | now apply before_nil in H].
  - rewrite closestPair_cons.
    apply (leastOver_ext dd (fun a b => (S a b \/ (a = ci /\ In b rest)) \/ before rest a b)).
    + intros a b. rewrite before_cons. tauto.
    + apply (IH (fun a b => S a b \/ (a = ci /\ In b rest))).
      now apply closestInner_least.
Qed.

Lemma delete_In (x y : Z) (l : list Z) : In y (delete x l) <-> In y l /\ y <> x.
Proof.
  unfold delete. rewrite filter_In, negb_true_iff, Z.eqb_neq. reflexivity.
Qed.

Lemma delete_length (x : Z) (l : list Z) :
  NoDup l -> In x l -> S (length (delete x l)) = length l.
Proof.
  induction l as [| y l IH]; intros Hnd Hin; [destruct Hin|].
  inversion Hnd; subst. simpl. destruct (y =? x) eqn:E; simpl.
  - apply Z.eqb_eq in E. subst y. f_equal.
    unfold delete. f_equal. clear IH Hnd Hin H2.
    induction l as [| z l IH]; simpl; [reflexivity|].
    destruct (z =? x) eqn:E; simpl.
    + apply Z.eqb_eq in E. subst z. exfalso. apply H1. now left.
    + f_equal. apply IH. intros H. apply H1. now right.
  - apply Z.eqb_neq in E. f_equal. apply IH; [assumption|].
    destruct Hin as [-> | Hin]; [congruence | assumption].
Qed.

Section AnyMatrix.

Variable n : Z.
Variable method : string.

Definition inRange (m : Z) : Prop := 0 <= m < n.

(** The clusters of the active ids split the observations. *)
Record hierInv (st : state) : Prop := mkInv {
  inv_nodup : NoDup (active st);
  inv_range : Forall inRange (active st);
  inv_sizes : forall a, In a (active st) -> 1 <= sizes st a;
  inv_nonempty : forall a, In a (active st) -> clusters st a <> [];
  inv_cover : forall p, inRange p -> exists a, In a (active st) /\ In p (clusters st a);
  inv_disjoint : forall a b p, In a (active st) -> In b (active st) ->
                               In p (clusters st a) -> In p (clusters st b) -> a = b;
  inv_members : forall a p, In a (active st) -> In p (clusters st a) -> inRange p
}.

Lemma init_inv (dist : Matrix.t) : Matrix.rows dist = n -> hierInv (init dist method).
Proof.
  intros Hn. unfold init. rewrite Hn. constructor; simpl.
  - apply NoDup_range.
  - apply Forall_forall. intros x Hx. now apply in_range.
  - intros; lia.
  - intros; discriminate.
  - intros p Hp. exists p. split; [now apply in_range | now left].
  - intros a b p _ _ [<- | []] [<- | []]. reflexivity.
  - intros a p Ha [<- | []]. now apply in_range.
Qed.

(** One pass of the loop: it throws when no pair of active clusters is
    below [Infinity], and else merges a pair below [Infinity] that no
    pair is below. *)
Lemma mergeStep_shape (st : state) :
  hierInv st ->
  (mergeStep method st = Throw (TypeError "Cannot read properties of undefined") /\
   forall a b, before (active st) a b -> nlt (d st a b) PInf = false) \/
  (exists bi bj,
     before (active st) bi bj /\
     nlt (d st bi bj) PInf = true /\
     (forall a b, before (active st) a b -> nlt (d st a b) (d st bi bj) = false) /\
     mergeStep method st
     = Ok (mkState (upd (clusters st) bi (clusters st bi ++ clusters st bj))
                   (delete bj (active st))
                   (upd (sizes st) bi (sizes st bi + sizes st bj))
                   (updateDistances method st bi bj))).
Proof.
  intros Hinv.
  pose proof (closestPair_least (d st) (active st) (fun _ _ => False) (PInf, -1, -1)) as H.
  unfold mergeStep.
  destruct (closestPair (d st) (active st) (PInf, -1, -1)) as [[bd bi] bj].
  destruct H as [(_ & -> & -> & Hnone) | (HS & -> & Hlt & Hmin)].
  - left. repeat split; try reflexivity. tauto.
  - left. split; [reflexivity|]. intros a b Hab. apply Hnone. now right.
  - right. destruct HS as [[] | HS].
    exists bi, bj. split; [exact HS|]. split; [exact Hlt|]. split.
    + intros a b Hab. apply Hmin. now right.
    + destruct (before_In _ _ _ HS) as [Hi _].
      pose proof (inv_range st Hinv) as Hr. rewrite Forall_forall in Hr.
      specialize (Hr bi Hi). unfold inRange in Hr.
      now replace (bi <? 0) with false by lia.
Qed.

(** A pass that returns has merged two clusters. *)
Lemma mergeStep_spec (st st' : state) :
  hierInv st -> mergeStep method st = Ok st' ->
  hierInv st' /\ S (length (active st')) = length (active st).
Proof.
  intros Hinv E.
  destruct (mergeStep_shape st Hinv) as [[E' _] | (bi & bj & Hb & _ & _ & E')];
    rewrite E' in E; [discriminate|]. injection E as <-.
  destruct (before_In _ _ _ Hb) as [Hi Hj].
  pose proof (before_neq _ _ _ (inv_nodup st Hinv) Hb) as Hij.
  pose proof (inv_range st Hinv) as Hr. rewrite Forall_forall in Hr.
  split.
  - constructor; simpl.
    + unfold delete. apply NoDup_filter, (inv_nodup st Hinv).
    + apply Forall_forall. intros x Hx. apply delete_In in Hx. apply Hr, Hx.
    + intros a Ha. apply delete_In in Ha. unfold upd. destruct (a =? bi).
      * pose proof (inv_sizes st Hinv bi Hi). pose proof (inv_sizes st Hinv bj Hj). lia.
      * apply (inv_sizes st Hinv), Ha.
    + intros a Ha. apply delete_In in Ha. unfold upd. destruct (a =? bi).
      * intros E. apply app_eq_nil in E. destruct E as [E _].
        now apply (inv_nonempty st Hinv bi Hi).
      * apply (inv_nonempty st Hinv), Ha.
    + intros p Hp. destruct (inv_cover st Hinv p Hp) as (a & Ha & Hpa).
      destruct (Z.eq_dec a bj) as [-> | Hne].
      * exists bi. split; [apply delete_In; tauto|]. unfold upd. rewrite Z.eqb_refl.
        apply in_or_app. now right.
      * exists a. split; [apply delete_In; tauto|]. unfold upd. destruct (a =? bi) eqn:E.
        -- apply Z.eqb_eq in E. subst a. apply in_or_app. now left.
        -- assumption.
    + intros a b p Ha Hb'. apply delete_In in Ha, Hb'.
      destruct Ha as [Ha Haj], Hb' as [Hb' Hbj].
      unfold upd. destruct (a =? bi) eqn:Ea, (b =? bi) eqn:Eb;
        rewrite ?Z.eqb_eq, ?Z.eqb_neq in *; subst; intros Hpa Hpb.
      * reflexivity.
      * apply in_app_or in Hpa. destruct Hpa as [Hpa | Hpa].
        -- apply (inv_disjoint st Hinv bi b p); assumption.
        -- exfalso. apply Hbj. apply (inv_disjoint st Hinv b bj p); assumption.
      * apply in_app_or in Hpb. destruct Hpb as [Hpb | Hpb].
        -- apply (inv_disjoint st Hinv a bi p); assumption.
        -- exfalso. apply Haj. apply (inv_disjoint st Hinv a bj p); assumption.
      * apply (inv_disjoint st Hinv a b p); assumption.
    + intros a p Ha. apply delete_In in Ha. destruct Ha as [Ha Haj]. unfold upd.
      destruct (a =? bi).
      * intros Hp. apply in_app_or in Hp.
        destruct Hp as [Hp | Hp];
          [apply (inv_members st Hinv bi p Hi Hp) | apply (inv_members st Hinv bj p Hj Hp)].
      * apply (inv_members st Hinv), Ha.
  - simpl. apply delete_length; [apply (inv_nodup st Hinv) | exact Hj].
Qed.

Lemma mergeStep_outcome (st : state) :
  hierInv st ->
  mergeStep method st = Throw (TypeError "Cannot read properties of undefined") \/
  exists st', mergeStep method st = Ok st'.
Proof.
  intros Hinv. destruct (mergeStep_shape st Hinv) as [[E _] | (bi & bj & _ & _ & _ & E)].
  - now left.
  - right. eexists. exact E.
Qed.

(** With enough fuel the loop does not run out of it: it throws, in a
    pass that finds no pair, or returns after exactly [active.size - k]
    merges with [k] active clusters. *)
Lemma mergeLoop_spec (fuel : nat) (k : Z) (st : state) :
  1 <= k -> hierInv st -> k <= lengthZ (active st) ->
  (length (active st) - Z.to_nat k <= fuel)%nat ->
  mergeLoop fuel method k st = Throw (TypeError "Cannot read properties of undefined") \/
  exists st', mergeLoop fuel method k st = Ok (st', (length (active st) - Z.to_nat k)%nat) /\
              hierInv st' /\ lengthZ (active st') = k.
Proof.
  intros Hk. revert st. induction fuel as [| fuel IH]; intros st Hinv Hlen Hfuel.
  - right. simpl. unfold lengthZ in *.
    replace (Z.of_nat (length (active st)) >? k) with false by lia.
    exists st. replace (length (active st) - Z.to_nat k)%nat with O by lia.
    split; [reflexivity|]. split; [assumption | lia].
  - simpl. unfold lengthZ in *.
    destruct (Z.of_nat (length (active st)) >? k) eqn:E.
    + destruct (mergeStep_outcome st Hinv) as [E1 | (st1 & E1)]; rewrite E1; cbn [bind];
        [now left|].
      destruct (mergeStep_spec st st1 Hinv E1) as (Hinv1 & Hl1).
      destruct (IH st1 Hinv1) as [E' | (st' & E' & Hinv' & Hl')]; [lia | lia | |].
      * left. now rewrite E'.
      * right. rewrite E'. cbn [bind fst snd]. exists st'. split; [|split; assumption].
        do 2 f_equal. lia.
    + right. exists st. replace (length (active st) - Z.to_nat k)%nat with O by lia.
      split; [reflexivity|]. split; [assumption | lia].
Qed.

Lemma run_spec (dist : Matrix.t) (k : Z) :
  Matrix.rows dist = n -> 1 <= k <= n ->
  run dist k method = Throw (TypeError "Cannot read properties of undefined") \/
  exists st', run dist k method = Ok (st', Z.to_nat (n - k)) /\
              hierInv st' /\ lengthZ (active st') = k.
Proof.
  intros Hn Hk. unfold run. rewrite Hn.
  assert (Hl : length (active (init dist method)) = Z.to_nat n).
  { unfold init. rewrite Hn. simpl. apply range_length. }
  destruct (mergeLoop_spec (S (Z.to_nat n)) k (init dist method)) as [E | (st' & E & H)].
  - lia.
  - now apply init_inv.
  - unfold lengthZ. rewrite Hl. lia.
  - rewrite Hl. lia.
  - now left.
  - right. exists st'. split; [|exact H]. rewrite E, Hl. do 2 f_equal. lia.
Qed.

(** The working distances between distinct active clusters are finite. *)
Definition allFinite (st : state) : Prop :=
  forall a b, In a (active st) -> In b (active st) -> a <> b -> finite (d st a b) = true.

(** A linkage rule that turns finite distances into a finite distance,
    as [Math.min] and [Math.max] do. *)
Definition keepsFinite : Prop :=
  forall ni nj nk dik djk dij,
    finite dik = true -> finite djk = true -> finite dij = true ->
    finite (lanceWilliams method ni nj nk dik djk dij) = true.

Lemma updateDistances_finite (st : state) (bestI bestJ : Z) :
  keepsFinite -> allFinite st ->
  In bestI (active st) -> In bestJ (active st) -> bestI <> bestJ ->
  forall a b, In a (active st) -> In b (active st) -> a <> b ->
              finite (updateDistances method st bestI bestJ a b) = true.
Proof.
  intros Hkeep Hfin Hi Hj Hij. unfold updateDistances.
  assert (H : forall l dd,
             incl l (active st) ->
             (forall a b, In a (active st) -> In b (active st) -> a <> b ->
                          finite (dd a b) = true) ->
             forall a b, In a (active st) -> In b (active st) -> a <> b ->
               finite
                 (fold_left
                    (fun d0 ck =>
                       if (ck =? bestI) || (ck =? bestJ) then d0
                       else
                         let nk := ofZ (sizes st ck) in
                         let dik := d0 bestI ck in
                         let djk := d0 bestJ ck in
                         let newDist :=
                           lanceWilliams method (ofZ (sizes st bestI)) (ofZ (sizes st bestJ))
                                         nk dik djk (d st bestI bestJ) in
                         upd2 (upd2 d0 bestI ck newDist) ck bestI newDist)
                    l dd a b) = true).
  { induction l as [| ck l IH]; intros dd Hincl Hdd; simpl; [exact Hdd|].
    apply IH; [intros x Hx; apply Hincl; now right|].
    assert (Hck : In ck (active st)) by (apply Hincl; now left).
    destruct ((ck =? bestI) || (ck =? bestJ)) eqn:E; [exact Hdd|].
    apply orb_false_iff in E. destruct E as [E1 E2].
    apply Z.eqb_neq in E1, E2.
    assert (Hnew : finite (lanceWilliams method (ofZ (sizes st bestI)) (ofZ (sizes st bestJ))
                             (ofZ (sizes st ck)) (dd bestI ck) (dd bestJ ck)
                             (d st bestI bestJ)) = true).
    { apply Hkeep.
      - apply Hdd; auto.
      - apply Hdd; auto.
      - apply Hfin; auto. }
    intros a b Ha Hb Hab. unfold upd2.
    destruct ((a =? ck) && (b =? bestI)); [exact Hnew|].
    destruct ((a =? bestI) && (b =? ck)); [exact Hnew|].
    now apply Hdd. }
  apply H; [apply incl_refl | exact Hfin].
Qed.

(** While the distances are finite a pass finds a pair. *)
Lemma mergeStep_finite (st : state) :
  keepsFinite -> hierInv st -> allFinite st -> (2 <= length (active st))%nat ->
  exists st', mergeStep method st = Ok st' /\ allFinite st'.
Proof.
  intros Hkeep Hinv Hfin Hlen.
  destruct (mergeStep_shape st Hinv) as [[_ Hnone] | (bi & bj & Hb & _ & _ & E)].
  - exfalso. destruct (active st) as [| x [| y rest]] eqn:Ea; simpl in Hlen; try lia.
    assert (Hxy : before (x :: y :: rest) x y) by (now exists [], [], rest).
    specialize (Hnone x y Hxy).
    assert (Hne : x <> y).
    { apply (before_neq (x :: y :: rest)); [|exact Hxy]. rewrite <- Ea. apply Hinv. }
    destruct (finite_Fin (d st x y)) as (v & Ev).
    { apply Hfin; rewrite ?Ea; [now left | right; now left | exact Hne]. }
    rewrite Ev in Hnone. discriminate.
  - eexists. split; [exact E|]. intros a b Ha Hb' Hab. cbn [active d] in *.
    apply delete_In in Ha, Hb'. destruct (before_In _ _ _ Hb) as [Hi Hj].
    apply updateDistances_finite; try tauto.
    apply (before_neq _ _ _ (inv_nodup st Hinv) Hb).
Qed.

Lemma mergeLoop_finite (fuel : nat) (k : Z) (st : state) :
  keepsFinite -> 1 <= k -> hierInv st -> allFinite st -> k <= lengthZ (active st) ->
  (length (active st) - Z.to_nat k <= fuel)%nat ->
  exists r, mergeLoop fuel method k st = Ok r.
Proof.
  intros Hkeep Hk. revert st. induction fuel as [| fuel IH]; intros st Hinv Hfin Hlen Hfuel.
  - simpl. unfold lengthZ in *.
    replace (Z.of_nat (length (active st)) >? k) with false by lia. now eexists.
  - simpl. unfold lengthZ in *.
    destruct (Z.of_nat (length (active st)) >? k) eqn:E; [|now eexists].
    destruct (mergeStep_finite st Hkeep Hinv Hfin) as (st1 & E1 & Hfin1); [lia|].
    rewrite E1. cbn [bind].
    destruct (mergeStep_spec st st1 Hinv E1) as (Hinv1 & Hl1).
    destruct (IH st1 Hinv1 Hfin1) as (r & Er); [lia | lia |].
    rewrite Er. cbn [bind]. now eexists.
Qed.

End AnyMatrix.

Lemma minmax_keepsFinite (method : string) :
  method = "single" \/ method = "complete" -> keepsFinite method.
Proof.
  intros H ni nj nk dik djk dij H1 H2 _.
  apply finite_Fin in H1, H2. destruct H1 as (a & ->), H2 as (b & ->).
  unfold lanceWilliams. destruct H as [-> | ->]; cbn [String.eqb Ascii.eqb Bool.eqb].
  - now rewrite nmin_Fin.
  - now rewrite nmax_Fin.
Qed.

(** On a finite matrix, single and complete linkage always return. *)
Lemma run_minmax (n : Z) (q : Z -> Z -> Q) (k : Z) (method : string) :
  method = "single" \/ method = "complete" -> 1 <= k <= n ->
  exists r, run (Matrix.ofTable n q) k method = Ok r.
Proof.
  intros Hm Hk. unfold run. cbn [Matrix.rows Matrix.ofTable].
  assert (Hl : length (active (init (Matrix.ofTable n q) method)) = Z.to_nat n).
  { unfold init. simpl. apply range_length. }
  apply (mergeLoop_finite n method (S (Z.to_nat n)) k).
  - now apply minmax_keepsFinite.
  - lia.
  - now apply init_inv.
  - intros a b Ha Hb _. unfold init in *. cbn [active d Matrix.rows Matrix.ofTable] in *.
    apply in_range in Ha, Hb.
    replace (String.eqb method "ward.D2") with false
      by (destruct Hm as [-> | ->]; reflexivity).
    now rewrite get_ofTable.
  - unfold lengthZ. rewrite Hl. lia.
  - rewrite Hl. lia.
Qed.

End HierarchicalFacts.

(* ------------------------------------------------------------------ *)
(** * The partitions that the two solvers return *)

Lemma nthZ_nth {A : Type} (l : list A) (i : Z) (d : A) :
  0 <= i -> nthZ l i d = nth (Z.to_nat i) l d.
Proof. intros H. unfold nthZ. now replace (i <? 0) with false by lia. Qed.

Lemma nthZ_In {A : Type} (l : list A) (i : Z) (d : A) :
  0 <= i < lengthZ l -> In (nthZ l i d) l.
Proof.
  intros H. rewrite nthZ_nth by lia. apply nth_In. unfold lengthZ in H. lia.
Qed.

Lemma In_nthZ {A : Type} (l : list A) (x d : A) :
  In x l -> exists i, 0 <= i < lengthZ l /\ nthZ l i d = x.
Proof.
  intros H. destruct (In_nth l x d H) as (i & Hi & E).
  exists (Z.of_nat i). split; [unfold lengthZ; lia|].
  rewrite nthZ_nth by lia. now rewrite Nat2Z.id.
Qed.

Lemma split_at {A : Type} (l : list A) (i : nat) (d : A) :
  (i < length l)%nat -> l = firstn i l ++ nth i l d :: skipn (S i) l.
Proof.
  revert i. induction l as [| x l IH]; intros [| i] H; simpl in *; try lia.
  - reflexivity.
  - f_equal. apply IH. lia.
Qed.

Lemma snoc_split {A : Type} (pre l1 l2 : list A) (x a : A) :
  pre ++ [x] = l1 ++ a :: l2 ->
  (l2 = [] /\ pre = l1 /\ x = a) \/ (exists l2', l2 = l2' ++ [x] /\ pre = l1 ++ a :: l2').
Proof.
  intros E. destruct (exists_last (l := a :: l2)) as (l' & y & E'); [discriminate|].
  destruct l2 as [| b l2].
  - left. apply app_inj_tail in E. destruct E as [-> ->]. auto.
  - right. destruct (exists_last (l := b :: l2)) as (l2' & z & E2); [discriminate|].
    rewrite E2 in E. exists l2'.
    change (l1 ++ a :: l2' ++ [z]) with (l1 ++ (a :: l2') ++ [z]) in E.
    rewrite app_assoc in E. apply app_inj_tail in E. destruct E as [-> ->].
    split; [exact E2 | reflexivity].
Qed.

Module PartitionFacts.

Section Labels.

Import Hierarchical HierarchicalFacts.

Variable n : Z.
Variable method : string.

Local Abbreviation inRange := (HierarchicalFacts.inRange n).
Local Abbreviation hierInv := (HierarchicalFacts.hierInv n).

Lemma paint_spec (pts : list Z) (v : Z) (asg : list Z) (p : Z) :
  Forall (fun x => 0 <= x < lengthZ asg) pts -> 0 <= p ->
  lengthZ (fold_left (fun a point => setZ a point v) pts asg) = lengthZ asg /\
  (In p pts -> nthZ (fold_left (fun a point => setZ a point v) pts asg) p 0 = v) /\
  (~ In p pts -> nthZ (fold_left (fun a point => setZ a point v) pts asg) p 0 = nthZ asg p 0).
Proof.
  intros Hpts Hp. revert asg Hpts. induction pts as [| x pts IH]; intros asg Hpts; simpl.
  - split; [reflexivity|]. split; [intros [] | reflexivity].
  - inversion Hpts as [| y l Hx Hrest]; subst.
    assert (Hl : lengthZ (setZ asg x v) = lengthZ asg).
    { unfold lengthZ. now rewrite setZ_length. }
    destruct (IH (setZ asg x v)) as (H1 & H2 & H3).
    { rewrite Hl. assumption. }
    split; [now rewrite H1|]. split.
    + intros [-> | Hin].
      * destruct (in_dec Z.eq_dec p pts) as [Hin | Hnin]; [now apply H2|].
        rewrite (H3 Hnin), nthZ_setZ by assumption. now rewrite Z.eqb_refl.
      * now apply H2.
    + intros Hn. rewrite H3 by tauto. rewrite nthZ_setZ by assumption.
      destruct (p =? x) eqn:E; [|reflexivity]. apply Z.eqb_eq in E. subst. tauto.
Qed.

(** The labels after the clusters [pre] of [active] are painted. *)
Definition labelled (st : state) (pre : list Z) (acc : list Z * Z) : Prop :=
  snd acc = 1 + lengthZ pre /\ lengthZ (fst acc) = n /\
  forall p, inRange p ->
    (forall l1 a l2, pre = l1 ++ a :: l2 -> In p (clusters st a) ->
                     nthZ (fst acc) p 0 = 1 + lengthZ l1) /\
    ((forall a, In a pre -> ~ In p (clusters st a)) -> nthZ (fst acc) p 0 = 0).

Lemma label_spec (st : state) :
  0 <= n -> hierInv st ->
  labelled st (active st)
    (fold_left
       (fun acc ci =>
          let (assignments, clusterIdx) := (acc : list Z * Z) in
          (fold_left (fun a point => setZ a point clusterIdx) (clusters st ci) assignments,
           clusterIdx + 1))
       (active st) (map (fun _ => 0) (range n), 1)).
Proof.
  intros Hn Hinv. apply (fold_left_hist _ (labelled st)).
  - split; [reflexivity|]. split.
    + unfold lengthZ. simpl. rewrite length_map, range_length. lia.
    + intros p Hp. split.
      * intros l1 a l2 E. destruct l1; discriminate.
      * intros _. simpl. rewrite nthZ_nth by apply Hp.
        assert (H : forall l i, nth i (map (fun _ : Z => 0) l) 0 = 0).
        { induction l as [| y l IH]; intros [| i]; simpl; auto. }
        apply H.
  - intros pre [asg idx] x post El (Hidx & Hlen & Hp). cbn [fst snd] in Hidx, Hlen, Hp.
    assert (Hx : In x (active st)).
    { rewrite El. apply in_or_app. right. now left. }
    assert (Hpts : Forall (fun y => 0 <= y < lengthZ asg) (clusters st x)).
    { apply Forall_forall. intros y Hy. rewrite Hlen.
      apply (inv_members n st Hinv x y Hx Hy). }
    split; [|split]; cbn [fst snd].
    + unfold lengthZ in *. rewrite length_app. cbn [length]. lia.
    + destruct (paint_spec (clusters st x) idx asg 0 Hpts) as (H1 & _); [lia|]. now rewrite H1.
    + intros p Hpr.
      destruct (paint_spec (clusters st x) idx asg p Hpts) as (_ & H2 & H3); [apply Hpr|].
      destruct (Hp p Hpr) as [Hin Hout]. split.
      * intros l1 a l2 E Hpa. apply snoc_split in E.
        destruct E as [(-> & -> & ->) | (l2' & -> & E)].
        -- rewrite H2 by assumption. exact Hidx.
        -- assert (Ha : In a (active st)).
           { rewrite El, E. apply in_or_app. left. apply in_or_app. right. now left. }
           rewrite H3; [now apply (Hin l1 a l2')|].
           intros Hpx. pose proof (inv_disjoint n st Hinv a x p Ha Hx Hpa Hpx) as Eax.
           subst a. pose proof (inv_nodup n st Hinv) as Hnd. rewrite El, E in Hnd.
           rewrite <- app_assoc in Hnd. simpl in Hnd.
           apply NoDup_remove_2 in Hnd. apply Hnd.
           apply in_or_app. right. apply in_or_app. right. now left.
      * intros Hall. rewrite H3.
        -- apply Hout. intros a Ha. apply Hall. apply in_or_app. now left.
        -- apply Hall. apply in_or_app. right. now left.
Qed.

(** With [k] active clusters the labels are [1..k] and each is used. *)
Lemma label_partition (st : state) (k : Z) :
  0 <= n -> hierInv st -> lengthZ (active st) = k ->
  lengthZ (label n st) = n /\
  Forall (fun a => 1 <= a <= k) (label n st) /\
  forall c, 1 <= c <= k -> In c (label n st).
Proof.
  intros Hn Hinv Hk. pose proof (label_spec st Hn Hinv) as (Hidx & Hlen & Hp).
  unfold label.
  set (acc := fold_left _ (active st) _) in *. clearbody acc.
  split; [exact Hlen|]. split.
  - apply Forall_forall. intros a Ha.
    destruct (In_nthZ (fst acc) a 0 Ha) as (p & Hpr & <-). rewrite Hlen in Hpr.
    destruct (inv_cover n st Hinv p Hpr) as (c & Hc & Hpc).
    destruct (in_split c (active st) Hc) as (l1 & l2 & E).
    destruct (Hp p Hpr) as [Hin _]. rewrite (Hin l1 c l2 E Hpc).
    rewrite <- Hk, E. unfold lengthZ. rewrite length_app. cbn [length]. lia.
  - intros c Hc.
    assert (Hi : (Z.to_nat (c - 1) < length (active st))%nat).
    { unfold lengthZ in Hk. lia. }
    pose proof (split_at (active st) (Z.to_nat (c - 1)) 0 Hi) as E.
    set (a := nth (Z.to_nat (c - 1)) (active st) 0) in *.
    assert (Ha : In a (active st)) by (apply nth_In; exact Hi).
    destruct (clusters st a) as [| p pts] eqn:Ecl.
    { exfalso. now apply (inv_nonempty n st Hinv a Ha). }
    assert (Hpa : In p (clusters st a)) by (rewrite Ecl; now left).
    pose proof (inv_members n st Hinv a p Ha Hpa) as Hpr.
    destruct (Hp p Hpr) as [Hin _]. specialize (Hin _ a _ E Hpa).
    unfold lengthZ in Hin. rewrite length_firstn in Hin.
    replace (1 + Z.of_nat (Nat.min (Z.to_nat (c - 1)) (length (active st)))) with c in Hin by lia.
    rewrite <- Hin. apply nthZ_In. rewrite Hlen. exact Hpr.
Qed.

(** [hierarchical] throws, in a pass that finds no pair of clusters below
    [Infinity], or returns a partition into [k] clusters. *)
Lemma hierarchical_partition (dist : Matrix.t) (k : Z) :
  Matrix.rows dist = n -> 1 <= k <= n ->
  hierarchical dist k method = Throw (TypeError "Cannot read properties of undefined") \/
  exists asg,
    hierarchical dist k method = Ok asg /\
    lengthZ asg = n /\ Forall (fun a => 1 <= a <= k) asg /\
    forall c, 1 <= c <= k -> In c asg.
Proof.
  intros Hn Hk. unfold hierarchical.
  destruct (run_spec n method dist k Hn Hk) as [E | (st & E & Hinv & Hl)]; rewrite E.
  - now left.
  - right. cbn [bind fst]. rewrite Hn.
    eexists. split; [reflexivity|]. apply label_partition; [lia | assumption | assumption].
Qed.

End Labels.

Section Assign.

Import Pam PamFacts SwapFacts.

Variable n : Z.
Variable q : Z -> Z -> Q.

Local Abbreviation dist := (Matrix.ofTable n q).
Local Abbreviation inRange := (PamFacts.inRange n).

Lemma nearestSlot_range (m : Matrix.t) (k : Z) (sortedMedoids : list Z) (i : Z) :
  1 <= k -> 0 <= snd (nearestSlot m k sortedMedoids i) < k.
Proof.
  intros Hk. unfold nearestSlot.
  match goal with
  | |- 0 <= snd ?r < k => assert (H : snd r = 0 \/ In (snd r) (range k))
  end.
  { apply (fold_left_hist _ (fun pre best => snd best = 0 \/ In (snd best) (range k))).
    - now left.
    - intros pre best x post El Hb. cbv zeta. destruct (nlt _ _); [|exact Hb].
      right. simpl. rewrite El. apply in_or_app. right. now left. }
  destruct H as [H | H]; [rewrite H; lia | now apply in_range].
Qed.

Lemma assign_range (m : Matrix.t) (k : Z) (sortedMedoids : list Z) :
  1 <= k ->
  lengthZ (assign m k sortedMedoids) = Z.max 0 (Matrix.rows m) /\
  Forall (fun a => 1 <= a <= k) (assign m k sortedMedoids).
Proof.
  intros Hk. unfold assign. split.
  - unfold lengthZ. rewrite length_map, range_length. lia.
  - apply Forall_forall. intros a Ha. apply in_map_iff in Ha.
    destruct Ha as (i & <- & _).
    pose proof (nearestSlot_range m k sortedMedoids i Hk). lia.
Qed.

Hypothesis diagonal : forall i, inRange i -> (q i i == 0)%Q.
Hypothesis apart : forall i j, inRange i -> inRange j -> i <> j -> (0 < q i j)%Q.



End Assign.

End PartitionFacts.

(* ------------------------------------------------------------------ *)
(** * Theorems on the two solvers *)

Module SolverTheorems.

Import Pam PamFacts SwapFacts.




(** The same on dataset [DS_A] of the ground-truth tests, under ["lv"]
    with [k = 3]: the partition that the tests expect leaves id 3 unused. *)
Example pam_DS_A_lv :
  exists dist,
    Distance.computeDistanceMatrix Samples.sampleExp Samples.sampleSqrt Samples.noInherited
      (toTokenLists Samples.DS_A ["*"; "%"]) "lv" false 1 = Ok dist /\
    pam dist 3 = [1; 1; 1; 1; 1; 1; 1; 2].
Proof. eexists. split; [reflexivity|]. vm_compute. reflexivity. Qed.

(** C6. In the BUILD phase the first medoid is the largest index of least
    total distance, and the medoid of every later step is the largest
    index, outside the medoids chosen before it, of greatest aggregate
    gain against them.  Totals and gains are the sums of the source:
    added in the order of the indices and rounded at every addition. *)
Theorem build_phase_choices (n : Z) (q : Z -> Z -> Q) (k : Z) :
  1 <= k <= n ->
  let ms := build (Matrix.ofTable n q) k in
  lengthZ ms = k /\
  firstChoice n q (nthZ ms 0 (-1)) /\
  forall m, 1 <= m < k -> nextChoice n q (firstn (Z.to_nat m) ms) (nthZ ms m (-1)).
Proof.
  intros Hk ms. destruct (build_spec n q k Hk) as (Hlen & _ & _ & Hf & Hs).
  fold ms in Hlen, Hf, Hs. split; [exact Hlen|]. split.
  - rewrite nthZ_nth by lia. exact Hf.
  - intros m Hm. rewrite nthZ_nth by lia. apply Hs. unfold lengthZ in Hlen. lia.
Qed.

Lemma build_phase_choices_witness :
  1 <= 3 <= 6 /\
  firstChoice 6 Samples.hamming6 (nthZ (build (Matrix.ofTable 6 Samples.hamming6) 3) 0 (-1)) /\
  nextChoice 6 Samples.hamming6
             (firstn (Z.to_nat 1) (build (Matrix.ofTable 6 Samples.hamming6) 3))
             (nthZ (build (Matrix.ofTable 6 Samples.hamming6) 3) 1 (-1)).
Proof.
  split; [lia|].
  destruct (build_phase_choices 6 Samples.hamming6 3) as (_ & Hf & Hs); [lia|].
  split; [exact Hf|]. apply (Hs 1). lia.
Defined.

(** C6, read with exact totals, fails.  Rows 1 and 2 of [reordered] hold
    the distances 0.3, 0.2 and 0.1 in opposite orders: their exact totals
    are equal and are the least ones, so the largest index of least exact
    total is 2; the sums of the source are 0.6 for row 1 and
    0.6000000000000001 for row 2, and the first medoid is 1. *)
Lemma build_follows_rounded_sums :
  let dist := Matrix.ofTable 4 Samples.reordered in
  (forall i, In i (range 4) ->
             (sumQ (Samples.reordered 2) (range 4) <= sumQ (Samples.reordered i) (range 4))%Q) /\
  (sumQ (Samples.reordered 1) (range 4) == sumQ (Samples.reordered 2) (range 4))%Q /\
  totalDists dist 1 = Fin (5404319552844595 # 9007199254740992) /\
  totalDists dist 2 = Fin (1351079888211149 # 2251799813685248) /\
  nlt (totalDists dist 1) (totalDists dist 2) = true /\
  nthZ (build dist 2) 0 (-1) = 1.
Proof.
  split.
  - intros i Hi. simpl in Hi.
    repeat (destruct Hi as [<- | Hi]; [apply Qle_bool_iff; vm_compute; reflexivity|]).
    destruct Hi.
  - split; [vm_compute; reflexivity|]. repeat split; vm_compute; reflexivity.
Qed.




End SolverTheorems.

(* ------------------------------------------------------------------ *)
(** * Sums that do not overflow *)

Lemma isDouble_comp (x y : Q) : (x == y)%Q -> isDouble x -> isDouble y.
Proof.
  intros E (k & u & Ex & Hk & Hu & Hb). exists k, u.
  split; [now rewrite <- E|]. split; [exact Hk|]. split; [exact Hu|]. now rewrite <- E.
Qed.

Lemma ofZ_small (z : Z) : - 2 ^ 53 <= z <= 2 ^ 53 -> ofZ z = Fin (inject_Z z).
Proof. intros H. unfold ofZ. do 2 f_equal. lia. Qed.

(** A finite number of magnitude at most [B]. *)
Definition within (B : Q) (x : num) : Prop :=
  exists r, x = Fin r /\ (Qabs r <= B)%Q.

(** The rounding of a value between two doubles lies between them. *)
Lemma round64_within (B x : Q) :
  isDouble B -> (Qabs x <= B)%Q -> within B (round64 x).
Proof.
  intros HB Hx. apply Qabs_Qle_condition in Hx. destruct Hx as [Hlo Hhi].
  pose proof (round64_mono _ _ Hlo) as M1. pose proof (round64_mono _ _ Hhi) as M2.
  rewrite (round64_double _ (isDouble_opp _ HB)) in M1. rewrite (round64_double _ HB) in M2.
  destruct (round64 x) as [r | | |] eqn:E; try discriminate.
  exists r. split; [reflexivity|].
  cbn [nle] in M1, M2. apply Qle_bool_iff in M1, M2. rewrite Qred_correct in M1, M2.
  apply Qabs_Qle_condition. split; assumption.
Qed.

Lemma round64_sign (x r : Q) :
  round64 x = Fin r -> ((0 <= x)%Q -> (0 <= r)%Q) /\ ((x <= 0)%Q -> (r <= 0)%Q).
Proof.
  intros E. split; intros H.
  - pose proof (round64_nonneg x H) as N. rewrite E in N. now apply Qle_bool_iff in N.
  - pose proof (round64_nonpos x H) as N. rewrite E in N. now apply Qle_bool_iff in N.
Qed.

Lemma isDouble_scaled (t e : Z) :
  0 <= t <= 2 ^ 53 -> -1074 <= e <= 970 -> isDouble (inject_Z t * pow2 e).
Proof.
  intros Ht He. exists t, e. split; [reflexivity|]. split; [lia|]. split; [lia|].
  pose proof (pow2_pos e) as P.
  assert (T : (inject_Z 0 <= inject_Z t <= inject_Z (2 ^ 53))%Q) by (rewrite <- !Zle_Qle; lia).
  change (inject_Z 0) with 0%Q in T.
  rewrite <- pow2_Z in T by lia.
  rewrite Qabs_pos by (apply Qmult_le_0_compat; lra).
  apply Qle_lt_trans with (pow2 53 * pow2 e)%Q.
  - apply Qmult_le_compat_r; lra.
  - rewrite <- pow2_add. apply pow2_lt. lia.
Qed.

(** A sum of at most [2^53] terms of magnitude at most [2^e], [e <= 970],
    does not overflow. *)
Lemma fold_nadd_within {X : Type} (e : Z) (g : X -> num) (l : list X) (t : Z) (a : num) :
  -1074 <= e <= 970 -> 0 <= t -> t + lengthZ l <= 2 ^ 53 ->
  (forall j, In j l -> within (pow2 e) (g j)) ->
  within (inject_Z t * pow2 e) a ->
  within (inject_Z (t + lengthZ l) * pow2 e) (fold_left (fun acc j => nadd acc (g j)) l a).
Proof.
  intros He. revert t a. induction l as [| x l IH]; intros t a Ht Hlen Hg Ha.
  - simpl. unfold lengthZ. simpl. now rewrite Z.add_0_r.
  - cbn [fold_left]. unfold lengthZ in *. cbn [length] in *.
    replace (t + Z.of_nat (S (length l))) with ((t + 1) + Z.of_nat (length l)) by lia.
    apply IH; [lia | lia | intros j Hj; apply Hg; now right|].
    destruct Ha as (r & -> & Hr). destruct (Hg x (or_introl eq_refl)) as (v & -> & Hv).
    cbn [nadd]. apply round64_within; [apply isDouble_scaled; lia|].
    rewrite inject_Z_plus. change (inject_Z 1) with 1%Q.
    pose proof (Qabs_triangle r v). pose proof (pow2_pos e). nra.
Qed.

Lemma within_zero (B : Q) : (0 <= B)%Q -> within B (Fin 0).
Proof.
  intros H. exists 0%Q. split; [reflexivity | exact H].
Qed.

Lemma within_weaken (B B' : Q) (x : num) : (B <= B')%Q -> within B x -> within B' x.
Proof.
  intros H (r & E & Hr). exists r. split; [exact E | lra].
Qed.

(** The mean of a sum within [c * B] over [c] terms is within [B]. *)
Lemma ndiv_within (B : Q) (c : Z) (x : num) :
  isDouble B -> 1 <= c <= 2 ^ 53 -> within (inject_Z c * B) x -> within B (ndiv x (ofZ c)).
Proof.
  intros HB Hc (r & -> & Hr). rewrite ofZ_small by lia.
  pose proof (inject_Z_pos c ltac:(lia)) as P.
  cbn [ndiv]. rewrite Qeq_bool_pos by exact P.
  apply round64_within; [exact HB|].
  unfold Qdiv. rewrite Qabs_Qmult, (Qabs_pos (/ inject_Z c))
    by (apply Qinv_le_0_compat; lra).
  apply Qle_shift_div_r; [exact P | lra].
Qed.

(** The accumulation of a sum and a count over the indices that pass
    [pred]. *)
Lemma fold_sumCount (pred : Z -> bool) (g : Z -> num) (l : list Z) :
  forall a z,
    fold_left (fun acc j => if pred j then (nadd (fst acc) (g j), snd acc + 1) else acc)
              l (a, z)
    = (fold_left (fun s j => nadd s (g j)) (filter pred l) a, z + lengthZ (filter pred l)).
Proof.
  induction l as [| x l IH]; intros a z; simpl.
  - unfold lengthZ. simpl. now rewrite Z.add_0_r.
  - destruct (pred x) eqn:E.
    + cbn [fst snd]. rewrite IH. simpl. f_equal. unfold lengthZ. simpl length. lia.
    + apply IH.
Qed.

Lemma ndiv_count_notNaN (x : num) (c : Z) : x <> NaN -> 1 <= c -> ndiv x (ofZ c) <> NaN.
Proof.
  intros Hx Hc. unfold ofZ.
  assert (P : (0 < inject_Z (Z.max (- 2 ^ 53) (Z.min c (2 ^ 53))))%Q) by (apply inject_Z_pos; lia).
  destruct x as [a | | |]; cbn [ndiv]; try congruence.
  - rewrite Qeq_bool_pos by exact P. apply round64_notNaN.
  - now destruct (Qle_bool _ _).
  - now destruct (Qle_bool _ _).
Qed.

Lemma nmin_cases (x y : num) :
  x <> NaN -> y <> NaN ->
  (nmin x y = y /\ nlt y x = true) \/ (nmin x y = x /\ nle x y = true).
Proof.
  intros Hx Hy. destruct (nlt y x) eqn:E.
  - left. split; [|reflexivity]. destruct x, y; try congruence; cbn [nmin]; now rewrite E.
  - right. split; [|now apply not_nlt_nle].
    destruct x, y; try congruence; cbn [nmin]; now rewrite E.
Qed.

Lemma filter_lengthZ {A : Type} (f : A -> bool) (l : list A) :
  lengthZ (filter f l) <= lengthZ l.
Proof.
  unfold lengthZ. induction l as [| x l IH]; simpl; [lia|].
  destruct (f x); simpl; lia.
Qed.

Lemma fold_skip {X : Type} (skip : X -> bool) (g : X -> num) (l : list X) :
  forall a,
    fold_left (fun total i => if skip i then total else nadd total (g i)) l a
    = fold_left (fun total i => nadd total (g i)) (filter (fun i => negb (skip i)) l) a.
Proof.
  induction l as [| x l IH]; intros a; simpl; [reflexivity|].
  destruct (skip x); simpl; apply IH.
Qed.

Lemma pow2_970_double : isDouble (pow2 970).
Proof.
  apply (isDouble_comp (inject_Z 1 * pow2 970)).
  - change (inject_Z 1) with 1%Q. ring.
  - apply isDouble_scaled; lia.
Qed.

(** A mean of distances: a double that is not below 0. *)
Definition isMean (x : num) : Prop :=
  exists v, x = Fin v /\ (0 <= v)%Q /\ isDouble v.

Lemma Qmax_double (x y : Q) : isDouble x -> isDouble y -> isDouble (Qmax x y).
Proof.
  intros Hx Hy. destruct (Q.max_spec x y) as [[_ E] | [_ E]];
    [apply (isDouble_comp y) | apply (isDouble_comp x)]; try assumption; now symmetry.
Qed.

(* ------------------------------------------------------------------ *)
(** * Silhouette *)

Module SilhouetteFacts.

Import Silhouette.

Lemma uniq_In (seen l : list Z) (c : Z) : In c (uniq seen l) <-> In c l /\ ~ In c seen.
Proof.
  revert seen. induction l as [| x l IH]; intros seen; simpl; [tauto|].
  destruct (includes seen x) eqn:E.
  - apply includes_In in E. rewrite IH. split.
    + intros [H1 H2]. auto.
    + intros [[-> | H1] H2]; [contradiction | auto].
  - apply includes_not_In in E. simpl. rewrite IH. simpl. split.
    + intros [-> | [H1 H2]]; [auto|]. split; [auto|]. intros H. apply H2. now right.
    + intros [[-> | H1] H2]; [now left|].
      destruct (Z.eq_dec x c) as [-> | Hne]; [now left | right].
      split; [assumption|]. intros [H | H]; [congruence | contradiction].
Qed.

Lemma uniq_NoDup (seen l : list Z) : NoDup (uniq seen l).
Proof.
  revert seen. induction l as [| x l IH]; intros seen; simpl; [constructor|].
  destruct (includes seen x); [apply IH|].
  constructor; [|apply IH]. intros H. apply uniq_In in H. destruct H as [_ H].
  apply H. now left.
Qed.

(** At least two ids occur. *)
Definition twoIds (labels : list Z) : Prop :=
  exists a b, In a labels /\ In b labels /\ a <> b.

(** At most one id occurs. *)
Definition oneId (labels : list Z) : Prop :=
  forall a b, In a labels -> In b labels -> a = b.

Lemma uniq_twoIds (labels : list Z) : twoIds labels <-> 2 <= lengthZ (uniq [] labels).
Proof.
  pose proof (uniq_NoDup [] labels) as Hnd. split.
  - intros (a & b & Ha & Hb & Hab).
    assert (Ia : In a (uniq [] labels)) by (apply uniq_In; tauto).
    assert (Ib : In b (uniq [] labels)) by (apply uniq_In; tauto).
    assert (Hincl : incl [a; b] (uniq [] labels)).
    { intros x [<- | [<- | []]]; assumption. }
    assert (Hab' : NoDup [a; b]).
    { constructor; [intros [E | []]; congruence | constructor; [intros [] | constructor]]. }
    pose proof (NoDup_incl_length Hab' Hincl) as Hl. unfold lengthZ. simpl in Hl. lia.
  - intros H. unfold lengthZ in H.
    destruct (uniq [] labels) as [| a [| b rest]] eqn:E; simpl in H; try lia.
    exists a, b. split; [|split].
    + apply (uniq_In [] labels a). rewrite E. now left.
    + apply (uniq_In [] labels b). rewrite E. right. now left.
    + inversion Hnd; subst. intros ->. apply H2. now left.
Qed.

Lemma uniq_oneId (labels : list Z) : oneId labels <-> lengthZ (uniq [] labels) < 2.
Proof.
  split.
  - intros H. destruct (Z_lt_le_dec (lengthZ (uniq [] labels)) 2) as [L | L]; [exact L|].
    apply uniq_twoIds in L. destruct L as (a & b & Ha & Hb & Hab).
    exfalso. apply Hab. now apply H.
  - intros H a b Ha Hb. destruct (Z.eq_dec a b) as [E | Hne]; [exact E | exfalso].
    assert (T : twoIds labels) by (now exists a, b).
    apply uniq_twoIds in T. lia.
Qed.

Section Finite.

Variable n : Z.
Variable q : Z -> Z -> Q.
Variable labels : list Z.

Hypothesis labels_length : lengthZ labels = n.

Local Abbreviation dist := (Matrix.ofTable n q).

Definition inRange (i : Z) : Prop := 0 <= i < n.

(** The cluster id of observation [j]. *)
Definition lab (j : Z) : Z := nthZ labels j (-1).

(** The members of cluster [c]. *)
Definition cluster (c : Z) : list Z := filter (fun j => lab j =? c) (range n).

(** The members of the cluster of [i] other than [i]. *)
Definition peers (i : Z) : list Z :=
  filter (fun j => negb (j =? i) && (lab j =? lab i)) (range n).

(** Sum of the distances from [i] to the observations of [S], added in
    the order of [S] and rounded at every addition. *)
Definition sumTo (i : Z) (S : list Z) : num :=
  fold_left (fun s j => nadd s (Fin (q i j))) S (Fin 0).

(** Mean distance from [i] to the observations of [S]. *)
Definition meanTo (i : Z) (S : list Z) : num := ndiv (sumTo i S) (ofZ (lengthZ S)).

(** [b] is the least mean distance from [i] to a cluster other than its
    own. *)
Definition isLeastMean (i : Z) (b : num) : Prop :=
  (exists c, In c labels /\ c <> lab i /\ b = meanTo i (cluster c)) /\
  forall c, In c labels -> c <> lab i -> nle b (meanTo i (cluster c)) = true.

(** Silhouette coefficient for the means [a] and [b]:
    [(b - a) / max(a, b)], or 0 when that maximum is not above 0. *)
Definition coefficient (a b : num) : num :=
  let m := nmax a b in
  if ngt m (Fin 0) then ndiv (nsub b a) m else Fin 0.

Lemma sumTo_notNaN (i : Z) (S : list Z) : sumTo i S <> NaN.
Proof.
  unfold sumTo. apply fold_nadd_notNaN; [|discriminate]. intros j _. now eexists.
Qed.

Lemma meanTo_notNaN (i : Z) (S : list Z) : S <> [] -> meanTo i S <> NaN.
Proof.
  intros H. unfold meanTo. apply ndiv_count_notNaN; [apply sumTo_notNaN|].
  unfold lengthZ. destruct S; [congruence | simpl; lia].
Qed.

Lemma sumCount_filter (skipSelf : bool) (i c : Z) :
  inRange i ->
  sumCount dist labels skipSelf i c
  = (sumTo i (filter (fun j => (negb skipSelf || negb (j =? i)) && (lab j =? c)) (range n)),
     lengthZ (filter (fun j => (negb skipSelf || negb (j =? i)) && (lab j =? c)) (range n))).
Proof.
  intros Hi. unfold sumCount. rewrite labels_length.
  rewrite (fold_sumCount
             (fun j => (negb skipSelf || negb (j =? i)) && (nthZ labels j (-1) =? c))
             (fun j => Matrix.get dist i j)).
  f_equal. unfold sumTo. apply fold_left_ext. intros s j Hj.
  apply filter_In in Hj. destruct Hj as [Hj _]. apply in_range in Hj.
  now rewrite get_ofTable.
Qed.

Lemma sumCount_peers (i : Z) :
  inRange i -> sumCount dist labels true i (lab i) = (sumTo i (peers i), lengthZ (peers i)).
Proof. intros Hi. now rewrite sumCount_filter. Qed.

Lemma sumCount_cluster (i c : Z) :
  inRange i -> sumCount dist labels false i c = (sumTo i (cluster c), lengthZ (cluster c)).
Proof. intros Hi. now rewrite sumCount_filter. Qed.

Lemma lab_In (c : Z) : In c labels -> exists j, inRange j /\ lab j = c.
Proof.
  intros H. destruct (In_nthZ labels c (-1) H) as (j & Hj & E).
  exists j. split; [unfold inRange; now rewrite <- labels_length | exact E].
Qed.

Lemma cluster_nonempty (c : Z) : In c labels -> cluster c <> [].
Proof.
  intros H. destruct (lab_In c H) as (j & Hj & E).
  assert (Hin : In j (cluster c)).
  { unfold cluster. apply filter_In. split; [now apply in_range | now apply Z.eqb_eq]. }
  intros E'. now rewrite E' in Hin.
Qed.

(** What [bOf] holds after the clusters [pre]. *)
Definition leastSoFar (i : Z) (pre : list Z) (bi : num) : Prop :=
  bi <> NaN /\
  (forall c, In c pre -> c <> lab i -> nle bi (meanTo i (cluster c)) = true) /\
  ((bi = PInf /\ forall c, In c pre -> c = lab i) \/
   exists c, In c pre /\ c <> lab i /\ bi = meanTo i (cluster c)).

Lemma bOf_spec (i : Z) :
  inRange i -> leastSoFar i (uniq [] labels) (bOf dist labels (uniq [] labels) i (lab i)).
Proof.
  intros Hi. unfold bOf. apply (fold_left_hist _ (leastSoFar i)).
  - split; [discriminate|]. split; [intros c []|]. left. split; [reflexivity | intros c []].
  - intros pre bi c post El (Hn & Hle & Hat).
    assert (Hc : In c labels).
    { apply (uniq_In [] labels c). rewrite El. apply in_or_app. right. now left. }
    destruct (c =? lab i) eqn:E.
    + apply Z.eqb_eq in E. split; [exact Hn|]. split.
      * intros c' Hc' Hne. apply in_app_or in Hc'.
        destruct Hc' as [Hc' | [<- | []]]; [now apply Hle | congruence].
      * destruct Hat as [[Hb Hall] | (c' & Hc' & Hne & Hb)].
        -- left. split; [exact Hb|]. intros c' Hc'. apply in_app_or in Hc'.
           destruct Hc' as [Hc' | [<- | []]]; [now apply Hall | exact E].
        -- right. exists c'. split; [apply in_or_app; now left | now split].
    + apply Z.eqb_neq in E. rewrite (sumCount_cluster i c Hi).
      pose proof (cluster_nonempty c Hc) as Hne.
      assert (L : (0 <? lengthZ (cluster c)) = true).
      { apply Z.ltb_lt. unfold lengthZ. destruct (cluster c); [congruence | simpl; lia]. }
      rewrite L.
      fold (meanTo i (cluster c)).
      pose proof (meanTo_notNaN i (cluster c) Hne) as Hm.
      destruct (nmin_cases bi (meanTo i (cluster c)) Hn Hm) as [[-> Hlt] | [-> Hge]].
      * split; [exact Hm|]. split.
        -- intros c' Hc' Hne'. apply in_app_or in Hc'.
           destruct Hc' as [Hc' | [<- | []]]; [|now apply nle_refl].
           apply nle_trans with bi; [now apply nlt_nle | now apply Hle].
        -- right. exists c. split; [apply in_or_app; right; now left | now split].
      * split; [exact Hn|]. split.
        -- intros c' Hc' Hne'. apply in_app_or in Hc'.
           destruct Hc' as [Hc' | [<- | []]]; [now apply Hle | exact Hge].
        -- destruct Hat as [[Hb Hall] | (c' & Hc' & Hne' & Hb)].
           ++ right. exists c. split; [apply in_or_app; right; now left|]. split; [exact E|].
              subst bi. destruct (meanTo i (cluster c)); try discriminate; congruence.
           ++ right. exists c'. split; [apply in_or_app; now left | now split].
Qed.

Lemma bOf_least (i : Z) :
  inRange i -> twoIds labels ->
  isLeastMean i (bOf dist labels (uniq [] labels) i (lab i)).
Proof.
  intros Hi (a & b & Ha & Hb & Hab).
  destruct (bOf_spec i Hi) as (_ & Hle & Hat). split.
  - destruct Hat as [[_ Hall] | (c & Hc & Hne & E)].
    + exfalso. apply Hab.
      rewrite (Hall a) by (apply uniq_In; tauto). rewrite (Hall b) by (apply uniq_In; tauto).
      reflexivity.
    + exists c. split; [now apply (uniq_In [] labels c) | now split].
  - intros c Hc Hne. apply Hle; [apply uniq_In; tauto | exact Hne].
Qed.

(** What observation [i] adds to the total. *)
Definition coefficientOf (i : Z) : num :=
  coefficient (meanTo i (peers i)) (bOf dist labels (uniq [] labels) i (lab i)).

Lemma contribution_spec (i : Z) :
  inRange i ->
  contribution dist labels (uniq [] labels) i
  = if lengthZ (peers i) =? 0 then None else Some (coefficientOf i).
Proof.
  intros Hi. unfold contribution. fold (lab i). rewrite (sumCount_peers i Hi).
  destruct (lengthZ (peers i) =? 0); reflexivity.
Qed.

Lemma score_spec :
  twoIds labels ->
  silhouetteScore dist labels
  = ndiv (fold_left
            (fun total i => if lengthZ (peers i) =? 0 then total
                            else nadd total (coefficientOf i))
            (range n) (Fin 0))
         (ofZ n).
Proof.
  intros H. apply uniq_twoIds in H. unfold silhouetteScore.
  replace (lengthZ (uniq [] labels) <? 2) with false by lia. cbv zeta.
  rewrite labels_length. f_equal. apply fold_left_ext. intros total i Hi.
  apply in_range in Hi. rewrite (contribution_spec i Hi).
  now destruct (lengthZ (peers i) =? 0).
Qed.

(** ** Matrices whose sums do not overflow *)

Hypothesis few : n <= 2 ^ 53.
Hypothesis bounded : forall i j, inRange i -> inRange j -> (0 <= q i j <= pow2 970)%Q.

Lemma sumTo_within (i : Z) (S : list Z) :
  inRange i -> (forall j, In j S -> inRange j) -> lengthZ S <= n ->
  within (inject_Z (lengthZ S) * pow2 970) (sumTo i S) /\ nonneg (sumTo i S).
Proof.
  intros Hi HS Hl. split.
  - unfold sumTo.
    replace (lengthZ S) with (0 + lengthZ S) by lia.
    apply (fold_nadd_within 970 (fun j => Fin (q i j))); try lia.
    + intros j Hj. exists (q i j). split; [reflexivity|].
      destruct (bounded i j Hi (HS j Hj)). now rewrite Qabs_pos.
    + apply within_zero. change (inject_Z 0) with 0%Q. lra.
  - unfold sumTo. apply fold_nadd_nonneg.
    + intros j Hj. apply nonneg_Fin. now destruct (bounded i j Hi (HS j Hj)).
    + apply nonneg_Fin. lra.
Qed.

Lemma meanTo_isMean (i : Z) (S : list Z) :
  inRange i -> (forall j, In j S -> inRange j) -> lengthZ S <= n -> S <> [] ->
  isMean (meanTo i S).
Proof.
  intros Hi HS Hl Hne.
  assert (Hc : 1 <= lengthZ S) by (unfold lengthZ; destruct S; [congruence | simpl; lia]).
  destruct (sumTo_within i S Hi HS Hl) as [W N].
  pose proof (ndiv_within (pow2 970) (lengthZ S) (sumTo i S) pow2_970_double
                          ltac:(lia) W) as (v & E & _).
  exists v. split; [exact E|].
  unfold meanTo in *. destruct W as (r & Er & _). rewrite Er in *.
  apply nonneg_Fin in N. rewrite ofZ_small in E by lia.
  pose proof (inject_Z_pos (lengthZ S) Hc) as P.
  cbn [ndiv] in E. rewrite Qeq_bool_pos in E by exact P. split.
  - apply (round64_sign _ _ E). apply Qle_shift_div_l; [exact P | lra].
  - now apply (round64_isDouble _ _ E).
Qed.

Lemma coefficient_within (a b : num) : isMean a -> isMean b -> within 1 (coefficient a b).
Proof.
  intros (x & -> & Hx & Dx) (y & -> & Hy & Dy). unfold coefficient.
  rewrite nmax_Fin. cbv zeta. unfold ngt. cbn [nlt].
  destruct (Qltb 0 (Qmax x y)) eqn:E; [|apply within_zero; lra].
  apply Qltb_iff in E.
  assert (Hd : (Qabs (y - x) <= Qmax x y)%Q).
  { apply Qabs_Qle_condition. pose proof (Q.le_max_l x y). pose proof (Q.le_max_r x y).
    split; lra. }
  cbn [nsub].
  destruct (round64_within _ _ (Qmax_double x y Dx Dy) Hd) as (r & -> & Hr).
  cbn [ndiv]. rewrite Qeq_bool_pos by exact E.
  apply round64_within; [apply (isDouble_Z 1); lia|].
  unfold Qdiv. rewrite Qabs_Qmult, (Qabs_pos (/ Qmax x y)) by (apply Qinv_le_0_compat; lra).
  apply Qle_shift_div_r; [exact E | lra].
Qed.

Lemma range_lengthZ : 0 <= n -> lengthZ (range n) = n.
Proof. intros H. unfold lengthZ. rewrite range_length. lia. Qed.

Lemma peers_inRange (i j : Z) : In j (peers i) -> inRange j.
Proof. intros H. apply filter_In in H. now apply in_range. Qed.

Lemma cluster_inRange (c j : Z) : In j (cluster c) -> inRange j.
Proof. intros H. apply filter_In in H. now apply in_range. Qed.

Lemma coefficientOf_within (i : Z) :
  inRange i -> twoIds labels -> lengthZ (peers i) <> 0 -> within 1 (coefficientOf i).
Proof.
  intros Hi T Hp. assert (Hn : 0 <= n) by (unfold inRange in Hi; lia).
  unfold coefficientOf. apply coefficient_within.
  - apply meanTo_isMean; [exact Hi | apply peers_inRange | |].
    + unfold peers. rewrite <- (range_lengthZ Hn) at 2. apply filter_lengthZ.
    + intros E. rewrite E in Hp. now apply Hp.
  - destruct (bOf_least i Hi T) as [(c & Hc & _ & ->) _].
    apply meanTo_isMean; [exact Hi | apply cluster_inRange | |].
    + unfold cluster. rewrite <- (range_lengthZ Hn) at 2. apply filter_lengthZ.
    + now apply cluster_nonempty.
Qed.

Lemma score_within : within 1 (silhouetteScore dist labels).
Proof.
  destruct (Z_lt_le_dec (lengthZ (uniq [] labels)) 2) as [L | L].
  - unfold silhouetteScore. replace (lengthZ (uniq [] labels) <? 2) with true by lia.
    apply within_zero. lra.
  - apply uniq_twoIds in L. rewrite (score_spec L).
    assert (Hn : 1 <= n).
    { destruct L as (a & _ & Ha & _). rewrite <- labels_length. unfold lengthZ.
      destruct labels; [contradiction | simpl; lia]. }
    apply ndiv_within; [apply (isDouble_Z 1); lia | lia |].
    rewrite (fold_skip (fun i => lengthZ (peers i) =? 0) coefficientOf).
    set (S := filter _ (range n)).
    assert (HS : lengthZ S <= n).
    { unfold S. rewrite <- (range_lengthZ ltac:(lia)) at 2. apply filter_lengthZ. }
    apply within_weaken with (inject_Z (0 + lengthZ S) * pow2 0)%Q.
    { change (pow2 0) with 1%Q. rewrite Z.add_0_l.
      apply Qmult_le_compat_r; [now rewrite <- Zle_Qle | lra]. }
    apply (fold_nadd_within 0 coefficientOf); try lia.
    + intros i Hin. apply filter_In in Hin. destruct Hin as [Hin Hp].
      apply in_range in Hin. change (pow2 0) with 1%Q.
      apply coefficientOf_within; [exact Hin | exact L|].
      apply Bool.negb_true_iff in Hp. now apply Z.eqb_neq in Hp.
    + apply within_zero. change (inject_Z 0) with 0%Q. change (pow2 0) with 1%Q. lra.
Qed.

End Finite.

(** C5. With a label for each of the [n] observations: the score is 0 when
    at most one id occurs.  When two ids occur it is the sum, divided by
    [n], of the coefficients of the observations that are not alone in
    their cluster (a singleton adds nothing), the coefficient of [i] being
    [(b - a) / max(a, b)], or 0 when that maximum is not above 0, for [a]
    the mean distance to the other members of its cluster and [b] the
    least mean distance to another cluster; every operation is the
    binary64 one.  When the entries lie between 0 and [2^970] and [n] is
    at most [2^53] no sum overflows, and the score is a number of
    [[-1, 1]]. *)
Theorem silhouette_score (n : Z) (q : Z -> Z -> Q) (labels : list Z) :
  lengthZ labels = n ->
  let dist := Matrix.ofTable n q in
  (oneId labels -> silhouetteScore dist labels = Fin 0) /\
  (twoIds labels ->
   exists b : Z -> num,
     (forall i, 0 <= i < n -> isLeastMean n q labels i (b i)) /\
     silhouetteScore dist labels
     = ndiv (fold_left
               (fun total i =>
                  if lengthZ (peers n labels i) =? 0 then total
                  else nadd total (coefficient (meanTo q i (peers n labels i)) (b i)))
               (range n) (Fin 0))
            (ofZ n)) /\
  (n <= 2 ^ 53 ->
   (forall i j, 0 <= i < n -> 0 <= j < n -> (0 <= q i j <= pow2 970)%Q) ->
   exists s, silhouetteScore dist labels = Fin s /\ (-1 <= s <= 1)%Q).
Proof.
  intros Hlen dist. subst dist. split; [|split].
  - intros H. apply uniq_oneId in H. unfold silhouetteScore.
    now replace (lengthZ (uniq [] labels) <? 2) with true by lia.
  - intros T. exists (fun i => bOf (Matrix.ofTable n q) labels (uniq [] labels) i (lab labels i)).
    split.
    + intros i Hi. now apply bOf_least.
    + now rewrite (score_spec n q labels Hlen T).
  - intros Hfew Hb. destruct (score_within n q labels Hlen Hfew Hb) as (s & E & Hs).
    exists s. split; [exact E|]. now apply Qabs_Qle_condition in Hs.
Qed.

Lemma silhouette_score_witness :
  lengthZ [1; 2; 1; 1; 2; 1] = 6 /\
  exists s, silhouetteScore (Matrix.ofTable 6 Samples.hamming6) [1; 2; 1; 1; 2; 1] = Fin s /\
            (-1 <= s <= 1)%Q.
Proof.
  split; [reflexivity|].
  apply (silhouette_score 6 Samples.hamming6 [1; 2; 1; 1; 2; 1]); [reflexivity | lia |].
  intros i j Hi Hj.
  assert (Hc : forall i j, In i (range 6) -> In j (range 6) ->
             Qle_bool 0 (Samples.hamming6 i j) && Qle_bool (Samples.hamming6 i j) (pow2 970)
             = true).
  { intros i' j' Hi' Hj'. simpl in Hi', Hj'.
    repeat (destruct Hi' as [<- | Hi']; [repeat (destruct Hj' as [<- | Hj']; [vm_compute; reflexivity|]); destruct Hj'|]).
    destruct Hi'. }
  specialize (Hc i j ltac:(now apply in_range) ltac:(now apply in_range)).
  apply andb_prop in Hc. destruct Hc as [H1 H2]. apply Qle_bool_iff in H1, H2. now split.
Defined.

(** Four observations at the distance [2^1023] from each other, three of
    them in one cluster: the sum of two distances overflows, the mean
    [a] is [Infinity], [b - a] is [-Infinity] and the coefficient
    [-Infinity / Infinity] is not a number. *)
Lemma silhouette_overflow :
  (forall i j, (0 <= Samples.huge i j)%Q /\ Samples.huge i j = Samples.huge j i) /\
  silhouetteScore (Matrix.ofTable 4 Samples.huge) [1; 1; 1; 2] = NaN.
Proof.
  split; [|vm_compute; reflexivity].
  intros i j. unfold Samples.huge. rewrite (Z.eqb_sym j i). split; [|reflexivity].
  destruct (i =? j); apply Qle_bool_iff; vm_compute; reflexivity.
Qed.

End SilhouetteFacts.

(* ------------------------------------------------------------------ *)
(** * Edit distances *)

Lemma tokEq_refl (x : option string) : tokEq x x = true.
Proof. destruct x; simpl; [apply String.eqb_refl | reflexivity]. Qed.

Lemma tokEq_eq (x y : option string) : tokEq x y = true <-> x = y.
Proof.
  destruct x, y; simpl; try (split; congruence).
  rewrite String.eqb_eq. split; congruence.
Qed.

Lemma upd_same {A : Type} (f : Z -> A) (i : Z) (v : A) : upd f i v i = v.
Proof. unfold upd. now rewrite Z.eqb_refl. Qed.

Lemma upd2_same {A : Type} (f : Z -> Z -> A) (i j : Z) (v : A) : upd2 f i j v i j = v.
Proof. unfold upd2. now rewrite !Z.eqb_refl. Qed.

Lemma upd2_other {A : Type} (f : Z -> Z -> A) (i j i' j' : Z) (v : A) :
  i' <> i \/ j' <> j -> upd2 f i j v i' j' = f i' j'.
Proof.
  intros H. unfold upd2. destruct (i' =? i) eqn:E1, (j' =? j) eqn:E2; simpl; try reflexivity.
  apply Z.eqb_eq in E1, E2. lia.
Qed.

(** Invariant of a fold: what holds at the start and is kept by every
    step on a member of the list holds at the end. *)
Lemma fold_left_inv {S X : Type} (step : S -> X -> S) (P : S -> Prop) (l : list X) (s : S) :
  P s -> (forall s x, In x l -> P s -> P (step s x)) -> P (fold_left step l s).
Proof.
  revert s. induction l as [| x l IH]; intros s Hs Hstep; simpl; [exact Hs|].
  apply IH.
  - apply Hstep; [now left | exact Hs].
  - intros s' y Hy. apply Hstep. now right.
Qed.

Lemma range_at (n : Z) (pre post : list Z) (x : Z) :
  range n = pre ++ x :: post -> x = lengthZ pre.
Proof.
  intros E.
  assert (Hlt : (length pre < Z.to_nat n)%nat).
  { apply (f_equal (@length Z)) in E. rewrite range_length, length_app in E.
    simpl in E. lia. }
  assert (H : nth (length pre) (range n) (Z.of_nat 0) = x).
  { rewrite E. apply nth_middle. }
  unfold range in H. rewrite map_nth, seq_nth in H by exact Hlt. unfold lengthZ. lia.
Qed.

Lemma rangeIncl_at (lo hi : Z) (pre post : list Z) (x : Z) :
  rangeIncl lo hi = pre ++ x :: post -> x = lo + lengthZ pre.
Proof.
  unfold rangeIncl. intros E. apply map_eq_app in E.
  destruct E as (l1 & l2 & E & E1 & E2).
  destruct l2 as [| y l2]; [discriminate|]. simpl in E2. injection E2 as <- _.
  apply range_at in E. subst y. unfold lengthZ. rewrite <- E1, length_map. reflexivity.
Qed.

Module EditFacts.

Import Distance.

(** A one-dimensional table whose cells at indices from 0 are not
    negative. *)
Definition nonneg1 (t : Z -> Z) : Prop := forall j, 0 <= j -> 0 <= t j.

(** A two-dimensional table without a negative cell. *)
Definition nonneg2 (d : Z -> Z -> Z) : Prop := forall r c, 0 <= d r c.

Lemma nonneg2_upd2 (d : Z -> Z -> Z) (i j v : Z) :
  nonneg2 d -> 0 <= v -> nonneg2 (upd2 d i j v).
Proof.
  intros Hd Hv r c. unfold upd2. destruct ((r =? i) && (c =? j)); [exact Hv | apply Hd].
Qed.

Lemma min3_lower (x y z b : Z) : b <= x -> b <= y -> b <= z -> b <= min3 x y z.
Proof. unfold min3. lia. Qed.

Lemma min4_lower (x y z w b : Z) : b <= x -> b <= y -> b <= z -> b <= w -> b <= min4 x y z w.
Proof. unfold min4, min3. lia. Qed.

(** ** Levenshtein *)

Lemma lvRow_nonneg (a b : list string) (n i : Z) (prev curr : Z -> Z) :
  0 <= i -> nonneg1 prev -> nonneg1 curr -> nonneg1 (lvRow a b n i prev curr).
Proof.
  intros Hi Hp Hc. unfold lvRow. apply fold_left_inv.
  - intros j Hj. unfold upd. destruct (j =? 0); [exact Hi | now apply Hc].
  - intros c j Hj Hcc k Hk. apply in_rangeIncl in Hj. cbv zeta. unfold upd.
    destruct (k =? j); [|now apply Hcc].
    apply min3_lower.
    + specialize (Hp j ltac:(lia)). lia.
    + specialize (Hcc (j - 1) ltac:(lia)). lia.
    + specialize (Hp (j - 1) ltac:(lia)). destruct (tokEq _ _); lia.
Qed.

Lemma lvRows_nonneg (a b : list string) (n : Z) (l : list Z) :
  (forall i, In i l -> 0 <= i) ->
  forall pc, nonneg1 (fst pc) /\ nonneg1 (snd pc) ->
  nonneg1 (fst (fold_left
                  (fun pc i => let (prev, curr) := (pc : (Z -> Z) * (Z -> Z)) in
                               (lvRow a b n i prev curr, prev)) l pc)) /\
  nonneg1 (snd (fold_left
                  (fun pc i => let (prev, curr) := (pc : (Z -> Z) * (Z -> Z)) in
                               (lvRow a b n i prev curr, prev)) l pc)).
Proof.
  intros Hl pc Hpc. apply fold_left_inv with (P := fun pc => nonneg1 (fst pc) /\ nonneg1 (snd pc)).
  - exact Hpc.
  - intros [prev curr] i Hi [Hp Hc]. simpl in *. split; [|exact Hp].
    apply lvRow_nonneg; auto.
Qed.

Lemma levenshtein_nonneg (a b : list string) (lenA lenB : option Z) :
  0 <= orLength lenB b -> 0 <= levenshteinDistance a b lenA lenB.
Proof.
  intros Hn. unfold levenshteinDistance. cbv zeta.
  apply lvRows_nonneg; [| |exact Hn].
  - intros i Hi. apply in_rangeIncl in Hi. lia.
  - split; simpl; intros j Hj; lia.
Qed.

(** With the inverted cost a match costs 1, so a sequence of positive
    length is at distance at least 1 from itself. *)
Lemma levenshtein_self (a : list string) (L : Z) :
  (L = 0 -> levenshteinDistance a a (Some L) (Some L) = 0) /\
  (1 <= L -> 1 <= levenshteinDistance a a (Some L) (Some L)).
Proof.
  split.
  - intros ->. reflexivity.
  - intros HL. unfold levenshteinDistance. cbn [orLength]. cbv zeta.
    rewrite (rangeIncl_last 1 L) by lia. rewrite fold_left_app. cbn [fold_left].
    destruct (lvRows_nonneg a a L (rangeIncl 1 (L - 1))
                ltac:(intros i Hi; apply in_rangeIncl in Hi; lia)
                (fun i => i, fun _ => 0)
                ltac:(split; simpl; intros j Hj; lia)) as [Hp Hc].
    destruct (fold_left _ (rangeIncl 1 (L - 1)) _) as [prev curr]. cbn [fst snd] in *.
    unfold lvRow. rewrite (rangeIncl_last 1 L) by lia. rewrite fold_left_app.
    cbn [fold_left]. rewrite upd_same. rewrite tokEq_refl.
    set (c' := fold_left _ (rangeIncl 1 (L - 1)) (upd curr 0 L)).
    assert (Hc' : nonneg1 c').
    { unfold c'. apply fold_left_inv.
      - intros j Hj. unfold upd. destruct (j =? 0); [lia | now apply Hc].
      - intros c j Hj Hcc k Hk. apply in_rangeIncl in Hj. cbv zeta. unfold upd.
        destruct (k =? j); [|now apply Hcc].
        apply min3_lower.
        + specialize (Hp j ltac:(lia)). lia.
        + specialize (Hcc (j - 1) ltac:(lia)). lia.
        + specialize (Hp (j - 1) ltac:(lia)). destruct (tokEq _ _); lia. }
    apply min3_lower.
    + specialize (Hp L ltac:(lia)). lia.
    + specialize (Hc' (L - 1) ltac:(lia)). lia.
    + specialize (Hp (L - 1) ltac:(lia)). lia.
Qed.

(** ** Optimal string alignment *)

Lemma osaCell_nonneg (a b : list string) (i j : Z) (d : Z -> Z -> Z) :
  nonneg2 d -> nonneg2 (osaCell a b i d j).
Proof.
  intros Hd. unfold osaCell. cbv zeta.
  assert (Hc : 0 <= (if tokEq (tok a (i - 1)) (tok b (j - 1)) then 1 else 0))
    by (destruct (tokEq _ _); lia).
  assert (H1 : nonneg2 (upd2 d i j (min3 (d (i - 1) j + 1) (d i (j - 1) + 1)
                                         (d (i - 1) (j - 1)
                                          + (if tokEq (tok a (i - 1)) (tok b (j - 1))
                                             then 1 else 0))))).
  { apply nonneg2_upd2; [exact Hd|]. apply min3_lower.
    - specialize (Hd (i - 1) j). lia.
    - specialize (Hd i (j - 1)). lia.
    - specialize (Hd (i - 1) (j - 1)). lia. }
  destruct (_ && _); [|exact H1].
  apply nonneg2_upd2; [exact H1|].
  pose proof (H1 i j). pose proof (H1 (i - 2) (j - 2)). lia.
Qed.

Lemma osaInit_nonneg (m n : Z) : nonneg2 (osaInit m n).
Proof.
  unfold osaInit. cbv zeta. apply fold_left_inv.
  - apply fold_left_inv.
    + intros r c. lia.
    + intros d i Hi Hd. apply in_rangeIncl in Hi. apply nonneg2_upd2; [exact Hd | lia].
  - intros d j Hj Hd. apply in_rangeIncl in Hj. apply nonneg2_upd2; [exact Hd | lia].
Qed.

Lemma osaRows_nonneg (a b : list string) (cols l : list Z) (d : Z -> Z -> Z) :
  nonneg2 d ->
  nonneg2 (fold_left (fun d i => fold_left (osaCell a b i) cols d) l d).
Proof.
  intros Hd. apply fold_left_inv; [exact Hd|].
  intros d' i _ Hd'. apply fold_left_inv; [exact Hd'|].
  intros d'' j _ Hd''. now apply osaCell_nonneg.
Qed.

Lemma osa_nonneg (a b : list string) (lenA lenB : option Z) :
  0 <= orLength lenA a -> 0 <= orLength lenB b -> 0 <= osaDistance a b lenA lenB.
Proof.
  intros Hm Hn. unfold osaDistance. cbv zeta.
  destruct (orLength lenA a =? 0); [exact Hn|].
  destruct (orLength lenB b =? 0); [exact Hm|].
  apply osaRows_nonneg, osaInit_nonneg.
Qed.

Lemma osaCell_self (a : list string) (L : Z) (d : Z -> Z -> Z) :
  nonneg2 d -> 1 <= osaCell a a L d L L L.
Proof.
  intros Hd. unfold osaCell. cbv zeta. rewrite tokEq_refl.
  assert (H1 : 1 <= min3 (d (L - 1) L + 1) (d L (L - 1) + 1) (d (L - 1) (L - 1) + 1)).
  { apply min3_lower.
    - specialize (Hd (L - 1) L). lia.
    - specialize (Hd L (L - 1)). lia.
    - specialize (Hd (L - 1) (L - 1)). lia. }
  destruct (_ && _).
  - rewrite upd2_same. rewrite upd2_same.
    destruct (Z.eq_dec L (L - 2)) as [E | E]; [lia|].
    rewrite upd2_other by lia. specialize (Hd (L - 2) (L - 2)). lia.
  - rewrite upd2_same. exact H1.
Qed.

Lemma osa_self (a : list string) (L : Z) :
  (L = 0 -> osaDistance a a (Some L) (Some L) = 0) /\
  (1 <= L -> 1 <= osaDistance a a (Some L) (Some L)).
Proof.
  split.
  - intros ->. reflexivity.
  - intros HL. unfold osaDistance. cbn [orLength]. cbv zeta.
    replace (L =? 0) with false by lia.
    rewrite (rangeIncl_last 1 L) by lia. rewrite fold_left_app. cbn [fold_left].
    set (d0 := fold_left _ (rangeIncl 1 (L - 1)) (osaInit L L)).
    assert (Hd0 : nonneg2 d0) by (apply osaRows_nonneg, osaInit_nonneg).
    rewrite fold_left_app. cbn [fold_left].
    apply osaCell_self. apply fold_left_inv; [exact Hd0|].
    intros d j _ Hd. now apply osaCell_nonneg.
Qed.

(** ** Damerau-Levenshtein *)

(** Every value stored in the map satisfies [P]. *)
Definition allValues {K : Type} (P : Z -> Prop) (m : JsMap.t K) : Prop :=
  Forall (fun kv => P (snd kv)) m.

Lemma allValues_get {K : Type} (eqb : K -> K -> bool) (P : Z -> Prop) (m : JsMap.t K)
    (key : K) (v : Z) :
  allValues P m -> JsMap.get eqb m key = Some v -> P v.
Proof.
  induction m as [| [k x] m IH]; simpl; [discriminate|].
  intros H. inversion H; subst. destruct (eqb k key).
  - intros E. injection E as <-. assumption.
  - now apply IH.
Qed.

Lemma allValues_set {K : Type} (eqb : K -> K -> bool) (P : Z -> Prop) (m : JsMap.t K)
    (key : K) (v : Z) :
  allValues P m -> P v -> allValues P (JsMap.set eqb m key v).
Proof.
  intros Hm Hv. induction Hm as [| [k x] m Hx Hm IH]; simpl.
  - constructor; [exact Hv | constructor].
  - destruct (eqb k key); constructor; auto.
Qed.

Lemma allValues_weaken {K : Type} (P Q : Z -> Prop) (m : JsMap.t K) :
  (forall v, P v -> Q v) -> allValues P m -> allValues Q m.
Proof. intros H. apply Forall_impl. intros kv. apply H. Qed.

Lemma getOr0_bounds {K : Type} (eqb : K -> K -> bool) (m : JsMap.t K) (key : K) (hi : Z) :
  0 <= hi -> allValues (fun v => 0 <= v <= hi) m -> 0 <= JsMap.getOr0 eqb m key <= hi.
Proof.
  intros Hhi Hm. unfold JsMap.getOr0. destruct (JsMap.get eqb m key) as [v|] eqn:E; [|lia].
  apply (allValues_get eqb _ m key v Hm E).
Qed.

Lemma dlInit_nonneg (m n : Z) : 0 <= m -> 0 <= n -> nonneg2 (dlInit m n).
Proof.
  intros Hm Hn. unfold dlInit. cbv zeta. apply fold_left_inv.
  - apply fold_left_inv.
    + apply nonneg2_upd2; [intros r c; lia | lia].
    + intros d i Hi Hd. apply in_rangeIncl in Hi.
      apply nonneg2_upd2; [apply nonneg2_upd2; [exact Hd | lia] | lia].
  - intros d j Hj Hd. apply in_rangeIncl in Hj.
    apply nonneg2_upd2; [apply nonneg2_upd2; [exact Hd | lia] | lia].
Qed.

Lemma dlInit_corner (m n : Z) : 0 <= n -> dlInit m n 1 1 = 0.
Proof.
  intros Hn. unfold dlInit. cbv zeta.
  match goal with
  | |- fold_left ?step (rangeIncl 0 n) ?d1 1 1 = 0 =>
      assert (H : (fun pre d => In 0 pre -> d 1 1 = 0) (rangeIncl 0 n)
                    (fold_left step (rangeIncl 0 n) d1))
  end.
  { apply fold_left_hist.
    - intros [].
    - intros pre d j post _ Hd Hin. destruct (Z.eq_dec j 0) as [-> | Hne].
      + simpl. now rewrite upd2_same.
      + rewrite upd2_other by lia. rewrite upd2_other by lia. apply Hd.
        apply in_app_or in Hin. destruct Hin as [Hin | [Hin | []]]; [assumption | congruence]. }
  apply H. apply in_rangeIncl. lia.
Qed.

(** State of one row of the table: no cell is negative and [db] points
    before the cell that is computed next. *)
Lemma dlCell_nonneg (a b : list string) (da : JsMap.t (option string)) (i j : Z)
    (d : Z -> Z -> Z) (db : Z) :
  1 <= i -> 1 <= j ->
  allValues (fun v => 0 <= v <= i - 1) da ->
  nonneg2 d -> 0 <= db <= j - 1 ->
  nonneg2 (fst (dlCell a b da i (d, db) j)) /\ 0 <= snd (dlCell a b da i (d, db) j) <= j.
Proof.
  intros Hi Hj Hda Hd Hdb. unfold dlCell. cbv zeta. cbn [fst snd].
  pose proof (getOr0_bounds tokEq da (tok b (j - 1)) (i - 1) ltac:(lia) Hda) as Hi1.
  split.
  - apply nonneg2_upd2; [exact Hd|]. apply min4_lower.
    + specialize (Hd i j). destruct (tokEq _ _); lia.
    + specialize (Hd (i + 1) j). lia.
    + specialize (Hd i (j + 1)). lia.
    + specialize (Hd (JsMap.getOr0 tokEq da (tok b (j - 1))) db). lia.
  - destruct (_ =? 0); lia.
Qed.

Lemma dlCells_nonneg (a b : list string) (da : JsMap.t (option string)) (i n : Z)
    (d : Z -> Z -> Z) :
  1 <= i -> allValues (fun v => 0 <= v <= i - 1) da -> nonneg2 d ->
  nonneg2 (fst (fold_left (dlCell a b da i) (rangeIncl 1 n) (d, 0))).
Proof.
  intros Hi Hda Hd.
  assert (H : (fun pre st => nonneg2 (fst st) /\ 0 <= snd st <= lengthZ pre)
                (rangeIncl 1 n) (fold_left (dlCell a b da i) (rangeIncl 1 n) (d, 0))).
  { apply fold_left_hist.
    - split; [exact Hd | unfold lengthZ; simpl; lia].
    - intros pre [d' db] j post El [Hd' Hdb]. cbn [fst snd] in *.
      assert (Hj : j = 1 + lengthZ pre).
      { now apply rangeIncl_at in El. }
      destruct (dlCell_nonneg a b da i j d' db Hi ltac:(pose proof (lengthZ_nonneg pre); lia)
                  Hda Hd' ltac:(lia)) as [H1 H2].
      split; [exact H1|]. unfold lengthZ in *. rewrite length_app. simpl length. lia. }
  apply H.
Qed.

Lemma dlRows_nonneg (a b : list string) (n : Z) (k : Z) (d0 : Z -> Z -> Z) :
  nonneg2 d0 ->
  nonneg2 (fst (fold_left (dlRow a b n) (rangeIncl 1 k) (d0, JsMap.empty))).
Proof.
  intros Hd0.
  assert (H : (fun pre st => nonneg2 (fst st) /\
                             allValues (fun v => 0 <= v <= lengthZ pre) (snd st))
                (rangeIncl 1 k) (fold_left (dlRow a b n) (rangeIncl 1 k) (d0, JsMap.empty))).
  { apply fold_left_hist.
    - split; [exact Hd0 | constructor].
    - intros pre [d da] i post El [Hd Hda]. cbn [fst snd] in *.
      assert (Hi : i = 1 + lengthZ pre).
      { now apply rangeIncl_at in El. }
      unfold dlRow. cbn [fst snd]. pose proof (lengthZ_nonneg pre) as Hp. split.
      + apply dlCells_nonneg; [lia | | exact Hd].
        eapply allValues_weaken; [|exact Hda]. intros v Hv. simpl in Hv. lia.
      + apply allValues_set.
        * eapply allValues_weaken; [|exact Hda]. intros v Hv. simpl in *.
          unfold lengthZ in *. rewrite length_app. simpl length. lia.
        * unfold lengthZ in *. rewrite length_app. simpl length. lia. }
  apply H.
Qed.

Lemma dl_nonneg (a b : list string) (lenA lenB : option Z) :
  0 <= orLength lenA a -> 0 <= orLength lenB b -> 0 <= dlDistance a b lenA lenB.
Proof.
  intros Hm Hn. unfold dlDistance. cbv zeta.
  destruct (orLength lenA a =? 0); [exact Hn|].
  destruct (orLength lenB b =? 0); [exact Hm|].
  apply dlRows_nonneg, dlInit_nonneg; assumption.
Qed.

Lemma rangeIncl_length (lo hi : Z) : lo <= hi + 1 -> lengthZ (rangeIncl lo hi) = hi - lo + 1.
Proof.
  intros H. unfold lengthZ, rangeIncl. rewrite length_map, range_length. lia.
Qed.

Lemma min4_first (x y z w : Z) : min4 x y z w <= x.
Proof. unfold min4, min3. lia. Qed.

(** The diagonal of the table when both arguments are the same sequence:
    a match costs 0, so the diagonal stays at 0. *)
Lemma dlCells_self (a : list string) (da : JsMap.t (option string)) (i n : Z)
    (d : Z -> Z -> Z) :
  1 <= i <= n -> allValues (fun v => 0 <= v <= i - 1) da -> nonneg2 d ->
  (forall r, 1 <= r <= i -> d r r = 0) ->
  forall r, 1 <= r <= i + 1 ->
            fst (fold_left (dlCell a a da i) (rangeIncl 1 n) (d, 0)) r r = 0.
Proof.
  intros Hi Hda Hd Hdiag.
  assert (H : (fun pre st => nonneg2 (fst st) /\ 0 <= snd st <= lengthZ pre /\
                             (forall r, 1 <= r <= i -> fst st r r = 0) /\
                             (i <= lengthZ pre -> fst st (i + 1) (i + 1) = 0))
                (rangeIncl 1 n) (fold_left (dlCell a a da i) (rangeIncl 1 n) (d, 0))).
  { apply fold_left_hist.
    - split; [exact Hd|]. split; [unfold lengthZ; simpl; lia|].
      split; [exact Hdiag|]. unfold lengthZ. simpl. lia.
    - intros pre [d' db] j post El (Hd' & Hdb & Hdg & Hnew). cbn [fst snd] in *.
      assert (Hj : j = 1 + lengthZ pre) by now apply rangeIncl_at in El.
      pose proof (lengthZ_nonneg pre) as Hp.
      destruct (dlCell_nonneg a a da i j d' db ltac:(lia) ltac:(lia) Hda Hd' ltac:(lia))
        as [H1 H2].
      assert (Hl : lengthZ (pre ++ [j]) = j).
      { unfold lengthZ in *. rewrite length_app. simpl length. lia. }
      rewrite Hl. split; [exact H1|]. split; [exact H2|].
      unfold dlCell in *. cbv zeta in *. cbn [fst snd] in *. split.
      + intros r Hr. rewrite upd2_other by lia. now apply Hdg.
      + intros Hij. destruct (Z.eq_dec j i) as [-> | Hne].
        * specialize (H1 (i + 1) (i + 1)). rewrite upd2_same in *.
          rewrite tokEq_refl in *.
          match goal with |- ?v = 0 => assert (Hle : v <= d' i i + 0) by apply min4_first end.
          pose proof (Hdg i ltac:(lia)) as E0. lia.
        * rewrite upd2_other by lia. apply Hnew. lia. }
  destruct H as (_ & _ & Hdg & Hnew). intros r Hr.
  destruct (Z.eq_dec r (i + 1)) as [-> | Hne].
  - apply Hnew. rewrite rangeIncl_length by lia. lia.
  - apply Hdg. lia.
Qed.

Lemma dl_self (a : list string) (L : Z) : 0 <= L -> dlDistance a a (Some L) (Some L) = 0.
Proof.
  intros HL. unfold dlDistance. cbn [orLength]. cbv zeta.
  destruct (L =? 0) eqn:E0; [now apply Z.eqb_eq in E0|]. apply Z.eqb_neq in E0.
  assert (H : (fun pre st => nonneg2 (fst st) /\
                             allValues (fun v => 0 <= v <= lengthZ pre) (snd st) /\
                             forall r, 1 <= r <= 1 + lengthZ pre -> fst st r r = 0)
                (rangeIncl 1 L)
                (fold_left (dlRow a a L) (rangeIncl 1 L) (dlInit L L, JsMap.empty))).
  { apply fold_left_hist.
    - split; [apply dlInit_nonneg; lia|]. split; [constructor|].
      intros r Hr. unfold lengthZ in Hr. simpl in Hr.
      replace r with 1 by lia. apply dlInit_corner. lia.
    - intros pre [d da] i post El (Hd & Hda & Hdg). cbn [fst snd] in *.
      assert (Hi : i = 1 + lengthZ pre) by now apply rangeIncl_at in El.
      assert (HiL : 1 <= i <= L).
      { apply in_rangeIncl. rewrite El. apply in_or_app. right. now left. }
      pose proof (lengthZ_nonneg pre) as Hp.
      assert (Hl : lengthZ (pre ++ [i]) = i).
      { unfold lengthZ in *. rewrite length_app. simpl length. lia. }
      rewrite Hl. unfold dlRow. cbn [fst snd].
      assert (Hda' : allValues (fun v => 0 <= v <= i - 1) da).
      { eapply allValues_weaken; [|exact Hda]. intros v Hv. simpl in Hv. lia. }
      split; [|split].
      + apply dlCells_nonneg; [lia | exact Hda' | exact Hd].
      + apply allValues_set; [|lia].
        eapply allValues_weaken; [|exact Hda]. intros v Hv. cbv beta in Hv. lia.
      + intros r Hr. apply dlCells_self with (i := i); try assumption; [|lia].
        intros r' Hr'. apply Hdg. lia. }
  destruct H as (_ & _ & Hdg). apply Hdg. rewrite rangeIncl_length by lia. lia.
Qed.

(** ** Longest common subsequence *)

(** The cells of row [i] are bounded by [min(i, j)]. *)
Definition lcsBound (i : Z) (t : Z -> Z) : Prop := forall j, 0 <= j -> t j <= Z.min i j.

Lemma lcsRow_bound (a b : list string) (n i : Z) (prev : Z -> Z) :
  1 <= i -> lcsBound (i - 1) prev -> lcsBound i (lcsRow a b n i prev (fun _ => 0)).
Proof.
  intros Hi Hp. unfold lcsRow. apply fold_left_inv.
  - intros j Hj. lia.
  - intros c j Hj Hc k Hk. apply in_rangeIncl in Hj.
    destruct (tokEq _ _); unfold upd; destruct (k =? j) eqn:E;
      try (now apply Hc); apply Z.eqb_eq in E; subst k.
    + specialize (Hp (j - 1) ltac:(lia)). lia.
    + specialize (Hp j ltac:(lia)). specialize (Hc (j - 1) ltac:(lia)). lia.
Qed.

Lemma lcs_nonneg (a b : list string) (lenA lenB : option Z) :
  0 <= orLength lenA a -> 0 <= orLength lenB b -> 0 <= lcsDistance a b lenA lenB.
Proof.
  intros Hm Hn. unfold lcsDistance. cbv zeta.
  set (m := orLength lenA a) in *. set (n := orLength lenB b) in *.
  assert (H : (fun pre prev => lcsBound (lengthZ pre) prev) (rangeIncl 1 m)
                (fold_left (fun prev i => lcsRow a b n i prev (fun _ => 0))
                           (rangeIncl 1 m) (fun _ => 0))).
  { apply fold_left_hist.
    - intros j Hj. unfold lengthZ. simpl. lia.
    - intros pre prev i post El Hp.
      assert (Hi : i = 1 + lengthZ pre) by now apply rangeIncl_at in El.
      pose proof (lengthZ_nonneg pre) as Hpre.
      assert (Hl : lengthZ (pre ++ [i]) = i).
      { unfold lengthZ in *. rewrite length_app. simpl length. lia. }
      rewrite Hl. apply lcsRow_bound; [lia|]. now replace (i - 1) with (lengthZ pre) by lia. }
  cbv beta in H. rewrite rangeIncl_length in H by lia.
  specialize (H n Hn). lia.
Qed.

Lemma effectiveLength_nonneg (seq : list string) : 0 <= effectiveLength seq.
Proof.
  unfold effectiveLength. apply fold_left_inv; [lia|].
  intros last i Hi Hl. apply in_range in Hi. destruct (tokEq _ _); lia.
Qed.

End EditFacts.

(* ------------------------------------------------------------------ *)
(** * Hamming distance and the q-gram profiles *)

(** A finite number between [lo] and [hi]. *)
Definition between (lo hi : Q) (x : num) : Prop :=
  exists v, x = Fin v /\ (lo <= v <= hi)%Q.

(** A finite number that is not below 0. *)
Definition finiteNonneg (x : num) : Prop := exists v, x = Fin v /\ (0 <= v)%Q.

(** A finite number that is not above 1. *)
Definition atMostOne (x : num) : Prop := exists v, x = Fin v /\ (v <= 1)%Q.

Lemma between_finiteNonneg (hi : Q) (x : num) : between 0 hi x -> finiteNonneg x.
Proof. intros (v & E & H0 & _). now exists v. Qed.

Lemma between_atMostOne (lo : Q) (x : num) : between lo 1 x -> atMostOne x.
Proof. intros (v & E & _ & H1). now exists v. Qed.

Lemma finiteNonneg_nonneg (x : num) : finiteNonneg x -> nonneg x.
Proof. intros (v & -> & H). now apply nonneg_Fin. Qed.

(** The rounding of a value between two doubles lies between them. *)
Lemma round64_between (lo hi x : Q) :
  isDouble lo -> isDouble hi -> (lo <= x <= hi)%Q -> between lo hi (round64 x).
Proof.
  intros Dlo Dhi [Hlo Hhi].
  pose proof (round64_mono _ _ Hlo) as M1. pose proof (round64_mono _ _ Hhi) as M2.
  rewrite (round64_double _ Dlo) in M1. rewrite (round64_double _ Dhi) in M2.
  destruct (round64 x) as [r | | |] eqn:E; try discriminate.
  exists r. split; [reflexivity|].
  cbn [nle] in M1, M2. apply Qle_bool_iff in M1, M2. rewrite Qred_correct in M1, M2.
  now split.
Qed.

Lemma isDouble_small (z : Z) : Z.abs z <= 2 ^ 53 -> isDouble (inject_Z z).
Proof. apply isDouble_Z. Qed.

(** What [ofZ] holds. *)
Definition counted (z : Z) : Z := Z.max (- 2 ^ 53) (Z.min z (2 ^ 53)).

Lemma ofZ_counted (z : Z) : ofZ z = Fin (inject_Z (counted z)).
Proof. reflexivity. Qed.

Lemma counted_bounds (z : Z) : - 2 ^ 53 <= counted z <= 2 ^ 53.
Proof. unfold counted. lia. Qed.

Lemma counted_mono (x y : Z) : x <= y -> counted x <= counted y.
Proof. unfold counted. lia. Qed.

Lemma counted_nonneg (z : Z) : 0 <= z -> 0 <= counted z.
Proof. unfold counted. lia. Qed.

Lemma counted_pos (z : Z) : 0 < z -> 0 < counted z.
Proof. unfold counted. lia. Qed.

Lemma ofZ_finiteNonneg (z : Z) : 0 <= z -> finiteNonneg (ofZ z).
Proof.
  intros H. exists (inject_Z (counted z)). split; [reflexivity|].
  change 0%Q with (inject_Z 0). rewrite <- Zle_Qle. now apply counted_nonneg.
Qed.

(** A count: a non-negative integer, at most [2^53]. *)
Definition isCount (x : num) : Prop := exists z, 0 <= z <= 2 ^ 53 /\ x = Fin (inject_Z z).

Lemma ofZ_isCount (z : Z) : 0 <= z -> isCount (ofZ z).
Proof.
  intros H. exists (counted z). split; [|reflexivity].
  pose proof (counted_bounds z). pose proof (counted_nonneg z H). lia.
Qed.

Lemma isCount_between (x : num) : isCount x -> between 0 (inject_Z (2 ^ 53)) x.
Proof.
  intros (z & Hz & ->). exists (inject_Z z). split; [reflexivity|].
  change 0%Q with (inject_Z 0). rewrite <- !Zle_Qle. lia.
Qed.

Lemma isCount_finiteNonneg (x : num) : isCount x -> finiteNonneg x.
Proof. intros H. exact (between_finiteNonneg _ _ (isCount_between x H)). Qed.

Lemma inject_Z_nonneg (z : Z) : 0 <= z -> (0 <= inject_Z z)%Q.
Proof. intros H. change 0%Q with (inject_Z 0). now rewrite <- Zle_Qle. Qed.

Lemma ratio_unit (x y : Z) :
  0 <= x <= y -> 0 < y -> (0 <= inject_Z x / inject_Z y <= 1)%Q.
Proof.
  intros Hx Hy. pose proof (inject_Z_pos y ltac:(lia)) as Hq.
  pose proof (inject_Z_nonneg x ltac:(lia)) as H0.
  assert (H1 : (inject_Z x <= inject_Z y)%Q) by (rewrite <- Zle_Qle; lia).
  split.
  - apply Qle_shift_div_l; [exact Hq | lra].
  - apply Qle_shift_div_r; [exact Hq | lra].
Qed.

Lemma ndiv_Fin_pos (a b : Q) : (0 < b)%Q -> ndiv (Fin a) (Fin b) = round64 (a / b).
Proof. intros H. cbn [ndiv]. now rewrite Qeq_bool_pos. Qed.

(** A count divided by a count that is not smaller. *)
Lemma ndiv_ratio (x y : Z) : 0 <= x <= y -> 0 < y -> between 0 1 (ndiv (ofZ x) (ofZ y)).
Proof.
  intros Hx Hy. rewrite !ofZ_counted.
  pose proof (counted_mono x y ltac:(lia)). pose proof (counted_nonneg x ltac:(lia)).
  pose proof (counted_pos y Hy).
  rewrite ndiv_Fin_pos by (apply inject_Z_pos; lia).
  apply round64_between; [apply (isDouble_small 0); lia | apply (isDouble_small 1); lia|].
  apply ratio_unit; lia.
Qed.

(** [1 - x] for [x] in [[0, 1]]. *)
Lemma one_minus_unit (x : num) : between 0 1 x -> between 0 1 (nsub (Fin 1) x).
Proof.
  intros (v & -> & Hv). cbn [nsub].
  apply round64_between; [apply (isDouble_small 0); lia | apply (isDouble_small 1); lia | lra].
Qed.

Lemma round64_one : round64 1 = Fin 1.
Proof. exact (round64_Z 1 ltac:(lia)). Qed.

(** An exact result that is a small integer is not rounded. *)
Lemma round64_int (x : Q) (z : Z) :
  (x == inject_Z z)%Q -> Z.abs z <= 2 ^ 53 -> round64 x = Fin (inject_Z z).
Proof. intros E H. rewrite (round64_comp _ _ E). now apply round64_Z. Qed.

Lemma ndiv_same (c : Z) : 0 < c -> ndiv (ofZ c) (ofZ c) = Fin 1.
Proof.
  intros H. rewrite ofZ_counted. pose proof (counted_pos c H) as P.
  pose proof (inject_Z_pos (counted c) ltac:(lia)) as Hq.
  rewrite ndiv_Fin_pos by exact Hq. apply (round64_int _ 1); [|lia].
  change (inject_Z 1) with 1%Q. field. lra.
Qed.

Lemma ndiv_none (c : Z) : 0 < c -> ndiv (ofZ 0) (ofZ c) = Fin 0.
Proof.
  intros H. rewrite !ofZ_counted. pose proof (counted_pos c H) as P.
  pose proof (inject_Z_pos (counted c) ltac:(lia)) as Hq.
  rewrite ndiv_Fin_pos by exact Hq. apply (round64_int _ 0); [|lia].
  change (inject_Z (counted 0)) with 0%Q. change (inject_Z 0) with 0%Q. field. lra.
Qed.

Lemma nsub_one_one : nsub (Fin 1) (Fin 1) = Fin 0.
Proof. cbn [nsub]. now apply (round64_int _ 0). Qed.

Lemma nsub_one_zero : nsub (Fin 1) (Fin 0) = Fin 1.
Proof. cbn [nsub]. now apply (round64_int _ 1). Qed.

(** A counter that has reached [2^53] stays there. *)
Lemma round64_count_top : round64 (inject_Z (2 ^ 53) + 1) = Fin (inject_Z (2 ^ 53)).
Proof. vm_compute. reflexivity. Qed.

Lemma nadd_count (k : Z) : 0 <= k -> nadd (ofZ k) (Fin 1) = ofZ (k + 1).
Proof.
  intros H. rewrite !ofZ_counted. cbn [nadd]. unfold counted.
  destruct (Z_lt_le_dec k (2 ^ 53)) as [L | L].
  - replace (Z.max (- 2 ^ 53) (Z.min k (2 ^ 53))) with k by lia.
    replace (Z.max (- 2 ^ 53) (Z.min (k + 1) (2 ^ 53))) with (k + 1) by lia.
    rewrite <- (round64_Z (k + 1)) by lia. apply round64_comp.
    rewrite inject_Z_plus. reflexivity.
  - replace (Z.max (- 2 ^ 53) (Z.min k (2 ^ 53))) with (2 ^ 53) by lia.
    replace (Z.max (- 2 ^ 53) (Z.min (k + 1) (2 ^ 53))) with (2 ^ 53) by lia.
    apply round64_count_top.
Qed.

Lemma existsb_string_In (x : string) (l : list string) :
  existsb (String.eqb x) l = true <-> In x l.
Proof.
  rewrite existsb_exists. split.
  - intros (y & Hy & E). apply String.eqb_eq in E. now subst.
  - intros H. exists x. split; [assumption | apply String.eqb_refl].
Qed.

Lemma dedup_In (seen l : list string) (x : string) :
  In x (dedup seen l) <-> In x l /\ ~ In x seen.
Proof.
  revert seen. induction l as [| y l IH]; intros seen; simpl; [tauto|].
  destruct (existsb (String.eqb y) seen) eqn:E.
  - apply existsb_string_In in E. rewrite IH. split.
    + intros [H1 H2]. auto.
    + intros [[-> | H1] H2]; [contradiction | auto].
  - assert (Hn : ~ In y seen).
    { intros H. apply existsb_string_In in H. congruence. }
    simpl. rewrite IH. simpl. split.
    + intros [-> | [H1 H2]]; [auto|]. split; [auto|]. intros H. apply H2. now right.
    + intros [[-> | H1] H2]; [now left|].
      destruct (string_dec y x) as [-> | Hne]; [now left | right].
      split; [assumption|]. intros [H | H]; [congruence | contradiction].
Qed.

Lemma dedup_NoDup (seen l : list string) : NoDup (dedup seen l).
Proof.
  revert seen. induction l as [| y l IH]; intros seen; simpl; [constructor|].
  destruct (existsb (String.eqb y) seen); [apply IH|].
  constructor; [|apply IH]. intros H. apply dedup_In in H. destruct H as [_ H].
  apply H. now left.
Qed.

Module ProfileFacts.

Import Distance EditFacts.

Section WithMath.

Variable Math_exp : num -> num.
Variable Math_sqrt : Q -> Q.

(** What the program adds for a mismatch at position [i]. *)
Definition mismatchTerm (weighted : bool) (lambda_ : Q) (i : Z) : num :=
  if weighted then Math_exp (nmul (nneg (Fin lambda_)) (ofZ i)) else Fin 1.

Lemma hamming_fold (a b : list string) (weighted : bool) (lambda_ : Q) :
  hammingDistance Math_exp a b weighted lambda_
  = fold_left (fun dist i => nadd dist (mismatchTerm weighted lambda_ i))
              (filter (fun i => negb (tokEq (padded a i) (padded b i)))
                      (range (Z.max (lengthZ a) (lengthZ b))))
              (Fin 0).
Proof.
  unfold hammingDistance. cbv zeta. generalize (Fin 0).
  induction (range (Z.max (lengthZ a) (lengthZ b))) as [| i l IH]; intros acc; simpl;
    [reflexivity|].
  destruct (negb (tokEq (padded a i) (padded b i))); simpl; apply IH.
Qed.

(** Without weights the distance is the number of mismatching padded
    positions. *)
Lemma hamming_count (a b : list string) (lambda_ : Q) :
  hammingDistance Math_exp a b false lambda_
  = ofZ (lengthZ (filter (fun i => negb (tokEq (padded a i) (padded b i)))
                         (range (Z.max (lengthZ a) (lengthZ b))))).
Proof.
  rewrite hamming_fold.
  generalize (filter (fun i => negb (tokEq (padded a i) (padded b i)))
                     (range (Z.max (lengthZ a) (lengthZ b)))).
  intros l.
  assert (H : forall k, 0 <= k ->
            fold_left (fun dist i => nadd dist (mismatchTerm false lambda_ i)) l (ofZ k)
            = ofZ (k + lengthZ l)).
  { induction l as [| i l IH]; intros k Hk; cbn [fold_left].
    - unfold lengthZ. simpl. now rewrite Z.add_0_r.
    - change (mismatchTerm false lambda_ i) with (Fin 1). rewrite nadd_count by exact Hk.
      rewrite IH by lia. f_equal. unfold lengthZ. simpl length. lia. }
  exact (H 0 ltac:(lia)).
Qed.

Lemma hamming_unweighted_count (a b : list string) (lambda_ : Q) :
  isCount (hammingDistance Math_exp a b false lambda_).
Proof. rewrite hamming_count. apply ofZ_isCount, lengthZ_nonneg. Qed.

(** With weights the distance is a sum of values of [Math.exp]: not below
    0 as soon as those are. *)
Lemma hamming_nonneg (a b : list string) (weighted : bool) (lambda_ : Q) :
  (forall x, x <> NaN -> nonneg (Math_exp x)) ->
  nonneg (hammingDistance Math_exp a b weighted lambda_).
Proof.
  intros Hexp. rewrite hamming_fold. apply fold_nadd_nonneg.
  - intros i _. unfold mismatchTerm. destruct weighted.
    + apply Hexp. rewrite ofZ_counted. cbn [nneg nmul]. apply round64_notNaN.
    + apply nonneg_Fin. lra.
  - apply nonneg_Fin. lra.
Qed.

Lemma nsqrt_Fin (x : Q) : (0 <= x)%Q -> nsqrt Math_sqrt (Fin x) = Fin (Math_sqrt x).
Proof.
  intros H. unfold nsqrt. replace (Qltb x 0) with false; [reflexivity|].
  symmetry. now apply Qltb_false_iff.
Qed.

End WithMath.

Lemma hamming_self (Math_exp : num -> num) (a : list string) (weighted : bool) (lambda_ : Q) :
  hammingDistance Math_exp a a weighted lambda_ = Fin 0.
Proof.
  unfold hammingDistance. cbv zeta. apply fold_left_inv; [reflexivity|].
  intros acc i _ ->. now rewrite tokEq_refl.
Qed.

(** ** Profiles *)

Lemma getOr0_nonneg {K : Type} (eqb : K -> K -> bool) (m : JsMap.t K) (key : K) :
  allValues (fun v => 0 <= v) m -> 0 <= JsMap.getOr0 eqb m key.
Proof.
  intros Hm. unfold JsMap.getOr0. destruct (JsMap.get eqb m key) as [v|] eqn:E; [|lia].
  apply (allValues_get eqb _ m key v Hm E).
Qed.

Lemma getQgrams_nonneg (seq : list string) (len : option Z) (q : Z) :
  allValues (fun v => 0 <= v) (getQgrams seq len q).
Proof.
  unfold getQgrams. cbv zeta. apply fold_left_inv; [constructor|].
  intros profile i _ Hp. apply allValues_set; [exact Hp|].
  pose proof (getOr0_nonneg String.eqb profile
                (String.concat (String Ascii.zero "") (slice seq i (i + q))) Hp). lia.
Qed.

Lemma qgram_nonneg (a b : list string) (lenA lenB : option Z) :
  0 <= qgramDistance a b lenA lenB.
Proof.
  unfold qgramDistance. cbv zeta. apply fold_left_inv; [lia|].
  intros dist key _ H. lia.
Qed.

(** Cauchy-Schwarz, one term at a time. *)
Lemma cauchy_step (D A B x y : Z) :
  0 <= D -> 0 <= A -> 0 <= B -> 0 <= x -> 0 <= y ->
  D * D <= A * B ->
  (D + x * y) * (D + x * y) <= (A + x * x) * (B + y * y).
Proof.
  intros HD HA HB Hx Hy H.
  assert (H1 : 0 <= (A * (y * y) - B * (x * x)) * (A * (y * y) - B * (x * x)))
    by apply Z.square_nonneg.
  assert (H2 : 0 <= 4 * (x * x) * (y * y) * (A * B - D * D)).
  { apply Z.mul_nonneg_nonneg; [|lia].
    apply Z.mul_nonneg_nonneg; [|apply Z.square_nonneg].
    pose proof (Z.square_nonneg x). lia. }
  assert (H3 : (2 * D * x * y) * (2 * D * x * y)
               <= (A * (y * y) + B * (x * x)) * (A * (y * y) + B * (x * x))).
  { replace ((A * (y * y) + B * (x * x)) * (A * (y * y) + B * (x * x)))
      with ((A * (y * y) - B * (x * x)) * (A * (y * y) - B * (x * x))
            + 4 * (x * x) * (y * y) * (A * B - D * D)
            + (2 * D * x * y) * (2 * D * x * y)) by ring.
    lia. }
  assert (H4 : 2 * D * x * y <= A * (y * y) + B * (x * x)).
  { assert (Hl : 0 <= 2 * D * x * y).
    { repeat apply Z.mul_nonneg_nonneg; lia. }
    assert (Hr : 0 <= A * (y * y) + B * (x * x)).
    { pose proof (Z.square_nonneg x). pose proof (Z.square_nonneg y).
      assert (0 <= A * (y * y)) by (apply Z.mul_nonneg_nonneg; lia).
      assert (0 <= B * (x * x)) by (apply Z.mul_nonneg_nonneg; lia). lia. }
    apply Z.square_le_simpl_nonneg; [exact Hr | exact H3]. }
  replace ((D + x * y) * (D + x * y)) with (D * D + 2 * D * x * y + x * x * (y * y)) by ring.
  replace ((A + x * x) * (B + y * y))
    with (A * B + (A * (y * y) + B * (x * x)) + x * x * (y * y)) by ring.
  lia.
Qed.

Lemma cosineSums_spec (pa pb : JsMap.t string) :
  allValues (fun v => 0 <= v) pa -> allValues (fun v => 0 <= v) pb ->
  let '(dot, normA, normB) := cosineSums pa pb in
  0 <= dot /\ 0 <= normA /\ 0 <= normB /\ dot * dot <= normA * normB.
Proof.
  intros Ha Hb. unfold cosineSums.
  apply fold_left_inv with
    (P := fun acc : Z * Z * Z =>
            let '(dot, normA, normB) := acc in
            0 <= dot /\ 0 <= normA /\ 0 <= normB /\ dot * dot <= normA * normB).
  - lia.
  - intros [[dot normA] normB] key _ (H1 & H2 & H3 & H4).
    pose proof (getOr0_nonneg String.eqb pa key Ha) as Hva.
    pose proof (getOr0_nonneg String.eqb pb key Hb) as Hvb.
    cbv beta iota zeta.
    set (va := JsMap.getOr0 String.eqb pa key) in *.
    set (vb := JsMap.getOr0 String.eqb pb key) in *.
    pose proof (Z.square_nonneg va). pose proof (Z.square_nonneg vb).
    assert (0 <= va * vb) by (apply Z.mul_nonneg_nonneg; lia).
    repeat split; try lia. now apply cauchy_step.
Qed.

Section Cosine.

Variable Math_sqrt : Q -> Q.

Hypothesis sqrt_nonneg : forall x, (0 <= x)%Q -> (0 <= Math_sqrt x)%Q.
Hypothesis sqrt_one : forall x, (1 <= x)%Q -> (1 <= Math_sqrt x)%Q.

(** The quotient of [cosineDistance] is not below 0, so the distance is
    not above 1. *)
Lemma cosine_atMostOne (a b : list string) (lenA lenB : option Z) :
  atMostOne (cosineDistance Math_sqrt a b lenA lenB).
Proof.
  unfold cosineDistance. cbv zeta.
  pose proof (cosineSums_spec (getQgrams a lenA 1) (getQgrams b lenB 1)
                (getQgrams_nonneg a lenA 1) (getQgrams_nonneg b lenB 1)) as H.
  destruct (cosineSums _ _) as [[dot normA] normB]. destruct H as (Hd & Ha & Hb & _).
  destruct ((normA =? 0) || (normB =? 0)) eqn:E.
  - exists 1%Q. split; [reflexivity | lra].
  - apply orb_false_iff in E. destruct E as [Ea Eb]. apply Z.eqb_neq in Ea, Eb.
    rewrite !ofZ_counted.
    pose proof (counted_pos normA ltac:(lia)) as Pa.
    pose proof (counted_pos normB ltac:(lia)) as Pb.
    pose proof (counted_nonneg dot Hd) as Pd. pose proof (counted_bounds dot) as Bd.
    assert (Hqa : (1 <= inject_Z (counted normA))%Q).
    { change 1%Q with (inject_Z 1). rewrite <- Zle_Qle. lia. }
    assert (Hqb : (1 <= inject_Z (counted normB))%Q).
    { change 1%Q with (inject_Z 1). rewrite <- Zle_Qle. lia. }
    pose proof (inject_Z_nonneg _ Pd) as Hqd.
    assert (Hqd' : (inject_Z (counted dot) <= inject_Z (2 ^ 53))%Q)
      by (rewrite <- Zle_Qle; lia).
    rewrite !(nsqrt_Fin Math_sqrt) by lra.
    set (sa := Math_sqrt (inject_Z (counted normA))).
    set (sb := Math_sqrt (inject_Z (counted normB))).
    pose proof (sqrt_one _ Hqa) as Hsa. pose proof (sqrt_one _ Hqb) as Hsb.
    fold sa in Hsa. fold sb in Hsb.
    assert (Hprod : (1 <= sa * sb)%Q) by nra.
    cbn [nmul]. pose proof (round64_mono _ _ Hprod) as M. rewrite round64_one in M.
    destruct (round64 (sa * sb)) as [p | | |] eqn:Ep; try discriminate.
    + apply Qle_bool_iff in M. rewrite ndiv_Fin_pos by lra.
      assert (Hr : (0 <= inject_Z (counted dot) / p <= inject_Z (2 ^ 53))%Q).
      { split.
        - apply Qle_shift_div_l; lra.
        - apply Qle_shift_div_r; [lra|]. nra. }
      destruct (round64_between 0 (inject_Z (2 ^ 53)) _
                  ltac:(apply (isDouble_small 0); lia) ltac:(apply isDouble_small; lia) Hr)
        as (r & -> & Hr0 & Hr1).
      cbn [nsub]. apply (between_atMostOne (inject_Z (1 - 2 ^ 53))).
      apply round64_between; [apply isDouble_small; lia | apply (isDouble_small 1); lia|].
      split; [|lra].
      replace (inject_Z (1 - 2 ^ 53)) with (inject_Z 1 - inject_Z (2 ^ 53))%Q; [|reflexivity].
      change (inject_Z 1) with 1%Q. lra.
    + cbn [ndiv nsub]. exists 1%Q. split; [|lra].
      rewrite <- round64_one. apply round64_comp. ring.
Qed.

End Cosine.

(** ** Jaccard *)

Lemma fold_count {A : Type} (f : A -> bool) (l : list A) (z : Z) :
  fold_left (fun count key => if f key then count + 1 else count) l z
  = z + lengthZ (filter f l).
Proof.
  revert z. induction l as [| x l IH]; intros z; simpl.
  - unfold lengthZ. simpl. lia.
  - rewrite IH. destruct (f x); unfold lengthZ; simpl length; lia.
Qed.

Lemma jaccard_unit (a b : list string) (lenA lenB : option Z) :
  between 0 1 (jaccardDistance a b lenA lenB).
Proof.
  unfold jaccardDistance. cbv zeta.
  set (setA := dedup [] (JsMap.keys (getQgrams a lenA 1))).
  set (setB := dedup [] (JsMap.keys (getQgrams b lenB 1))).
  rewrite fold_count. rewrite Z.add_0_l.
  set (common := filter (fun key => existsb (String.eqb key) setB) setA).
  assert (HA : lengthZ common <= lengthZ setA).
  { unfold lengthZ, common. pose proof (filter_length_le
      (fun key => existsb (String.eqb key) setB) setA). lia. }
  assert (HB : lengthZ common <= lengthZ setB).
  { assert (Hnd : NoDup common) by (apply NoDup_filter, dedup_NoDup).
    assert (Hincl : incl common setB).
    { intros x Hx. unfold common in Hx. apply filter_In in Hx.
      now apply existsb_string_In. }
    pose proof (NoDup_incl_length Hnd Hincl). unfold lengthZ. lia. }
  pose proof (lengthZ_nonneg common) as H0.
  destruct (lengthZ setA + lengthZ setB - lengthZ common =? 0) eqn:E.
  - exists 0%Q. split; [reflexivity | lra].
  - apply Z.eqb_neq in E. apply one_minus_unit, ndiv_ratio; lia.
Qed.

End ProfileFacts.

(* ------------------------------------------------------------------ *)
(** * Jaro distance *)

(** The number of [true] cells of a match array. *)
Definition countTrue (l : list bool) : Z := lengthZ (filter (fun x => x) l).

(** The number of [true] cells before index [k]. *)
Definition countBefore (l : list bool) (k : Z) : Z := countTrue (firstn (Z.to_nat k) l).

Lemma countTrue_cons (x : bool) (l : list bool) :
  countTrue (x :: l) = (if x then 1 else 0) + countTrue l.
Proof. unfold countTrue, lengthZ. simpl. destruct x; simpl length; lia. Qed.

Lemma countTrue_bounds (l : list bool) : 0 <= countTrue l <= lengthZ l.
Proof.
  unfold countTrue, lengthZ. pose proof (filter_length_le (fun x : bool => x) l). lia.
Qed.

Lemma countTrue_repeat (k : nat) : countTrue (repeat false k) = 0.
Proof. induction k as [| k IH]; [reflexivity|]. simpl repeat. now rewrite countTrue_cons. Qed.

Lemma nthZ_repeat (k : nat) (i : Z) : nthZ (repeat false k) i false = false.
Proof.
  unfold nthZ. destruct (i <? 0); [reflexivity|].
  generalize (Z.to_nat i). induction k as [| k IH]; intros [| j]; simpl; auto.
Qed.

Lemma countTrue_setZ (l : list bool) (i : Z) :
  0 <= i < lengthZ l -> nthZ l i false = false ->
  countTrue (setZ l i true) = countTrue l + 1.
Proof.
  unfold nthZ, setZ, lengthZ. intros Hi. replace (i <? 0) with false by lia.
  assert (H : (Z.to_nat i < length l)%nat) by lia. clear Hi.
  revert H. generalize (Z.to_nat i). clear i. intros i. revert i.
  induction l as [| x l IH]; intros [| i] H E; simpl in *; try lia.
  - subst x. rewrite !countTrue_cons. lia.
  - rewrite !countTrue_cons. rewrite IH by (assumption || lia). lia.
Qed.

Lemma countBefore_succ (l : list bool) (k : Z) :
  0 <= k -> countBefore l (k + 1) = countBefore l k + (if nthZ l k false then 1 else 0).
Proof.
  intros Hk. unfold countBefore, nthZ. replace (k <? 0) with false by lia.
  replace (Z.to_nat (k + 1)) with (S (Z.to_nat k)) by lia.
  generalize (Z.to_nat k). clear k Hk. intros k. revert k.
  induction l as [| x l IH]; intros [| k].
  - reflexivity.
  - reflexivity.
  - change (firstn 1 (x :: l)) with [x]. change (firstn 0 (x :: l)) with (@nil bool).
    change (nth 0 (x :: l) false) with x. rewrite countTrue_cons.
    change (countTrue []) with 0. lia.
  - rewrite !firstn_cons. change (nth (S k) (x :: l) false) with (nth k l false).
    rewrite !countTrue_cons. rewrite IH. lia.
Qed.

Lemma countBefore_total (l : list bool) (k : Z) : lengthZ l <= k -> countBefore l k = countTrue l.
Proof.
  intros H. unfold countBefore. rewrite firstn_all2; [reflexivity|]. unfold lengthZ in H. lia.
Qed.

Lemma countBefore_le (l : list bool) (k : Z) : countBefore l k <= countTrue l.
Proof.
  unfold countBefore. generalize (Z.to_nat k). clear k. intros k. revert k.
  induction l as [| x l IH]; intros [| k]; simpl firstn.
  - lia.
  - lia.
  - pose proof (countTrue_bounds (x :: l)). unfold countTrue at 1, lengthZ. simpl. lia.
  - rewrite !countTrue_cons. specialize (IH k). lia.
Qed.

Lemma countBefore_0 (l : list bool) : countBefore l 0 = 0.
Proof. reflexivity. Qed.

(** The same induction as [fold_left_hist], for a fold whose steps can
    fail. *)
Lemma foldM_hist {S X : Type} (step : S -> X -> result S) (P : list X -> S -> Prop)
    (init : S) (l : list X) :
  P [] init ->
  (forall pre s x post, l = pre ++ x :: post -> P pre s ->
                        exists s', step s x = Ok s' /\ P (pre ++ [x]) s') ->
  exists s', Distance.foldM step l init = Ok s' /\ P l s'.
Proof.
  intros H0 Hstep.
  assert (H : forall post pre s, l = pre ++ post -> P pre s ->
                                 exists s', Distance.foldM step post s = Ok s' /\ P l s').
  { induction post as [| x post IH]; intros pre s El Hp; simpl.
    - rewrite app_nil_r in El. subst. now exists s.
    - destruct (Hstep pre s x post El Hp) as (s1 & E1 & H1). rewrite E1. simpl.
      apply (IH (pre ++ [x])); [now rewrite <- app_assoc | exact H1]. }
  now apply (H l [] init).
Qed.

Module JaroFacts.

Import Distance.

Lemma skipUnmatched_finds (fuel : nat) (bMatched : list bool) (bIdx : Z) :
  0 <= bIdx -> countBefore bMatched bIdx < countTrue bMatched ->
  lengthZ bMatched - bIdx <= Z.of_nat fuel ->
  exists j, skipUnmatched fuel bMatched bIdx = Ok j /\ bIdx <= j /\
            nthZ bMatched j false = true /\
            countBefore bMatched j = countBefore bMatched bIdx.
Proof.
  revert bIdx. induction fuel as [| fuel IH]; intros bIdx H0 Hc Hf; simpl;
    destruct (nthZ bMatched bIdx false) eqn:E.
  - exists bIdx. repeat split; auto; lia.
  - exfalso. rewrite countBefore_total in Hc by lia. lia.
  - exists bIdx. repeat split; auto; lia.
  - destruct (IH (bIdx + 1)) as (j & Ej & Hj & Ht & Hcnt); try lia.
    + rewrite countBefore_succ by lia. rewrite E. lia.
    + exists j. repeat split; auto; try lia.
      rewrite Hcnt, countBefore_succ by lia. rewrite E. lia.
Qed.

(** State of the match search after the positions [pre] of [a]. *)
Definition matchInv (m n : Z) (pre : list Z) (st : list bool * list bool * Z) : Prop :=
  let '(aMatched, bMatched, matches) := st in
  lengthZ aMatched = m /\ lengthZ bMatched = n /\
  matches = countTrue aMatched /\ matches = countTrue bMatched /\
  forall i, lengthZ pre <= i -> nthZ aMatched i false = false.

Lemma jaroMatches_spec (a b : list string) (m n : Z) :
  0 <= m -> 0 <= n -> matchInv m n (range m) (jaroMatches a b m n).
Proof.
  intros Hm Hn. unfold jaroMatches. cbv zeta.
  apply (fold_left_hist _ (matchInv m n)).
  - unfold matchInv. repeat split.
    + unfold lengthZ. rewrite repeat_length. lia.
    + unfold lengthZ. rewrite repeat_length. lia.
    + now rewrite countTrue_repeat.
    + now rewrite countTrue_repeat.
    + intros i _. apply nthZ_repeat.
  - intros pre [[aM bM] matches] i post El (Ha & Hb & Hma & Hmb & Hfree).
    assert (Hi : i = lengthZ pre) by now apply range_at in El.
    assert (Him : 0 <= i < m).
    { apply in_range. rewrite El. apply in_or_app. right. now left. }
    assert (Hl : lengthZ (pre ++ [i]) = i + 1).
    { unfold lengthZ in *. rewrite length_app. simpl length. lia. }
    destruct (findMatch a b bM i _ _) as [j|] eqn:E.
    + unfold findMatch in E. apply find_some in E. destruct E as [Hj Hp].
      apply in_rangeIncl in Hj. apply andb_true_iff in Hp. destruct Hp as [Hp _].
      apply negb_true_iff in Hp.
      unfold matchInv. rewrite Hl. repeat split.
      * unfold lengthZ in *. now rewrite setZ_length.
      * unfold lengthZ in *. now rewrite setZ_length.
      * rewrite countTrue_setZ; [lia | lia | apply Hfree; lia].
      * rewrite countTrue_setZ; [lia | lia | exact Hp].
      * intros k Hk. rewrite nthZ_setZ by lia.
        replace (k =? i) with false by lia. apply Hfree. lia.
    + unfold matchInv. rewrite Hl. repeat split; try assumption.
      intros k Hk. apply Hfree. lia.
Qed.

Lemma jaroTranspositions_spec (a b : list string) (m : Z) (aMatched bMatched : list bool) :
  0 <= m -> countTrue aMatched = countTrue bMatched ->
  exists t bIdx,
    jaroTranspositions a b m aMatched bMatched = Ok (t, bIdx) /\
    0 <= t <= countTrue aMatched.
Proof.
  intros Hm Hcount. unfold jaroTranspositions.
  destruct (foldM_hist
              (fun st i =>
                 let (transpositions, bIdx) := (st : Z * Z) in
                 if negb (nthZ aMatched i false) then Ok st
                 else
                   bIdx' <- skipUnmatched (length bMatched) bMatched bIdx ;;
                   Ok (if negb (tokEq (tok a i) (tok b bIdx')) then transpositions + 1
                       else transpositions,
                       bIdx' + 1))
              (fun pre st =>
                 0 <= fst st <= countBefore aMatched (lengthZ pre) /\ 0 <= snd st /\
                 countBefore bMatched (snd st) = countBefore aMatched (lengthZ pre))
              (0, 0) (range m)) as ([t bIdx] & E & Ht & _).
  - simpl. unfold lengthZ. simpl. rewrite !countBefore_0. lia.
  - intros pre [t bIdx] i post El (Ht & Hb & Hc). cbn [fst snd] in *.
    assert (Hi : i = lengthZ pre) by now apply range_at in El.
    assert (Hl : lengthZ (pre ++ [i]) = i + 1).
    { unfold lengthZ in *. rewrite length_app. simpl length. lia. }
    pose proof (lengthZ_nonneg pre) as Hp. rewrite Hl, <- Hi in *.
    pose proof (countBefore_succ aMatched i ltac:(lia)) as Hs.
    destruct (nthZ aMatched i false) eqn:Ea; cbn [negb].
    + destruct (skipUnmatched_finds (length bMatched) bMatched bIdx) as (j & Ej & Hj & Hjt & Hjc).
      * exact Hb.
      * pose proof (countBefore_le aMatched (i + 1)). lia.
      * unfold lengthZ. lia.
      * rewrite Ej. cbn [bind]. eexists. split; [reflexivity|]. cbn [fst snd].
        pose proof (countBefore_succ bMatched j ltac:(lia)) as Hsj. rewrite Hjt in Hsj.
        split; [destruct (negb _); lia|]. split; lia.
    + eexists. split; [reflexivity|]. cbn [fst snd]. split; [lia|]. split; lia.
  - exists t, bIdx. split; [exact E|]. cbn [fst] in Ht.
    pose proof (countBefore_le aMatched (lengthZ (range m))). lia.
Qed.

(** With [p = 0] the function returns, and its value lies in [[0, 1]]. *)
Lemma jaro_unit (a b : list string) (lenA lenB : option Z) :
  0 <= orLength lenA a -> 0 <= orLength lenB b ->
  exists v, jaroWinklerDistance a b 0 lenA lenB = Ok (Fin v) /\ (0 <= v <= 1)%Q.
Proof.
  intros Hm Hn. unfold jaroWinklerDistance. cbv zeta.
  set (m := orLength lenA a) in *. set (n := orLength lenB b) in *.
  destruct ((m =? 0) && (n =? 0)) eqn:E1.
  { exists 0%Q. split; [reflexivity | lra]. }
  destruct ((m =? 0) || (n =? 0)) eqn:E2.
  { exists 1%Q. split; [reflexivity | lra]. }
  apply orb_false_iff in E2. destruct E2 as [Em En]. apply Z.eqb_neq in Em, En.
  pose proof (jaroMatches_spec a b m n Hm Hn) as Hinv.
  destruct (jaroMatches a b m n) as [[aM bM] matches].
  destruct Hinv as (Ha & Hb & Hma & Hmb & _).
  destruct (matches =? 0) eqn:E3.
  { exists 1%Q. split; [reflexivity | lra]. }
  apply Z.eqb_neq in E3.
  destruct (jaroTranspositions_spec a b m aM bM Hm ltac:(congruence)) as (t & bIdx & Et & Ht).
  rewrite Et. cbn [bind fst].
  pose proof (countTrue_bounds aM) as Ba. pose proof (countTrue_bounds bM) as Bb.
  assert (HM : 0 < matches) by lia.
  change (Qeq_bool 0 0) with true. cbv iota.
  assert (D0 : isDouble 0) by (apply (isDouble_small 0); lia).
  assert (D1 : isDouble 1) by (apply (isDouble_small 1); lia).
  assert (D2 : isDouble 2) by (apply (isDouble_small 2); lia).
  assert (D3 : isDouble 3) by (apply (isDouble_small 3); lia).
  destruct (ndiv_ratio matches m ltac:(lia) ltac:(lia)) as (r1 & -> & R1).
  destruct (ndiv_ratio matches n ltac:(lia) ltac:(lia)) as (r2 & -> & R2).
  cbn [nadd].
  destruct (round64_between 0 2 (r1 + r2) D0 D2 ltac:(lra)) as (s12 & -> & S12).
  rewrite !ofZ_counted.
  pose proof (counted_pos matches HM) as PM.
  pose proof (counted_nonneg t ltac:(lia)) as Pt.
  pose proof (counted_mono t matches ltac:(lia)) as Ptm.
  pose proof (counted_bounds matches) as BM.
  set (cM := counted matches) in *. set (ct := counted t) in *.
  pose proof (inject_Z_pos cM ltac:(lia)) as Hq.
  pose proof (inject_Z_nonneg ct Pt) as Ht0.
  assert (Ht1 : (inject_Z ct <= inject_Z cM)%Q) by (rewrite <- Zle_Qle; lia).
  assert (DM : isDouble (inject_Z cM)) by (apply isDouble_small; lia).
  rewrite (ndiv_Fin_pos (inject_Z ct) 2) by lra.
  assert (Hh : (0 <= inject_Z ct / 2 <= inject_Z cM)%Q).
  { unfold Qdiv. change (/ 2)%Q with (1 # 2)%Q. lra. }
  destruct (round64_between 0 (inject_Z cM) _ D0 DM Hh) as (h & -> & Hh').
  cbn [nsub].
  destruct (round64_between 0 (inject_Z cM) (inject_Z cM - h) D0 DM ltac:(lra))
    as (d & -> & Hd).
  rewrite (ndiv_Fin_pos d (inject_Z cM)) by exact Hq.
  assert (R3 : (0 <= d / inject_Z cM <= 1)%Q).
  { split.
    - apply Qle_shift_div_l; [exact Hq | lra].
    - apply Qle_shift_div_r; [exact Hq | lra]. }
  destruct (round64_between 0 1 _ D0 D1 R3) as (r3 & -> & R3').
  cbn [nadd].
  destruct (round64_between 0 3 (s12 + r3) D0 D3 ltac:(lra)) as (s & -> & S).
  rewrite (ndiv_Fin_pos s 3) by lra.
  assert (J : (0 <= s / 3 <= 1)%Q).
  { unfold Qdiv. change (/ 3)%Q with (1 # 3)%Q. lra. }
  destruct (round64_between 0 1 _ D0 D1 J) as (j & -> & J').
  destruct (one_minus_unit (Fin j)) as (v & E & Hv).
  { exists j. now split. }
  exists v. split; [|exact Hv]. cbn [nsub] in E. now rewrite E.
Qed.

End JaroFacts.

(* ------------------------------------------------------------------ *)
(** * The distance matrix *)

Lemma rows_set (m : Matrix.t) (i j : Z) (x : num) :
  Matrix.rows (Matrix.set m i j x) = Matrix.rows m.
Proof. unfold Matrix.set. now destruct (Matrix.inside m i j). Qed.

Lemma cols_set (m : Matrix.t) (i j : Z) (x : num) :
  Matrix.cols (Matrix.set m i j x) = Matrix.cols m.
Proof. unfold Matrix.set. now destruct (Matrix.inside m i j). Qed.

Lemma inside_iff (m : Matrix.t) (i j : Z) :
  Matrix.inside m i j = true <-> 0 <= i < Matrix.rows m /\ 0 <= j < Matrix.cols m.
Proof. unfold Matrix.inside. rewrite !andb_true_iff. lia. Qed.

Lemma get_set (m : Matrix.t) (i j : Z) (x : num) (a b : Z) :
  Matrix.inside m i j = true ->
  Matrix.get (Matrix.set m i j x) a b =
  if (a =? i) && (b =? j) then x else Matrix.get m a b.
Proof.
  intros H. unfold Matrix.get, Matrix.set. rewrite H.
  change (Matrix.inside (Matrix.mk _ _ _) a b) with (Matrix.inside m a b).
  cbn [Matrix.cell].
  destruct ((a =? i) && (b =? j)) eqn:E; [|reflexivity].
  apply andb_true_iff in E. destruct E as [Ea Eb].
  apply Z.eqb_eq in Ea, Eb. subst. now rewrite H.
Qed.

Module DistanceFacts.

Import Distance.

(** A square table with a zero diagonal whose entries are mirrored and
    lie in the class [P]. *)
Definition metricMatrix (dist : Matrix.t) (n : Z) (P : num -> Prop) : Prop :=
  Matrix.rows dist = n /\ Matrix.cols dist = n /\
  (forall i, 0 <= i < n -> Matrix.get dist i i = Fin 0) /\
  (forall i j, 0 <= i < n -> 0 <= j < n ->
               Matrix.get dist i j = Matrix.get dist j i /\ P (Matrix.get dist i j)).

(** Rows of one common length. *)
Definition sameLength (data : list (list Q)) : Prop :=
  forall r r', In r data -> In r' data -> length r = length r'.

Lemma metricMatrix_zeros (n : Z) (P : num -> Prop) :
  P (Fin 0) -> metricMatrix (Matrix.zeros n n) n P.
Proof.
  intros H0.
  assert (G : forall i j, 0 <= i < n -> 0 <= j < n -> Matrix.get (Matrix.zeros n n) i j = Fin 0).
  { intros i j Hi Hj. unfold Matrix.get.
    replace (Matrix.inside (Matrix.zeros n n) i j) with true; [reflexivity|].
    symmetry. apply inside_iff. simpl. lia. }
  split; [reflexivity|]. split; [reflexivity|]. split.
  - intros i Hi. now apply G.
  - intros i j Hi Hj. rewrite !G by assumption. split; [reflexivity | exact H0].
Qed.

Lemma metricMatrix_set (dist : Matrix.t) (n : Z) (P : num -> Prop) (i j : Z) (d : num) :
  metricMatrix dist n P -> 0 <= i < n -> 0 <= j < n -> i <> j -> P d ->
  metricMatrix (Matrix.set (Matrix.set dist i j d) j i d) n P.
Proof.
  intros (Hr & Hc & Hdiag & Hsym) Hi Hj Hne Hd.
  assert (I1 : Matrix.inside dist i j = true) by (apply inside_iff; lia).
  assert (I2 : Matrix.inside (Matrix.set dist i j d) j i = true).
  { apply inside_iff. rewrite rows_set, cols_set. lia. }
  assert (G : forall a b,
             Matrix.get (Matrix.set (Matrix.set dist i j d) j i d) a b =
             if (a =? j) && (b =? i) then d
             else if (a =? i) && (b =? j) then d else Matrix.get dist a b).
  { intros a b. rewrite get_set by exact I2. now rewrite get_set by exact I1. }
  split; [now rewrite !rows_set|]. split; [now rewrite !cols_set|]. split.
  - intros a Ha. rewrite G.
    destruct (Z.eqb_spec a i), (Z.eqb_spec a j); cbn [andb]; try lia; now apply Hdiag.
  - intros a b Ha Hb. rewrite !G. destruct (Hsym a b Ha Hb) as [S1 S2].
    destruct (Z.eqb_spec a i), (Z.eqb_spec a j), (Z.eqb_spec b i), (Z.eqb_spec b j);
      cbn [andb]; try lia; (split; [reflexivity || exact S1 | assumption]).
Qed.

(** The double loop returns a matrix as soon as the metric returns a
    value for every pair [i < j]. *)
Lemma fillPairs_metric (n : Z) (f : Z -> Z -> result num) (P : num -> Prop) :
  (forall i j, 0 <= i < j /\ j < n -> exists d, f i j = Ok d /\ P d) ->
  P (Fin 0) ->
  exists dist, fillPairs n f (Matrix.zeros n n) = Ok dist /\ metricMatrix dist n P.
Proof.
  intros Hf H0. unfold fillPairs.
  apply (foldM_hist _ (fun _ dist => metricMatrix dist n P)).
  - now apply metricMatrix_zeros.
  - intros pre dist i post El Hm.
    assert (Hi : 0 <= i < n).
    { apply in_range. rewrite El. apply in_or_app. right. now left. }
    apply (foldM_hist _ (fun _ dist => metricMatrix dist n P)); [exact Hm|].
    intros pre' dist' j post' El' Hm'.
    assert (Hj : i + 1 <= j <= n - 1).
    { apply in_rangeIncl. rewrite El'. apply in_or_app. right. now left. }
    destruct (Hf i j ltac:(lia)) as (d & Ed & Hd). rewrite Ed. cbn [bind].
    eexists. split; [reflexivity|]. apply metricMatrix_set; (assumption || lia).
Qed.

Lemma effLens_nonneg (sequences : list (list string)) (i : Z) :
  0 <= nthZ (map effectiveLength sequences) i 0.
Proof.
  unfold nthZ. destruct (i <? 0); [lia|].
  destruct (nth_in_or_default (Z.to_nat i) (map effectiveLength sequences) 0) as [H | ->];
    [|lia].
  apply in_map_iff in H. destruct H as (s & <- & _). apply EditFacts.effectiveLength_nonneg.
Qed.

Lemma assoc_In {A : Type} (l : list (string * A)) (name : string) :
  In name (map fst l) -> exists f, assoc l name = Some f.
Proof.
  induction l as [| [k v] l IH]; simpl; [tauto|].
  intros [-> | H].
  - rewrite String.eqb_refl. now exists v.
  - destruct (String.eqb k name); [now exists v | now apply IH].
Qed.

(** The entries of a numeric row. *)
Lemma numAt_Fin (row : list Q) (i : Z) :
  0 <= i < lengthZ row -> exists x, numAt row i = Fin x.
Proof.
  intros H. unfold numAt. replace (i <? 0) with false by lia.
  destruct (nth_error row (Z.to_nat i)) as [x|] eqn:E; [now exists x|].
  apply nth_error_None in E. unfold lengthZ in H. lia.
Qed.

Lemma nabs_nonneg (x : num) : x <> NaN -> nonneg (nabs x).
Proof.
  intros H. destruct x as [a | | |]; try congruence; try reflexivity.
  apply nonneg_Fin, Qabs_nonneg.
Qed.

Lemma nmul_square_nonneg (x : num) : x <> NaN -> nonneg (nmul x x).
Proof.
  intros H. destruct x as [a | | |]; try congruence; try reflexivity.
  cbn [nmul]. apply round64_nonneg. nra.
Qed.

(** The sum of the absolute differences is a number that is not below 0;
    it is [Infinity] when a difference or the sum overflows. *)
Lemma manhattan_nonneg (a b : list Q) :
  length a = length b -> nonneg (manhattanDistance a b).
Proof.
  intros Hl. unfold manhattanDistance. apply fold_nadd_nonneg.
  - intros i Hi. apply in_range in Hi.
    destruct (numAt_Fin a i Hi) as [x ->].
    destruct (numAt_Fin b i) as [y ->]; [unfold lengthZ in *; lia|].
    apply nabs_nonneg, nsub_Fin_notNaN.
  - apply nonneg_Fin. lra.
Qed.

Section WithMath.

Variable Math_exp : num -> num.
Variable Math_sqrt : Q -> Q.
Variable inheritedCall : string -> list string -> list string -> option num.

(** What is used of [Math.exp]: its value at a number is not below 0. *)
Definition expNonneg : Prop := forall x, x <> NaN -> nonneg (Math_exp x).

(** What is used of [Math.sqrt]: it keeps 0 and 1 below the roots of the
    numbers above them. *)
Definition sqrtNonneg : Prop := forall x, (0 <= x)%Q -> (0 <= Math_sqrt x)%Q.
Definition sqrtAboveOne : Prop := forall x, (1 <= x)%Q -> (1 <= Math_sqrt x)%Q.

Lemma nsqrt_nonneg (x : num) : sqrtNonneg -> nonneg x -> nonneg (nsqrt Math_sqrt x).
Proof.
  intros Hs H. destruct x as [a | | |]; try discriminate; [|reflexivity].
  apply nonneg_Fin in H. rewrite ProfileFacts.nsqrt_Fin by exact H.
  apply nonneg_Fin. now apply Hs.
Qed.

Lemma euclidean_nonneg (a b : list Q) :
  sqrtNonneg -> length a = length b -> nonneg (euclideanDistance Math_sqrt a b).
Proof.
  intros Hs Hl. unfold euclideanDistance. apply nsqrt_nonneg; [exact Hs|].
  apply (fold_nadd_nonneg
           (fun i => let d := nsub (numAt a i) (numAt b i) in nmul d d)).
  - intros i Hi. apply in_range in Hi.
    destruct (numAt_Fin a i Hi) as [x ->].
    destruct (numAt_Fin b i) as [y ->]; [unfold lengthZ in *; lia|].
    cbv zeta. apply nmul_square_nonneg, nsub_Fin_notNaN.
  - apply nonneg_Fin. lra.
Qed.

(** The class of the entries under each name: a non-negative integer
    for the counting metrics, within [[0, 1]] for [jaccard] and [jw], a
    finite number not above 1 for [cosine], and for the weighted Hamming
    distance a number not below 0 that can be [Infinity]. *)
Definition entryClass (name : string) (weighted : bool) (x : num) : Prop :=
  (In name ["lv"; "osa"; "dl"; "lcs"; "qgram"] \/ (name = "hamming" /\ weighted = false) ->
   isCount x) /\
  (name = "jaccard" \/ name = "jw" -> between 0 1 x) /\
  (name = "cosine" -> sqrtNonneg -> sqrtAboveOne -> atMostOne x) /\
  (name = "hamming" -> expNonneg -> nonneg x).

(** The class of the entries of a numeric matrix: a number not below 0
    that can be [Infinity], when the rows have one length. *)
Definition numericClass (data : list (list Q)) (metric : string) (x : num) : Prop :=
  sameLength data -> (metric = "manhattan" \/ sqrtNonneg) -> nonneg x.

Lemma entryClass_zero (name : string) (weighted : bool) : entryClass name weighted (Fin 0).
Proof.
  split; [|split; [|split]]; intros; try (exists 0%Q; split; [reflexivity | lra]).
  - exists 0. split; [lia | reflexivity].
  - apply nonneg_Fin. lra.
Qed.

Ltac other_name := let H := fresh in intros H; simpl in H; intuition discriminate.

(** Every function of [DISTANCE_FUNCS] returns, at non-negative
    lengths, a value in the class of its name. *)
Lemma own_metric_range (name : string) (f : DistFunc) :
  assoc (DISTANCE_FUNCS Math_exp Math_sqrt) name = Some f ->
  forall a b la lb, 0 <= la -> 0 <= lb ->
    exists d, f a b (Some la) (Some lb) = Ok d /\ entryClass name false d.
Proof.
  intros H a b la lb Ha Hb. unfold DISTANCE_FUNCS in H. cbn [assoc] in H.
  assert (Counting : forall z nm, 0 <= z -> nm <> "jaccard" -> nm <> "jw" -> nm <> "cosine" ->
                                  nm <> "hamming" -> entryClass nm false (ofZ z)).
  { intros z nm Hz N1 N2 N3 N4. split; [|split; [|split]].
    - intros _. now apply ofZ_isCount.
    - intros [E | E]; congruence.
    - congruence.
    - congruence. }
  destruct (String.eqb_spec "hamming" name) as [<- | _].
  { injection H as <-. eexists. split; [reflexivity|]. split; [|split; [|split]].
    - intros _. apply ProfileFacts.hamming_unweighted_count.
    - intros [E | E]; discriminate.
    - discriminate.
    - intros _ He. now apply ProfileFacts.hamming_nonneg. }
  destruct (String.eqb_spec "lv" name) as [<- | _].
  { injection H as <-. eexists. split; [reflexivity|].
    apply Counting; try discriminate. now apply EditFacts.levenshtein_nonneg. }
  destruct (String.eqb_spec "osa" name) as [<- | _].
  { injection H as <-. eexists. split; [reflexivity|].
    apply Counting; try discriminate. now apply EditFacts.osa_nonneg. }
  destruct (String.eqb_spec "dl" name) as [<- | _].
  { injection H as <-. eexists. split; [reflexivity|].
    apply Counting; try discriminate. now apply EditFacts.dl_nonneg. }
  destruct (String.eqb_spec "lcs" name) as [<- | _].
  { injection H as <-. eexists. split; [reflexivity|].
    apply Counting; try discriminate. now apply EditFacts.lcs_nonneg. }
  destruct (String.eqb_spec "qgram" name) as [<- | _].
  { injection H as <-. eexists. split; [reflexivity|].
    apply Counting; try discriminate. apply ProfileFacts.qgram_nonneg. }
  destruct (String.eqb_spec "cosine" name) as [<- | _].
  { injection H as <-. eexists. split; [reflexivity|]. split; [|split; [|split]].
    - other_name.
    - other_name.
    - intros _ H0 H1. now apply ProfileFacts.cosine_atMostOne.
    - discriminate. }
  destruct (String.eqb_spec "jaccard" name) as [<- | _].
  { injection H as <-. eexists. split; [reflexivity|]. split; [|split; [|split]].
    - other_name.
    - intros _. apply ProfileFacts.jaccard_unit.
    - discriminate.
    - discriminate. }
  destruct (String.eqb_spec "jw" name) as [<- | _]; [|discriminate].
  injection H as <-.
  destruct (JaroFacts.jaro_unit a b (Some la) (Some lb) Ha Hb) as (v & E & Hv).
  exists (Fin v). split; [exact E|]. split; [|split; [|split]].
  - other_name.
  - intros _. now exists v.
  - discriminate.
  - discriminate.
Qed.

Lemma sequence_matrix (sequences : list (list string)) (name : string)
    (weighted : bool) (lambda_ : Q) :
  In name (map fst (DISTANCE_FUNCS Math_exp Math_sqrt)) ->
  exists dist,
    computeDistanceMatrix Math_exp Math_sqrt inheritedCall sequences name weighted lambda_
    = Ok dist /\
    metricMatrix dist (lengthZ sequences) (entryClass name weighted).
Proof.
  intros Hin. unfold computeDistanceMatrix. cbv zeta.
  destruct (String.eqb_spec name "hamming") as [-> | Hne].
  - apply fillPairs_metric; [|apply entryClass_zero].
    intros i j _. eexists. split; [reflexivity|]. split; [|split; [|split]].
    + intros [H | [_ ->]]; [exfalso; revert H; other_name|].
      apply ProfileFacts.hamming_unweighted_count.
    + intros [E | E]; discriminate.
    + discriminate.
    + intros _ He. now apply ProfileFacts.hamming_nonneg.
  - destruct (assoc_In _ name Hin) as [f Ef]. unfold lookup. rewrite Ef.
    apply fillPairs_metric; [|apply entryClass_zero].
    intros i j _.
    destruct (own_metric_range name f Ef (nthZ sequences i []) (nthZ sequences j [])
                (nthZ (map effectiveLength sequences) i 0)
                (nthZ (map effectiveLength sequences) j 0)
                (effLens_nonneg sequences i) (effLens_nonneg sequences j))
      as (d & Ed & C1 & C2 & C3 & C4).
    exists d. split; [exact Ed|]. split; [|split; [|split]]; try assumption.
    intros [H | [H _]]; [apply C1; now left | contradiction].
Qed.

Lemma numeric_matrix (data : list (list Q)) (metric : string) :
  exists dist,
    computeNumericDistanceMatrix Math_sqrt data metric = Ok dist /\
    metricMatrix dist (lengthZ data) (numericClass data metric).
Proof.
  unfold computeNumericDistanceMatrix. cbv zeta.
  apply fillPairs_metric; [|intros _ _; apply nonneg_Fin; lra].
  intros i j Hij. eexists. split; [reflexivity|]. intros Hsame Hm.
  assert (Hl : length (nthZ data i []) = length (nthZ data j [])).
  { apply Hsame; apply nthZ_In; lia. }
  destruct (String.eqb_spec metric "manhattan") as [E | E].
  - now apply manhattan_nonneg.
  - destruct Hm as [Hm | Hm]; [contradiction|]. now apply euclidean_nonneg.
Qed.

End WithMath.


Lemma sampleExp_nonneg : expNonneg Samples.sampleExp.
Proof.
  intros x Hx. destruct x as [a | | |]; try congruence; try reflexivity.
  unfold Samples.sampleExp. apply round64_nonneg.
  generalize (1 + a / 8)%Q. intros y.
  change (y ^ 8)%Q with (((y * y) * (y * y)) * ((y * y) * (y * y)))%Q.
  generalize ((y * y) * (y * y))%Q. intros z. nra.
Qed.

(** The scaled root that [sampleSqrt] rounds. *)
Lemma sampleSqrt_cases (x : Q) :
  (0 < x)%Q ->
  exists m s c,
    0 <= s /\ m = Z.sqrt (Qfloor (x * pow2 (2 * s))) /\ (0 <= c)%Q /\
    Samples.sampleSqrt x
    = match round64 ((inject_Z m + c) / pow2 s) with Fin r => r | _ => x end.
Proof.
  intros H. unfold Samples.sampleSqrt.
  replace (Qle_bool x 0) with false by (symmetry; apply Qle_bool_false_iff; lra).
  cbv zeta.
  set (s := Z.max 0 ((108 - ilog2 x) / 2)).
  set (m := Z.sqrt (Qfloor (x * pow2 (2 * s)))).
  exists m, s, (if Qeq_bool (inject_Z (m * m)) (x * pow2 (2 * s)) then 0 else 1 # 2)%Q.
  split; [unfold s; lia|]. split; [reflexivity|]. split; [|reflexivity].
  destruct (Qeq_bool _ _); [lra | discriminate].
Qed.

Lemma sampleSqrt_nonneg : sqrtNonneg Samples.sampleSqrt.
Proof.
  intros x H. destruct (Qlt_le_dec 0 x) as [P | P].
  - destruct (sampleSqrt_cases x P) as (m & s & c & Hs & Em & Hc & ->).
    assert (Hv : (0 <= (inject_Z m + c) / pow2 s)%Q).
    { apply Qle_shift_div_l; [apply pow2_pos|].
      pose proof (inject_Z_nonneg m ltac:(subst m; apply Z.sqrt_nonneg)). lra. }
    destruct (round64 _) as [r | | |] eqn:E; try exact H.
    now apply (round64_sign _ _ E).
  - unfold Samples.sampleSqrt.
    replace (Qle_bool x 0) with true by (symmetry; now apply Qle_bool_iff). lra.
Qed.




(** The Manhattan distance of the rows [[1e308]] and [[-1e308]]: the
    difference is above the largest double. *)
Lemma manhattan_entry_infinite :
  let rows := [[Samples.double 156575653125701 976]; [(- Samples.double 156575653125701 976)%Q]] in
  sameLength rows /\
  exists dist,
    computeNumericDistanceMatrix Samples.sampleSqrt rows "manhattan" = Ok dist /\
    Matrix.get dist 0 1 = PInf.
Proof.
  split.
  - intros r r' [<- | [<- | []]] [<- | [<- | []]]; reflexivity.
  - eexists. split; vm_compute; reflexivity.
Qed.

(** Where [Math.exp] overflows, as it does at 1000, the weighted Hamming
    distance is [Infinity]. *)
Lemma weighted_hamming_infinite (Math_exp : num -> num) :
  Math_exp (Fin 0) = Fin 1 -> Math_exp (Fin 1000) = PInf ->
  hammingDistance Math_exp ["A"; "A"] ["A"; "B"] true (- 1000) = PInf.
Proof.
  intros _ H. unfold hammingDistance. cbv zeta.
  change (range (Z.max (lengthZ ["A"; "A"]) (lengthZ ["A"; "B"]))) with [0; 1].
  cbn [fold_left].
  replace (tokEq (padded ["A"; "A"] 0) (padded ["A"; "B"] 0)) with true by reflexivity.
  replace (tokEq (padded ["A"; "A"] 1) (padded ["A"; "B"] 1)) with false by reflexivity.
  cbn [negb].
  replace (nmul (nneg (Fin (- 1000))) (ofZ 1)) with (Fin 1000) by (vm_compute; reflexivity).
  now rewrite H.
Qed.

(** C2. The Hamming distance and the Damerau-Levenshtein distance
    between a sequence and itself are 0.  The Levenshtein and the
    Optimal String Alignment distances between a sequence and itself,
    at its effective length [L], are 0 when [L = 0] and at least 1 when
    [L >= 1]: a match costs 1 in these two functions. *)
Theorem self_distances (Math_exp : num -> num) (s : list string) (weighted : bool) (lambda_ : Q) :
  let L := effectiveLength s in
  hammingDistance Math_exp s s weighted lambda_ = Fin 0 /\
  dlDistance s s (Some L) (Some L) = 0 /\
  (L = 0 ->
   levenshteinDistance s s (Some L) (Some L) = 0 /\ osaDistance s s (Some L) (Some L) = 0) /\
  (1 <= L ->
   1 <= levenshteinDistance s s (Some L) (Some L) /\ 1 <= osaDistance s s (Some L) (Some L)).
Proof.
  intros L. split; [apply ProfileFacts.hamming_self|].
  split; [apply EditFacts.dl_self, EditFacts.effectiveLength_nonneg|].
  split; intros HL; split.
  - now apply EditFacts.levenshtein_self.
  - now apply EditFacts.osa_self.
  - now apply EditFacts.levenshtein_self.
  - now apply EditFacts.osa_self.
Qed.

Lemma self_distances_witness :
  let s := ["A"; "B"; "A"] in
  hammingDistance Samples.sampleExp s s true 1 = Fin 0 /\
  dlDistance s s (Some 3) (Some 3) = 0 /\
  1 <= levenshteinDistance s s (Some 3) (Some 3) /\
  1 <= osaDistance s s (Some 3) (Some 3).
Proof.
  intros s.
  destruct (self_distances Samples.sampleExp s true 1) as (H1 & H2 & _ & H4).
  split; [exact H1|]. split; [exact H2|]. apply H4. vm_compute. discriminate.
Defined.

(** One token: both functions return 1 for the pair of the sequence
    with itself. *)
Lemma lv_osa_self_distance_is_not_zero :
  let s := ["A"] in
  let L := Some (effectiveLength s) in
  levenshteinDistance s s L L = 1 /\ osaDistance s s L L = 1 /\
  ~ (levenshteinDistance s s L L = 0 /\ osaDistance s s L L = 0).
Proof.
  vm_compute. split; [reflexivity|]. split; [reflexivity|]. intros [H _]. discriminate.
Qed.

End DistanceFacts.

(* ------------------------------------------------------------------ *)
(** * Token lists and the Hamming distance *)

Lemma tokEq_sym (x y : option string) : tokEq x y = tokEq y x.
Proof. destruct x, y; simpl; try reflexivity. apply String.eqb_sym. Qed.

Lemma tok_app_l (seq pad : list string) (i : Z) :
  i < lengthZ seq -> tok (seq ++ pad) i = tok seq i.
Proof.
  intros H. unfold tok. destruct (i <? 0) eqn:E; [reflexivity|].
  apply nth_error_app1. unfold lengthZ in H. lia.
Qed.

Lemma tok_repeat_r (seq : list string) (x : string) (k : nat) (i : Z) :
  lengthZ seq <= i < lengthZ seq + Z.of_nat k -> tok (seq ++ repeat x k) i = Some x.
Proof.
  intros H. unfold tok, lengthZ in *. replace (i <? 0) with false by lia.
  rewrite nth_error_app2 by lia.
  apply nth_error_repeat. lia.
Qed.

Module TokenFacts.

Import Distance.

Lemma SENTINEL_nonempty : String.eqb SENTINEL "" = false.
Proof. reflexivity. Qed.

(** X1. [toTokenLists] keeps the number of rows and the length of every
    row, and tokenising its own output again changes nothing. *)
Theorem toTokenLists_stable (data : SequenceData) (naSyms : list string) :
  lengthZ (toTokenLists data naSyms) = lengthZ data /\
  map (@length string) (toTokenLists data naSyms) = map (@length (option string)) data /\
  toTokenLists (map (map Some) (toTokenLists data naSyms)) naSyms
  = toTokenLists data naSyms.
Proof.
  unfold toTokenLists, lengthZ. split; [now rewrite length_map|]. split.
  - rewrite map_map. apply map_ext. intros row. apply length_map.
  - rewrite !map_map. apply map_ext. intros row. rewrite !map_map. apply map_ext.
    assert (HS : (if String.eqb SENTINEL "" then SENTINEL
                  else if existsb (String.eqb SENTINEL) naSyms then SENTINEL else SENTINEL)
                 = SENTINEL).
    { rewrite SENTINEL_nonempty. now destruct (existsb _ _). }
    intros [s|]; cbv beta iota; [|exact HS].
    destruct (String.eqb s "") eqn:E1; [exact HS|].
    destruct (existsb (String.eqb s) naSyms) eqn:E2; [exact HS|].
    now rewrite E1, E2.
Qed.

(** What [effectiveLength] returns: every position from [L] on holds the
    sentinel, and position [L - 1], when there is one, does not. *)
Definition lastToken (seq : list string) (L : Z) : Prop :=
  0 <= L <= lengthZ seq /\
  (forall i, L <= i < lengthZ seq -> tok seq i = Some SENTINEL) /\
  (0 < L -> tok seq (L - 1) <> Some SENTINEL).

Lemma lastToken_unique (seq : list string) (L1 L2 : Z) :
  lastToken seq L1 -> lastToken seq L2 -> L1 = L2.
Proof.
  intros (B1 & A1 & N1) (B2 & A2 & N2).
  destruct (Z.lt_trichotomy L1 L2) as [H | [H | H]]; [|exact H|].
  - exfalso. apply N2; [lia|]. apply A1. lia.
  - exfalso. apply N1; [lia|]. apply A2. lia.
Qed.

Lemma effectiveLength_lastToken (seq : list string) : lastToken seq (effectiveLength seq).
Proof.
  unfold effectiveLength.
  assert (H : (fun pre last =>
                 0 <= last <= lengthZ pre /\
                 (forall i, last <= i < lengthZ pre -> tok seq i = Some SENTINEL) /\
                 (0 < last -> tok seq (last - 1) <> Some SENTINEL))
                (range (lengthZ seq))
                (fold_left
                   (fun last i => if tokEq (tok seq i) (Some SENTINEL) then last else i + 1)
                   (range (lengthZ seq)) 0)).
  { apply fold_left_hist.
    - unfold lengthZ. simpl. split; [lia|]. split; intros; lia.
    - intros pre last i post El (B & A & N).
      assert (Hi : i = lengthZ pre) by now apply range_at in El.
      assert (Hl : lengthZ (pre ++ [i]) = i + 1).
      { unfold lengthZ in *. rewrite length_app. simpl length. lia. }
      rewrite Hl. destruct (tokEq (tok seq i) (Some SENTINEL)) eqn:E.
      + apply tokEq_eq in E. split; [lia|]. split; [|exact N].
        intros j Hj. destruct (Z.eq_dec j i) as [-> | Hne]; [exact E|]. apply A. lia.
      + split; [lia|]. split; [intros j Hj; lia|].
        intros _ Heq. replace (i + 1 - 1) with i in Heq by lia.
        apply tokEq_eq in Heq. congruence. }
  cbv beta in H.
  assert (El : lengthZ (range (lengthZ seq)) = lengthZ seq).
  { unfold lengthZ. rewrite range_length. lia. }
  rewrite El in H. exact H.
Qed.

(** X2. [effectiveLength] is the position after the last token that is
    not the sentinel: it lies between 0 and the length, everything from it
    on is the sentinel, the token before it is not, and sentinels added at
    the end do not change it. *)
Theorem effectiveLength_spec (seq : list string) (k : nat) :
  let L := effectiveLength seq in
  0 <= L <= lengthZ seq /\
  (forall i, L <= i < lengthZ seq -> tok seq i = Some SENTINEL) /\
  (0 < L -> tok seq (L - 1) <> Some SENTINEL) /\
  effectiveLength (seq ++ repeat SENTINEL k) = L.
Proof.
  intros L. destruct (effectiveLength_lastToken seq) as (B & A & N).
  fold L in B, A, N. split; [exact B|]. split; [exact A|]. split; [exact N|].
  apply (lastToken_unique (seq ++ repeat SENTINEL k)); [apply effectiveLength_lastToken|].
  assert (Hl : lengthZ (seq ++ repeat SENTINEL k) = lengthZ seq + Z.of_nat k).
  { unfold lengthZ. rewrite length_app, repeat_length. lia. }
  unfold lastToken. rewrite Hl. split; [lia|]. split.
  - intros i Hi. destruct (Z_lt_le_dec i (lengthZ seq)) as [H | H].
    + rewrite tok_app_l by exact H. apply A. lia.
    + apply tok_repeat_r. lia.
  - intros H0. rewrite tok_app_l by lia. now apply N.
Qed.

(** X3. [hammingDistance] does not depend on the order of its two
    sequences. *)
Theorem hamming_symmetric (Math_exp : num -> num) (a b : list string) (weighted : bool)
    (lambda_ : Q) :
  hammingDistance Math_exp a b weighted lambda_ = hammingDistance Math_exp b a weighted lambda_.
Proof.
  unfold hammingDistance. cbv zeta. rewrite (Z.max_comm (lengthZ b)).
  apply fold_left_ext. intros dist i _. now rewrite (tokEq_sym (padded b i)).
Qed.

(** X4. The unweighted Hamming distance is the number of positions, up to
    the longer length, at which the two sequences differ once the shorter
    one is filled up with sentinels; it is at most that length and is 0
    exactly when the filled-up sequences agree everywhere. *)
Theorem hamming_counts_mismatches (Math_exp : num -> num) (a b : list string) (lambda_ : Q) :
  let maxLen := Z.max (lengthZ a) (lengthZ b) in
  let mismatches :=
    filter (fun i => negb (tokEq (padded a i) (padded b i))) (range maxLen) in
  hammingDistance Math_exp a b false lambda_ = ofZ (lengthZ mismatches) /\
  lengthZ mismatches <= maxLen /\
  (lengthZ mismatches = 0 <->
   forall i, 0 <= i < maxLen -> padded a i = padded b i).
Proof.
  intros maxLen mismatches. split; [|split].
  - apply ProfileFacts.hamming_count.
  - unfold mismatches.
    pose proof (filter_length_le (fun i => negb (tokEq (padded a i) (padded b i)))
                  (range maxLen)) as H.
    rewrite range_length in H. pose proof (lengthZ_nonneg a). unfold maxLen, lengthZ in *. lia.
  - unfold lengthZ. split.
    + intros H i Hi. apply tokEq_eq.
      destruct (tokEq (padded a i) (padded b i)) eqn:E; [reflexivity|].
      assert (Hin : In i mismatches).
      { apply filter_In. split; [now apply in_range | now rewrite E]. }
      destruct mismatches; [destruct Hin | simpl in H; lia].
    + intros H. assert (E : mismatches = []).
      { unfold mismatches.
        destruct (filter _ _) as [| x l] eqn:Ef; [reflexivity|].
        assert (Hx : In x (x :: l)) by now left.
        rewrite <- Ef in Hx. apply filter_In in Hx. destruct Hx as [Hr Hp].
        apply in_range in Hr. apply negb_true_iff in Hp.
        rewrite (proj2 (tokEq_eq _ _) (H x Hr)) in Hp. discriminate. }
      now rewrite E.
Qed.

End TokenFacts.

(* ------------------------------------------------------------------ *)
(** * Bounds of the edit distances *)

Module EditBounds.

Import Distance EditFacts.

(** Cell [j] of row [i] is at most [max(i, j)]. *)
Definition upper1 (i : Z) (t : Z -> Z) : Prop := forall j, 0 <= j -> t j <= Z.max i j.

(** Cell [(r, c)] of a table is at most [max(r, c)]. *)
Definition upper2 (d : Z -> Z -> Z) : Prop :=
  forall r c, 0 <= r -> 0 <= c -> d r c <= Z.max r c.

(** The same for the table of [dlDistance], whose cell [(r + 1, c + 1)]
    belongs to the prefixes of lengths [r] and [c]. *)
Definition upperDL (d : Z -> Z -> Z) : Prop :=
  forall r c, 1 <= r -> 1 <= c -> d r c <= Z.max (r - 1) (c - 1).

Lemma upper1_mono (i i' : Z) (t : Z -> Z) : i <= i' -> upper1 i t -> upper1 i' t.
Proof. intros H Ht j Hj. specialize (Ht j Hj). lia. Qed.

Lemma min3_upper (x y z b : Z) : z <= b -> min3 x y z <= b.
Proof. unfold min3. lia. Qed.

Lemma lvRow_upper (a b : list string) (n i : Z) (prev curr : Z -> Z) :
  1 <= i -> upper1 (i - 1) prev -> upper1 i curr -> upper1 i (lvRow a b n i prev curr).
Proof.
  intros Hi Hp Hc. unfold lvRow. apply fold_left_inv.
  - intros j Hj. unfold upd. destruct (j =? 0) eqn:E; [lia | now apply Hc].
  - intros c j Hj Hcc k Hk. apply in_rangeIncl in Hj. cbv zeta. unfold upd.
    destruct (k =? j) eqn:E; [|now apply Hcc]. apply Z.eqb_eq in E. subst k.
    apply min3_upper. specialize (Hp (j - 1) ltac:(lia)). destruct (tokEq _ _); lia.
Qed.

Lemma lvRow_first (a b : list string) (n i : Z) (prev curr : Z -> Z) :
  lvRow a b n i prev curr 0 = i.
Proof.
  unfold lvRow. apply fold_left_inv.
  - apply upd_same.
  - intros c j Hj Hc. apply in_rangeIncl in Hj. cbv zeta. unfold upd.
    now replace (0 =? j) with false by lia.
Qed.

Lemma levenshtein_upper (a b : list string) (lenA lenB : option Z) :
  0 <= orLength lenA a -> 0 <= orLength lenB b ->
  levenshteinDistance a b lenA lenB <= Z.max (orLength lenA a) (orLength lenB b).
Proof.
  intros Hm Hn. unfold levenshteinDistance. cbv zeta.
  set (m := orLength lenA a) in *. set (n := orLength lenB b) in *.
  assert (H : (fun pre pc => upper1 (lengthZ pre) (fst pc) /\ upper1 (lengthZ pre) (snd pc))
                (rangeIncl 1 m)
                (fold_left
                   (fun pc i => let (prev, curr) := (pc : (Z -> Z) * (Z -> Z)) in
                                (lvRow a b n i prev curr, prev))
                   (rangeIncl 1 m) (fun i => i, fun _ => 0))).
  { apply fold_left_hist.
    - split; intros j Hj; cbn [fst snd]; lia.
    - intros pre [prev curr] i post El [Hp Hc]. cbn [fst snd] in *.
      assert (Hi : i = 1 + lengthZ pre) by now apply rangeIncl_at in El.
      pose proof (lengthZ_nonneg pre) as Hpre.
      assert (Hl : lengthZ (pre ++ [i]) = i).
      { unfold lengthZ in *. rewrite length_app. simpl length. lia. }
      rewrite Hl. split.
      + apply lvRow_upper; [lia | |].
        * now replace (i - 1) with (lengthZ pre) by lia.
        * apply (upper1_mono (lengthZ pre)); [lia | exact Hc].
      + apply (upper1_mono (lengthZ pre)); [lia | exact Hp]. }
  cbv beta in H. rewrite rangeIncl_length in H by lia.
  destruct H as [H _]. specialize (H n Hn). lia.
Qed.

Lemma levenshtein_empty (a b : list string) (lenA lenB : option Z) :
  0 <= orLength lenA a -> 0 <= orLength lenB b ->
  (orLength lenB b = 0 -> levenshteinDistance a b lenA lenB = orLength lenA a) /\
  (orLength lenA a = 0 -> levenshteinDistance a b lenA lenB = orLength lenB b).
Proof.
  intros Hm Hn. unfold levenshteinDistance. cbv zeta.
  set (m := orLength lenA a) in *. set (n := orLength lenB b) in *. split.
  - intros E. rewrite E.
    assert (H : (fun pre pc => fst pc 0 = lengthZ pre)
                  (rangeIncl 1 m)
                  (fold_left
                     (fun pc i => let (prev, curr) := (pc : (Z -> Z) * (Z -> Z)) in
                                  (lvRow a b 0 i prev curr, prev))
                     (rangeIncl 1 m) (fun i => i, fun _ => 0))).
    { apply fold_left_hist; [reflexivity|].
      intros pre [prev curr] i post El _. cbn [fst].
      assert (Hi : i = 1 + lengthZ pre) by now apply rangeIncl_at in El.
      rewrite lvRow_first. unfold lengthZ in *. rewrite length_app. simpl length. lia. }
    cbv beta in H. rewrite H. rewrite rangeIncl_length by lia. lia.
  - intros E. rewrite E. reflexivity.
Qed.

Lemma upper2_upd2 (d : Z -> Z -> Z) (i j v : Z) :
  upper2 d -> v <= Z.max i j -> upper2 (upd2 d i j v).
Proof.
  intros Hd Hv r c Hr Hc. unfold upd2.
  destruct (r =? i) eqn:E1, (c =? j) eqn:E2; cbn [andb]; try (now apply Hd).
  apply Z.eqb_eq in E1, E2. now subst.
Qed.

Lemma osaCell_upper (a b : list string) (i j : Z) (d : Z -> Z -> Z) :
  1 <= i -> 1 <= j -> upper2 d -> upper2 (osaCell a b i d j).
Proof.
  intros Hi Hj Hd. unfold osaCell. cbv zeta.
  match goal with
  | |- upper2 (if _ then upd2 ?d1 _ _ _ else _) => assert (H1 : upper2 d1)
  end.
  { apply upper2_upd2; [exact Hd|]. apply min3_upper.
    specialize (Hd (i - 1) (j - 1) ltac:(lia) ltac:(lia)). destruct (tokEq _ _); lia. }
  destruct (_ && _); [|exact H1].
  apply upper2_upd2; [exact H1|].
  specialize (H1 i j ltac:(lia) ltac:(lia)). lia.
Qed.

Lemma osaInit_upper (m n : Z) : upper2 (osaInit m n).
Proof.
  unfold osaInit. cbv zeta. apply fold_left_inv.
  - apply fold_left_inv.
    + intros r c Hr Hc. lia.
    + intros d i Hi Hd. apply in_rangeIncl in Hi. apply upper2_upd2; [exact Hd | lia].
  - intros d j Hj Hd. apply in_rangeIncl in Hj. apply upper2_upd2; [exact Hd | lia].
Qed.

Lemma osa_upper (a b : list string) (lenA lenB : option Z) :
  0 <= orLength lenA a -> 0 <= orLength lenB b ->
  osaDistance a b lenA lenB <= Z.max (orLength lenA a) (orLength lenB b).
Proof.
  intros Hm Hn. unfold osaDistance. cbv zeta.
  destruct (orLength lenA a =? 0); [lia|].
  destruct (orLength lenB b =? 0); [lia|].
  assert (H : upper2 (fold_left (fun d i => fold_left (osaCell a b i)
                                              (rangeIncl 1 (orLength lenB b)) d)
                                (rangeIncl 1 (orLength lenA a))
                                (osaInit (orLength lenA a) (orLength lenB b)))).
  { apply fold_left_inv; [apply osaInit_upper|].
    intros d i Hi Hd. apply in_rangeIncl in Hi. apply fold_left_inv; [exact Hd|].
    intros d' j Hj Hd'. apply in_rangeIncl in Hj. apply osaCell_upper; (assumption || lia). }
  now apply H.
Qed.

Lemma upperDL_upd2 (d : Z -> Z -> Z) (i j v : Z) :
  upperDL d -> (1 <= i -> 1 <= j -> v <= Z.max (i - 1) (j - 1)) -> upperDL (upd2 d i j v).
Proof.
  intros Hd Hv r c Hr Hc. unfold upd2.
  destruct (r =? i) eqn:E1, (c =? j) eqn:E2; cbn [andb]; try (now apply Hd).
  apply Z.eqb_eq in E1, E2. subst. now apply Hv.
Qed.

Lemma dlInit_upper (m n : Z) : upperDL (dlInit m n).
Proof.
  unfold dlInit. cbv zeta. apply fold_left_inv.
  - apply fold_left_inv.
    + apply upperDL_upd2; [intros r c Hr Hc; lia | lia].
    + intros d i Hi Hd. apply in_rangeIncl in Hi.
      apply upperDL_upd2; [apply upperDL_upd2; [exact Hd | lia] | lia].
  - intros d j Hj Hd. apply in_rangeIncl in Hj.
    apply upperDL_upd2; [apply upperDL_upd2; [exact Hd | lia] | lia].
Qed.

Lemma dl_upper (a b : list string) (lenA lenB : option Z) :
  0 <= orLength lenA a -> 0 <= orLength lenB b ->
  dlDistance a b lenA lenB <= Z.max (orLength lenA a) (orLength lenB b).
Proof.
  intros Hm Hn. unfold dlDistance. cbv zeta.
  destruct (orLength lenA a =? 0); [lia|].
  destruct (orLength lenB b =? 0); [lia|].
  set (m := orLength lenA a) in *. set (n := orLength lenB b) in *.
  assert (H : upperDL (fst (fold_left (dlRow a b n) (rangeIncl 1 m)
                                      (dlInit m n, JsMap.empty)))).
  { apply fold_left_inv with (P := fun st => upperDL (fst st)); [apply dlInit_upper|].
    intros [d da] i Hi Hd. apply in_rangeIncl in Hi. cbn [fst] in Hd.
    unfold dlRow. cbn [fst].
    apply fold_left_inv with (P := fun st => upperDL (fst st)); [exact Hd|].
    intros [d' db] j Hj Hd'. apply in_rangeIncl in Hj. cbn [fst] in Hd'.
    unfold dlCell. cbv zeta. cbn [fst].
    apply upperDL_upd2; [exact Hd'|]. intros _ _. unfold min4, min3.
    specialize (Hd' i j ltac:(lia) ltac:(lia)). destruct (tokEq _ _); lia. }
  specialize (H (m + 1) (n + 1) ltac:(lia) ltac:(lia)). lia.
Qed.

(** X5. For effective lengths [m, n >= 0], the Levenshtein, Optimal
    String Alignment and Damerau-Levenshtein functions return a value
    between 0 and [max(m, n)], and against a sequence of effective length
    0 they return the effective length of the other sequence. *)
Theorem edit_distance_bounds (a b : list string) (lenA lenB : option Z) :
  let m := orLength lenA a in
  let n := orLength lenB b in
  0 <= m -> 0 <= n ->
  (0 <= levenshteinDistance a b lenA lenB <= Z.max m n /\
   0 <= osaDistance a b lenA lenB <= Z.max m n /\
   0 <= dlDistance a b lenA lenB <= Z.max m n) /\
  (n = 0 ->
   levenshteinDistance a b lenA lenB = m /\ osaDistance a b lenA lenB = m /\
   dlDistance a b lenA lenB = m) /\
  (m = 0 ->
   levenshteinDistance a b lenA lenB = n /\ osaDistance a b lenA lenB = n /\
   dlDistance a b lenA lenB = n).
Proof.
  intros m n Hm Hn. split; [|split].
  - split; [|split]; split.
    + now apply levenshtein_nonneg.
    + now apply levenshtein_upper.
    + now apply osa_nonneg.
    + now apply osa_upper.
    + now apply dl_nonneg.
    + now apply dl_upper.
  - intros E. split; [now apply levenshtein_empty|].
    unfold osaDistance, dlDistance. cbv zeta. fold m n. rewrite E.
    destruct (m =? 0) eqn:E0; [apply Z.eqb_eq in E0; lia|]. now split.
  - intros E. split; [now apply levenshtein_empty|].
    unfold osaDistance, dlDistance. cbv zeta. fold m n. rewrite E. now split.
Qed.

Lemma edit_distance_bounds_witness :
  0 <= levenshteinDistance ["A"; "B"; "C"] ["C"; "A"] (Some 3) (Some 2) <= 3 /\
  osaDistance ["A"; "B"; "C"] [] (Some 3) (Some 0) = 3.
Proof.
  destruct (edit_distance_bounds ["A"; "B"; "C"] ["C"; "A"] (Some 3) (Some 2))
    as ((H1 & _) & _); [cbn; lia | cbn; lia |].
  destruct (edit_distance_bounds ["A"; "B"; "C"] [] (Some 3) (Some 0))
    as (_ & H2 & _); [cbn; lia | cbn; lia |].
  split; [exact H1|]. apply H2. reflexivity.
Defined.

(** ** Longest common subsequence *)

Lemma lcsRow_nonneg (a b : list string) (n i : Z) (prev : Z -> Z) :
  nonneg1 prev -> nonneg1 (lcsRow a b n i prev (fun _ => 0)).
Proof.
  intros Hp. unfold lcsRow. apply fold_left_inv.
  - intros j Hj. lia.
  - intros c j Hj Hc k Hk. apply in_rangeIncl in Hj.
    destruct (tokEq _ _); unfold upd; destruct (k =? j) eqn:E;
      try (now apply Hc); apply Z.eqb_eq in E; subst k.
    + specialize (Hp (j - 1) ltac:(lia)). lia.
    + specialize (Hp j ltac:(lia)). lia.
Qed.

(** Row [i] of a sequence against itself: the cell on the diagonal. *)
Lemma lcsRow_diagonal (a : list string) (n i : Z) (prev : Z -> Z) :
  1 <= i <= n -> prev (i - 1) = i - 1 -> lcsRow a a n i prev (fun _ => 0) i = i.
Proof.
  intros Hi Hp. unfold lcsRow.
  assert (H : (fun pre curr => In i pre -> curr i = i) (rangeIncl 1 n)
                (fold_left
                   (fun curr j =>
                      if tokEq (tok a (i - 1)) (tok a (j - 1))
                      then upd curr j (prev (j - 1) + 1)
                      else upd curr j (Z.max (prev j) (curr (j - 1))))
                   (rangeIncl 1 n) (fun _ => 0))).
  { apply fold_left_hist.
    - intros [].
    - intros pre curr j post _ Hc Hin. destruct (Z.eq_dec j i) as [-> | Hne].
      + rewrite tokEq_refl. rewrite upd_same. lia.
      + assert (Hin' : In i pre).
        { apply in_app_or in Hin. destruct Hin as [Hin | [Hin | []]]; [assumption | congruence]. }
        destruct (tokEq _ _); unfold upd; replace (i =? j) with false by lia; now apply Hc. }
  apply H. apply in_rangeIncl. lia.
Qed.

(** X6. For effective lengths [m, n >= 0], [lcsDistance] lies between
    [|m - n|] and [max(m, n)], and it is 0 for a sequence against itself. *)
Theorem lcs_distance_bounds (a b : list string) (lenA lenB : option Z) (L : Z) :
  let m := orLength lenA a in
  let n := orLength lenB b in
  0 <= m -> 0 <= n -> 0 <= L ->
  Z.abs (m - n) <= lcsDistance a b lenA lenB <= Z.max m n /\
  lcsDistance a a (Some L) (Some L) = 0.
Proof.
  intros m n Hm Hn HL. split.
  - unfold lcsDistance. cbv zeta. fold m n.
    assert (H : (fun pre prev => lcsBound (lengthZ pre) prev /\ nonneg1 prev) (rangeIncl 1 m)
                  (fold_left (fun prev i => lcsRow a b n i prev (fun _ => 0))
                             (rangeIncl 1 m) (fun _ => 0))).
    { apply fold_left_hist.
      - split; intros j Hj; unfold lengthZ; simpl; lia.
      - intros pre prev i post El [Hp Hp0].
        assert (Hi : i = 1 + lengthZ pre) by now apply rangeIncl_at in El.
        pose proof (lengthZ_nonneg pre) as Hpre.
        assert (Hl : lengthZ (pre ++ [i]) = i).
        { unfold lengthZ in *. rewrite length_app. simpl length. lia. }
        rewrite Hl. split; [|now apply lcsRow_nonneg].
        apply lcsRow_bound; [lia|]. now replace (i - 1) with (lengthZ pre) by lia. }
    cbv beta in H. rewrite rangeIncl_length in H by lia.
    destruct H as [H1 H2]. specialize (H1 n Hn). specialize (H2 n Hn). lia.
  - unfold lcsDistance. cbn [orLength]. cbv zeta.
    assert (H : (fun pre prev => prev (lengthZ pre) = lengthZ pre) (rangeIncl 1 L)
                  (fold_left (fun prev i => lcsRow a a L i prev (fun _ => 0))
                             (rangeIncl 1 L) (fun _ => 0))).
    { apply fold_left_hist; [reflexivity|].
      intros pre prev i post El Hp.
      assert (Hi : i = 1 + lengthZ pre) by now apply rangeIncl_at in El.
      assert (HiL : 1 <= i <= L).
      { apply in_rangeIncl. rewrite El. apply in_or_app. right. now left. }
      assert (Hl : lengthZ (pre ++ [i]) = i).
      { unfold lengthZ in *. rewrite length_app. simpl length. lia. }
      rewrite Hl. apply lcsRow_diagonal; [exact HiL|].
      now replace (i - 1) with (lengthZ pre) by lia. }
    cbv beta in H. rewrite rangeIncl_length in H by lia.
    replace (L - 1 + 1) with L in H by lia. rewrite H. lia.
Qed.

Lemma lcs_distance_bounds_witness :
  Z.abs (3 - 1) <= lcsDistance ["A"; "B"; "C"] ["B"] (Some 3) (Some 1) <= Z.max 3 1 /\
  lcsDistance ["A"; "B"; "C"] ["A"; "B"; "C"] (Some 3) (Some 3) = 0.
Proof.
  destruct (lcs_distance_bounds ["A"; "B"; "C"] ["B"] (Some 3) (Some 1) 3) as [H1 _];
    [cbn; lia | cbn; lia | lia |].
  destruct (lcs_distance_bounds ["A"; "B"; "C"] ["A"; "B"; "C"] (Some 3) (Some 3) 3)
    as [_ H2]; [cbn; lia | cbn; lia | lia |].
  split; [exact H1 | exact H2].
Defined.

End EditBounds.

(* ------------------------------------------------------------------ *)
(** * Profiles of tokens *)

Section JsMapFacts.

Variable K : Type.
Variable eqb : K -> K -> bool.
Hypothesis eqb_spec : forall x y, eqb x y = true <-> x = y.

Lemma eqb_same (x : K) : eqb x x = true.
Proof. now apply eqb_spec. Qed.

Lemma eqb_differ (x y : K) : x <> y -> eqb x y = false.
Proof.
  intros H. destruct (eqb x y) eqn:E; [|reflexivity]. apply eqb_spec in E. contradiction.
Qed.

Lemma get_set_same (m : JsMap.t K) (k : K) (v : Z) :
  JsMap.get eqb (JsMap.set eqb m k v) k = Some v.
Proof.
  induction m as [| [k0 v0] m IH]; simpl.
  - now rewrite eqb_same.
  - destruct (eqb k0 k) eqn:E; simpl; rewrite E; [reflexivity | exact IH].
Qed.

Lemma get_set_other (m : JsMap.t K) (k k' : K) (v : Z) :
  k' <> k -> JsMap.get eqb (JsMap.set eqb m k v) k' = JsMap.get eqb m k'.
Proof.
  intros Hne. induction m as [| [k0 v0] m IH]; simpl.
  - rewrite eqb_differ; [reflexivity | congruence].
  - destruct (eqb k0 k) eqn:E; simpl.
    + apply eqb_spec in E. subst k0. rewrite eqb_differ; [reflexivity | congruence].
    + now rewrite IH.
Qed.

Lemma keys_set_In (m : JsMap.t K) (k x : K) (v : Z) :
  In x (JsMap.keys (JsMap.set eqb m k v)) <-> In x (JsMap.keys m) \/ x = k.
Proof.
  unfold JsMap.keys. induction m as [| [k0 v0] m IH]; simpl.
  - intuition.
  - destruct (eqb k0 k) eqn:E; simpl.
    + apply eqb_spec in E. subst k0. intuition.
    + rewrite IH. intuition.
Qed.

Lemma keys_set_NoDup (m : JsMap.t K) (k : K) (v : Z) :
  NoDup (JsMap.keys m) -> NoDup (JsMap.keys (JsMap.set eqb m k v)).
Proof.
  unfold JsMap.keys. induction m as [| [k0 v0] m IH]; simpl; intros H.
  - constructor; [intros [] | constructor].
  - inversion H as [| ? ? Hn Hm]; subst. destruct (eqb k0 k) eqn:E; simpl.
    + constructor; assumption.
    + constructor; [|now apply IH].
      intros Hin. apply (keys_set_In m k k0 v) in Hin. destruct Hin as [Hin | ->].
      * contradiction.
      * rewrite eqb_same in E. discriminate.
Qed.

Lemma get_None_keys (m : JsMap.t K) (k : K) :
  JsMap.get eqb m k = None <-> ~ In k (JsMap.keys m).
Proof.
  unfold JsMap.keys. induction m as [| [k0 v0] m IH]; simpl.
  - intuition.
  - destruct (eqb k0 k) eqn:E.
    + apply eqb_spec in E. subst. split; [discriminate | intuition].
    + rewrite IH. split.
      * intros H [-> | Hin]; [rewrite eqb_same in E; discriminate | contradiction].
      * intuition.
Qed.

End JsMapFacts.

Lemma fold_add_perm (f : string -> Z) (l l' : list string) :
  Permutation l l' ->
  forall a, fold_left (fun d k => d + f k) l a = fold_left (fun d k => d + f k) l' a.
Proof.
  induction 1 as [| x l l' _ IH | x y l | l l' l'' _ IH1 _ IH2]; intros a; simpl.
  - reflexivity.
  - apply IH.
  - f_equal. lia.
  - now rewrite IH1.
Qed.

Lemma fold_add_zero (f : string -> Z) (l : list string) :
  (forall k, In k l -> 0 <= f k) ->
  forall a, 0 <= a ->
    (fold_left (fun d k => d + f k) l a = 0 <-> a = 0 /\ forall k, In k l -> f k = 0).
Proof.
  induction l as [| x l IH]; intros Hf a Ha; simpl.
  - intuition.
  - pose proof (Hf x (or_introl eq_refl)) as Hx.
    rewrite IH; [| intros k Hk; apply Hf; now right | lia]. split.
    + intros [H1 H2]. split; [lia|]. intros k [<- | Hk]; [lia | now apply H2].
    + intros [-> H2]. split; [rewrite (H2 x (or_introl eq_refl)); lia|]. intros k Hk. apply H2. now right.
Qed.

Lemma rangeIncl_zero (n : Z) : rangeIncl 0 (n - 1) = range n.
Proof.
  unfold rangeIncl. replace (n - 1 - 0 + 1) with n by lia.
  rewrite <- (map_id (range n)) at 2. apply map_ext. intros i. lia.
Qed.

Lemma In_lengthZ_pos {A : Type} (x : A) (l : list A) : In x l -> 0 < lengthZ l.
Proof. destruct l; [intros [] | intros _; unfold lengthZ; simpl length; lia]. Qed.

Module QgramFacts.

Import Distance.

Local Abbreviation geqb := String.eqb.

(** The gram at position [i] for [q = 1]: the token, or the empty string
    past the end of the array. *)
Lemma gram_nthZ (seq : list string) (i : Z) :
  0 <= i ->
  String.concat (String Ascii.zero "") (slice seq i (i + 1)) = nthZ seq i "".
Proof.
  intros Hi. unfold slice. replace (i + 1 - i) with 1 by lia.
  rewrite nthZ_nth by exact Hi. change (Z.to_nat 1) with 1%nat.
  generalize (Z.to_nat i). clear i Hi. intros k. revert k.
  induction seq as [| x seq IH]; intros [| k]; cbn [skipn firstn nth]; try reflexivity.
  apply IH.
Qed.

(** The number of positions of [l] whose token is [key]. *)
Definition occurrences (seq : list string) (key : string) (l : list Z) : Z :=
  lengthZ (filter (fun i => String.eqb (nthZ seq i "") key) l).

Lemma occurrences_snoc (seq : list string) (key : string) (l : list Z) (i : Z) :
  occurrences seq key (l ++ [i])
  = occurrences seq key l + (if String.eqb (nthZ seq i "") key then 1 else 0).
Proof.
  unfold occurrences, lengthZ. rewrite filter_app, length_app. simpl.
  destruct (String.eqb _ _); simpl; lia.
Qed.

Lemma occurrences_pos (seq : list string) (key : string) (l : list Z) :
  0 < occurrences seq key l <-> exists i, In i l /\ nthZ seq i "" = key.
Proof.
  unfold occurrences, lengthZ. split.
  - intros H. destruct (filter _ l) as [| i r] eqn:E; [simpl in H; lia|].
    assert (Hi : In i (filter (fun i => String.eqb (nthZ seq i "") key) l)).
    { rewrite E. now left. }
    apply filter_In in Hi. destruct Hi as [Hi He]. apply String.eqb_eq in He. eauto.
  - intros (i & Hi & He).
    assert (Hin : In i (filter (fun i => String.eqb (nthZ seq i "") key) l)).
    { apply filter_In. split; [exact Hi | now apply String.eqb_eq]. }
    destruct (filter _ l); [destruct Hin | simpl; lia].
Qed.

Lemma getQgrams_profile (seq : list string) (len : option Z) :
  let n := orLength len seq in
  let profile := getQgrams seq len 1 in
  NoDup (JsMap.keys profile) /\
  (forall key, JsMap.getOr0 String.eqb profile key = occurrences seq key (range n)) /\
  (forall key, In key (JsMap.keys profile) <-> 0 < occurrences seq key (range n)).
Proof.
  intros n profile. unfold profile, getQgrams. cbv zeta. fold n.
  replace (n - 1) with (n - 1) by reflexivity. rewrite rangeIncl_zero.
  apply (fold_left_hist _
           (fun pre p =>
              NoDup (JsMap.keys p) /\
              (forall key, JsMap.getOr0 String.eqb p key = occurrences seq key pre) /\
              (forall key, In key (JsMap.keys p) <-> 0 < occurrences seq key pre))).
  - split; [constructor|]. split; [reflexivity|]. intros key. simpl.
    unfold occurrences, lengthZ. simpl. lia.
  - intros pre p i post El (Hnd & Hget & Hkeys).
    assert (Hi : 0 <= i).
    { assert (Hin : In i (range n)) by (rewrite El; apply in_or_app; right; now left).
      apply in_range in Hin. lia. }
    rewrite gram_nthZ by exact Hi. set (g := nthZ seq i "").
    split; [now apply keys_set_NoDup; [apply String.eqb_eq|]|]. split.
    + intros key. rewrite occurrences_snoc. fold g.
      unfold JsMap.getOr0 at 1. destruct (string_dec key g) as [-> | Hne].
      * rewrite get_set_same by apply String.eqb_eq. rewrite String.eqb_refl.
        rewrite Hget. reflexivity.
      * rewrite get_set_other by (apply String.eqb_eq || exact Hne).
        replace (String.eqb g key) with false
          by (symmetry; apply String.eqb_neq; congruence).
        fold (JsMap.getOr0 String.eqb p key). rewrite Hget. lia.
    + intros key. rewrite keys_set_In by apply String.eqb_eq.
      rewrite occurrences_snoc. fold g. rewrite Hkeys.
      pose proof (lengthZ_nonneg (filter (fun i => String.eqb (nthZ seq i "") key) pre)) as H0.
      fold (occurrences seq key pre) in H0.
      destruct (String.eqb g key) eqn:E.
      * apply String.eqb_eq in E. split; [lia | auto].
      * apply String.eqb_neq in E. split; [intros [H | H]; [lia | congruence] | intros H; left; lia].
Qed.

(** X7. The profile that [getQgrams] builds with [q = 1] has one key per
    distinct token among the first [len] positions (the empty string for
    a position past the end of the array), no key twice, and stores under
    each key the number of those positions that hold it. *)
Theorem qgram_profile_counts (seq : list string) (len : option Z) (key : string) :
  let n := orLength len seq in
  let profile := getQgrams seq len 1 in
  NoDup (JsMap.keys profile) /\
  JsMap.getOr0 String.eqb profile key = occurrences seq key (range n) /\
  (In key (JsMap.keys profile) <-> exists i, 0 <= i < n /\ nthZ seq i "" = key).
Proof.
  intros n profile. destruct (getQgrams_profile seq len) as (Hnd & Hget & Hkeys).
  split; [exact Hnd|]. split; [apply Hget|].
  fold n in Hkeys. fold profile in Hkeys. rewrite Hkeys, occurrences_pos.
  split; intros (i & Hi & He); exists i; (split; [now apply in_range | exact He]).
Qed.

Lemma allKeys_In (pa pb : JsMap.t string) (key : string) :
  In key (allKeys pa pb) <-> In key (JsMap.keys pa) \/ In key (JsMap.keys pb).
Proof. unfold allKeys. rewrite dedup_In, in_app_iff. simpl. tauto. Qed.

Lemma allKeys_perm (pa pb : JsMap.t string) : Permutation (allKeys pa pb) (allKeys pb pa).
Proof.
  apply NoDup_Permutation; try apply dedup_NoDup.
  intros key. rewrite !allKeys_In. tauto.
Qed.

Lemma getOr0_absent (p : JsMap.t string) (key : string) :
  ~ In key (JsMap.keys p) -> JsMap.getOr0 String.eqb p key = 0.
Proof.
  intros H. unfold JsMap.getOr0.
  now rewrite (proj2 (get_None_keys string String.eqb String.eqb_eq p key) H).
Qed.

(** X8. [qgramDistance] does not depend on the order of its arguments,
    and it is 0 exactly when the two profiles store the same count under
    every key: sequences that hold the same tokens the same number of
    times, in any order, are at distance 0. *)
Theorem qgram_symmetric_zero (a b : list string) (lenA lenB : option Z) :
  qgramDistance a b lenA lenB = qgramDistance b a lenB lenA /\
  (qgramDistance a b lenA lenB = 0 <->
   forall key, JsMap.getOr0 String.eqb (getQgrams a lenA 1) key
               = JsMap.getOr0 String.eqb (getQgrams b lenB 1) key).
Proof.
  unfold qgramDistance. cbv zeta.
  set (pa := getQgrams a lenA 1). set (pb := getQgrams b lenB 1). split.
  - rewrite (fold_add_perm
               (fun key => Z.abs (JsMap.getOr0 String.eqb pa key - JsMap.getOr0 String.eqb pb key))
               _ _ (allKeys_perm pa pb)).
    apply fold_left_ext. intros d key _. lia.
  - rewrite (fold_add_zero
               (fun key => Z.abs (JsMap.getOr0 String.eqb pa key - JsMap.getOr0 String.eqb pb key)))
      by (intros; lia).
    split.
    + intros [_ H] key.
      destruct (in_dec string_dec key (allKeys pa pb)) as [Hin | Hout].
      * specialize (H key Hin). cbv beta in H. lia.
      * rewrite allKeys_In in Hout.
        rewrite !getOr0_absent by tauto. reflexivity.
    + intros H. split; [reflexivity|]. intros key _. rewrite H. lia.
Qed.

(** The keys that two profiles share. *)
Definition shared (setA setB : list string) : list string :=
  filter (fun key => existsb (String.eqb key) setB) setA.

Lemma shared_length_sym (setA setB : list string) :
  NoDup setA -> NoDup setB -> lengthZ (shared setA setB) = lengthZ (shared setB setA).
Proof.
  intros HA HB. unfold lengthZ. f_equal. apply Permutation_length.
  apply NoDup_Permutation; try (now apply NoDup_filter).
  intros x. unfold shared. rewrite !filter_In, !existsb_string_In. tauto.
Qed.

(** A number that is a rational equal to [q]. *)
Definition isRational (x : num) (q : Q) : Prop := exists v, x = Fin v /\ (v == q)%Q.

(** X9. [jaccardDistance] does not depend on the order of its arguments;
    it is 0 when the two sequences hold the same set of tokens, however
    often and in whatever order, and 1 when they hold no token in common
    and at least one of them holds a token. *)
Theorem jaccard_symmetric_sets (a b : list string) (lenA lenB : option Z) :
  let keysA := JsMap.keys (getQgrams a lenA 1) in
  let keysB := JsMap.keys (getQgrams b lenB 1) in
  jaccardDistance a b lenA lenB = jaccardDistance b a lenB lenA /\
  ((forall key, In key keysA <-> In key keysB) ->
   isRational (jaccardDistance a b lenA lenB) 0) /\
  ((forall key, In key keysA -> ~ In key keysB) -> keysA ++ keysB <> [] ->
   isRational (jaccardDistance a b lenA lenB) 1).
Proof.
  intros keysA keysB. unfold jaccardDistance. cbv zeta. fold keysA keysB.
  set (setA := dedup [] keysA). set (setB := dedup [] keysB).
  rewrite !ProfileFacts.fold_count, !Z.add_0_l. fold (shared setA setB). fold (shared setB setA).
  assert (HA : NoDup setA) by apply dedup_NoDup.
  assert (HB : NoDup setB) by apply dedup_NoDup.
  assert (InA : forall key, In key setA <-> In key keysA).
  { intros key. unfold setA. rewrite dedup_In. simpl. tauto. }
  assert (InB : forall key, In key setB <-> In key keysB).
  { intros key. unfold setB. rewrite dedup_In. simpl. tauto. }
  split; [|split].
  - rewrite (shared_length_sym setB setA HB HA).
    replace (lengthZ setB + lengthZ setA - lengthZ (shared setA setB))
      with (lengthZ setA + lengthZ setB - lengthZ (shared setA setB)) by lia.
    reflexivity.
  - intros Hsame.
    assert (E1 : shared setA setB = setA).
    { unfold shared. apply forallb_filter_id. apply forallb_forall. intros key Hk.
      apply existsb_string_In. apply InB, Hsame, InA, Hk. }
    assert (E2 : lengthZ setB = lengthZ setA).
    { unfold lengthZ. f_equal. apply Permutation_length. apply NoDup_Permutation; auto.
      intros key. rewrite InA, InB. symmetry. apply Hsame. }
    rewrite E1, E2. replace (lengthZ setA + lengthZ setA - lengthZ setA) with (lengthZ setA) by lia.
    destruct (lengthZ setA =? 0) eqn:E0.
    + exists 0%Q. split; reflexivity.
    + apply Z.eqb_neq in E0. pose proof (lengthZ_nonneg setA) as H0.
      rewrite ndiv_same by lia. rewrite nsub_one_one. exists 0%Q. split; reflexivity.
  - intros Hdisj Hne.
    assert (E1 : shared setA setB = []).
    { unfold shared. destruct (filter _ setA) as [| key r] eqn:E; [reflexivity|].
      assert (Hk : In key (filter (fun key => existsb (String.eqb key) setB) setA)).
      { rewrite E. now left. }
      apply filter_In in Hk. destruct Hk as [Hk1 Hk2]. apply existsb_string_In in Hk2.
      exfalso. apply (Hdisj key); [now apply InA | now apply InB]. }
    rewrite E1. change (lengthZ (@nil string)) with 0. rewrite Z.sub_0_r.
    assert (Hpos : 0 < lengthZ setA + lengthZ setB).
    { destruct (keysA ++ keysB) as [| key r] eqn:E; [congruence|].
      assert (Hk : In key (keysA ++ keysB)) by (rewrite E; now left).
      apply in_app_or in Hk.
      pose proof (lengthZ_nonneg setA). pose proof (lengthZ_nonneg setB).
      destruct Hk as [Hk | Hk]; [apply InA in Hk | apply InB in Hk];
        apply In_lengthZ_pos in Hk; lia. }
    replace (lengthZ setA + lengthZ setB =? 0) with false by lia.
    rewrite ndiv_none by lia. rewrite nsub_one_zero. exists 1%Q. split; reflexivity.
Qed.

Lemma jaccard_symmetric_sets_witness :
  isRational (jaccardDistance ["A"; "A"; "B"] ["B"; "A"] None None) 0 /\
  isRational (jaccardDistance ["A"; "B"] ["C"] None None) 1.
Proof.
  destruct (jaccard_symmetric_sets ["A"; "A"; "B"] ["B"; "A"] None None) as (_ & H1 & _).
  destruct (jaccard_symmetric_sets ["A"; "B"] ["C"] None None) as (_ & _ & H2).
  split.
  - apply H1. intros key. simpl. tauto.
  - apply H2.
    + intros key. simpl. intros [<- | [<- | []]] [H | []]; discriminate.
    + discriminate.
Defined.

End QgramFacts.

(* ------------------------------------------------------------------ *)
(** * Edge cases of the Jaro distance *)

Lemma rangeIncl_cons (lo hi : Z) : lo <= hi -> rangeIncl lo hi = lo :: rangeIncl (lo + 1) hi.
Proof.
  intros H. unfold rangeIncl, range.
  replace (Z.to_nat (hi - lo + 1)) with (S (Z.to_nat (hi - (lo + 1) + 1))) by lia.
  cbn [seq map]. f_equal; [lia|].
  rewrite <- seq_shift, !map_map. apply map_ext. intros x. lia.
Qed.

Lemma find_none_all {A : Type} (p : A -> bool) (l : list A) :
  (forall x, In x l -> p x = false) -> find p l = None.
Proof.
  induction l as [| x l IH]; intros H; simpl; [reflexivity|].
  rewrite (H x) by now left. apply IH. intros y Hy. apply H. now right.
Qed.

(** The first index of [lo..hi] that passes a test. *)
Lemma find_rangeIncl (p : Z -> bool) (k : nat) (lo hi : Z) :
  lo + Z.of_nat k <= hi ->
  (forall j, lo <= j < lo + Z.of_nat k -> p j = false) ->
  p (lo + Z.of_nat k) = true ->
  find p (rangeIncl lo hi) = Some (lo + Z.of_nat k).
Proof.
  revert lo. induction k as [| k IH]; intros lo Hhi Hbefore Hp.
  - rewrite rangeIncl_cons by lia. cbn [find]. replace (lo + Z.of_nat 0) with lo in * by lia.
    now rewrite Hp.
  - rewrite rangeIncl_cons by lia. cbn [find]. rewrite (Hbefore lo) by lia.
    replace (lo + Z.of_nat (S k)) with (lo + 1 + Z.of_nat k) in * by lia.
    apply IH; [lia | | exact Hp]. intros j Hj. apply Hbefore. lia.
Qed.

Module JaroEdges.

Import Distance.

Lemma skipUnmatched_here (fuel : nat) (bMatched : list bool) (bIdx : Z) :
  nthZ bMatched bIdx false = true -> skipUnmatched fuel bMatched bIdx = Ok bIdx.
Proof. intros H. destruct fuel; simpl; now rewrite H. Qed.

(** Without a token in common the match search changes nothing. *)
Lemma jaroMatches_none (a b : list string) (m n : Z) :
  (forall i j, 0 <= i < m -> 0 <= j < n -> tokEq (tok a i) (tok b j) = false) ->
  jaroMatches a b m n = (repeat false (Z.to_nat m), repeat false (Z.to_nat n), 0).
Proof.
  intros Hno. unfold jaroMatches. cbv zeta. apply fold_left_inv; [reflexivity|].
  intros st i Hi ->. apply in_range in Hi. unfold findMatch.
  rewrite find_none_all; [reflexivity|].
  intros j Hj. apply in_rangeIncl in Hj. rewrite Hno by lia. apply andb_false_r.
Qed.

(** A sequence against itself: position [i] is matched with position
    [i]. *)
Definition selfInv (L : Z) (pre : list Z) (st : list bool * list bool * Z) : Prop :=
  let '(aMatched, bMatched, matches) := st in
  lengthZ aMatched = L /\ lengthZ bMatched = L /\ matches = lengthZ pre /\
  (forall j, 0 <= j -> nthZ aMatched j false = (j <? lengthZ pre)) /\
  (forall j, 0 <= j -> nthZ bMatched j false = (j <? lengthZ pre)).

Lemma jaroMatches_self (a : list string) (L : Z) :
  0 <= L -> selfInv L (range L) (jaroMatches a a L L).
Proof.
  intros HL. unfold jaroMatches. cbv zeta.
  apply (fold_left_hist _ (selfInv L)).
  - unfold selfInv. change (lengthZ (@nil Z)) with 0.
    split; [unfold lengthZ; rewrite repeat_length; lia|].
    split; [unfold lengthZ; rewrite repeat_length; lia|].
    split; [reflexivity|].
    split; intros j Hj; rewrite nthZ_repeat; symmetry; apply Z.ltb_ge; lia.
  - intros pre [[aM bM] matches] i post El (Ha & Hb & Hm & Hna & Hnb).
    assert (Hi : i = lengthZ pre) by now apply range_at in El.
    assert (HiL : 0 <= i < L).
    { apply in_range. rewrite El. apply in_or_app. right. now left. }
    assert (Hl : lengthZ (pre ++ [i]) = i + 1).
    { unfold lengthZ in *. rewrite length_app. simpl length. lia. }
    set (w := Z.max 0 (Z.max L L / 2 - 1)).
    assert (E : findMatch a a bM i (Z.max 0 (i - w)) (Z.min (L - 1) (i + w)) = Some i).
    { unfold findMatch.
      pose proof (find_rangeIncl
                    (fun j => negb (nthZ bM j false) && tokEq (tok a i) (tok a j))
                    (Z.to_nat (i - Z.max 0 (i - w))) (Z.max 0 (i - w))
                    (Z.min (L - 1) (i + w))) as H.
      replace (Z.max 0 (i - w) + Z.of_nat (Z.to_nat (i - Z.max 0 (i - w)))) with i in H
        by (unfold w; lia).
      apply H.
      - unfold w. lia.
      - intros j Hj. rewrite Hnb by lia. replace (j <? lengthZ pre) with true by lia.
        reflexivity.
      - rewrite Hnb by lia. replace (i <? lengthZ pre) with false by lia.
        now rewrite tokEq_refl. }
    rewrite E. unfold selfInv. rewrite Hl.
    split; [unfold lengthZ in *; now rewrite setZ_length|].
    split; [unfold lengthZ in *; now rewrite setZ_length|].
    split; [lia|].
    split; intros j Hj; rewrite nthZ_setZ by lia;
      [rewrite Hna by lia | rewrite Hnb by lia];
      destruct (Z.eqb_spec j i); destruct (Z.ltb_spec j (i + 1));
      destruct (Z.ltb_spec j (lengthZ pre)); (reflexivity || lia).
Qed.

Lemma jaroTranspositions_self (a : list string) (L : Z) (aMatched bMatched : list bool) :
  (forall j, 0 <= j -> nthZ aMatched j false = (j <? L)) ->
  (forall j, 0 <= j -> nthZ bMatched j false = (j <? L)) ->
  jaroTranspositions a a L aMatched bMatched = Ok (0, Z.max 0 L).
Proof.
  intros Ha Hb. unfold jaroTranspositions.
  destruct (foldM_hist
              (fun st i =>
                 let (transpositions, bIdx) := (st : Z * Z) in
                 if negb (nthZ aMatched i false) then Ok st
                 else
                   bIdx' <- skipUnmatched (length bMatched) bMatched bIdx ;;
                   Ok (if negb (tokEq (tok a i) (tok a bIdx')) then transpositions + 1
                       else transpositions,
                       bIdx' + 1))
              (fun pre st => st = (0, lengthZ pre))
              (0, 0) (range L)) as (st & E & Hst).
  - reflexivity.
  - intros pre st i post El ->.
    assert (Hi : i = lengthZ pre) by now apply range_at in El.
    assert (HiL : 0 <= i < L).
    { apply in_range. rewrite El. apply in_or_app. right. now left. }
    rewrite Ha by lia. replace (i <? L) with true by lia. cbn [negb].
    rewrite <- Hi. rewrite skipUnmatched_here by (rewrite Hb by lia; lia).
    cbn [bind]. rewrite tokEq_refl. cbn [negb]. eexists. split; [reflexivity|].
    unfold lengthZ in *. rewrite length_app. simpl length. f_equal. lia.
  - rewrite E, Hst. f_equal. f_equal. unfold lengthZ. rewrite range_length. lia.
Qed.

(** X10. Edge cases of [jaroWinklerDistance], whatever [p] is: 0 when
    both effective lengths are 0; 1 when exactly one of them is 0; 1 when
    the two sequences have no token in common.  With [p = 0], a sequence
    of effective length at least 1 is at distance 0 from itself. *)
Theorem jaro_edge_cases (a b : list string) (p : Q) (lenA lenB : option Z) (L : Z) :
  let m := orLength lenA a in
  let n := orLength lenB b in
  (m = 0 -> n = 0 -> jaroWinklerDistance a b p lenA lenB = Ok (Fin 0)) /\
  ((m = 0 /\ n <> 0) \/ (m <> 0 /\ n = 0) -> jaroWinklerDistance a b p lenA lenB = Ok (Fin 1)) /\
  (m <> 0 \/ n <> 0 ->
   (forall i j, 0 <= i < m -> 0 <= j < n -> tokEq (tok a i) (tok b j) = false) ->
   jaroWinklerDistance a b p lenA lenB = Ok (Fin 1)) /\
  (1 <= L ->
   exists v, jaroWinklerDistance a a 0 (Some L) (Some L) = Ok (Fin v) /\ (v == 0)%Q).
Proof.
  intros m n. split; [|split; [|split]].
  - intros Hm Hn. unfold jaroWinklerDistance. cbv zeta. fold m n. now rewrite Hm, Hn.
  - intros H. unfold jaroWinklerDistance. cbv zeta. fold m n.
    destruct H as [[Hm Hn] | [Hm Hn]].
    + rewrite Hm. cbn [Z.eqb andb orb]. now replace (n =? 0) with false by lia.
    + rewrite Hn. replace (m =? 0) with false by lia. reflexivity.
  - intros Hne Hno. unfold jaroWinklerDistance. cbv zeta. fold m n.
    destruct ((m =? 0) && (n =? 0)) eqn:E1; [lia|].
    destruct ((m =? 0) || (n =? 0)); [reflexivity|].
    now rewrite (jaroMatches_none a b m n Hno).
  - intros HL. unfold jaroWinklerDistance. cbn [orLength]. cbv zeta.
    replace (L =? 0) with false by lia. cbn [andb orb].
    pose proof (jaroMatches_self a L ltac:(lia)) as H.
    destruct (jaroMatches a a L L) as [[aM bM] matches].
    destruct H as (_ & _ & Hm & Hna & Hnb).
    assert (El : lengthZ (range L) = L).
    { unfold lengthZ. rewrite range_length. lia. }
    rewrite El in Hm, Hna, Hnb. subst matches.
    replace (L =? 0) with false by lia.
    rewrite (jaroTranspositions_self a L aM bM Hna Hnb). cbn [bind fst].
    change (Qeq_bool 0 0) with true. cbv iota.
    rewrite !ndiv_same by lia.
    replace (nadd (Fin 1) (Fin 1)) with (Fin 2)
      by (symmetry; cbn [nadd]; now apply (round64_int _ 2)).
    replace (ndiv (ofZ 0) (Fin 2)) with (Fin 0)
      by (symmetry; rewrite ofZ_counted, ndiv_Fin_pos by lra; now apply (round64_int _ 0)).
    replace (nsub (ofZ L) (Fin 0)) with (ofZ L).
    2:{ rewrite ofZ_counted. cbn [nsub]. symmetry. apply round64_int.
        - ring.
        - pose proof (counted_bounds L). lia. }
    rewrite ndiv_same by lia.
    replace (nadd (Fin 2) (Fin 1)) with (Fin 3)
      by (symmetry; cbn [nadd]; now apply (round64_int _ 3)).
    replace (ndiv (Fin 3) (Fin 3)) with (Fin 1)
      by (symmetry; rewrite ndiv_Fin_pos by lra; now apply (round64_int _ 1)).
    rewrite nsub_one_one. exists 0%Q. split; reflexivity.
Qed.

Lemma jaro_edge_cases_witness :
  jaroWinklerDistance ["A"; "B"] ["C"] 0 None None = Ok (Fin 1) /\
  exists v, jaroWinklerDistance ["A"; "B"; "A"] ["A"; "B"; "A"] 0 (Some 3) (Some 3)
            = Ok (Fin v) /\ (v == 0)%Q.
Proof.
  destruct (jaro_edge_cases ["A"; "B"] ["C"] 0 None None 1) as (_ & _ & H3 & _).
  destruct (jaro_edge_cases ["A"; "B"; "A"] ["A"; "B"; "A"] 0 (Some 3) (Some 3) 3)
    as (_ & _ & _ & H4).
  split.
  - apply H3; [left; discriminate|].
    intros i j Hi Hj. cbn in Hi, Hj.
    assert (Hj0 : j = 0) by lia. subst j.
    assert (Hi' : i = 0 \/ i = 1) by lia. destruct Hi' as [-> | ->]; reflexivity.
  - apply H4. lia.
Defined.

End JaroEdges.

(* ------------------------------------------------------------------ *)
(** * What the matrix holds *)





Lemma nadd_NaN_l (y : num) : nadd NaN y = NaN.
Proof. now destruct y. Qed.

Lemma nadd_NaN_r (x : num) : nadd x NaN = NaN.
Proof. now destruct x. Qed.

Lemma nsub_NaN_r (x : num) : nsub x NaN = NaN.
Proof. now destruct x. Qed.

Lemma fold_NaN {X : Type} (step : num -> X -> num) (l : list X) :
  (forall x, step NaN x = NaN) -> fold_left step l NaN = NaN.
Proof. intros H. induction l as [| x l IH]; simpl; [reflexivity | now rewrite H]. Qed.

Module MatrixContents.

Import Distance DistanceFacts.

(** The pairs [i' < j'] that the double loop has dealt with when it is at
    row [i], column [j]. *)
Definition filled (n : Z) (f : Z -> Z -> result num) (i j : Z) (dist : Matrix.t) : Prop :=
  Matrix.rows dist = n /\ Matrix.cols dist = n /\
  (forall a, 0 <= a < n -> Matrix.get dist a a = Fin 0) /\
  (forall i' j', 0 <= i' < j' -> j' < n -> i' < i \/ (i' = i /\ j' < j) ->
                 f i' j' = Ok (Matrix.get dist i' j') /\
                 Matrix.get dist j' i' = Matrix.get dist i' j').

Lemma filled_set (n : Z) (f : Z -> Z -> result num) (i j : Z) (dist : Matrix.t) (d : num) :
  0 <= i < j -> j < n -> f i j = Ok d -> filled n f i j dist ->
  filled n f i (j + 1) (Matrix.set (Matrix.set dist i j d) j i d).
Proof.
  intros Hi Hj Hf (Hr & Hc & Hdiag & Hdone).
  assert (I1 : Matrix.inside dist i j = true) by (apply inside_iff; lia).
  assert (I2 : Matrix.inside (Matrix.set dist i j d) j i = true).
  { apply inside_iff. rewrite rows_set, cols_set. lia. }
  assert (G : forall a b,
             Matrix.get (Matrix.set (Matrix.set dist i j d) j i d) a b =
             if (a =? j) && (b =? i) then d
             else if (a =? i) && (b =? j) then d else Matrix.get dist a b).
  { intros a b. rewrite get_set by exact I2. now rewrite get_set by exact I1. }
  split; [now rewrite !rows_set|]. split; [now rewrite !cols_set|]. split.
  - intros a Ha. rewrite G.
    destruct (Z.eqb_spec a i), (Z.eqb_spec a j); cbn [andb]; try lia; now apply Hdiag.
  - intros i' j' Hi' Hj' Hd. rewrite !G.
    destruct (Z.eqb_spec i' j), (Z.eqb_spec j' i), (Z.eqb_spec i' i), (Z.eqb_spec j' j);
      cbn [andb]; try lia;
      first [ subst; split; [exact Hf | reflexivity] | apply Hdone; lia ].
Qed.

Lemma fillPairs_exact (n : Z) (f : Z -> Z -> result num) :
  (forall i j, 0 <= i < j -> j < n -> exists d, f i j = Ok d) ->
  exists dist, fillPairs n f (Matrix.zeros n n) = Ok dist /\ filled n f n 0 dist.
Proof.
  intros Hf. unfold fillPairs.
  destruct (foldM_hist
              (fun dist i =>
                 foldM (fun dist j => d <- f i j ;; Ok (Matrix.set (Matrix.set dist i j d) j i d))
                       (rangeIncl (i + 1) (n - 1)) dist)
              (fun pre dist => filled n f (lengthZ pre) 0 dist)
              (Matrix.zeros n n) (range n)) as (dist & E & H).
  - destruct (metricMatrix_zeros n (fun _ => True) I) as (Hr & Hc & Hd & _).
    split; [exact Hr|]. split; [exact Hc|]. split; [exact Hd|].
    intros i' j' Hi' Hj'. change (lengthZ (@nil Z)) with 0. lia.
  - intros pre dist i post El Hm.
    assert (Hi : i = lengthZ pre) by now apply range_at in El.
    assert (HiL : 0 <= i < n).
    { apply in_range. rewrite El. apply in_or_app. right. now left. }
    assert (Hl : lengthZ (pre ++ [i]) = i + 1).
    { unfold lengthZ in *. rewrite length_app. simpl length. lia. }
    rewrite Hl. rewrite <- Hi in Hm.
    destruct (foldM_hist
                (fun dist j => d <- f i j ;; Ok (Matrix.set (Matrix.set dist i j d) j i d))
                (fun pre' dist => filled n f i (i + 1 + lengthZ pre') dist)
                dist (rangeIncl (i + 1) (n - 1))) as (dist' & E' & H').
    + destruct Hm as (Hr & Hc & Hd & Hdone). split; [exact Hr|]. split; [exact Hc|].
      split; [exact Hd|]. intros i' j' Hi' Hj' Hw. apply Hdone; try assumption.
      change (lengthZ (@nil Z)) with 0 in Hw. lia.
    + intros pre' d0 j post' El' Hm'.
      assert (Hj : j = i + 1 + lengthZ pre') by now apply rangeIncl_at in El'.
      assert (HjL : i + 1 <= j <= n - 1).
      { apply in_rangeIncl. rewrite El'. apply in_or_app. right. now left. }
      destruct (Hf i j ltac:(lia) ltac:(lia)) as (d & Ed). rewrite Ed. cbn [bind].
      eexists. split; [reflexivity|].
      replace (i + 1 + lengthZ (pre' ++ [j])) with (j + 1)
        by (unfold lengthZ in *; rewrite length_app; simpl length; lia).
      apply filled_set; try lia; [exact Ed|]. now rewrite Hj.
    + exists dist'. split; [exact E'|].
      rewrite EditFacts.rangeIncl_length in H' by lia.
      destruct H' as (Hr & Hc & Hd & Hdone). split; [exact Hr|]. split; [exact Hc|].
      split; [exact Hd|]. intros i' j' Hi' Hj' Hw. apply Hdone; try assumption. lia.
  - exists dist. split; [exact E|].
    replace (lengthZ (range n)) with (Z.max 0 n) in H
      by (unfold lengthZ; rewrite range_length; lia).
    destruct H as (Hr & Hc & Hd & Hdone). split; [exact Hr|]. split; [exact Hc|].
    split; [exact Hd|]. intros i' j' Hi' Hj' _. apply Hdone; try assumption. lia.
Qed.

(** X11. [computeNumericDistanceMatrix] never throws: for every list of
    rows and every metric string it returns an [n] by [n] matrix with a
    zero diagonal in which, for [i < j], both entry [(i, j)] and entry
    [(j, i)] hold the metric of row [i] and row [j], in this order; the
    metric is Manhattan for ["manhattan"] and Euclidean for every other
    string. *)
Theorem numeric_matrix_entries (Math_sqrt : Q -> Q) (data : list (list Q)) (metric : string) :
  let n := lengthZ data in
  let func := if String.eqb metric "manhattan" then manhattanDistance
              else euclideanDistance Math_sqrt in
  exists dist,
    computeNumericDistanceMatrix Math_sqrt data metric = Ok dist /\
    Matrix.rows dist = n /\ Matrix.cols dist = n /\
    (forall i, 0 <= i < n -> Matrix.get dist i i = Fin 0) /\
    (forall i j, 0 <= i < j /\ j < n ->
                 Matrix.get dist i j = func (nthZ data i []) (nthZ data j []) /\
                 Matrix.get dist j i = func (nthZ data i []) (nthZ data j [])).
Proof.
  intros n func. unfold computeNumericDistanceMatrix. cbv zeta. fold n. fold func.
  destruct (fillPairs_exact n (fun i j => Ok (func (nthZ data i []) (nthZ data j []))))
    as (dist & E & Hr & Hc & Hd & Hdone).
  { intros i j _ _. now eexists. }
  exists dist. split; [exact E|]. split; [exact Hr|]. split; [exact Hc|].
  split; [exact Hd|]. intros i j [Hi Hj].
  destruct (Hdone i j Hi Hj ltac:(lia)) as [H1 H2].
  injection H1 as H1. rewrite H2, <- H1. now split.
Qed.

Lemma own_metric_total (Math_exp : num -> num) (Math_sqrt : Q -> Q) (name : string) (f : DistFunc) :
  assoc (DISTANCE_FUNCS Math_exp Math_sqrt) name = Some f ->
  forall a b la lb, 0 <= la -> 0 <= lb -> exists d, f a b (Some la) (Some lb) = Ok d.
Proof.
  intros H a b la lb Ha Hb. unfold DISTANCE_FUNCS in H. cbn [assoc] in H.
  repeat match type of H with
         | (if String.eqb ?k name then _ else _) = _ =>
             destruct (String.eqb k name);
             [injection H as <-; first [now eexists | idtac] | ]
         end; try discriminate.
  destruct (JaroFacts.jaro_unit a b (Some la) (Some lb) Ha Hb) as (v & E & _).
  now exists (Fin v).
Qed.

(** X12. For each of the nine names [computeDistanceMatrix] returns an
    [n] by [n] matrix with a zero diagonal whose entry [(j, i)] repeats
    its entry [(i, j)] for [i < j].  Under ["hamming"] that entry is the
    Hamming distance of sequences [i] and [j] with the [weighted] and
    [lambda] of the call; under every other name it is what the function
    of that name returns for sequences [i] and [j] at their effective
    lengths, and [weighted] and [lambda] are not used. *)
Theorem sequence_matrix_entries (Math_exp : num -> num) (Math_sqrt : Q -> Q)
    (inheritedCall : string -> list string -> list string -> option num)
    (sequences : list (list string)) (name : string) (weighted : bool) (lambda_ : Q) :
  let n := lengthZ sequences in
  In name (map fst (DISTANCE_FUNCS Math_exp Math_sqrt)) ->
  exists dist,
    computeDistanceMatrix Math_exp Math_sqrt inheritedCall sequences name weighted lambda_
    = Ok dist /\
    Matrix.rows dist = n /\ Matrix.cols dist = n /\
    (forall i, 0 <= i < n -> Matrix.get dist i i = Fin 0) /\
    (forall i j, 0 <= i < j /\ j < n ->
       let a := nthZ sequences i [] in
       let b := nthZ sequences j [] in
       Matrix.get dist j i = Matrix.get dist i j /\
       (name = "hamming" ->
        Matrix.get dist i j = hammingDistance Math_exp a b weighted lambda_) /\
       (name <> "hamming" ->
        forall f, assoc (DISTANCE_FUNCS Math_exp Math_sqrt) name = Some f ->
                  f a b (Some (effectiveLength a)) (Some (effectiveLength b))
                  = Ok (Matrix.get dist i j))).
Proof.
  intros n Hin. unfold computeDistanceMatrix. cbv zeta. fold n.
  destruct (String.eqb_spec name "hamming") as [-> | Hne].
  - destruct (fillPairs_exact n
                (fun i j => Ok (hammingDistance Math_exp (nthZ sequences i [])
                                  (nthZ sequences j []) weighted lambda_)))
      as (dist & E & Hr & Hc & Hd & Hdone).
    { intros i j _ _. now eexists. }
    exists dist. split; [exact E|]. split; [exact Hr|]. split; [exact Hc|].
    split; [exact Hd|]. intros i j [Hi Hj].
    destruct (Hdone i j Hi Hj ltac:(lia)) as [H1 H2]. injection H1 as H1.
    split; [exact H2|]. split; [intros _; now rewrite <- H1 | congruence].
  - destruct (assoc_In _ name Hin) as [f Ef]. unfold lookup. rewrite Ef.
    assert (Heff : forall i, 0 <= i < n ->
                     nthZ (map effectiveLength sequences) i 0
                     = effectiveLength (nthZ sequences i [])).
    { intros i Hi. rewrite !nthZ_nth by lia.
      change 0 with (effectiveLength []) at 1. apply map_nth. }
    destruct (fillPairs_exact n
                (fun i j => f (nthZ sequences i []) (nthZ sequences j [])
                              (Some (nthZ (map effectiveLength sequences) i 0))
                              (Some (nthZ (map effectiveLength sequences) j 0))))
      as (dist & E & Hr & Hc & Hd & Hdone).
    { intros i j _ _. apply (own_metric_total Math_exp Math_sqrt name f Ef);
        apply effLens_nonneg. }
    exists dist. split; [exact E|]. split; [exact Hr|]. split; [exact Hc|].
    split; [exact Hd|]. intros i j [Hi Hj].
    destruct (Hdone i j Hi Hj ltac:(lia)) as [H1 H2].
    split; [exact H2|]. split; [congruence|].
    intros _ f' Ef'. assert (f' = f) by congruence. subst f'.
    rewrite !Heff in H1 by lia. exact H1.
Qed.

Lemma sequence_matrix_entries_witness :
  exists dist,
    computeDistanceMatrix Samples.sampleExp Samples.sampleSqrt Samples.noInherited
      [["A"; "B"; "C"]; ["C"; "A"; "B"]; ["A"; "B"; "A"]] "lcs" true 1 = Ok dist /\
    Matrix.rows dist = 3 /\
    Matrix.get dist 2 0 = Matrix.get dist 0 2.
Proof.
  destruct (sequence_matrix_entries Samples.sampleExp Samples.sampleSqrt Samples.noInherited
              [["A"; "B"; "C"]; ["C"; "A"; "B"]; ["A"; "B"; "A"]] "lcs" true 1)
    as (dist & E & Hr & _ & _ & H).
  - simpl. tauto.
  - exists dist. split; [exact E|]. split; [exact Hr|].
    apply (H 0 2). cbn. lia.
Defined.

(** ** Rows of different lengths *)

Lemma numAt_firstn (b : list Q) (k : nat) (i : Z) :
  i < Z.of_nat k -> numAt (firstn k b) i = numAt b i.
Proof.
  intros H. unfold numAt. destruct (i <? 0) eqn:E; [reflexivity|].
  rewrite nth_error_firstn. replace (Z.to_nat i <? k)%nat with true; [reflexivity|].
  symmetry. apply Nat.ltb_lt. lia.
Qed.

Lemma numAt_outside (b : list Q) (i : Z) : lengthZ b <= i -> numAt b i = NaN.
Proof.
  intros H. unfold numAt, lengthZ in *. replace (i <? 0) with false by lia.
  replace (nth_error b (Z.to_nat i)) with (@None Q); [reflexivity|].
  symmetry. apply nth_error_None. lia.
Qed.

(** X13. Rows of different lengths.  Only the first [a.length] entries of
    the second row are read, so a longer second row is cut to the length
    of the first one; when the second row is the shorter one, both
    metrics return [NaN]. *)
Theorem numeric_rows_of_different_lengths (Math_sqrt : Q -> Q) (a b : list Q) :
  ((length a <= length b)%nat ->
   euclideanDistance Math_sqrt a b = euclideanDistance Math_sqrt a (firstn (length a) b) /\
   manhattanDistance a b = manhattanDistance a (firstn (length a) b)) /\
  ((length b < length a)%nat ->
   euclideanDistance Math_sqrt a b = NaN /\ manhattanDistance a b = NaN).
Proof.
  split.
  - intros Hle. split.
    + unfold euclideanDistance. f_equal. apply fold_left_ext. intros sum i Hi.
      apply in_range in Hi. unfold lengthZ in Hi. now rewrite numAt_firstn by lia.
    + unfold manhattanDistance. apply fold_left_ext. intros sum i Hi.
      apply in_range in Hi. unfold lengthZ in Hi. now rewrite numAt_firstn by lia.
  - intros Hlt.
    assert (Hin : In (lengthZ b) (range (lengthZ a))).
    { apply in_range. unfold lengthZ. lia. }
    apply in_split in Hin. destruct Hin as (l1 & l2 & El).
    assert (Hout : numAt b (lengthZ b) = NaN) by (apply numAt_outside; lia).
    split.
    + unfold euclideanDistance. rewrite El, fold_left_app. cbn [fold_left].
      rewrite Hout, nsub_NaN_r. cbn [nmul]. rewrite nadd_NaN_r.
      rewrite fold_NaN; [reflexivity|]. intros x. apply nadd_NaN_l.
    + unfold manhattanDistance. rewrite El, fold_left_app. cbn [fold_left].
      rewrite Hout, nsub_NaN_r. cbn [nabs]. rewrite nadd_NaN_r.
      apply fold_NaN. intros x. apply nadd_NaN_l.
Qed.



End MatrixContents.

(* ------------------------------------------------------------------ *)
(** * PAM: the swap phase and the assignment *)

Lemma insertSorted_In (x y : Z) (l : list Z) :
  In y (Pam.insertSorted x l) <-> y = x \/ In y l.
Proof.
  induction l as [| z l IH]; simpl; [intuition|].
  destruct (x <? z); simpl; [intuition|]. rewrite IH. intuition.
Qed.

Lemma insertSorted_sorted (x : Z) (l : list Z) :
  StronglySorted Z.le l -> StronglySorted Z.le (Pam.insertSorted x l).
Proof.
  induction 1 as [| z l Hl IH Hz]; simpl.
  - constructor; constructor.
  - destruct (x <? z) eqn:E.
    + constructor; [now constructor|]. constructor; [lia|].
      rewrite Forall_forall in *. intros y Hy. specialize (Hz y Hy). lia.
    + constructor; [exact IH|]. rewrite Forall_forall in *. intros y Hy.
      apply insertSorted_In in Hy. destruct Hy as [-> | Hy]; [lia | now apply Hz].
Qed.

Lemma sortAscending_sorted (l : list Z) : StronglySorted Z.le (Pam.sortAscending l).
Proof.
  unfold Pam.sortAscending. induction l as [| x l IH]; simpl; [constructor|].
  now apply insertSorted_sorted.
Qed.

Lemma nthZ_map_range {A : Type} (f : Z -> A) (n i : Z) (d : A) :
  0 <= i < n -> nthZ (map f (range n)) i d = f i.
Proof.
  intros H. rewrite nthZ_nth by lia. unfold range. rewrite map_map.
  rewrite nth_indep with (d' := f (Z.of_nat 0)) by (rewrite length_map, length_seq; lia).
  rewrite (map_nth (fun x => f (Z.of_nat x))), seq_nth by lia. f_equal. lia.
Qed.

Module PamQuality.

Import Pam PamFacts SwapFacts.

Section Finite.

Variable n : Z.
Variable q : Z -> Z -> Q.

Local Abbreviation dist := (Matrix.ofTable n q).

(** The nearest slot of a point: the least distance, and among the slots
    at that distance the first. *)
Definition slotDistance (sortedMedoids : list Z) (i t : Z) : Q :=
  q i (nthZ sortedMedoids t (-1)).

Definition nearestOf (sortedMedoids : list Z) (i : Z) (upTo b : Z) : Prop :=
  0 <= b < upTo /\
  forall t, 0 <= t < upTo ->
    (slotDistance sortedMedoids i b <= slotDistance sortedMedoids i t)%Q /\
    (t < b -> (slotDistance sortedMedoids i b < slotDistance sortedMedoids i t)%Q).

Lemma nearestSlot_spec (k : Z) (sortedMedoids : list Z) (i : Z) :
  1 <= k -> medoidArray n k sortedMedoids -> 0 <= i < n ->
  nearestOf sortedMedoids i k (snd (nearestSlot dist k sortedMedoids i)).
Proof.
  intros Hk (Hlen & Hnd & Hin) Hi. rewrite Forall_forall in Hin.
  assert (Hmed : forall t, 0 <= t < k -> PamFacts.inRange n (nthZ sortedMedoids t (-1))).
  { intros t Ht. apply Hin, nthZ_In. lia. }
  unfold nearestSlot.
  unfold nearestOf, slotDistance.
  pose (P := fun (pre : list Z) (best : num * Z) =>
               (pre = [] /\ best = (PInf, 0)) \/
               (pre <> [] /\
                fst best = Fin (q i (nthZ sortedMedoids (snd best) (-1))) /\
                nearestOf sortedMedoids i (lengthZ pre) (snd best))).
  unfold nearestOf, slotDistance in P.
  match goal with
  | |- 0 <= snd ?r < k /\ _ => assert (H : P (range k) r)
  end.
  { apply fold_left_hist.
    - left. now split.
    - intros pre best m post El Hb. right.
      assert (Hm : m = lengthZ pre) by now apply range_at in El.
      assert (HmK : 0 <= m < k).
      { apply in_range. rewrite El. apply in_or_app. right. now left. }
      assert (Hl : lengthZ (pre ++ [m]) = m + 1).
      { unfold lengthZ in *. rewrite length_app. simpl length. lia. }
      split; [now destruct pre|]. rewrite Hl. cbv zeta.
      rewrite get_ofTable; [| exact Hi | apply Hmed; lia].
      destruct Hb as [[-> ->] | (Hne & Hf & Hb & Hbest)].
      + cbn [fst snd]. change (nlt (Fin _) PInf) with true. cbv iota. cbn [fst snd].
        change (lengthZ (@nil Z)) with 0 in Hm. subst m.
        split; [reflexivity|]. split; [lia|]. intros t Ht. replace t with 0 by lia.
        split; [apply Qle_refl | lia].
      + destruct best as [bd b]. cbn [fst snd] in *. subst bd.
        destruct (nlt (Fin (q i (nthZ sortedMedoids m (-1))))
                      (Fin (q i (nthZ sortedMedoids b (-1))))) eqn:E; cbn [fst snd].
        * apply nlt_Fin in E. split; [reflexivity|]. split; [lia|].
          intros t Ht. destruct (Z.eq_dec t m) as [-> | Hne'].
          -- split; [apply Qle_refl | lia].
          -- destruct (Hbest t ltac:(lia)) as [H1 _]. split; [lra | intros _; lra].
        * apply Qltb_false_iff in E. split; [reflexivity|]. split; [lia|].
          intros t Ht. destruct (Z.eq_dec t m) as [-> | Hne'].
          -- split; [exact E | lia].
          -- apply Hbest. lia. }
  destruct H as [[H _] | (_ & _ & H)].
  - exfalso. assert (Hl : length (range k) = Z.to_nat k) by apply range_length.
    rewrite H in Hl. simpl in Hl. lia.
  - replace (lengthZ (range k)) with k in H by (unfold lengthZ; rewrite range_length; lia).
    exact H.
Qed.

(** X15. On a finite matrix with [1 <= k <= n], with the costs and the
    changes that the program computes in binary64 arithmetic: the cost of
    the medoids that leave the swap phase is not above the cost of the
    medoids of BUILD; a pass that swaps replaces one medoid by an
    observation that is not a medoid, lowers the cost strictly, and no
    single swap has a change (trial cost minus current cost) below the
    change of the swap it takes; and the medoids handed to the assignment
    are [k] distinct observations in ascending order. *)
Theorem swap_phase_descends (k : Z) :
  1 <= k <= n ->
  let built := build dist k in
  let final := fst (swapPhase dist k built) in
  nle (assignCost dist final) (assignCost dist built) = true /\
  (forall meds meds', medoidArray n k meds -> swapPass dist k meds = Some meds' ->
     nlt (assignCost dist meds') (assignCost dist meds) = true /\
     exists mIdx c,
       0 <= mIdx < k /\ 0 <= c < n /\ ~ In c meds /\ meds' = setZ meds mIdx c /\
       forall mIdx' c', 0 <= mIdx' < k -> 0 <= c' < n -> ~ In c' meds ->
         nlt (nsub (assignCost dist (setZ meds mIdx' c')) (assignCost dist meds))
             (nsub (assignCost dist (setZ meds mIdx c)) (assignCost dist meds)) = false) /\
  medoidArray n k (sortAscending final) /\
  StronglySorted Z.le (sortAscending final) /\
  Permutation final (sortAscending final).
Proof.
  intros Hk built final.
  assert (Hb : medoidArray n k built).
  { destruct (build_spec n q k Hk) as (H1 & H2 & H3 & _). repeat split; assumption. }
  pose proof (swapLoop_spec n q 100 k built ltac:(lia) Hb) as H.
  unfold final, swapPhase. destruct (swapLoop dist 100 k built) as [fin passes].
  cbn [fst]. destruct H as (Hf & _ & Hcost & _).
  split; [exact Hcost|]. split; [|split; [|split]].
  - intros meds meds' Hm E.
    pose proof (swapPass_spec n q k meds ltac:(lia) Hm) as Hs. rewrite E in Hs.
    destruct Hs as (_ & Hlt & mIdx & c & Hmi & Hc & Hfree & Em & _ & Hleast).
    split; [exact Hlt|]. exists mIdx, c.
    split; [exact Hmi|]. split; [exact Hc|]. split; [exact Hfree|]. split; [exact Em|].
    intros mIdx' c' Hmi' Hc' Hfree'. exact (Hleast mIdx' c' Hmi' Hc' Hfree').
  - pose proof (sortAscending_perm fin) as Hp. destruct Hf as (Hl & Hn & Hi).
    split; [|split].
    + unfold lengthZ in *. now rewrite <- (Permutation_length Hp).
    + now apply (Permutation_NoDup Hp).
    + now apply (Permutation_Forall Hp).
  - apply sortAscending_sorted.
  - apply sortAscending_perm.
Qed.

(** X16. On a finite matrix with [1 <= k <= n], [pam] gives observation
    [i] the id [s + 1] of a medoid slot [s], in the ascending order of the
    medoids, whose medoid is at the least distance from [i]; among the
    slots at that distance it is the first one. *)
Theorem pam_assigns_nearest_medoid (k i : Z) :
  1 <= k <= n -> 0 <= i < n ->
  let sortedMedoids := sortAscending (fst (swapPhase dist k (build dist k))) in
  let s := nthZ (pam dist k) i 0 - 1 in
  0 <= s < k /\
  forall t, 0 <= t < k ->
    (slotDistance sortedMedoids i s <= slotDistance sortedMedoids i t)%Q /\
    (t < s -> (slotDistance sortedMedoids i s < slotDistance sortedMedoids i t)%Q).
Proof.
  intros Hk Hi sortedMedoids s.
  assert (Es : s = snd (nearestSlot dist k sortedMedoids i)).
  { unfold s, pam, assign. cbv zeta. fold sortedMedoids.
    change (Matrix.rows dist) with n. rewrite nthZ_map_range by exact Hi. lia. }
  rewrite Es. apply nearestSlot_spec; [lia | apply final_medoids; lia | exact Hi].
Qed.

End Finite.

Lemma swap_phase_descends_witness :
  nle (assignCost (Matrix.ofTable 6 Samples.hamming6)
                  (fst (swapPhase (Matrix.ofTable 6 Samples.hamming6) 2
                                  (build (Matrix.ofTable 6 Samples.hamming6) 2))))
      (assignCost (Matrix.ofTable 6 Samples.hamming6)
                  (build (Matrix.ofTable 6 Samples.hamming6) 2))
  = true.
Proof.
  destruct (swap_phase_descends 6 Samples.hamming6 2) as (H & _); [lia|]. exact H.
Defined.

(** Among the swaps whose computed changes are equal the pass keeps the
    first one it tries.  With the medoids 4 and 8 of BUILD, at cost 4, the
    replacement of medoid 4 by observation 0 costs [1 + 2^-52] and by
    observation 1 costs 1; both changes round to [-3], and observation 0
    is tried first. *)
Lemma swap_takes_first_of_equal_changes :
  exists dist,
    Distance.computeNumericDistanceMatrix Samples.sampleSqrt Samples.nearTies "manhattan"
    = Ok dist /\
    build dist 2 = [4; 8] /\
    assignCost dist [4; 8] = Fin 4 /\
    assignCost dist [0; 8] = Fin (4503599627370497 # 4503599627370496) /\
    assignCost dist [1; 8] = Fin 1 /\
    nsub (assignCost dist [0; 8]) (assignCost dist [4; 8]) = Fin (- 3) /\
    nsub (assignCost dist [1; 8]) (assignCost dist [4; 8]) = Fin (- 3) /\
    swapPass dist 2 [4; 8] = Some [0; 8].
Proof.
  eexists. split; [vm_compute; reflexivity|].
  repeat split; vm_compute; reflexivity.
Qed.

Lemma pam_assigns_nearest_medoid_witness :
  0 <= nthZ (pam (Matrix.ofTable 6 Samples.hamming6) 2) 3 0 - 1 < 2.
Proof.
  destruct (pam_assigns_nearest_medoid 6 Samples.hamming6 2 3) as (H & _); [lia | lia |].
  exact H.
Defined.

End PamQuality.

(* ------------------------------------------------------------------ *)
(** * Hierarchical clustering: the merged pair and the numbering *)

Module MergeFacts.

Import Hierarchical HierarchicalFacts.

(** The states of the merge loop: the initial one, and what a pass that
    does not throw makes of a state of the loop. *)
Inductive reachable (dist : Matrix.t) (method : string) : state -> Prop :=
| reach_init : reachable dist method (init dist method)
| reach_step (st st' : state) :
    reachable dist method st -> mergeStep method st = Ok st' -> reachable dist method st'.

Lemma reachable_inv (dist : Matrix.t) (method : string) (st : state) :
  reachable dist method st -> hierInv (Matrix.rows dist) st.
Proof.
  induction 1 as [| st st' _ IH E].
  - now apply init_inv.
  - exact (proj1 (mergeStep_spec (Matrix.rows dist) method st st' IH E)).
Qed.

Section AnyMatrix.

Variable n : Z.
Variable method : string.

(** The clusters of [active] are listed by their least member, in
    ascending order. *)
Definition orderInv (st : state) : Prop :=
  StronglySorted Z.lt (active st) /\
  forall a, In a (active st) ->
            In a (clusters st a) /\ forall p, In p (clusters st a) -> a <= p.

Lemma init_order (dist : Matrix.t) : orderInv (init dist method).
Proof.
  unfold init. split; cbn [active clusters].
  - apply StronglySorted_range.
  - intros a _. split; [now left|]. intros p [<- | []]. lia.
Qed.

Lemma mergeStep_order (st st' : state) :
  hierInv n st -> orderInv st -> mergeStep method st = Ok st' -> orderInv st'.
Proof.
  intros Hinv [Hs Hc] E.
  destruct (mergeStep_shape n method st Hinv) as [[E' _] | (bi & bj & Hb & _ & _ & E')];
    rewrite E' in E; [discriminate|].
  injection E as <-. split; cbn [active clusters].
  - unfold delete. now apply filter_sorted.
  - intros a Ha. apply delete_In in Ha. destruct Ha as [Ha _].
    pose proof (before_sorted _ _ _ Hs Hb) as Hlt.
    destruct (before_In _ _ _ Hb) as [Hi Hj].
    unfold upd. destruct (a =? bi) eqn:Ea.
    + apply Z.eqb_eq in Ea. subst a. split.
      * apply in_or_app. left. apply Hc, Hi.
      * intros p Hp. apply in_app_or in Hp. destruct Hp as [Hp | Hp].
        -- now apply (Hc bi Hi).
        -- pose proof (proj2 (Hc bj Hj) p Hp). lia.
    + now apply Hc.
Qed.

Lemma mergeLoop_order (fuel : nat) (k : Z) (st st' : state) (merges : nat) :
  hierInv n st -> orderInv st ->
  mergeLoop fuel method k st = Ok (st', merges) -> orderInv st'.
Proof.
  revert st merges. induction fuel as [| fuel IH]; intros st merges Hinv Ho; simpl.
  - destruct (lengthZ (active st) >? k); [discriminate|]. intros E. now injection E as <- _.
  - destruct (lengthZ (active st) >? k) eqn:Ek; [|intros E; now injection E as <- _].
    destruct (mergeStep method st) as [st1 | e |] eqn:E1; cbn [bind]; try discriminate.
    destruct (mergeLoop fuel method k st1) as [[st2 m2] | e |] eqn:E2; cbn [bind];
      try discriminate.
    intros E. injection E as <- _.
    apply (IH st1 m2); [|now apply (mergeStep_order st st1) | exact E2].
    exact (proj1 (mergeStep_spec n method st st1 Hinv E1)).
Qed.

(** The ids of a returned assignment follow the first members. *)
Lemma ids_in_order (dist : Matrix.t) (k : Z) (asg : list Z) :
  Matrix.rows dist = n -> 1 <= k <= n ->
  hierarchical dist k method = Ok asg ->
  nthZ asg 0 0 = 1 /\
  forall p c, 0 <= p < n -> 1 <= c < nthZ asg p 0 ->
              exists p', 0 <= p' < p /\ nthZ asg p' 0 = c.
Proof.
  intros Hn Hk Easg.
  destruct (run_spec n method dist k Hn Hk) as [E | (st & E & Hinv & Hl)];
    unfold hierarchical in Easg; rewrite E in Easg; [discriminate|].
  cbn [bind fst] in Easg. injection Easg as <-.
  assert (Ho : orderInv st).
  { unfold run in E.
    apply (mergeLoop_order _ k (init dist method) st _ (init_inv n method dist Hn)
             (init_order dist) E). }
  rewrite Hn.
  pose proof (PartitionFacts.label_spec n st ltac:(lia) Hinv) as (Hidx & Hlen & Hp).
  unfold label. set (acc := fold_left _ (active st) _) in *. clearbody acc.
  destruct Ho as [Hs Hc].
  assert (Hlab : forall p, 0 <= p < n ->
            exists l1 a l2, active st = l1 ++ a :: l2 /\ In p (clusters st a) /\
                            nthZ (fst acc) p 0 = 1 + lengthZ l1).
  { intros p Hpr. destruct (inv_cover n st Hinv p Hpr) as (a & Ha & Hpa).
    destruct (in_split a (active st) Ha) as (l1 & l2 & Ea).
    exists l1, a, l2. split; [exact Ea|]. split; [exact Hpa|].
    destruct (Hp p Hpr) as [Hin _]. now apply (Hin l1 a l2). }
  assert (Hprev : forall p c, 0 <= p < n -> 1 <= c < nthZ (fst acc) p 0 ->
                    exists p', 0 <= p' < p /\ nthZ (fst acc) p' 0 = c).
  { intros p c Hpr Hcc. destruct (Hlab p Hpr) as (l1 & a & l2 & Ea & Hpa & El).
    rewrite El in Hcc.
    assert (Hi : (Z.to_nat (c - 1) < length l1)%nat) by (unfold lengthZ in Hcc; lia).
    pose proof (split_at l1 (Z.to_nat (c - 1)) 0 Hi) as E1.
    set (a' := nth (Z.to_nat (c - 1)) l1 0) in *.
    assert (Ea' : active st = firstn (Z.to_nat (c - 1)) l1
                              ++ a' :: (skipn (S (Z.to_nat (c - 1))) l1 ++ a :: l2)).
    { rewrite Ea. rewrite E1 at 1. now rewrite <- app_assoc. }
    assert (Hin' : In a' (active st)).
    { rewrite Ea'. apply in_or_app. right. now left. }
    assert (Hlt : a' < a).
    { apply (before_sorted (active st)); [exact Hs|].
      exists (firstn (Z.to_nat (c - 1)) l1), (skipn (S (Z.to_nat (c - 1))) l1), l2.
      exact Ea'. }
    pose proof (inv_range n st Hinv) as Hr. rewrite Forall_forall in Hr.
    pose proof (Hr a' Hin') as Hra. unfold inRange in Hra.
    assert (Ha : In a (active st)) by (rewrite Ea; apply in_or_app; right; now left).
    pose proof (proj2 (Hc a Ha) p Hpa) as Hle.
    exists a'. split; [lia|].
    destruct (Hp a' Hra) as [Hin _].
    rewrite (Hin _ a' _ Ea' (proj1 (Hc a' Hin'))).
    unfold lengthZ. rewrite length_firstn. lia. }
  split; [|exact Hprev].
  destruct (Hlab 0 ltac:(lia)) as (l1 & a & l2 & Ea & Hpa & El).
  destruct (Z.eq_dec (nthZ (fst acc) 0 0) 1) as [H1 | H1]; [exact H1|].
  destruct (Hprev 0 1 ltac:(lia)) as (p' & Hp' & _).
  - pose proof (lengthZ_nonneg l1). lia.
  - lia.
Qed.

End AnyMatrix.

(** X17. On every state of the merge loop, whatever the matrix and the
    method are, a pass either finds no pair of active clusters whose
    distance is below [Infinity] and throws the [TypeError] of the read
    at index [-1], or merges two active clusters [bi], [bj], [bi]
    standing before [bj], whose distance is below [Infinity] and has no
    distance of a pair of active clusters below it; the merged cluster
    keeps the id [bi], the members of [bj] are appended to it, its size
    is the sum of the two sizes, and [bj] leaves the set of active
    clusters. *)
Theorem merge_joins_closest_pair (dist : Matrix.t) (method : string) (st : state) :
  reachable dist method st ->
  (mergeStep method st = Throw (TypeError "Cannot read properties of undefined") /\
   forall a b, before (active st) a b -> nlt (d st a b) PInf = false) \/
  (exists bi bj st',
     mergeStep method st = Ok st' /\
     before (active st) bi bj /\
     nlt (d st bi bj) PInf = true /\
     (forall a b, before (active st) a b -> nlt (d st a b) (d st bi bj) = false) /\
     active st' = delete bj (active st) /\
     clusters st' bi = clusters st bi ++ clusters st bj /\
     sizes st' bi = sizes st bi + sizes st bj /\
     (forall a, a <> bi -> clusters st' a = clusters st a /\ sizes st' a = sizes st a)).
Proof.
  intros Hr. pose proof (reachable_inv dist method st Hr) as Hinv.
  destruct (mergeStep_shape _ method st Hinv) as [H | (bi & bj & Hb & Hlt & Hmin & E)];
    [left; exact H | right].
  exists bi, bj. eexists. split; [exact E|]. split; [exact Hb|]. split; [exact Hlt|].
  split; [exact Hmin|]. cbn [active clusters sizes]. split; [reflexivity|].
  rewrite !upd_same. split; [reflexivity|]. split; [reflexivity|].
  intros a Ha. unfold upd. now replace (a =? bi) with false by lia.
Qed.

(** X18. For every matrix with [n] rows and [1 <= k <= n],
    [hierarchical] throws the [TypeError] of a pass that finds no pair,
    or returns ids numbered in the order in which the clusters first
    occur: observation 0 has id 1, and an observation with id [c'] is
    preceded, for every smaller id [c], by an observation with id [c].
    Under ["single"] and ["complete"] on a matrix of finite entries it
    returns. *)
Theorem hierarchical_ids_in_order_of_first_member
    (n : Z) (dist : Matrix.t) (k : Z) (method : string) :
  Matrix.rows dist = n -> 1 <= k <= n ->
  (hierarchical dist k method = Throw (TypeError "Cannot read properties of undefined") \/
   exists asg,
     hierarchical dist k method = Ok asg /\
     nthZ asg 0 0 = 1 /\
     forall p c, 0 <= p < n -> 1 <= c < nthZ asg p 0 ->
                 exists p', 0 <= p' < p /\ nthZ asg p' 0 = c) /\
  (method = "single" \/ method = "complete" ->
   forall q, dist = Matrix.ofTable n q -> exists asg, hierarchical dist k method = Ok asg).
Proof.
  intros Hn Hk. split.
  - destruct (run_spec n method dist k Hn Hk) as [E | (st & E & _)].
    + left. unfold hierarchical. now rewrite E.
    + right. eexists. split; [unfold hierarchical; rewrite E; reflexivity|].
      apply (ids_in_order n method dist k); [exact Hn | exact Hk|].
      unfold hierarchical. now rewrite E.
  - intros Hm q ->. destruct (run_minmax n q k method Hm Hk) as (r & E).
    eexists. unfold hierarchical. rewrite E. reflexivity.
Qed.

(** X19. When [k] is at least the number of rows nothing is merged:
    [hierarchical] returns the ids [1, 2, ..., n], whatever the entries of
    the matrix and the method are. *)
Theorem hierarchical_without_merges (dist : Matrix.t) (k : Z) (method : string) :
  0 <= Matrix.rows dist <= k ->
  hierarchical dist k method = Ok (map (fun i => i + 1) (range (Matrix.rows dist))).
Proof.
  intros Hk. set (n := Matrix.rows dist) in *.
  unfold hierarchical, run. fold n.
  assert (Hloop : mergeLoop (S (Z.to_nat n)) method k (init dist method)
                  = Ok (init dist method, O)).
  { cbn [mergeLoop]. unfold init at 1. fold n. cbn [active].
    replace (lengthZ (range n) >? k) with false; [reflexivity|].
    symmetry. rewrite Z.gtb_ltb. apply Z.ltb_ge. unfold lengthZ. rewrite range_length. lia. }
  rewrite Hloop. cbn [bind fst]. f_equal.
  assert (El : label n (init dist method) = label n (init (Matrix.ofTable n (fun _ _ => 0%Q)) "")).
  { unfold label, init. fold n. reflexivity. }
  rewrite El.
  assert (Hn : 0 <= n) by lia.
  pose proof (PartitionFacts.label_spec n
                (init (Matrix.ofTable n (fun _ _ => 0%Q)) "") Hn
                (init_inv n "" (Matrix.ofTable n (fun _ _ => 0%Q)) eq_refl)) as (_ & Hlen & Hp).
  unfold label. set (acc := fold_left _ _ _) in *. clearbody acc.
  apply (nth_ext _ _ 0 0).
  - rewrite length_map, range_length. unfold lengthZ in Hlen. lia.
  - intros i Hi. assert (Hr : 0 <= Z.of_nat i < n) by (unfold lengthZ in Hlen; lia).
    pose proof (nthZ_map_range (fun i => i + 1) n (Z.of_nat i) 0 Hr) as Hm.
    rewrite nthZ_nth in Hm by lia. rewrite Nat2Z.id in Hm. rewrite Hm.
    destruct (Hp (Z.of_nat i) Hr) as [Hin _].
    assert (Hsplit : In (Z.of_nat i) (range n)) by now apply in_range.
    apply in_split in Hsplit. destruct Hsplit as (l1 & l2 & Er).
    specialize (Hin l1 (Z.of_nat i) l2).
    unfold init in Hin. cbn [Matrix.rows Matrix.ofTable active clusters] in Hin.
    specialize (Hin Er (or_introl eq_refl)).
    rewrite nthZ_nth in Hin by lia. rewrite Nat2Z.id in Hin. rewrite Hin.
    apply range_at in Er. lia.
Qed.

Lemma merge_joins_closest_pair_witness :
  exists bi bj st',
    mergeStep "average" (init (Matrix.ofTable 6 Samples.hamming6) "average") = Ok st' /\
    before (active (init (Matrix.ofTable 6 Samples.hamming6) "average")) bi bj /\
    active st' = delete bj (active (init (Matrix.ofTable 6 Samples.hamming6) "average")).
Proof.
  destruct (merge_joins_closest_pair (Matrix.ofTable 6 Samples.hamming6) "average"
              (init (Matrix.ofTable 6 Samples.hamming6) "average")
              (reach_init _ _))
    as [[E _] | (bi & bj & st' & E & Hb & _ & _ & Ha & _)].
  - exfalso. vm_compute in E. discriminate.
  - exists bi, bj, st'. split; [exact E|]. split; [exact Hb | exact Ha].
Defined.

Lemma hierarchical_ids_in_order_of_first_member_witness :
  exists asg,
    hierarchical (Matrix.ofTable 6 Samples.hamming6) 3 "complete" = Ok asg /\
    nthZ asg 0 0 = 1.
Proof.
  destruct (hierarchical_ids_in_order_of_first_member 6 (Matrix.ofTable 6 Samples.hamming6)
              3 "complete" eq_refl) as ([E | (asg & E & H1 & _)] & _); [lia | |].
  - exfalso. vm_compute in E. discriminate.
  - exists asg. split; [exact E | exact H1].
Defined.

Lemma hierarchical_without_merges_witness :
  hierarchical Samples.twins 2 "single" = Ok [1; 2].
Proof.
  apply (hierarchical_without_merges Samples.twins 2 "single"). cbn. lia.
Defined.

End MergeFacts.

(* ------------------------------------------------------------------ *)
(** * The solvers read a matrix through its entries *)

Lemma fold_left_rel {A B X : Type} (R : A -> B -> Prop) (f : A -> X -> A) (g : B -> X -> B)
    (l : list X) :
  (forall a b x, In x l -> R a b -> R (f a x) (g b x)) ->
  forall a b, R a b -> R (fold_left f l a) (fold_left g l b).
Proof.
  induction l as [| x l IH]; intros H a b Hab; simpl; [exact Hab|].
  apply IH.
  - intros a' b' y Hy. apply H. now right.
  - apply H; [now left | exact Hab].
Qed.

Module SameEntries.

Section TwoMatrices.

Variables d1 d2 : Matrix.t.
Hypothesis same_rows : Matrix.rows d1 = Matrix.rows d2.
Hypothesis same_get : forall i j, Matrix.get d1 i j = Matrix.get d2 i j.

Import Pam.

Lemma totalDists_same (i : Z) : totalDists d1 i = totalDists d2 i.
Proof.
  unfold totalDists. rewrite same_rows. apply fold_left_ext.
  intros acc j _. now rewrite same_get.
Qed.

Lemma firstMedoid_same : firstMedoid d1 = firstMedoid d2.
Proof.
  unfold firstMedoid. rewrite same_rows. apply fold_left_ext.
  intros b i _. now rewrite !totalDists_same.
Qed.

Lemma gain_same (nd1 nd2 : Z -> num) (c : Z) :
  (forall i, nd1 i = nd2 i) -> gain d1 nd1 c = gain d2 nd2 c.
Proof.
  intros H. unfold gain. rewrite same_rows. apply fold_left_ext.
  intros g i _. now rewrite H, same_get.
Qed.

Lemma selectCandidate_same (medoids : list Z) (nd1 nd2 : Z -> num) :
  (forall i, nd1 i = nd2 i) ->
  selectCandidate d1 medoids nd1 = selectCandidate d2 medoids nd2.
Proof.
  intros H. unfold selectCandidate. rewrite same_rows. apply fold_left_ext.
  intros best c _. now rewrite (gain_same nd1 nd2 c H).
Qed.

(** Two states of the build loop that hold the same values. *)
Definition sameBuild (s1 s2 : list Z * (Z -> num)) : Prop :=
  fst s1 = fst s2 /\ forall i, snd s1 i = snd s2 i.

Lemma buildStep_same (s1 s2 : list Z * (Z -> num)) :
  sameBuild s1 s2 -> sameBuild (buildStep d1 s1) (buildStep d2 s2).
Proof.
  destruct s1 as [m1 nd1], s2 as [m2 nd2]. intros [Hm Hnd]. cbn [fst snd] in *. subst m2.
  unfold buildStep. rewrite (selectCandidate_same m1 nd1 nd2 Hnd). split; cbn [fst snd].
  - reflexivity.
  - intros i. now rewrite Hnd, same_get.
Qed.

Lemma buildLoop_same (steps : nat) (s1 s2 : list Z * (Z -> num)) :
  sameBuild s1 s2 -> sameBuild (buildLoop d1 steps s1) (buildLoop d2 steps s2).
Proof.
  revert s1 s2. induction steps as [| steps IH]; intros s1 s2 H; simpl; [exact H|].
  apply IH. now apply buildStep_same.
Qed.

Lemma build_same (k : Z) : build d1 k = build d2 k.
Proof.
  unfold build. cbv zeta. apply buildLoop_same. split; cbn [fst snd].
  - now rewrite firstMedoid_same.
  - intros i. now rewrite firstMedoid_same, same_get.
Qed.

Lemma assignCost_same (meds : list Z) : assignCost d1 meds = assignCost d2 meds.
Proof.
  unfold assignCost. rewrite same_rows. apply fold_left_ext. intros cost i _. f_equal.
  apply fold_left_ext. intros minD m _. now rewrite same_get.
Qed.

Lemma swapSearch_same (k : Z) (meds : list Z) : swapSearch d1 k meds = swapSearch d2 k meds.
Proof.
  unfold swapSearch. cbv zeta. rewrite same_rows, assignCost_same. apply fold_left_ext.
  intros best mIdx _. apply fold_left_ext. intros best' c _.
  unfold swapTrial. now rewrite assignCost_same.
Qed.

Lemma swapLoop_same (iters : nat) (k : Z) (meds : list Z) :
  swapLoop d1 iters k meds = swapLoop d2 iters k meds.
Proof.
  revert meds. induction iters as [| iters IH]; intros meds; simpl; [reflexivity|].
  unfold swapPass. rewrite swapSearch_same.
  destruct (swapSearch d2 k meds) as [[ch mi] c]. destruct (0 <=? mi); [|reflexivity].
  now rewrite IH.
Qed.

Lemma pam_same (k : Z) : pam d1 k = pam d2 k.
Proof.
  unfold pam, swapPhase. cbv zeta. rewrite build_same, swapLoop_same.
  unfold assign. rewrite same_rows. apply map_ext. intros i. f_equal. f_equal.
  unfold nearestSlot. apply fold_left_ext. intros best m _. now rewrite same_get.
Qed.

Import Hierarchical.

(** Two states of [hierarchical] that hold the same values. *)
Definition sameState (s1 s2 : state) : Prop :=
  active s1 = active s2 /\
  (forall a, clusters s1 a = clusters s2 a) /\
  (forall a, sizes s1 a = sizes s2 a) /\
  (forall a b, d s1 a b = d s2 a b).

Lemma init_same (method : string) : sameState (init d1 method) (init d2 method).
Proof.
  unfold init. rewrite same_rows. repeat split; cbn [active clusters sizes d]; try reflexivity.
  intros a b. destruct (String.eqb method "ward.D2"); now rewrite same_get.
Qed.

Lemma closestPair_same (dd1 dd2 : Z -> Z -> num) (l : list Z) (best : num * Z * Z) :
  (forall a b, dd1 a b = dd2 a b) -> closestPair dd1 l best = closestPair dd2 l best.
Proof.
  intros H. revert best. induction l as [| ci rest IH]; intros best; simpl; [reflexivity|].
  rewrite IH. f_equal. apply fold_left_ext. intros b cj _. now rewrite H.
Qed.

Lemma updateDistances_same (method : string) (s1 s2 : state) (bi bj : Z) :
  sameState s1 s2 ->
  forall a b, updateDistances method s1 bi bj a b = updateDistances method s2 bi bj a b.
Proof.
  intros (Ha & Hc & Hs & Hd). unfold updateDistances. cbv zeta. rewrite Ha.
  apply (fold_left_rel (fun f g => forall a b, f a b = g a b)); [|exact Hd].
  intros f g ck _ Hfg a b. destruct ((ck =? bi) || (ck =? bj)); [apply Hfg|].
  rewrite !Hs, !Hd, !Hfg. unfold upd2.
  destruct ((a =? ck) && (b =? bi)); [reflexivity|].
  destruct ((a =? bi) && (b =? ck)); [reflexivity | apply Hfg].
Qed.

(** Two outcomes that hold the same values. *)
Definition sameOutcome {A : Type} (R : A -> A -> Prop) (r1 r2 : result A) : Prop :=
  match r1, r2 with
  | Ok a, Ok b => R a b
  | Throw e1, Throw e2 => e1 = e2
  | Diverge, Diverge => True
  | _, _ => False
  end.

Lemma mergeStep_same (method : string) (s1 s2 : state) :
  sameState s1 s2 -> sameOutcome sameState (mergeStep method s1) (mergeStep method s2).
Proof.
  intros H. pose proof H as (Ha & Hc & Hs & Hd). unfold mergeStep.
  rewrite (closestPair_same (d s1) (d s2) _ _ Hd), Ha.
  destruct (closestPair (d s2) (active s2) (PInf, -1, -1)) as [[bd bi] bj].
  destruct (bi <? 0); [reflexivity|]. cbn [sameOutcome].
  repeat split; cbn [active clusters sizes d].
  - intros a. unfold upd. destruct (a =? bi); [now rewrite !Hc | apply Hc].
  - intros a. unfold upd. destruct (a =? bi); [now rewrite !Hs | apply Hs].
  - now apply updateDistances_same.
Qed.

Lemma mergeLoop_same (fuel : nat) (method : string) (k : Z) (s1 s2 : state) :
  sameState s1 s2 ->
  sameOutcome (fun r1 r2 => sameState (fst r1) (fst r2) /\ snd r1 = snd r2)
              (mergeLoop fuel method k s1) (mergeLoop fuel method k s2).
Proof.
  revert s1 s2. induction fuel as [| fuel IH]; intros s1 s2 H; simpl;
    rewrite (proj1 H); destruct (lengthZ (active s2) >? k); try exact I;
    try (split; [exact H | reflexivity]).
  pose proof (mergeStep_same method s1 s2 H) as Hm.
  destruct (mergeStep method s1) as [t1 | e1 |], (mergeStep method s2) as [t2 | e2 |];
    cbn [sameOutcome] in Hm; try contradiction; cbn [bind]; try exact Hm; try exact I.
  specialize (IH t1 t2 Hm).
  destruct (mergeLoop fuel method k t1) as [r1 | e1 |],
           (mergeLoop fuel method k t2) as [r2 | e2 |];
    cbn [sameOutcome] in IH; try contradiction; cbn [bind sameOutcome]; try exact IH;
    try exact I.
  cbn [fst snd]. destruct IH as [IH1 IH2]. split; [exact IH1 | now rewrite IH2].
Qed.

Lemma label_same (n : Z) (s1 s2 : state) : sameState s1 s2 -> label n s1 = label n s2.
Proof.
  intros (Ha & Hc & _). unfold label. rewrite Ha. f_equal. apply fold_left_ext.
  intros [asg idx] ci _. now rewrite Hc.
Qed.

Lemma hierarchical_same (k : Z) (method : string) :
  hierarchical d1 k method = hierarchical d2 k method.
Proof.
  unfold hierarchical, run. rewrite same_rows.
  pose proof (mergeLoop_same (S (Z.to_nat (Matrix.rows d2))) method k _ _ (init_same method))
    as H.
  destruct (mergeLoop _ method k (init d1 method)) as [r1 | e1 |],
           (mergeLoop _ method k (init d2 method)) as [r2 | e2 |];
    cbn [sameOutcome] in H; try contradiction; cbn [bind]; try reflexivity.
  - f_equal. apply label_same, H.
  - now rewrite H.
Qed.

End TwoMatrices.

(** A matrix whose entries inside the table are finite reads like the
    table of their values. *)
Lemma finite_as_table (dist : Matrix.t) (n : Z) :
  Matrix.rows dist = n -> Matrix.cols dist = n ->
  (forall i j, 0 <= i < n -> 0 <= j < n -> exists v, Matrix.get dist i j = Fin v) ->
  forall i j,
    Matrix.get dist i j = Matrix.get (Matrix.ofTable n (fun i j => val (Matrix.get dist i j))) i j.
Proof.
  intros Hr Hc Hfin i j.
  destruct (Matrix.inside dist i j) eqn:E.
  - apply inside_iff in E. rewrite Hr, Hc in E.
    destruct (Hfin i j ltac:(lia) ltac:(lia)) as (v & Ev).
    rewrite get_ofTable by lia. rewrite Ev. reflexivity.
  - unfold Matrix.get at 1. rewrite E.
    unfold Matrix.get. replace (Matrix.inside (Matrix.ofTable n _) i j) with false; [reflexivity|].
    symmetry. rewrite <- E. unfold Matrix.inside. cbn [Matrix.rows Matrix.cols Matrix.ofTable].
    now rewrite Hr, Hc.
Qed.

End SameEntries.

(* ------------------------------------------------------------------ *)
(** * From the data to the result *)

Lemma NoDup_rangeIncl (lo hi : Z) : NoDup (rangeIncl lo hi).
Proof.
  unfold rangeIncl. apply Finite.Injective_map_NoDup; [|apply NoDup_range].
  intros x y H. lia.
Qed.

(** Sum of a list of integers. *)
Definition sumZ (l : list Z) : Z := fold_right Z.add 0 l.

Lemma sumZ_map_add {A : Type} (f g : A -> Z) (l : list A) :
  sumZ (map (fun c => f c + g c) l) = sumZ (map f l) + sumZ (map g l).
Proof. induction l as [| x l IH]; simpl; [reflexivity | rewrite IH; lia]. Qed.

Lemma sumZ_indicator (x : Z) (l : list Z) :
  NoDup l -> sumZ (map (fun c => if x =? c then 1 else 0) l) = if includes l x then 1 else 0.
Proof.
  unfold includes. induction l as [| y l IH]; intros Hnd; simpl; [reflexivity|].
  inversion Hnd as [| ? ? Hy Hl]; subst. rewrite IH by exact Hl.
  destruct (Z.eqb_spec x y) as [-> | Hne]; simpl; [|reflexivity].
  replace (existsb (Z.eqb y) l) with false; [reflexivity|].
  symmetry. apply not_true_is_false. intros H. apply Hy. now apply includes_In.
Qed.

Module EndToEnd.

Import Distance DistanceFacts Facade Silhouette.

Lemma clusterSizes_length (k : Z) (assignments : list Z) :
  0 <= k -> lengthZ (clusterSizes k assignments) = k.
Proof.
  intros Hk. unfold clusterSizes, lengthZ. rewrite length_map.
  fold (lengthZ (rangeIncl 1 k)). rewrite EditFacts.rangeIncl_length by lia. lia.
Qed.

Lemma clusterSizes_nth (k c : Z) (assignments : list Z) :
  1 <= c <= k ->
  nthZ (clusterSizes k assignments) (c - 1) 0
  = lengthZ (filter (fun a => a =? c) assignments).
Proof.
  intros Hc. unfold clusterSizes, rangeIncl. rewrite map_map.
  replace (k - 1 + 1) with k by lia.
  rewrite nthZ_map_range by lia. now replace (1 + (c - 1)) with c by lia.
Qed.

Lemma clusterSizes_sum (k : Z) (assignments : list Z) :
  Forall (fun a => 1 <= a <= k) assignments ->
  sumZ (clusterSizes k assignments) = lengthZ assignments.
Proof.
  unfold clusterSizes. induction 1 as [| x l Hx Hl IH].
  - simpl. induction (rangeIncl 1 k) as [| c r IHr]; simpl; [reflexivity|].
    rewrite IHr. reflexivity.
  - assert (E : forall c, lengthZ (filter (fun a => a =? c) (x :: l))
                          = (if x =? c then 1 else 0) + lengthZ (filter (fun a => a =? c) l)).
    { intros c. simpl. destruct (x =? c); unfold lengthZ; simpl length; lia. }
    rewrite (map_ext _ _ E), sumZ_map_add, IH.
    rewrite sumZ_indicator by apply NoDup_rangeIncl.
    replace (includes (rangeIncl 1 k) x) with true.
    + unfold lengthZ. simpl length. lia.
    + symmetry. apply includes_In, in_rangeIncl. exact Hx.
Qed.

Section TwoMatrices.

Variables d1 d2 : Matrix.t.
Hypothesis same_rows : Matrix.rows d1 = Matrix.rows d2.
Hypothesis same_get : forall i j, Matrix.get d1 i j = Matrix.get d2 i j.

Lemma sumCount_same (labels : list Z) (skipSelf : bool) (i c : Z) :
  sumCount d1 labels skipSelf i c = sumCount d2 labels skipSelf i c.
Proof. unfold sumCount. apply fold_left_ext. intros acc j _. now rewrite same_get. Qed.

Lemma silhouetteScore_same (labels : list Z) :
  silhouetteScore d1 labels = silhouetteScore d2 labels.
Proof.
  unfold silhouetteScore. cbv zeta. destruct (_ <? 2); [reflexivity|]. f_equal.
  apply fold_left_ext. intros total i _. unfold contribution. rewrite sumCount_same.
  destruct (sumCount d2 labels true i _) as [sumSame countSame].
  destruct (countSame =? 0); [reflexivity|].
  replace (bOf d1 labels (uniq [] labels) i (nthZ labels i (-1)))
    with (bOf d2 labels (uniq [] labels) i (nthZ labels i (-1))); [reflexivity|].
  unfold bOf. apply fold_left_ext. intros bi c _. now rewrite sumCount_same.
Qed.

Lemma solve_same (k : Z) (method : string) : solve d1 k method = solve d2 k method.
Proof.
  unfold solve. destruct (String.eqb method "pam").
  - f_equal. now apply SameEntries.pam_same.
  - now apply SameEntries.hierarchical_same.
Qed.

End TwoMatrices.

(** A finite number. *)
Definition isFinite (x : num) : Prop := exists v, x = Fin v.

(** A finite number between 0 and [2^970]. *)
Definition moderate (x : num) : Prop := between 0 (pow2 970) x.

Lemma count_moderate (x : num) : isCount x -> moderate x.
Proof.
  intros H. destruct (isCount_between x H) as (v & E & H0 & H1).
  exists v. split; [exact E|]. split; [exact H0|].
  apply Qle_trans with (inject_Z (2 ^ 53)); [exact H1|].
  rewrite <- pow2_Z by lia. apply pow2_le. lia.
Qed.

Lemma unit_moderate (x : num) : between 0 1 x -> moderate x.
Proof.
  intros (v & E & H0 & H1). exists v. split; [exact E|]. split; [exact H0|].
  apply Qle_trans with (pow2 0); [exact H1 | apply pow2_le; lia].
Qed.

Lemma moderate_finite (x : num) : moderate x -> isFinite x.
Proof. intros (v & E & _). now exists v. Qed.

(** What holds of a result [r] for [n] observations and [k] clusters. *)
Definition wellShaped (n k : Z) (method : string) (r : ClusterResult) : Prop :=
  cr_k r = k /\ cr_method r = method /\
  Matrix.rows (cr_distance r) = n /\
  lengthZ (cr_assignments r) = n /\
  Forall (fun a => 1 <= a <= k) (cr_assignments r) /\
  (method <> "pam" -> forall c, 1 <= c <= k -> In c (cr_assignments r)) /\
  lengthZ (cr_sizes r) = k /\
  sumZ (cr_sizes r) = n /\
  (forall c, 1 <= c <= k ->
             nthZ (cr_sizes r) (c - 1) 0
             = lengthZ (filter (fun a => a =? c) (cr_assignments r))).

(** The silhouette of [r] is a number of [[-1, 1]]. *)
Definition silhouetteInUnit (r : ClusterResult) : Prop :=
  exists s, cr_silhouette r = Fin s /\ (-1 <= s <= 1)%Q.

(** The error of a merge pass that finds no pair of clusters. *)
Definition noPair : error := TypeError "Cannot read properties of undefined".

Section WithMath.

Variable Math_exp : num -> num.
Variable Math_sqrt : Q -> Q.
Variable inheritedCall : string -> list string -> list string -> option num.
Variable numberToString : Q -> string.

(** From a matrix with finite entries to the result. *)
Lemma finish (dist : Matrix.t) (n k : Z) (method : string) :
  2 <= k <= n -> metricMatrix dist n isFinite ->
  (solve dist k method = Throw noPair \/
   exists asg,
     solve dist k method = Ok asg /\
     (forall data name,
        wellShaped n k method
          (mkClusterResult data k asg (silhouetteScore dist asg) (clusterSizes k asg)
                           method dist name)) /\
     (n <= 2 ^ 53 ->
      (forall i j, 0 <= i < n -> 0 <= j < n -> moderate (Matrix.get dist i j)) ->
      exists s, silhouetteScore dist asg = Fin s /\ (-1 <= s <= 1)%Q)) /\
  (method = "pam" \/ method = "single" \/ method = "complete" ->
   exists asg, solve dist k method = Ok asg).
Proof.
  intros Hk (Hr & Hc & Hdiag & Hsym).
  set (q := fun i j => val (Matrix.get dist i j)).
  assert (Hfin : forall i j, 0 <= i < n -> 0 <= j < n -> exists v, Matrix.get dist i j = Fin v).
  { intros i j Hi Hj. now destruct (Hsym i j Hi Hj) as [_ H]. }
  pose proof (SameEntries.finite_as_table dist n Hr Hc Hfin) as Hget. fold q in Hget.
  assert (Hrows : Matrix.rows dist = Matrix.rows (Matrix.ofTable n q)) by exact Hr.
  assert (Hshape : forall asg,
            solve dist k method = Ok asg ->
            lengthZ asg = n -> Forall (fun a => 1 <= a <= k) asg ->
            (method <> "pam" -> forall c, 1 <= c <= k -> In c asg) ->
            (forall data name,
               wellShaped n k method
                 (mkClusterResult data k asg (silhouetteScore dist asg) (clusterSizes k asg)
                                  method dist name)) /\
            (n <= 2 ^ 53 ->
             (forall i j, 0 <= i < n -> 0 <= j < n -> moderate (Matrix.get dist i j)) ->
             exists s, silhouetteScore dist asg = Fin s /\ (-1 <= s <= 1)%Q)).
  { intros asg _ Hl Hrange Hall. split.
    - intros data name. unfold wellShaped.
      cbn [cr_k cr_method cr_distance cr_assignments cr_sizes].
      split; [reflexivity|]. split; [reflexivity|]. split; [exact Hr|]. split; [exact Hl|].
      split; [exact Hrange|]. split; [exact Hall|].
      split; [apply clusterSizes_length; lia|].
      split; [now rewrite clusterSizes_sum|].
      intros c Hcc. now apply clusterSizes_nth.
    - intros Hfew Hmod.
      rewrite (silhouetteScore_same dist (Matrix.ofTable n q) Hget).
      destruct (SilhouetteFacts.score_within n q asg Hl Hfew) as (s & E & Hs).
      + intros i j Hi Hj. destruct (Hmod i j Hi Hj) as (v & Ev & Hv).
        unfold q. rewrite Ev. exact Hv.
      + exists s. split; [exact E|]. now apply Qabs_Qle_condition in Hs. }
  split.
  - unfold solve in *. destruct (String.eqb_spec method "pam") as [-> | Hne].
    + right. eexists. split; [reflexivity|]. apply Hshape; [reflexivity| | |congruence].
      * destruct (PartitionFacts.assign_range dist k
                    (Pam.sortAscending (fst (Pam.swapPhase dist k (Pam.build dist k)))))
          as [Hl _]; [lia|].
        unfold Pam.pam. rewrite Hl, Hr. lia.
      * unfold Pam.pam. apply PartitionFacts.assign_range. lia.
    + destruct (PartitionFacts.hierarchical_partition n method dist k Hr ltac:(lia))
        as [E | (asg & E & Hl & Hrange & Hall)]; [now left | right].
      exists asg. split; [exact E|]. apply Hshape; try assumption. intros _. exact Hall.
  - intros Hm. unfold solve. destruct (String.eqb_spec method "pam") as [-> | Hne].
    + now eexists.
    + destruct Hm as [Hm | Hm]; [contradiction|].
      rewrite (SameEntries.hierarchical_same dist (Matrix.ofTable n q) Hrows Hget).
      destruct (HierarchicalFacts.run_minmax n q k method Hm ltac:(lia)) as (r & E).
      unfold Hierarchical.hierarchical. rewrite E. now eexists.
Qed.

(** X20. From the call to the result, for sequences.  For
    [2 <= k <= n <= 2^53], each of the nine dissimilarity names (the
    Hamming distance without weights; ["cosine"] with a square root that
    keeps the roots of the numbers from 1 on at 1 or above) and every
    method string, [clusterData] does the same for the sequences, for a
    prepared object that holds them and through [clusterSequences].  It
    throws the [TypeError] of a merge pass that finds no pair of
    clusters, or returns a result that holds the data, [k], the method
    and the name as given, [n] assignments drawn from [1..k] (each id
    used unless the method is ["pam"]) and [k] sizes that count the
    assignments id by id and add up to [n]; unless the name is
    ["cosine"] its silhouette is a number of [[-1, 1]].  Under the
    methods ["pam"], ["single"] and ["complete"] it returns. *)
Theorem sequences_are_clustered (seqData : SequenceData) (labels : list string) (k : Z)
    (opts : option options) :
  let n := lengthZ seqData in
  let name := optOr opts dissimilarity "hamming" in
  let method := optOr opts method "pam" in
  let run := clusterData Math_exp Math_sqrt inheritedCall numberToString in
  2 <= k <= n -> n <= 2 ^ 53 ->
  In name (map fst (DISTANCE_FUNCS Math_exp Math_sqrt)) ->
  (name = "hamming" -> optOr opts weighted false = false) ->
  (name = "cosine" -> sqrtNonneg Math_sqrt /\ sqrtAboveOne Math_sqrt) ->
  run (Prepared (mkTNAData seqData labels)) k opts = run (Sequences seqData) k opts /\
  clusterSequences Math_exp Math_sqrt inheritedCall numberToString (Sequences seqData) k opts
  = run (Sequences seqData) k opts /\
  (run (Sequences seqData) k opts = Throw noPair \/
   exists r,
     run (Sequences seqData) k opts = Ok r /\
     cr_data r = seqData /\ cr_dissimilarity r = name /\
     wellShaped n k method r /\
     (name <> "cosine" -> silhouetteInUnit r)) /\
  (method = "pam" \/ method = "single" \/ method = "complete" ->
   exists r, run (Sequences seqData) k opts = Ok r).
Proof.
  intros n name method run Hk Hfew Hin Hham Hcos.
  split; [reflexivity|]. split; [reflexivity|].
  unfold run, clusterData. fold method.
  unfold clusterStringData. cbv zeta. fold n name.
  replace (k <? 2) with false by lia. replace (k >? n) with false by lia.
  destruct (sequence_matrix Math_exp Math_sqrt inheritedCall
              (toTokenLists seqData (optOr opts naSyms ["*"; "%"])) name
              (optOr opts weighted false) (optOr opts lambda 1%Q) Hin)
    as (dist & Ed & Hm).
  rewrite Ed. cbn [bind].
  replace (lengthZ (toTokenLists seqData (optOr opts naSyms ["*"; "%"]))) with n in Hm
    by (unfold toTokenLists, lengthZ, n; now rewrite length_map).
  destruct Hm as (Hr & Hc & Hdiag & Hsym).
  assert (Hclass : forall i j, 0 <= i < n -> 0 <= j < n ->
            isFinite (Matrix.get dist i j) /\
            (name <> "cosine" -> moderate (Matrix.get dist i j))).
  { intros i j Hi Hj. destruct (Hsym i j Hi Hj) as [_ (C1 & C2 & C3 & _)].
    simpl in Hin.
    destruct Hin as [E | [E | [E | [E | [E | [E | [E | [E | [E | []]]]]]]]]].
    - split; [apply moderate_finite|intros _]; apply count_moderate, C1; right;
        (split; [now symmetry | apply Hham; now symmetry]).
    - split; [apply moderate_finite|intros _]; apply count_moderate, C1; left;
        rewrite <- E; simpl; tauto.
    - split; [apply moderate_finite|intros _]; apply count_moderate, C1; left;
        rewrite <- E; simpl; tauto.
    - split; [apply moderate_finite|intros _]; apply count_moderate, C1; left;
        rewrite <- E; simpl; tauto.
    - split; [apply moderate_finite|intros _]; apply count_moderate, C1; left;
        rewrite <- E; simpl; tauto.
    - split; [apply moderate_finite|intros _]; apply count_moderate, C1; left;
        rewrite <- E; simpl; tauto.
    - destruct (Hcos (eq_sym E)) as [S0 S1].
      destruct (C3 (eq_sym E) S0 S1) as (v & Ev & _).
      split; [now exists v | intros H; exfalso; apply H; now symmetry].
    - split; [apply moderate_finite|intros _]; apply unit_moderate, C2; left; now symmetry.
    - split; [apply moderate_finite|intros _]; apply unit_moderate, C2; right; now symmetry. }
  assert (Hmf : metricMatrix dist n isFinite).
  { split; [exact Hr|]. split; [exact Hc|]. split; [exact Hdiag|].
    intros i j Hi Hj. split; [apply Hsym; assumption | now apply Hclass]. }
  destruct (finish dist n k method Hk Hmf) as [Hout Htotal]. split.
  - destruct Hout as [E | (asg & Es & Hw & Hs)]; [left; now rewrite E | right].
    rewrite Es. cbn [bind]. eexists. split; [reflexivity|].
    cbn [cr_data cr_dissimilarity]. split; [reflexivity|]. split; [reflexivity|].
    split; [apply Hw|]. intros Hne. unfold silhouetteInUnit. cbn [cr_silhouette].
    apply Hs; [exact Hfew|]. intros i j Hi Hj. now apply Hclass.
  - intros Hmeth. destruct (Htotal Hmeth) as (asg & Es). rewrite Es. cbn [bind]. now eexists.
Qed.

(** X21. From the call to the result, for numeric rows.  For rows of one
    common length that [isNumericData] accepts, [2 <= k <= n <= 2^53],
    every dissimilarity string (with a square root that is not below 0
    unless the string is ["manhattan"]) and every method string, when no
    entry of the distance matrix has overflowed above [2^970]:
    [clusterData] throws the [TypeError] of a merge pass that finds no
    pair of clusters, or returns a result with the same guarantees, a
    silhouette in [[-1, 1]], and the rows turned into strings as its
    data.  Under the methods ["pam"], ["single"] and ["complete"] it
    returns. *)
Theorem numeric_rows_are_clustered (rows : list (list Q)) (k : Z) (opts : option options) :
  let n := lengthZ rows in
  let name := optOr opts dissimilarity "euclidean" in
  let method := optOr opts method "pam" in
  let run := clusterData Math_exp Math_sqrt inheritedCall numberToString in
  isNumericData rows = true ->
  sameLength rows ->
  2 <= k <= n -> n <= 2 ^ 53 ->
  (name = "manhattan" \/ sqrtNonneg Math_sqrt) ->
  (forall dist i j,
     computeNumericDistanceMatrix Math_sqrt rows name = Ok dist ->
     0 <= i < n -> 0 <= j < n -> nle (Matrix.get dist i j) (Fin (pow2 970)) = true) ->
  (run (Numeric rows) k opts = Throw noPair \/
   exists r,
     run (Numeric rows) k opts = Ok r /\
     cr_data r = map (fun row => map (fun v => Some (numberToString v)) row) rows /\
     cr_dissimilarity r = name /\
     wellShaped n k method r /\ silhouetteInUnit r) /\
  (method = "pam" \/ method = "single" \/ method = "complete" ->
   exists r, run (Numeric rows) k opts = Ok r).
Proof.
  intros n name method run Hnum Hsame Hk Hfew Hsqrt Hbound.
  unfold run, clusterData. rewrite Hnum. cbv zeta. fold n name method.
  replace (k <? 2) with false by lia. replace (k >? n) with false by lia.
  destruct (numeric_matrix Math_sqrt rows name) as (dist & Ed & Hm).
  rewrite Ed. cbn [bind]. fold n in Hm.
  destruct Hm as (Hr & Hc & Hdiag & Hsym).
  assert (Hmod : forall i j, 0 <= i < n -> 0 <= j < n -> moderate (Matrix.get dist i j)).
  { intros i j Hi Hj. destruct (Hsym i j Hi Hj) as [_ Hn].
    specialize (Hn Hsame Hsqrt). specialize (Hbound dist i j Ed Hi Hj).
    unfold nonneg in Hn. destruct (Matrix.get dist i j) as [v | | |]; try discriminate.
    exists v. split; [reflexivity|]. apply Qle_bool_iff in Hn, Hbound. now split. }
  assert (Hmf : metricMatrix dist n isFinite).
  { split; [exact Hr|]. split; [exact Hc|]. split; [exact Hdiag|].
    intros i j Hi Hj. split; [apply Hsym; assumption|].
    destruct (Hmod i j Hi Hj) as (v & Ev & _). now exists v. }
  destruct (finish dist n k method Hk Hmf) as [Hout Htotal]. split.
  - destruct Hout as [E | (asg & Es & Hw & Hs)]; [left; now rewrite E | right].
    rewrite Es. cbn [bind]. eexists. split; [reflexivity|].
    cbn [cr_data cr_dissimilarity]. split; [reflexivity|]. split; [reflexivity|].
    split; [apply Hw|]. unfold silhouetteInUnit. cbn [cr_silhouette].
    now apply Hs.
  - intros Hmeth. destruct (Htotal Hmeth) as (asg & Es). rewrite Es. cbn [bind]. now eexists.
Qed.

End WithMath.

Lemma sequences_are_clustered_witness :
  exists r,
    Samples.clusterData (Sequences Samples.seqs6) 3
      (Samples.withOptions (Some "jw") (Some "complete"))
    = Ok r /\
    wellShaped 6 3 "complete" r /\ silhouetteInUnit r.
Proof.
  destruct (sequences_are_clustered Samples.sampleExp Samples.sampleSqrt Samples.noInherited
              Samples.showQ Samples.seqs6 [] 3
              (Samples.withOptions (Some "jw") (Some "complete")))
    as (_ & _ & [E | (r & E & _ & _ & Hw & Hs)] & Ht).
  - cbn. lia.
  - cbn. lia.
  - simpl. tauto.
  - discriminate.
  - discriminate.
  - exfalso. destruct Ht as (r & E'); [right; right; reflexivity|].
    rewrite E in E'. discriminate.
  - exists r. split; [exact E|]. split; [exact Hw|]. apply Hs. discriminate.
Defined.

Lemma numeric_rows_are_clustered_witness :
  exists r,
    Samples.clusterData (Numeric [[0%Q; 3%Q]; [4%Q; 0%Q]; [1%Q; 1%Q]]) 2 None = Ok r /\
    wellShaped 3 2 "pam" r /\ silhouetteInUnit r.
Proof.
  destruct (numeric_rows_are_clustered Samples.sampleExp Samples.sampleSqrt
              Samples.noInherited Samples.showQ [[0%Q; 3%Q]; [4%Q; 0%Q]; [1%Q; 1%Q]] 2 None)
    as ([E | (r & E & _ & _ & Hw & Hs)] & Ht).
  - reflexivity.
  - intros r r' [<- | [<- | [<- | []]]] [<- | [<- | [<- | []]]]; reflexivity.
  - cbn. lia.
  - cbn. lia.
  - right. exact sampleSqrt_nonneg.
  - intros dist i j Ed Hi Hj. vm_compute in Ed. injection Ed as <-.
    cbn in Hi, Hj.
    assert (Ci : i = 0 \/ i = 1 \/ i = 2) by lia.
    assert (Cj : j = 0 \/ j = 1 \/ j = 2) by lia.
    destruct Ci as [-> | [-> | ->]]; destruct Cj as [-> | [-> | ->]]; vm_compute; reflexivity.
  - exfalso. destruct Ht as (r & E'); [left; reflexivity|].
    change (clusterData Samples.sampleExp Samples.sampleSqrt Samples.noInherited Samples.showQ)
      with Samples.clusterData in *.
    rewrite E in E'. discriminate.
  - exists r. split; [exact E|]. split; [exact Hw | exact Hs].
Defined.

(** The rows [[1e308], [-1e308], [0], [1]] under ["manhattan"]: the
    distance of the first two is [Infinity], and the silhouette of the
    result is not a number. *)
Lemma numeric_overflow :
  exists r,
    Samples.clusterData
      (Numeric [[Samples.double 156575653125701 976];
                [(- Samples.double 156575653125701 976)%Q]; [0%Q]; [1%Q]])
      2 (Samples.withOptions (Some "manhattan") None) = Ok r /\
    Matrix.get (cr_distance r) 0 1 = PInf /\
    cr_silhouette r = NaN.
Proof.
  eexists. split; [vm_compute; reflexivity|]. split; vm_compute; reflexivity.
Qed.

End EndToEnd.
